(** * The stream-label template formatter (packages/core, formatter base)

    A shallow embedding of the pre-compiling template formatter
    ([BaseFormatter], [BaseFormatterRegexBuilder], [ModifierConstants],
    [ComparatorConstants]) together with the properties of its compiler and
    evaluator.

    Conventions of the embedding.
    - A JavaScript string is a list of code units below 256
      ([jsstring := list ascii]), the Latin-1 range; letter case is mapped
      within that range.
    - A JavaScript number held by the namespace is an integer ([Z]), which
      stands for a double up to [2 ^ 53] in size and prints in decimal;
      the result of the [Number(...)] coercion is a double, computed in
      integer arithmetic: the decimal rounded to the nearest double with
      ties to even, with overflow to an infinity and underflow to zero.
    - Patterns are syntax trees run by a backtracking matcher; its step
      bounds are shown never to be reached.
    - Arrays live in a heap and are referred to by location, so that
      in-place primitives ([sort], [reverse]) and copies ([[...value]]) are
      told apart.
    - [Math.random] reads an oracle and advances a draw counter.
    - A thrown exception is an outcome of its own ([Throw]); a rejected
      promise is a [Throw] that [format] rethrows.
    - [format] takes the namespace instance; [format_stream] is [format]
      on a stream, after [convertStreamToParseValue], whose helpers
      ([languageToEmoji], [languageToCode], [makeSmall], [JSON.stringify],
      the service table) are parameters.
    - Of the two earlier formatters (the one of [formatters/base.ts] and
      the one with a cache manager) the caches, the functions around
      them and the cast of a result to the branch texts are embedded
      ([Legacy], [BaseFormatterCache]); the rest of their evaluation is a
      parameter. *)

From Stdlib Require Import String Ascii List ZArith Lia Bool Arith.
From Stdlib Require Import Permutation Sorted.
Import ListNotations.

Local Open Scope list_scope.
Local Open Scope nat_scope.

(** ** Strings *)

Definition jsstring := list ascii.

Definition js (s : string) : jsstring := list_ascii_of_string s.

(** The double quote, and literals in which a back quote stands for it. *)
Definition dq : ascii := "034"%char.

Definition jsq (s : string) : jsstring :=
  map (fun c => if Ascii.eqb c "`"%char then dq else c) (js s).

Definition code (c : ascii) : nat := nat_of_ascii c.

Fixpoint str_eqb (a b : jsstring) : bool :=
  match a, b with
  | [], [] => true
  | x :: a', y :: b' => Ascii.eqb x y && str_eqb a' b'
  | _, _ => false
  end.

(** A text is a list of code units below 256, the Latin-1 range.

    [String.prototype.toLowerCase] maps the capitals of that range, which
    are the ASCII ones and those from [192] to [222], the multiplication
    sign [215] apart, to the small letters [32] higher. *)
Definition lower_char (c : ascii) : ascii :=
  let n := code c in
  if ((65 <=? n) && (n <=? 90))
     || ((192 <=? n) && (n <=? 222) && negb (n =? 215))
  then ascii_of_nat (n + 32) else c.

(** The capital of a code unit, where it is one code unit of the range:
    the ASCII small letters and those from [224] to [254], the division
    sign [247] apart.  This is what a case-insensitive pattern compares;
    the capitals of [181] and [255] lie outside the range and that of
    [223] is two letters, so these three stand for themselves. *)
Definition upper_char (c : ascii) : ascii :=
  let n := code c in
  if ((97 <=? n) && (n <=? 122))
     || ((224 <=? n) && (n <=? 254) && negb (n =? 247))
  then ascii_of_nat (n - 32) else c.

Definition toLowerCase (s : jsstring) : jsstring := map lower_char s.

(** [String.prototype.toUpperCase]: the sharp s [223] becomes [SS]; the
    two letters whose capital is outside the range ([181] and [255]) are
    left as they are. *)
Definition toUpperCase (s : jsstring) : jsstring :=
  flat_map
    (fun c => if code c =? 223 then ["S"%char; "S"%char] else [upper_char c])
    s.

(** The class [\s]: tab, line feed, vertical tab, form feed, carriage
    return, space and the no-break space. *)
Definition is_space (c : ascii) : bool :=
  let n := code c in
  ((9 <=? n) && (n <=? 13)) || (n =? 32) || (n =? 160).

(** Line terminators, which [.] does not match. *)
Definition is_line_terminator (c : ascii) : bool :=
  let n := code c in (n =? 10) || (n =? 13).

Definition is_letter (c : ascii) : bool :=
  let n := code c in
  ((65 <=? n) && (n <=? 90)) || ((97 <=? n) && (n <=? 122)).

(** [s.replace(/\s+/g, '')] and [s.replace(/\s/g, '')]. *)
Definition strip_spaces (s : jsstring) : jsstring :=
  filter (fun c => negb (is_space c)) s.

(** [/\s/.test(s)] and [/\S/.test(s)]. *)
Definition has_space (s : jsstring) : bool := existsb is_space s.
Definition has_non_space (s : jsstring) : bool :=
  existsb (fun c => negb (is_space c)) s.

Fixpoint drop_spaces (s : jsstring) : jsstring :=
  match s with
  | c :: t => if is_space c then drop_spaces t else s
  | [] => []
  end.

Definition trim (s : jsstring) : jsstring :=
  rev (drop_spaces (rev (drop_spaces s))).

(** Relative indices as [slice] resolves them: negative counts from the
    end, everything is clamped to [0 .. length]. *)
Definition clamp_index (len : nat) (i : Z) : nat :=
  if (i <? 0)%Z then Z.to_nat (Z.max 0 (Z.of_nat len + i))
  else Nat.min len (Z.to_nat i).

Definition slice (s : jsstring) (a b : Z) : jsstring :=
  let from := clamp_index (length s) a in
  let to := clamp_index (length s) b in
  firstn (to - from) (skipn from s).

Definition slice_from (s : jsstring) (a : Z) : jsstring :=
  skipn (clamp_index (length s) a) s.

(** [s.substring(a)] and [s.substring(a, b)] on natural indices. *)
Definition substring_from (s : jsstring) (a : nat) : jsstring := skipn a s.

Definition substring (s : jsstring) (a b : nat) : jsstring :=
  let a' := Nat.min a (length s) in
  let b' := Nat.min b (length s) in
  firstn (Nat.max a' b' - Nat.min a' b') (skipn (Nat.min a' b') s).

Fixpoint startsWith (s p : jsstring) : bool :=
  match p, s with
  | [], _ => true
  | x :: p', y :: s' => Ascii.eqb x y && startsWith s' p'
  | _ :: _, [] => false
  end.

Definition endsWith (s p : jsstring) : bool := startsWith (rev s) (rev p).

Fixpoint indexOf_from (s p : jsstring) (i : nat) : option nat :=
  if startsWith s p then Some i
  else match s with
       | [] => None
       | _ :: t => indexOf_from t p (S i)
       end.

Definition indexOf (s p : jsstring) : option nat := indexOf_from s p 0.

Fixpoint lastIndexOf_from (s p : jsstring) (i : nat) (found : option nat)
  : option nat :=
  let found' := if startsWith s p then Some i else found in
  match s with
  | [] => found'
  | _ :: t => lastIndexOf_from t p (S i) found'
  end.

Definition lastIndexOf (s p : jsstring) : option nat :=
  lastIndexOf_from s p 0 None.

Definition includes (s p : jsstring) : bool :=
  match indexOf s p with Some _ => true | None => false end.

Fixpoint join (sep : jsstring) (l : list jsstring) : jsstring :=
  match l with
  | [] => []
  | [x] => x
  | x :: t => x ++ sep ++ join sep t
  end.

(** [s.split(c)] for a one-character separator. *)
Fixpoint split_char (c : ascii) (s : jsstring) : list jsstring :=
  match s with
  | [] => [[]]
  | x :: t =>
      if Ascii.eqb x c then [] :: split_char c t
      else match split_char c t with
           | seg :: segs => (x :: seg) :: segs
           | [] => [[x]]
           end
  end.

(** Lexicographic order on code units, as the relational operators use on
    two strings. *)
Fixpoint str_ltb (a b : jsstring) : bool :=
  match a, b with
  | _, [] => false
  | [], _ :: _ => true
  | x :: a', y :: b' =>
      if code x <? code y then true
      else if code y <? code x then false
      else str_ltb a' b'
  end.

Definition str_leb (a b : jsstring) : bool := negb (str_ltb b a).

(** ** Numbers *)

Definition digit_char (d : nat) : ascii :=
  if d <? 10 then ascii_of_nat (48 + d) else ascii_of_nat (87 + d).

Fixpoint to_radix_fuel (fuel : nat) (radix n : N) (acc : jsstring)
  : jsstring :=
  match fuel with
  | O => acc
  | S f =>
      let acc' := digit_char (N.to_nat (n mod radix)) :: acc in
      if (n / radix =? 0)%N then acc'
      else to_radix_fuel f radix (n / radix) acc'
  end.

(** [n.toString(radix)] for an integer [n] and [2 <= radix <= 16]; a number
    has at most as many digits as bits.  The numbers of the code are
    doubles: an integer stands for one up to [2 ^ 53] in size
    ([safe_integer] below), and up to there the decimal text has no
    exponent. *)
Definition number_toString_radix (radix : N) (n : Z) : jsstring :=
  let m := Z.to_N (Z.abs n) in
  let digits := to_radix_fuel (S (N.to_nat (N.log2 m))) radix m [] in
  if (n <? 0)%Z then "-"%char :: digits else digits.

Definition number_toString (n : Z) : jsstring := number_toString_radix 10 n.

(** A number as [Number(s)] yields it: not-a-number, an infinity, or a
    finite double, given by its exact value [mant * 10 ^ expo]. *)
Inductive jsnum :=
| NaN
| Fin (mant expo : Z)
| Inf (negative : bool).

(** The double nearest to the rational [num / den] (both positive), ties
    to the even significand: [(n, k)] stands for [n * 2 ^ k], with
    [n <= 2 ^ 53] and [k >= -1074]; [None] is a value that rounds beyond
    the largest double. *)
Definition nearest_double (num den : Z) : option (Z * Z) :=
  let l0 := (Z.log2 num - Z.log2 den)%Z in
  let l :=
    if (0 <=? l0)%Z
    then (if (den * 2 ^ l0 <=? num)%Z then l0 else l0 - 1)%Z
    else (if (den <=? num * 2 ^ (- l0))%Z then l0 else l0 - 1)%Z in
  let k := Z.max (l - 52) (-1074) in
  let n' := (num * 2 ^ Z.max 0 (- k))%Z in
  let d' := (den * 2 ^ Z.max 0 k)%Z in
  let q := (n' / d')%Z in
  let r := (n' mod d')%Z in
  let n :=
    if (2 * r <? d')%Z then q
    else if (d' <? 2 * r)%Z then (q + 1)%Z
    else if Z.even q then q else (q + 1)%Z in
  if (0 <=? k)%Z && (2 ^ 1024 <=? n * 2 ^ k)%Z then None else Some (n, k).

(** The number value of the decimal [mant * 10 ^ expo]: the nearest
    double.  A decimal beyond [10 ^ 400] is an infinity and one below
    [10 ^ -400] is zero, which is decided before the power is taken. *)
Definition round_decimal (mant expo : Z) : jsnum :=
  if (mant =? 0)%Z then Fin 0 0
  else
    let a := Z.abs mant in
    let negative := (mant <? 0)%Z in
    if (400 <? expo)%Z then Inf negative
    else if (expo + (Z.log2 a / 3 + 1) <? -400)%Z then Fin 0 0
    else
      let num := if (0 <=? expo)%Z then (a * 10 ^ expo)%Z else a in
      let den := if (0 <=? expo)%Z then 1%Z else (10 ^ (- expo))%Z in
      match nearest_double num den with
      | None => Inf negative
      | Some (n, k) =>
          let v := if negative then (- n)%Z else n in
          if (0 <=? k)%Z then Fin (v * 2 ^ k) 0
          else if (n mod 2 ^ (- k) =? 0)%Z then Fin (v / 2 ^ (- k)) 0
          else Fin (v * 5 ^ (- k)) k
      end.

Definition is_digit (c : ascii) : bool :=
  let n := code c in (48 <=? n) && (n <=? 57).

Definition digit_val (c : ascii) : Z := Z.of_nat (code c - 48).

Definition hex_val (c : ascii) : option Z :=
  let n := code c in
  if (48 <=? n) && (n <=? 57) then Some (Z.of_nat (n - 48))
  else if (97 <=? n) && (n <=? 102) then Some (Z.of_nat (n - 87))
  else if (65 <=? n) && (n <=? 70) then Some (Z.of_nat (n - 55))
  else None.

Fixpoint span_digits (s : jsstring) (acc : Z) (count : nat)
  : Z * nat * jsstring :=
  match s with
  | c :: t =>
      if is_digit c then span_digits t (acc * 10 + digit_val c)%Z (S count)
      else (acc, count, s)
  | [] => (acc, count, [])
  end.

Fixpoint radix_digits (radix : Z) (s : jsstring) (acc : Z) : option Z :=
  match s with
  | [] => Some acc
  | c :: t =>
      match hex_val c with
      | Some d => if (d <? radix)%Z then radix_digits radix t (acc * radix + d)%Z
                  else None
      | None => None
      end
  end.

Definition parse_exponent (s : jsstring) : option Z :=
  match s with
  | [] => Some 0%Z
  | e :: t =>
      if Ascii.eqb (lower_char e) "e"%char then
        let '(neg, t') :=
          match t with
          | "-"%char :: u => (true, u)
          | "+"%char :: u => (false, u)
          | _ => (false, t)
          end in
        match span_digits t' 0%Z 0 with
        | (v, S _, []) => Some (if neg then (- v)%Z else v)
        | _ => None
        end
      else None
  end.

Definition parse_decimal (s : jsstring) : jsnum :=
  let '(neg, body) :=
    match s with
    | "-"%char :: u => (true, u)
    | "+"%char :: u => (false, u)
    | _ => (false, s)
    end in
  let '(ip, ic, r1) := span_digits body 0%Z 0 in
  let '(fp, fc, r2) :=
    match r1 with
    | "."%char :: u => span_digits u ip 0
    | _ => (ip, 0, r1)
    end in
  if (ic + fc =? 0) then NaN
  else match parse_exponent r2 with
       | Some e =>
           round_decimal (if neg then (- fp)%Z else fp) (e - Z.of_nat fc)%Z
       | None => NaN
       end.

(** [Number(s)] on a string: surrounding white space is dropped, the empty
    string is zero, then [Infinity] with or without a sign, a
    radix-prefixed literal or a decimal literal is read, and the value is
    rounded to the nearest double. *)
Definition Number_of_string (s : jsstring) : jsnum :=
  let t := trim s in
  if str_eqb t (js "Infinity") || str_eqb t (js "+Infinity") then Inf false
  else if str_eqb t (js "-Infinity") then Inf true
  else
  match t with
  | [] => Fin 0 0
  | "0"%char :: x :: ((_ :: _) as ds) =>
      let k := lower_char x in
      let radix :=
        if Ascii.eqb k "x"%char then Some 16%Z
        else if Ascii.eqb k "b"%char then Some 2%Z
        else if Ascii.eqb k "o"%char then Some 8%Z
        else None in
      match radix with
      | Some r => match radix_digits r ds 0%Z with
                  | Some v => round_decimal v 0
                  | None => NaN
                  end
      | None => parse_decimal t
      end
  | _ => parse_decimal t
  end.

Definition isNaN (n : jsnum) : bool :=
  match n with NaN => true | _ => false end.

(** Comparison of two finite numbers, after bringing them to a common
    exponent. *)
Definition num_compare (m1 e1 m2 e2 : Z) : comparison :=
  let e := Z.min e1 e2 in
  Z.compare (m1 * 10 ^ (e1 - e))%Z (m2 * 10 ^ (e2 - e))%Z.

(** The order of two numbers; not-a-number compares with nothing. *)
Definition num_order (a b : jsnum) : option comparison :=
  match a, b with
  | NaN, _ | _, NaN => None
  | Fin m1 e1, Fin m2 e2 => Some (num_compare m1 e1 m2 e2)
  | Inf n1, Inf n2 =>
      Some (if Bool.eqb n1 n2 then Eq else if n1 then Lt else Gt)
  | Inf n, Fin _ _ => Some (if n then Lt else Gt)
  | Fin _ _, Inf n => Some (if n then Gt else Lt)
  end.

Definition num_eqb (a b : jsnum) : bool :=
  match num_order a b with Some Eq => true | _ => false end.

Definition num_ltb (a b : jsnum) : bool :=
  match num_order a b with Some Lt => true | _ => false end.

Definition num_leb (a b : jsnum) : bool :=
  match num_order a b with Some Lt | Some Eq => true | _ => false end.

(** ** Regular expressions

    The patterns of the formatter are kept as syntax trees and run by a
    backtracking matcher with the priorities of the JavaScript engine:
    the left alternative first, a greedy repetition as long as possible
    first, a lazy one as short as possible first. *)

Inductive regex :=
| Eps
| Chr (c : ascii)
| AnyChar
| Cls (p : ascii -> bool)
| Seq (r1 r2 : regex)
| Alt (r1 r2 : regex)
| Star (greedy : bool) (r : regex)
| Grp (name : nat) (r : regex)
| Look (r : regex)
| Bol
| Eol.

Fixpoint lit (s : jsstring) : regex :=
  match s with
  | [] => Eps
  | [c] => Chr c
  | c :: t => Seq (Chr c) (lit t)
  end.

Fixpoint seqs (l : list regex) : regex :=
  match l with
  | [] => Eps
  | [r] => r
  | r :: t => Seq r (seqs t)
  end.

(** A non-empty alternation [r1|r2|...]; the empty list is the empty
    pattern. *)
Fixpoint alts (l : list regex) : regex :=
  match l with
  | [] => Eps
  | [r] => r
  | r :: t => Alt r (alts t)
  end.

Definition Opt (r : regex) : regex := Alt r Eps.
Definition Plus (greedy : bool) (r : regex) : regex := Seq r (Star greedy r).

(** Captures: group name, start and end position. *)
Definition caps := list (nat * (nat * nat)).

Record mstate := MState { m_pos : nat; m_rest : jsstring; m_caps : caps }.

Definition char_matches (ci : bool) (c x : ascii) : bool :=
  if ci then Ascii.eqb (upper_char c) (upper_char x) else Ascii.eqb c x.

Definition step_if (p : ascii -> bool) (k : mstate -> option mstate)
  (st : mstate) : option mstate :=
  match m_rest st with
  | x :: t => if p x then k (MState (S (m_pos st)) t (m_caps st)) else None
  | [] => None
  end.

Definition or_else (a b : option mstate) : option mstate :=
  match a with Some x => Some x | None => b end.

(** The iterations of a repetition whose body is matched by [body]: an
    iteration has to move forward, and never more than [fuel] iterations
    are needed when [fuel] exceeds the length of the rest. *)
Fixpoint iterate (body : (mstate -> option mstate) -> mstate -> option mstate)
  (greedy : bool) (k : mstate -> option mstate) (fuel : nat) (st : mstate)
  {struct fuel} : option mstate :=
  match fuel with
  | O => k st
  | S fuel' =>
      let again :=
        body
          (fun st' =>
             if m_pos st <? m_pos st'
             then iterate body greedy k fuel' st' else None)
          st in
      if greedy then or_else again (k st) else or_else (k st) again
  end.

Fixpoint rmatch (ci : bool) (r : regex) (k : mstate -> option mstate)
  (st : mstate) {struct r} : option mstate :=
  match r with
  | Eps => k st
  | Chr c => step_if (char_matches ci c) k st
  | AnyChar => step_if (fun x => negb (is_line_terminator x)) k st
  | Cls p => step_if p k st
  | Seq a b => rmatch ci a (rmatch ci b k) st
  | Alt a b => or_else (rmatch ci a k st) (rmatch ci b k st)
  | Star greedy a =>
      iterate (rmatch ci a) greedy k (S (length (m_rest st))) st
  | Grp name a =>
      rmatch ci a
        (fun st' =>
           k (MState (m_pos st') (m_rest st')
                ((name, (m_pos st, m_pos st')) :: m_caps st')))
        st
  | Look a =>
      match rmatch ci a Some st with
      | Some _ => k st
      | None => None
      end
  | Bol => if m_pos st =? 0 then k st else None
  | Eol => match m_rest st with [] => k st | _ :: _ => None end
  end.

(** A match attempt at one position ([sticky]) and the left-to-right search
    of [RegExp.prototype.exec]. *)
Definition match_at (ci : bool) (r : regex) (pos : nat) (s : jsstring)
  : option mstate :=
  rmatch ci r Some (MState pos s []).

Fixpoint exec_from (ci : bool) (r : regex) (pos : nat) (s : jsstring)
  : option (nat * mstate) :=
  match match_at ci r pos s with
  | Some st => Some (pos, st)
  | None =>
      match s with
      | [] => None
      | _ :: t => exec_from ci r (S pos) t
      end
  end.

Definition exec (ci : bool) (r : regex) (s : jsstring)
  : option (nat * mstate) :=
  exec_from ci r 0 s.

Fixpoint cap_lookup (name : nat) (c : caps) : option (nat * nat) :=
  match c with
  | [] => None
  | (n, range) :: t => if n =? name then Some range else cap_lookup name t
  end.

Definition cap_text (s : jsstring) (name : nat) (c : caps) : option jsstring :=
  match cap_lookup name c with
  | Some (a, b) => Some (firstn (b - a) (skipn a s))
  | None => None
  end.

(** [s.split(re)]: the pieces between the matches and, when [keep] is set
    (the pattern is one capturing group around everything), the matched
    texts between them. *)
Fixpoint split_loop (fuel : nat) (ci : bool) (r : regex) (keep : bool)
  (seg : jsstring) (pos : nat) (s : jsstring) : list jsstring :=
  match fuel with
  | O => [rev seg ++ s]
  | S fuel' =>
      match s with
      | [] => [rev seg]
      | c :: t =>
          match match_at ci r pos s with
          | Some st =>
              if (m_pos st =? pos) && (length seg =? 0)
              then split_loop fuel' ci r keep (c :: seg) (S pos) t
              else
                let matched := firstn (m_pos st - pos) s in
                rev seg
                  :: (if keep then [matched] else [])
                  ++ split_loop fuel' ci r keep [] (m_pos st) (m_rest st)
          | None => split_loop fuel' ci r keep (c :: seg) (S pos) t
          end
      end
  end.

Definition split_re (ci : bool) (r : regex) (keep : bool) (s : jsstring)
  : list jsstring :=
  match s with
  | [] => match match_at ci r 0 [] with Some _ => [] | None => [[]] end
  | _ => split_loop (S (2 * length s)) ci r keep [] 0 s
  end.

(** [[...s.matchAll(re)]] for a global pattern: the matched texts from left
    to right; an empty match advances by one position. *)
Fixpoint matchAll_loop (fuel : nat) (ci : bool) (r : regex) (pos : nat)
  (s : jsstring) : list jsstring :=
  match fuel with
  | O => []
  | S fuel' =>
      match exec_from ci r pos s with
      | None => []
      | Some (start, st) =>
          let rest_at_start := skipn (start - pos) s in
          let matched := firstn (m_pos st - start) rest_at_start in
          if m_pos st =? start then
            matched :: match rest_at_start with
                       | [] => []
                       | _ :: t => matchAll_loop fuel' ci r (S start) t
                       end
          else matched :: matchAll_loop fuel' ci r (m_pos st) (m_rest st)
      end
  end.

Definition matchAll (ci : bool) (r : regex) (s : jsstring) : list jsstring :=
  matchAll_loop (S (length s)) ci r 0 s.

(** [s.replace(re, by)] for a global pattern and a replacement text without
    substitution patterns. *)
Fixpoint replace_loop (fuel : nat) (ci : bool) (r : regex) (by_ : jsstring)
  (pos : nat) (s : jsstring) : jsstring :=
  match fuel with
  | O => s
  | S fuel' =>
      match s with
      | [] => match match_at ci r pos [] with Some _ => by_ | None => [] end
      | c :: t =>
          match match_at ci r pos s with
          | Some st =>
              if m_pos st =? pos
              then by_ ++ c :: replace_loop fuel' ci r by_ (S pos) t
              else by_ ++ replace_loop fuel' ci r by_ (m_pos st) (m_rest st)
          | None => c :: replace_loop fuel' ci r by_ (S pos) t
          end
      end
  end.

Definition replace_re (ci : bool) (r : regex) (by_ : jsstring) (s : jsstring)
  : jsstring :=
  replace_loop (S (length s)) ci r by_ 0 s.

(** ** Values, the heap and the evaluation monad *)

Definition loc := nat.

(** An array element: the namespace holds arrays of strings and arrays of
    numbers. *)
Inductive elem :=
| EStr (s : jsstring)
| ENum (n : Z).

Inductive value :=
| VUndefined
| VNull
| VBool (b : bool)
| VNum (n : Z)
| VStr (s : jsstring)
| VArr (l : loc).

Definition heap := list (list elem).

Record state := State { st_heap : heap; st_draws : nat }.

Inductive outcome (A : Type) :=
| Ok (a : A)
| Throw (e : jsstring).
Arguments Ok {A} a.
Arguments Throw {A} e.

(** A computation reads the random oracle and threads the state. *)
Definition M (A : Type) := (nat -> nat) -> state -> outcome A * state.

Definition ret {A} (a : A) : M A := fun _ st => (Ok a, st).

Definition bind {A B} (m : M A) (f : A -> M B) : M B :=
  fun o st =>
    match m o st with
    | (Ok a, st') => f a o st'
    | (Throw e, st') => (Throw e, st')
    end.

Definition throw {A} (e : jsstring) : M A := fun _ st => (Throw e, st).

(** [try { m } catch (e) { h e }] *)
Definition try_catch {A} (m : M A) (h : jsstring -> M A) : M A :=
  fun o st =>
    match m o st with
    | (Ok a, st') => (Ok a, st')
    | (Throw e, st') => h e o st'
    end.

Declare Scope monad_scope.
Delimit Scope monad_scope with monad.
Notation "x <- m ;; k" := (bind m (fun x => k))
  (at level 61, m at next level, right associativity) : monad_scope.
Local Open Scope monad_scope.

Definition heap_get (h : heap) (l : loc) : list elem := nth l h [].

Definition read_array (l : loc) : M (list elem) :=
  fun _ st => (Ok (heap_get (st_heap st) l), st).

(** [[...value]]: a fresh array with the same elements. *)
Definition copy_array (l : loc) : M loc :=
  fun _ st =>
    (Ok (length (st_heap st)),
     State (st_heap st ++ [heap_get (st_heap st) l]) (st_draws st)).

Fixpoint heap_set (h : heap) (l : loc) (xs : list elem) : heap :=
  match h, l with
  | [], _ => []
  | _ :: t, O => xs :: t
  | x :: t, S l' => x :: heap_set t l' xs
  end.

(** An in-place update of the array at [l], as [Array.prototype.sort] and
    [Array.prototype.reverse] perform it; the array itself is returned. *)
Definition update_array (l : loc) (f : list elem -> list elem) : M loc :=
  fun _ st =>
    (Ok l,
     State (heap_set (st_heap st) l (f (heap_get (st_heap st) l)))
       (st_draws st)).

(** [Math.floor(Math.random() * n)]: the oracle's next draw, reduced below
    [n]. *)
Definition random_below (n : nat) : M nat :=
  fun o st =>
    (Ok (match n with O => O | S _ => o (st_draws st) mod n end),
     State (st_heap st) (S (st_draws st))).

Fixpoint mapM {A B} (f : A -> M B) (l : list A) : M (list B) :=
  match l with
  | [] => ret []
  | x :: t => y <- f x ;; ys <- mapM f t ;; ret (y :: ys)
  end.

(** [String(e)] of an element, the decimal text of a number. *)
Definition elem_toString (e : elem) : jsstring :=
  match e with
  | EStr s => s
  | ENum n => number_toString n
  end.

Definition array_join (sep : jsstring) (xs : list elem) : jsstring :=
  join sep (map elem_toString xs).

(** [String(v)], as a template literal applies it. *)
Definition String_of (h : heap) (v : value) : jsstring :=
  match v with
  | VUndefined => js "undefined"
  | VNull => js "null"
  | VBool true => js "true"
  | VBool false => js "false"
  | VNum n => number_toString n
  | VStr s => s
  | VArr l => array_join (js ",") (heap_get h l)
  end.

Definition stringify (v : value) : M jsstring :=
  fun _ st => (Ok (String_of (st_heap st) v), st).

(** [v?.toString() ?? ''] *)
Definition toString_or_empty (v : value) : M jsstring :=
  match v with
  | VUndefined | VNull => ret []
  | _ => stringify v
  end.

(** [typeof] as the evaluator switches on it. *)
Inductive jstype := TString | TNumber | TBoolean | TObject | TUndefined.

Definition typeof (v : value) : jstype :=
  match v with
  | VStr _ => TString
  | VNum _ => TNumber
  | VBool _ => TBoolean
  | VNull | VArr _ => TObject
  | VUndefined => TUndefined
  end.

(** The default order of [Array.prototype.sort]: by the elements' texts,
    stable. *)
Fixpoint insert_sorted (x : elem) (l : list elem) : list elem :=
  match l with
  | [] => [x]
  | y :: t =>
      if str_ltb (elem_toString y) (elem_toString x)
      then y :: insert_sorted x t
      else x :: l
  end.

Definition array_sort (xs : list elem) : list elem :=
  fold_right insert_sorted [] xs.

(** ** The namespace *)

Definition Section_ := list (jsstring * value).
Definition ParseValue := list (jsstring * Section_).

Fixpoint assoc {A} (k : jsstring) (l : list (jsstring * A)) : option A :=
  match l with
  | [] => None
  | (k', v) :: t => if str_eqb k k' then Some v else assoc k t
  end.

(** The shape of the namespace: its section names with their field names,
    in the order [Object.keys] lists them. *)
Definition Shape := list (jsstring * list jsstring).

Definition shape_of (pv : ParseValue) : Shape :=
  map (fun sec => (fst sec, map fst (snd sec))) pv.

(** Functions of [./utils.js] and of the platform that the formatter calls
    and that are kept abstract: the two byte formatters and the duration
    formatter, [Number.prototype.toLocaleString], [btoa],
    [String.prototype.replaceAll], and [split] by a pattern compiled at
    run time from the given source text ([None] when the pattern does not
    compile). *)
Record Externals := {
  formatBytes : Z -> Z -> jsstring;
  formatDuration : Z -> jsstring;
  toLocaleString : Z -> jsstring;
  btoa : jsstring -> jsstring;
  replaceAll : jsstring -> jsstring -> jsstring -> jsstring;
  split_dynamic : jsstring -> jsstring -> option (list jsstring)
}.

(** ** [ModifierConstants] *)

Module ModifierConstants.

Definition title (v : jsstring) : jsstring :=
  join (js " ")
    (map (fun word =>
            match word with
            | [] => []
            | c :: t => toUpperCase [c] ++ t
            end)
       (map toLowerCase (split_char " "%char v))).

Section WithExternals.
Variable ext : Externals.

Definition stringModifiers (key : jsstring)
  : option (jsstring -> jsstring) :=
  if str_eqb key (js "upper") then Some toUpperCase
  else if str_eqb key (js "lower") then Some toLowerCase
  else if str_eqb key (js "title") then Some title
  else if str_eqb key (js "length")
       then Some (fun v => number_toString (Z.of_nat (length v)))
  else if str_eqb key (js "reverse") then Some (fun v => rev v)
  else if str_eqb key (js "base64") then Some (btoa ext)
  else if str_eqb key (js "string") then Some (fun v => v)
  else None.

Definition numberModifiers (key : jsstring) : option (Z -> jsstring) :=
  if str_eqb key (js "comma") then Some (toLocaleString ext)
  else if str_eqb key (js "hex") then Some (number_toString_radix 16)
  else if str_eqb key (js "octal") then Some (number_toString_radix 8)
  else if str_eqb key (js "binary") then Some (number_toString_radix 2)
  else if str_eqb key (js "bytes")
       then Some (fun v => formatBytes ext v 1000)
  else if str_eqb key (js "bytes10")
       then Some (fun v => formatBytes ext v 1000)
  else if str_eqb key (js "bytes2")
       then Some (fun v => formatBytes ext v 1024)
  else if str_eqb key (js "string") then Some number_toString
  else if str_eqb key (js "time") then Some (formatDuration ext)
  else None.
End WithExternals.

(** [value.length > 0 ? String(value[i]) : ''] *)
Definition arrayModifierGetOrDefault (value : list elem) (i : nat)
  : jsstring :=
  match value with
  | [] => []
  | _ :: _ =>
      match nth_error value i with
      | Some e => elem_toString e
      | None => js "undefined"
      end
  end.

(** The array modifiers, each followed by the [?.toString()] that
    [applySingleModifier] applies to its result. *)
Definition arrayModifiers (key : jsstring) : option (loc -> M jsstring) :=
  if str_eqb key (js "join")
  then Some (fun l => xs <- read_array l ;; ret (array_join (js ", ") xs))
  else if str_eqb key (js "length")
  then Some (fun l => xs <- read_array l ;;
                      ret (number_toString (Z.of_nat (length xs))))
  else if str_eqb key (js "first")
  then Some (fun l => xs <- read_array l ;;
                      ret (arrayModifierGetOrDefault xs 0))
  else if str_eqb key (js "last")
  then Some (fun l => xs <- read_array l ;;
                      ret (arrayModifierGetOrDefault xs (length xs - 1)))
  else if str_eqb key (js "random")
  then Some (fun l => xs <- read_array l ;;
                      i <- random_below (length xs) ;;
                      ret (arrayModifierGetOrDefault xs i))
  else if str_eqb key (js "sort")
  then Some (fun l => c <- copy_array l ;;
                      c' <- update_array c array_sort ;;
                      xs <- read_array c' ;;
                      ret (array_join (js ",") xs))
  else if str_eqb key (js "reverse")
  then Some (fun l => c <- copy_array l ;;
                      c' <- update_array c (@rev elem) ;;
                      xs <- read_array c' ;;
                      ret (array_join (js ",") xs))
  else None.

Module exact.
Definition istrue (v : value) : bool :=
  match v with VBool true => true | _ => false end.

Definition isfalse (v : value) : bool :=
  match v with VBool false => true | _ => false end.

Definition exists_ (v : value) : M bool :=
  match v with
  | VUndefined | VNull => ret false
  | VStr s => ret (has_non_space s)
  | VArr l => xs <- read_array l ;; ret (0 <? length xs)
  | _ => ret true
  end.

Definition keys : list jsstring := [js "istrue"; js "isfalse"; js "exists"].

Definition lookup (key : jsstring) : option (value -> M bool) :=
  if str_eqb key (js "istrue") then Some (fun v => ret (istrue v))
  else if str_eqb key (js "isfalse") then Some (fun v => ret (isfalse v))
  else if str_eqb key (js "exists") then Some exists_
  else None.
End exact.

Module prefix.
(** The two operands of a prefix modifier: both texts, or both numbers. *)
Inductive operands :=
| Texts (value check : jsstring)
| Numbers (value check : jsnum).

Definition keys : list jsstring :=
  [js "$"; js "^"; js "~"; js "="; js ">="; js ">"; js "<="; js "<"].

Definition not_a_function (method : string) : jsstring :=
  js "TypeError: value." ++ js method ++ js " is not a function".

Definition apply (key : jsstring) (args : operands) : outcome bool :=
  if str_eqb key (js "$") then
    match args with
    | Texts v c => Ok (startsWith v c)
    | Numbers _ _ => Throw (not_a_function "startsWith")
    end
  else if str_eqb key (js "^") then
    match args with
    | Texts v c => Ok (endsWith v c)
    | Numbers _ _ => Throw (not_a_function "endsWith")
    end
  else if str_eqb key (js "~") then
    match args with
    | Texts v c => Ok (includes v c)
    | Numbers _ _ => Throw (not_a_function "includes")
    end
  else if str_eqb key (js "=") then
    match args with
    | Texts v c => Ok (str_eqb v c)
    | Numbers v c => Ok (num_eqb v c)
    end
  else if str_eqb key (js ">=") then
    match args with
    | Texts v c => Ok (str_leb c v)
    | Numbers v c => Ok (num_leb c v)
    end
  else if str_eqb key (js ">") then
    match args with
    | Texts v c => Ok (str_ltb c v)
    | Numbers v c => Ok (num_ltb c v)
    end
  else if str_eqb key (js "<=") then
    match args with
    | Texts v c => Ok (str_leb v c)
    | Numbers v c => Ok (num_leb v c)
    end
  else if str_eqb key (js "<") then
    match args with
    | Texts v c => Ok (str_ltb v c)
    | Numbers v c => Ok (num_ltb v c)
    end
  else Throw (js "TypeError: not a function").
End prefix.

End ModifierConstants.

(** ** [ComparatorConstants] *)

Module ComparatorConstants.

(** [ToBoolean]; a number is false only when it is zero, an array is an
    object and so true. *)
Definition truthy (v : value) : bool :=
  match v with
  | VUndefined | VNull => false
  | VBool b => b
  | VNum n => negb (n =? 0)%Z
  | VStr s => negb (length s =? 0)
  | VArr _ => true
  end.

(** [v1 === v2]; two arrays are equal when they are the same array. *)
Definition strict_eq (v1 v2 : value) : bool :=
  match v1, v2 with
  | VUndefined, VUndefined => true
  | VNull, VNull => true
  | VBool a, VBool b => Bool.eqb a b
  | VNum a, VNum b => (a =? b)%Z
  | VStr a, VStr b => str_eqb a b
  | VArr a, VArr b => a =? b
  | _, _ => false
  end.

Definition and_ (v1 v2 : value) : value := if truthy v1 then v2 else v1.
Definition or_ (v1 v2 : value) : value := if truthy v1 then v1 else v2.
Definition xor (v1 v2 : value) : value :=
  let either := or_ v1 v2 in
  if truthy either then VBool (negb (truthy (and_ v1 v2))) else either.
Definition neq (v1 v2 : value) : value := VBool (negb (strict_eq v1 v2)).
Definition equal (v1 v2 : value) : value := VBool (strict_eq v1 v2).
Definition left (v1 _ : value) : value := v1.
Definition right (_ v2 : value) : value := v2.

Definition keys : list jsstring :=
  [js "and"; js "or"; js "xor"; js "neq"; js "equal"; js "left"; js "right"].

(** [comparatorKeyToFuncs[key]]: a property lookup, so by the exact
    spelling. *)
Definition comparatorKeyToFuncs (key : jsstring)
  : option (value -> value -> value) :=
  if str_eqb key (js "and") then Some and_
  else if str_eqb key (js "or") then Some or_
  else if str_eqb key (js "xor") then Some xor
  else if str_eqb key (js "neq") then Some neq
  else if str_eqb key (js "equal") then Some equal
  else if str_eqb key (js "left") then Some left
  else if str_eqb key (js "right") then Some right
  else None.

End ComparatorConstants.

(** ** [BaseFormatterRegexBuilder]

    The builder's patterns, as syntax trees.  Section, field, modifier and
    comparator names enter a pattern as literal text (they are made of
    letters and digits). *)

Module RegexBuilder.

Definition modifierPrefix : jsstring := js "::".
Definition comparatorWrapper : jsstring := js "::".

(** Names of the named groups. *)
Definition g_unnamed := 0.
Definition g_suffix := 1.
Definition g_mod_tzlocale := 2.
Definition g_mod_check := 3.
Definition g_mod_check_true := 4.
Definition g_mod_check_false := 5.

Definition duplicate_error (name : jsstring) : jsstring :=
  js "Error: Must Remove Case-Insensitive Duplicate: '" ++ name
    ++ js "' in ParseValue".

(** The [forEach] that fills a [Set] with the lower-cased keys and throws
    at the first key already present. *)
Fixpoint collect_keys (prefix_ : jsstring) (keys seen : list jsstring)
  : outcome (list jsstring) :=
  match keys with
  | [] => Ok seen
  | key :: rest =>
      if existsb (str_eqb (toLowerCase key)) seen
      then Throw (duplicate_error (prefix_ ++ key))
      else collect_keys prefix_ rest (seen ++ [toLowerCase key])
  end.

Fixpoint section_patterns (shape : Shape) (sectionKeys : list jsstring)
  : outcome (list regex) :=
  match sectionKeys with
  | [] => Ok []
  | sectionKey :: rest =>
      match assoc sectionKey shape with
      | Some fields =>
          match collect_keys (sectionKey ++ js ".") fields [] with
          | Throw e => Throw e
          | Ok sectionSubKeys =>
              match section_patterns shape rest with
              | Throw e => Throw e
              | Ok ps =>
                  Ok (Seq (lit sectionKey)
                        (Seq (Chr "."%char)
                           (Grp g_unnamed (alts (map lit sectionSubKeys))))
                        :: ps)
              end
          end
      | None => section_patterns shape rest
      end
  end.

Definition buildVariableRegexPattern (shape : Shape) : outcome regex :=
  match collect_keys [] (map fst shape) [] with
  | Throw e => Throw e
  | Ok sectionKeys =>
      match section_patterns shape sectionKeys with
      | Throw e => Throw e
      | Ok validVariableNames => Ok (Grp g_unnamed (alts validVariableNames))
      end
  end.

Definition spaces_lazy : regex := Star false (Cls is_space).
Definition any_lazy : regex := Star false AnyChar.

(** [replace(Q1.*?Q1\s*?,\s*?Q2.*?Q2)] for the quote characters [q1], [q2]. *)
Definition replace_pattern (q1 q2 : ascii) : regex :=
  seqs [lit (js "replace(" ++ [q1]); any_lazy; Chr q1; spaces_lazy;
        Chr ","%char; spaces_lazy; Chr q2; any_lazy; lit (q2 :: js ")")].

Definition join_pattern (q : ascii) : regex :=
  seqs [lit (js "join(" ++ [q]); any_lazy; lit (q :: js ")")].

(** A prefix followed by [.+?]. *)
Definition prefix_pattern (p : string) : regex :=
  Seq (lit (js p)) (Plus false AnyChar).

Definition hardcodedModifiersForRegexMatching : list regex :=
  [replace_pattern "'"%char "'"%char;
   replace_pattern dq "'"%char;
   replace_pattern "'"%char dq;
   replace_pattern dq dq;
   join_pattern "'"%char;
   join_pattern dq;
   prefix_pattern "$"; prefix_pattern "^"; prefix_pattern "~";
   prefix_pattern "="; prefix_pattern ">="; prefix_pattern ">";
   prefix_pattern "<="; prefix_pattern "<"].

(** The remaining keys of [ModifierConstants.modifiers], in the order the
    spread of the five tables produces (a repeated key keeps its first
    place). *)
Definition namedModifiers : list jsstring :=
  map js
    ["upper"; "lower"; "title"; "length"; "reverse"; "base64"; "string";
     "comma"; "hex"; "octal"; "binary"; "bytes"; "bytes10"; "bytes2";
     "time";
     "join"; "first"; "last"; "random"; "sort";
     "istrue"; "isfalse"; "exists";
     "$"; "^"; "~"; "="; ">="; ">"; "<="; "<"]%string.

Definition buildModifierRegexPattern : regex :=
  Seq (lit modifierPrefix)
    (alts (hardcodedModifiersForRegexMatching ++ map lit namedModifiers)).

Definition buildComparatorRegexPattern : regex :=
  seqs [lit comparatorWrapper;
        alts (map lit ComparatorConstants.keys);
        lit comparatorWrapper].

Definition buildTZLocaleRegexPattern : regex :=
  Seq (lit modifierPrefix)
    (Grp g_mod_tzlocale
       (alts (map (fun s => lit (js s))
                ["UTC"; "GMT"; "EST"; "PST"; "en-US"; "en-GB";
                 "Europe/London"; "America/New_York"]%string))).

(** The pattern text puts [checkTFSplit], whose two bars are unescaped,
    between the branches: the group is an alternation of the quoted true
    branch, the empty pattern and the quoted false branch. *)
Definition buildCheckRegexPattern : regex :=
  seqs [Chr "["%char;
        Grp g_mod_check
          (alts [seqs [Chr dq; Grp g_mod_check_true (Star true AnyChar);
                       Chr dq];
                 Eps;
                 seqs [Chr dq; Grp g_mod_check_false (Star true AnyChar);
                       Chr dq]]);
        Chr "]"%char].

Definition buildRegexExpression (shape : Shape) : outcome regex :=
  match buildVariableRegexPattern shape with
  | Throw e => Throw e
  | Ok variable =>
      let modifier := buildModifierRegexPattern in
      let comparator := buildComparatorRegexPattern in
      let modTZLocale := buildTZLocaleRegexPattern in
      let checkTF := buildCheckRegexPattern in
      let variableAndModifiers :=
        Seq variable (Star true (Grp g_unnamed modifier)) in
      Ok (seqs [Bol; Chr "{"%char; variableAndModifiers;
                Star true (Grp g_unnamed (Seq comparator variableAndModifiers));
                Grp g_suffix
                  (Seq (Opt (Grp g_unnamed modTZLocale))
                     (Opt (Grp g_unnamed checkTF)));
                Chr "}"%char; Eol])
  end.

(** The pattern of [getMatches] that reads the two branch texts off the
    unstripped candidate. *)
Definition checkTF_pattern : regex :=
  let ws := Star true (Cls is_space) in
  seqs [Chr "["%char; ws; Chr dq; Grp g_mod_check_true any_lazy; Chr dq;
        ws; Chr "|"%char; ws; Chr "|"%char; ws;
        Chr dq; Grp g_mod_check_false any_lazy; Chr dq;
        ws; Chr "]"%char; ws; Chr "}"%char; Eol].

(** [(?=::|$)] appended to one modifier. *)
Definition singleValidModRe : regex :=
  Seq (Grp g_unnamed buildModifierRegexPattern)
    (Look (Alt (lit modifierPrefix) Eol)).

End RegexBuilder.

(** The namespace shape of [convertStreamToParseValue], which the
    constructor hands to the regex builder. *)
Definition hardcodedParseValueKeysForRegexMatching : Shape :=
  [(js "config", [js "addonName"]);
   (js "stream",
    map js
      ["filename"; "folderName"; "size"; "folderSize"; "library"; "quality";
       "resolution"; "languages"; "uLanguages"; "languageEmojis";
       "uLanguageEmojis"; "languageCodes"; "uLanguageCodes";
       "smallLanguageCodes"; "uSmallLanguageCodes";
       "wedontknowwhatakilometeris"; "uWedontknowwhatakilometeris";
       "visualTags"; "audioTags"; "releaseGroup"; "regexMatched"; "encode";
       "audioChannels"; "indexer"; "seeders"; "year"; "type"; "title";
       "season"; "seasons"; "episode"; "seasonEpisode"; "duration";
       "infoHash"; "age"; "message"; "proxied"]%string);
   (js "addon", map js ["name"; "presetId"; "manifestUrl"]%string);
   (js "service", map js ["id"; "shortName"; "name"; "cached"]%string);
   (js "tools", map js ["removeline"; "newline"]%string);
   (js "debug", map js ["modifier"; "comparator"; "json"; "jsonf"]%string)].

(** ** The evaluator: [applySingleModifier], [parseModifiedVariable],
    [parseVariable] *)

(** [ResolvedVariable]: a result or an error text. *)
Inductive ResolvedVariable :=
| Result (result : value)
| Error (error : jsstring).

(** [resolved.result], which is [undefined] on an error. *)
Definition result_of (r : ResolvedVariable) : value :=
  match r with
  | Result v => v
  | Error _ => VUndefined
  end.

(** [FullStringModifiers] *)
Record FullStringModifiers := {
  mod_check : option (jsstring * jsstring);
  mod_tzlocale : option jsstring
}.

Definition charAt (s : jsstring) (i : nat) : jsstring :=
  match nth_error s i with Some c => [c] | None => [] end.

(** The prefix keys, longest first (a stable sort by decreasing length). *)
Definition prefix_keys_by_length : list jsstring :=
  [js ">="; js "<="; js "$"; js "^"; js "~"; js "="; js ">"; js "<"].

Definition thousands_separator : regex := Seq (Chr ","%char) (Cls is_space).

Definition is_ordering_prefix (p : jsstring) : bool :=
  existsb (str_eqb p) [js "<"; js "<="; js ">"; js ">="; js "="].

(** The operands the prefix branch hands to the prefix function. *)
Definition prefix_operands (modPrefix stringValue check : jsstring)
  : ModifierConstants.prefix.operands :=
  let stringCheck :=
    if negb (has_space stringValue) then strip_spaces check else check in
  let parsedNumericValue :=
    Number_of_string (replace_re false thousands_separator [] stringValue) in
  let parsedNumericCheck :=
    Number_of_string (replace_re false thousands_separator [] stringCheck) in
  let isNumericComparison :=
    is_ordering_prefix modPrefix
    && negb (isNaN parsedNumericValue) && negb (isNaN parsedNumericCheck) in
  if isNumericComparison
  then ModifierConstants.prefix.Numbers parsedNumericValue parsedNumericCheck
  else ModifierConstants.prefix.Texts stringValue stringCheck.

Definition lift_outcome {A} (o : outcome A) : M A :=
  match o with
  | Ok a => ret a
  | Throw e => throw e
  end.

Section Evaluator.

Variable ext : Externals.
Variable shape : Shape.

(** The branch of [applySingleModifier] for the conditional modifiers:
    the body of its [try], and the [catch] that answers [false]. *)
Definition conditional_modifier (variable : value) (mod_ : jsstring)
  (isExact : bool) : M bool :=
  try_catch
    (present <- ModifierConstants.exact.exists_ variable ;;
     if negb present then ret false
     else if isExact then
       match ModifierConstants.exact.lookup mod_ with
       | Some f => f variable
       | None => throw (js "TypeError: not a function")
       end
     else
       match find (startsWith mod_) prefix_keys_by_length with
       | Some modPrefix =>
           text <- stringify variable ;;
           let stringValue := toLowerCase text in
           let check :=
             toLowerCase (substring_from mod_ (length modPrefix)) in
           lift_outcome
             (ModifierConstants.prefix.apply modPrefix
                (prefix_operands modPrefix stringValue check))
       | None => throw (js "TypeError: Cannot read properties of undefined")
       end)
    (fun _ => ret false).

(** The hard-coded [replace(...)] string modifier.  [new RegExp] throws
    a [SyntaxError] on a pattern that is not one; the text of its message
    is the engine's own, and stands here with the pattern only. *)
Definition replace_modifier (variable _mod mod_ : jsstring)
  : M (option value) :=
  let findStartChar := charAt mod_ (length (js "replace(") + 1) in
  let findEndChar := charAt mod_ (length mod_ - 1 - 1) in
  let content :=
    substring _mod (length (js "replace('")) (length _mod - 2) in
  let pattern := findStartChar ++ js "\s*,\s*" ++ findEndChar in
  match split_dynamic ext pattern content with
  | None =>
      throw (js "SyntaxError: Invalid regular expression: /" ++ pattern
               ++ js "/")
  | Some parts =>
      let key := nth 0 parts [] in
      let replaceKey := nth 1 parts [] in
      let shouldBeUndefined := nth 2 parts [] in
      if (length shouldBeUndefined =? 0)
         && negb (length key =? 0) && negb (length replaceKey =? 0)
      then ret (Some (VStr (replaceAll ext variable key replaceKey)))
      else ret None
  end.

(** [applySingleModifier]; [None] is [undefined].  Its third argument,
    [fullStringModifiers], is never read and is left out here and in
    [parseModifiedVariable].  [mod in table] is the lookup among the keys
    that the table lists: the names that every object inherits
    ([constructor], [toString] and the like) are no modifiers of the
    grammar, and [parseModifiedVariable] hands over only texts that the
    modifier pattern has matched. *)
Definition applySingleModifier (variable : value) (_mod : jsstring)
  : M (option value) :=
  let mod_ := toLowerCase _mod in
  let isExact := existsb (str_eqb mod_) ModifierConstants.exact.keys in
  let isPrefix :=
    existsb (startsWith mod_) ModifierConstants.prefix.keys in
  if isExact || isPrefix then
    conditional <- conditional_modifier variable mod_ isExact ;;
    ret (Some (VBool conditional))
  else
    match variable with
    | VStr s =>
        match ModifierConstants.stringModifiers ext mod_ with
        | Some f => ret (Some (VStr (f s)))
        | None =>
            if startsWith mod_ (js "replace(") && endsWith mod_ (js ")")
            then replace_modifier s _mod mod_
            else ret None
        end
    | VArr l =>
        match ModifierConstants.arrayModifiers mod_ with
        | Some f => text <- f l ;; ret (Some (VStr text))
        | None =>
            if startsWith mod_ (js "join(") && endsWith mod_ (js ")")
            then
              let separator :=
                substring _mod (length (js "join('")) (length _mod - 2) in
              xs <- read_array l ;;
              ret (Some (VStr (array_join separator xs)))
            else ret None
        end
    | VNum n =>
        match ModifierConstants.numberModifiers ext mod_ with
        | Some f => ret (Some (VStr (f n)))
        | None => ret None
        end
    | _ => ret None
    end.

(** [find(keys, key)]: the first key whose lower-cased spelling is [key]. *)
Definition find_key (keys : list jsstring) (key : jsstring)
  : option jsstring :=
  find (fun k => str_eqb key (toLowerCase k)) keys.

(** A template literal's text for a key that may be [undefined]. *)
Definition key_text (k : option jsstring) : jsstring :=
  match k with Some s => s | None => js "undefined" end.

Definition unknown_modifier_error (property : value)
  (lastModMatched : jsstring) : jsstring :=
  let kind :=
    match typeof property with
    | TString => js "string_"
    | TNumber => js "number_"
    | TBoolean => js "boolean_"
    | TObject => js "array_"
    | TUndefined => []
    end in
  js "{unknown_" ++ kind ++ js "modifier(" ++ lastModMatched ++ js ")}".

(** The loop that applies the modifiers from left to right. *)
Fixpoint apply_modifiers (property result : value) (mods : list jsstring)
  : M ResolvedVariable :=
  match mods with
  | [] => ret (Result result)
  | lastModMatched :: rest =>
      r <- applySingleModifier result lastModMatched ;;
      match r with
      | None => ret (Error (unknown_modifier_error property lastModMatched))
      | Some result' => apply_modifiers property result' rest
      end
  end.

Definition cannot_read_properties : jsstring :=
  js "TypeError: Cannot read properties of undefined".

(** [parseModifiedVariable]: the parse of the text, then the function of
    the namespace it returns. *)
Definition parseModifiedVariable (baseString : jsstring)
  (parseValue : ParseValue) : M ResolvedVariable :=
  let variableTypeKeys := map fst shape in
  let variableType :=
    find_key variableTypeKeys
      (toLowerCase (nth 0 (split_char "."%char baseString) [])) in
  match variableType with
  | None | Some [] =>
      ret (Error (js "{unknown_variableType(" ++ key_text variableType
                    ++ js ")}"))
  | Some variableType =>
      let baseString :=
        substring_from baseString (length variableType + length (js ".")) in
      let propertyNameKeys :=
        match assoc variableType shape with
        | Some fields => fields
        | None => []
        end in
      let propertyName :=
        find_key propertyNameKeys
          (toLowerCase
             (nth 0
                (split_re false (Cls (fun c => negb (is_letter c))) false
                   baseString) [])) in
      match propertyName with
      | None | Some [] =>
          ret (Error (js "{unknown_propertyName(" ++ variableType
                        ++ js "." ++ key_text propertyName ++ js ")}"))
      | Some propertyName =>
          let allModifiers :=
            substring_from baseString (length propertyName) in
          let sortedModMatches :=
            map (fun m =>
                   slice_from m
                     (Z.of_nat (length RegexBuilder.modifierPrefix)))
              (matchAll false RegexBuilder.singleValidModRe allModifiers) in
          match assoc variableType parseValue with
          | None => throw cannot_read_properties
          | Some variableDict =>
              let property :=
                match assoc propertyName variableDict with
                | Some v => v
                | None => VUndefined
                end in
              apply_modifiers property property sortedModMatches
          end
      end
  end.

(** The texts at the even and at the odd places of a list. *)
Fixpoint evens {A} (l : list A) : list A :=
  match l with
  | [] => []
  | x :: t => x :: match t with [] => [] | _ :: u => evens u end
  end.

Definition odds {A} (l : list A) : list A :=
  match l with [] => [] | _ :: t => evens t end.

Definition unable_to_compare (prev cur compareKey e : jsstring) : jsstring :=
  js "{unable_to_compare(<" ++ prev ++ js ">::" ++ compareKey ++ js "::<"
    ++ cur ++ js ">, " ++ e ++ js ")}".

Definition not_a_function : jsstring :=
  js "TypeError: comparatorFn is not a function".

(** One step of the [reduce]: [prev], [cur] and the comparator between
    them. *)
Definition compare_step (prev cur : ResolvedVariable)
  (compareKey : jsstring) : M ResolvedVariable :=
  match prev, cur with
  | Error _, _ => ret prev
  | _, Error _ => ret cur
  | Result p, Result c =>
      try_catch
        (match ComparatorConstants.comparatorKeyToFuncs compareKey with
         | Some comparatorFn => ret (Result (comparatorFn p c))
         | None => throw not_a_function
         end)
        (fun e =>
           pt <- stringify p ;;
           ct <- stringify c ;;
           ret (Error (unable_to_compare pt ct compareKey e)))
  end.

(** [resolvedVariables.reduce(...)] without an initial value: the
    comparator used with the element at index [i] is the one at
    [i - 1]. *)
Fixpoint reduce_from (prev : ResolvedVariable)
  (rest : list ResolvedVariable) (comparators : list jsstring)
  : M ResolvedVariable :=
  match rest with
  | [] => ret prev
  | cur :: rest' =>
      match comparators with
      | compareKey :: comparators' =>
          next <- compare_step prev cur compareKey ;;
          reduce_from next rest' comparators'
      | [] =>
          match prev, cur with
          | Error _, _ => reduce_from prev rest' []
          | _, Error _ => reduce_from cur rest' []
          | _, _ => throw cannot_read_properties
          end
      end
  end.

Definition cannot_coerce_boolean (text : jsstring) : jsstring :=
  js "{cannot_coerce_boolean_for_check_from(" ++ text ++ js ")}".

(** The comparator logic of [parseVariable]. *)
Definition reduce_variable (modifiedVariable : jsstring)
  (parseValue : ParseValue) : M ResolvedVariable :=
  let splitOnComparators :=
    split_re true RegexBuilder.buildComparatorRegexPattern true
      modifiedVariable in
  let variableWithModifiers := evens splitOnComparators in
  let comparators :=
    map (fun c =>
           slice c (Z.of_nat (length RegexBuilder.comparatorWrapper))
             (- Z.of_nat (length RegexBuilder.comparatorWrapper)))
      (odds splitOnComparators) in
  match variableWithModifiers with
  | [single] => parseModifiedVariable single parseValue
  | _ =>
      resolvedVariables <-
        mapM (fun baseString => parseModifiedVariable baseString parseValue)
          variableWithModifiers ;;
      match resolvedVariables with
      | [] => throw (js "TypeError: Reduce of empty array with no initial value")
      | first :: rest => reduce_from first rest comparators
      end
  end.

(** [parseVariable]: the reduction, then the true/false check. *)
Definition parseVariable (modifiedVariable : jsstring)
  (fullStringModifiers : FullStringModifiers) (parseValue : ParseValue)
  : M ResolvedVariable :=
  match mod_check fullStringModifiers with
  | None => reduce_variable modifiedVariable parseValue
  | Some (true_case, false_case) =>
      resolved <- reduce_variable modifiedVariable parseValue ;;
      match result_of resolved with
      | VBool b =>
          ret (Result (VStr (if b then true_case else false_case)))
      | other =>
          text <- stringify other ;;
          ret (Error (cannot_coerce_boolean text))
      end
  end.

End Evaluator.

(** ** The compiler: [compileTemplateHelper] *)

(** An entry of [compiledVariableTemplateFns]. *)
Record CompiledFn := {
  resultFn : ParseValue -> M ResolvedVariable;
  insertedIndex : nat
}.

(** [mod_check] with its offsets ([modCheckWithOffsets]). *)
Record ModCheck := {
  mc_true : jsstring;
  mc_false : jsstring;
  offsetFromVariable : nat;
  offsetFromTrueCase : Z
}.

(** What [getMatches] returns. *)
Record MatchData := {
  leftBracketIndex : nat;
  variableTemplateWhitespace : jsstring;
  suffix_mod_check : option ModCheck;
  suffix_mod_tzlocale : option jsstring
}.

Definition PLACEHOLDER : jsstring := js "X".

Definition quoted (s : jsstring) : jsstring := dq :: s ++ [dq].

(** The true/false part of [getMatches]: the match of [checkTF_pattern] on
    the candidate, with the text it matched. *)
Definition check_true_false (potentialVariableTemplate : jsstring)
  : option (jsstring * ModCheck) :=
  match exec false RegexBuilder.checkTF_pattern potentialVariableTemplate with
  | None => None
  | Some (start, st) =>
      let whole := skipn start potentialVariableTemplate in
      match cap_text potentialVariableTemplate
              RegexBuilder.g_mod_check_true (m_caps st),
            cap_text potentialVariableTemplate
              RegexBuilder.g_mod_check_false (m_caps st) with
      | Some t, Some f =>
          let relativeTrueIndex :=
            match indexOf whole (quoted t) with
            | Some k => k + 1
            | None => 0
            end in
          let relativeFalseIndex :=
            match lastIndexOf whole (quoted f) with
            | Some k => k + 1
            | None => 0
            end in
          Some (whole,
                {| mc_true := t;
                   mc_false := f;
                   offsetFromVariable := relativeTrueIndex;
                   offsetFromTrueCase :=
                     (Z.of_nat relativeFalseIndex
                      - (Z.of_nat relativeTrueIndex + Z.of_nat (length t)))%Z |})
      | _, _ => None
      end
  end.

Definition match_data (potentialVariableTemplate : jsstring) (left_ : nat)
  (tz : option jsstring) : MatchData :=
  let checkTF := check_true_false potentialVariableTemplate in
  let tail_length :=
    match checkTF with
    | Some (whole, _) => length whole
    | None => length (js "}")
    end in
  {| leftBracketIndex := left_;
     variableTemplateWhitespace :=
       slice potentialVariableTemplate (Z.of_nat (length (js "{")))
         (- Z.of_nat tail_length);
     suffix_mod_check := option_map snd checkTF;
     suffix_mod_tzlocale := tz |}.

(** [getMatches]: the open brackets are tried from the most recent one
    down; [above] are the ones already tried, [below] the remaining ones,
    most recent first.  The bracket that matches is taken off the stack. *)
Fixpoint getMatches (re : regex) (str : jsstring) (i : nat)
  (above below : list nat) : option (MatchData * list nat) :=
  match below with
  | [] => None
  | left_ :: below' =>
      let potentialVariableTemplate :=
        slice str (Z.of_nat left_) (Z.of_nat (i + 1)) in
      let stripped := strip_spaces potentialVariableTemplate in
      match exec true re stripped with
      | Some (_, st) =>
          Some (match_data potentialVariableTemplate left_
                  (cap_text stripped RegexBuilder.g_mod_tzlocale (m_caps st)),
                rev below' ++ above)
      | None => getMatches re str i (left_ :: above) below'
      end
  end.

(** The template without the white space around its variables, modifiers
    and comparators. *)
Definition remove_whitespace (variableTemplateWhitespace : jsstring)
  : jsstring :=
  concat
    (map (fun singleVariableTemplate =>
            match split_re false RegexBuilder.buildModifierRegexPattern true
                    singleVariableTemplate with
            | [] => []
            | first :: others =>
                concat (map trim (strip_spaces first :: others))
            end)
       (split_re false RegexBuilder.buildComparatorRegexPattern true
          variableTemplateWhitespace)).

(** [numWhitespaceRemovedBeforeN], as the list of its values at
    [n = 0, 1, ...]. *)
Fixpoint count_removed (globalVariableTemplate : jsstring)
  (variableTemplateWhitespace : jsstring) (numWhitespaceRemoved : nat)
  : list nat :=
  match variableTemplateWhitespace with
  | [] => []
  | c :: rest =>
      match globalVariableTemplate with
      | g :: gs =>
          if Ascii.eqb g c
          then numWhitespaceRemoved
                 :: count_removed gs rest numWhitespaceRemoved
          else S numWhitespaceRemoved
                 :: count_removed globalVariableTemplate rest
                      (S numWhitespaceRemoved)
      | [] =>
          S numWhitespaceRemoved
            :: count_removed [] rest (S numWhitespaceRemoved)
      end
  end.

(** [str.slice(0, startIndex) + resolved + str.slice(startIndex +
    PLACEHOLDER.length)]; [None] is a [startIndex] that is not a number. *)
Definition addResolvedVariable (resolved str : jsstring)
  (startIndex : option Z) : jsstring :=
  match startIndex with
  | Some k =>
      slice str 0 k ++ resolved
        ++ slice_from str (k + Z.of_nat (length PLACEHOLDER))
  | None => resolved ++ str
  end.

(** [resolved.error ?? resolved.result?.toString() ?? ''] *)
Definition resolved_text (r : ResolvedVariable) : M jsstring :=
  match r with
  | Error e => ret e
  | Result v => toString_or_empty v
  end.

Section Compiler.

Variable ext : Externals.
Variable shape : Shape.

(** The local copies that [getResolvedVariable] updates while it splices
    the nested results in. *)
Record Splice := {
  sp_variableTemplate : jsstring;
  sp_check : option (jsstring * jsstring)
}.

(** The body of the [forEach] over the nested variables. *)
Definition splice_nested (data : MatchData)
  (numWhitespaceRemovedBeforeN : list nat) (parseValue : ParseValue)
  (nested : CompiledFn) (sp : Splice) : M Splice :=
  let relativeInsertIndex :=
    (Z.of_nat (insertedIndex nested)
     - Z.of_nat (leftBracketIndex data))%Z in
  resolvedVariable <- resultFn nested parseValue ;;
  resolved <- resolved_text resolvedVariable ;;
  match suffix_mod_check data, sp_check sp with
  | Some mc, Some (true_case, false_case) =>
      let trueCaseOffset :=
        (Z.of_nat (length (js "{" ++ variableTemplateWhitespace data))
         + Z.of_nat (offsetFromVariable mc))%Z in
      let falseCaseOffset :=
        (trueCaseOffset + Z.of_nat (length true_case)
         + offsetFromTrueCase mc)%Z in
      if (falseCaseOffset <=? relativeInsertIndex)%Z then
        ret {| sp_variableTemplate := sp_variableTemplate sp;
               sp_check :=
                 Some (true_case,
                       addResolvedVariable resolved false_case
                         (Some (relativeInsertIndex - falseCaseOffset)%Z)) |}
      else if (trueCaseOffset <=? relativeInsertIndex)%Z then
        ret {| sp_variableTemplate := sp_variableTemplate sp;
               sp_check :=
                 Some (addResolvedVariable resolved true_case
                         (Some (relativeInsertIndex - trueCaseOffset)%Z),
                       false_case) |}
      else
        ret {| sp_variableTemplate :=
                 addResolvedVariable resolved (sp_variableTemplate sp)
                   (option_map
                      (fun k => (relativeInsertIndex - Z.of_nat k)%Z)
                      (nth_error numWhitespaceRemovedBeforeN
                         (Z.to_nat relativeInsertIndex)));
               sp_check := sp_check sp |}
  | _, _ =>
      ret {| sp_variableTemplate :=
               addResolvedVariable resolved (sp_variableTemplate sp)
                 (option_map
                    (fun k => (relativeInsertIndex - Z.of_nat k)%Z)
                    (nth_error numWhitespaceRemovedBeforeN
                       (Z.to_nat relativeInsertIndex)));
             sp_check := sp_check sp |}
  end.

Fixpoint splice_all (data : MatchData)
  (numWhitespaceRemovedBeforeN : list nat) (parseValue : ParseValue)
  (nestedVariablesWIndices : list CompiledFn) (sp : Splice) : M Splice :=
  match nestedVariablesWIndices with
  | [] => ret sp
  | nested :: rest =>
      sp' <- splice_nested data numWhitespaceRemovedBeforeN parseValue
               nested sp ;;
      splice_all data numWhitespaceRemovedBeforeN parseValue rest sp'
  end.

(** [getResolvedVariable] *)
Definition getResolvedVariable (data : MatchData)
  (globalVariableTemplate : jsstring)
  (numWhitespaceRemovedBeforeN : list nat)
  (nestedVariablesWIndices : list CompiledFn) (parseValue : ParseValue)
  : M ResolvedVariable :=
  sp <- splice_all data numWhitespaceRemovedBeforeN parseValue
          nestedVariablesWIndices
          {| sp_variableTemplate := globalVariableTemplate;
             sp_check :=
               option_map (fun mc => (mc_true mc, mc_false mc))
                 (suffix_mod_check data) |} ;;
  parseVariable ext shape (sp_variableTemplate sp)
    {| mod_check := sp_check sp;
       mod_tzlocale := suffix_mod_tzlocale data |}
    parseValue.

(** The length of [checkSuffix]; a negative repeat count is a
    [RangeError]. *)
Definition checkSuffix_length (mc : option ModCheck) : outcome nat :=
  match mc with
  | None => Ok 0
  | Some mc =>
      if (offsetFromTrueCase mc <? 0)%Z
      then Throw (js "RangeError: Invalid count value")
      else Ok (offsetFromVariable mc + length (mc_true mc)
               + Z.to_nat (offsetFromTrueCase mc) + length (mc_false mc)
               + length (dq :: js "]"))
  end.

(** The state of the scan: the working string, the index [i] that the
    next [++i] yields, the open brackets and the compiled functions. *)
Record Scan := {
  sc_str : jsstring;
  sc_i : nat;
  leftBracketIndices : list nat;
  compiledVariableTemplateFns : list CompiledFn
}.

Definition is_nested (data : MatchData) (span : nat) (fn : CompiledFn)
  : bool :=
  (leftBracketIndex data <? insertedIndex fn)
  && (insertedIndex fn <? leftBracketIndex data + span).

(** The part of the loop body after a successful [getMatches]. *)
Definition on_match (sc : Scan) (i : nat) (data : MatchData)
  (stack : list nat) : outcome Scan :=
  let globalVariableTemplate :=
    remove_whitespace (variableTemplateWhitespace data) in
  let numWhitespaceRemovedBeforeN :=
    count_removed globalVariableTemplate
      (variableTemplateWhitespace data) 0 in
  match checkSuffix_length (suffix_mod_check data) with
  | Throw e => Throw e
  | Ok suffix_length =>
      let span :=
        length (js "{") + length (variableTemplateWhitespace data)
        + suffix_length + length (js "}") in
      let nestedVariablesWIndices :=
        rev (filter (is_nested data span)
               (compiledVariableTemplateFns sc)) in
      Ok {| sc_str :=
              slice (sc_str sc) 0 (Z.of_nat (leftBracketIndex data))
                ++ PLACEHOLDER
                ++ slice_from (sc_str sc) (Z.of_nat (i + 1));
            sc_i := leftBracketIndex data + length PLACEHOLDER;
            leftBracketIndices := stack;
            compiledVariableTemplateFns :=
              filter (fun fn => negb (is_nested data span fn))
                (compiledVariableTemplateFns sc)
                ++ [{| resultFn :=
                         getResolvedVariable data globalVariableTemplate
                           numWhitespaceRemovedBeforeN
                           nestedVariablesWIndices;
                       insertedIndex := leftBracketIndex data |}] |}
  end.

Definition advance (sc : Scan) : Scan :=
  {| sc_str := sc_str sc;
     sc_i := S (sc_i sc);
     leftBracketIndices := leftBracketIndices sc;
     compiledVariableTemplateFns := compiledVariableTemplateFns sc |}.

(** One iteration of the [while] loop at index [sc_i]; [None] when the
    loop has ended. *)
Definition scan_step (re : regex) (sc : Scan) : option (outcome Scan) :=
  match nth_error (sc_str sc) (sc_i sc) with
  | None => None
  | Some c =>
      if Ascii.eqb c "{"%char then
        Some (Ok {| sc_str := sc_str sc;
                    sc_i := S (sc_i sc);
                    leftBracketIndices :=
                      leftBracketIndices sc ++ [sc_i sc];
                    compiledVariableTemplateFns :=
                      compiledVariableTemplateFns sc |})
      else if Ascii.eqb c "}"%char then
        match getMatches re (sc_str sc) (sc_i sc) []
                (rev (leftBracketIndices sc)) with
        | None => Some (Ok (advance sc))
        | Some (data, stack) => Some (on_match sc (sc_i sc) data stack)
        end
      else Some (Ok (advance sc))
  end.

Fixpoint scan (fuel : nat) (re : regex) (sc : Scan) : outcome Scan :=
  match fuel with
  | O => Ok sc
  | S fuel' =>
      match scan_step re sc with
      | None => Ok sc
      | Some (Throw e) => Throw e
      | Some (Ok sc') => scan fuel' re sc'
      end
  end.

(** The function that [compileTemplateHelper] returns: the compiled
    functions are run from the last to the first and their texts put in
    place of the placeholders. *)
Fixpoint render_all (fns : list CompiledFn) (resultStr : jsstring)
  (parseValue : ParseValue) : M jsstring :=
  match fns with
  | [] => ret resultStr
  | fn :: rest =>
      resolvedResult <- resultFn fn parseValue ;;
      replacement <- resolved_text resolvedResult ;;
      render_all rest
        (slice resultStr 0 (Z.of_nat (insertedIndex fn)) ++ replacement
           ++ slice_from resultStr
                (Z.of_nat (insertedIndex fn + length PLACEHOLDER)))
        parseValue
  end.

Definition initial_scan (str : jsstring) : Scan :=
  {| sc_str := str; sc_i := 0; leftBracketIndices := [];
     compiledVariableTemplateFns := [] |}.

(** The scan of a whole template; every iteration brings the index one
    step closer to the end of the working string. *)
Definition compile_scan (str : jsstring) : outcome Scan :=
  match RegexBuilder.buildRegexExpression shape with
  | Throw e => Throw e
  | Ok re => scan (length str) re (initial_scan str)
  end.

Definition compileTemplateHelper (str : jsstring)
  : outcome (ParseValue -> M jsstring) :=
  match str with
  | [] => Ok (fun _ => ret [])
  | _ =>
      match compile_scan str with
      | Throw e => Throw e
      | Ok sc =>
          Ok (render_all (rev (compiledVariableTemplateFns sc)) (sc_str sc))
      end
  end.

End Compiler.

(** ** [compileTemplate], the constructor and [format] *)

(** [DebugToolReplacementConstants]; in these two texts a back quote stands
    for a double quote. *)
Module DebugToolReplacementConstants.

Definition modifier : jsstring := jsq "
String: {config.addonName}
  ::upper {config.addonName::upper}
  ::lower {config.addonName::lower}
  ::title {config.addonName::title}
  ::length {config.addonName::length}
  ::reverse {config.addonName::reverse}
{tools.newLine}

Number: {stream.size}
  ::bytes {stream.size::bytes}
  ::time {stream.size::time}
  ::hex {stream.size::hex}
  ::octal {stream.size::octal}
  ::binary {stream.size::binary}
{tools.newLine}

Array: {stream.languages}
  ::join('-separator-') {stream.languages::join(`-separator-`)}
  ::length {stream.languages::length}
  ::first {stream.languages::first}
  ::last {stream.languages::last}
{tools.newLine}

Conditional:
  String: {stream.filename}
    filename::exists    {stream.filename::exists[`true`||`false`]}
    filename::$Movie    {stream.filename::$Movie[`true`||`false`]}
    filename::^mkv    {stream.filename::^mkv[`true`||`false`]}
    filename::~Title     {stream.filename::~Title[`true`||`false`]}
    filename::=test     {stream.filename::=test[`true`||`false`]}
  Number: {stream.size}
    filesize::>=100     {stream.size::>=100[`true`||`false`]}
    filesize::>50       {stream.size::>50[`true`||`false`]}
    filesize::<=200     {stream.size::<=200[`true`||`false`]}
    filesize::<150      {stream.size::<150[`true`||`false`]}
  Boolean: {stream.proxied}
    ::istrue {stream.proxied::istrue[`true`||`false`]}
    ::isfalse {stream.proxied::isfalse[`true`||`false`]}
{tools.newLine}

[Advanced] Multiple modifiers
  <string>::reverse::title::reverse   {config.addonName} -> {config.addonName::reverse::title::reverse}
  <number>::string::reverse           {stream.size} -> {stream.size::string::reverse}
  <array>::string::reverse            {stream.languages} -> {stream.languages::join(`::`)::reverse}
  <boolean>::length::>=2              {stream.languages} -> {stream.languages::length::>=2[`true`||`false`]}
".

Definition comparator : jsstring := jsq "
Comparators: <stream.library({stream.library})>::comparator::<stream.proxied({stream.proxied})>
  ::and:: {stream.library::and::stream.proxied[`true`||`false`]}
  ::or:: {stream.library::or::stream.proxied[`true`||`false`]}
  ::xor:: {stream.library::xor::stream.proxied[`true`||`false`]}
  ::neq:: {stream.library::neq::stream.proxied[`true`||`false`]}
  ::equal:: {stream.library::equal::stream.proxied[`true`||`false`]}
  ::left:: {stream.library::left::stream.proxied[`true`||`false`]}
  ::right:: {stream.library::right::stream.proxied[`true`||`false`]}
{tools.newLine}

[Advanced] Multiple Comparators
  Is English
    stream.languages::~English::or::stream.languages::~dub::and::stream.languages::length::>0[`Yes`||`Unknown`]  ->  {stream.languages::~English::or::stream.languages::~dub::and::stream.languages::length::>0[`Yes`||`Unknown`]}
  Is Fast Enough Link
    service.cached::or::stream.library::or::stream.seeders::>10[`true`||`false`]  ->  {service.cached::istrue::or::stream.library::or::stream.seeders::>10[`true`||`false`]}
".

Definition entries : list (jsstring * jsstring) :=
  [(js "modifier", modifier); (js "comparator", comparator)].

End DebugToolReplacementConstants.

(** [str.replace(pattern, replacement)] for a text pattern: the first
    occurrence only. *)
Definition replace_first (str pattern replacement : jsstring) : jsstring :=
  match indexOf str pattern with
  | Some k => firstn k str ++ replacement ++ skipn (k + length pattern) str
  | None => str
  end.

(** The post-processing of [compileTemplate]. *)
Definition postprocess (s : jsstring) : jsstring :=
  let newline := "010"%char in
  let unescaped := replace_re false (lit (js "\n")) [newline] s in
  let kept :=
    filter (fun line =>
              negb (length (trim line) =? 0)
              && negb (includes line (js "{tools.removeline}")))
      (split_char newline unescaped) in
  replace_re false
    (seqs [lit (js "{tools"); AnyChar; lit (js "newline}")]) [newline]
    (join [newline] kept).

Section Formatter.

Variable ext : Externals.
Variable shape : Shape.

Definition compileTemplate (str : jsstring)
  : outcome (ParseValue -> M jsstring) :=
  let str :=
    fold_left
      (fun s entry =>
         replace_first s (js "{debug." ++ fst entry ++ js "}") (snd entry))
      DebugToolReplacementConstants.entries str in
  match compileTemplateHelper ext shape str with
  | Throw e => Throw e
  | Ok process =>
      Ok (fun parseValue =>
            s <- process parseValue ;; ret (postprocess s))
  end.

(** [FormatterConfig] *)
Record FormatterConfig := { name : jsstring; description : jsstring }.

(** What the constructor leaves in the formatter: the outcome of
    [compileTemplatesAsync], which [format] awaits. *)
Definition compileTemplatesAsync (config : FormatterConfig)
  : outcome ((ParseValue -> M jsstring) * (ParseValue -> M jsstring)) :=
  match compileTemplate (name config) with
  | Throw e => Throw e
  | Ok nameFunction =>
      match compileTemplate (description config) with
      | Throw e => Throw e
      | Ok descriptionFunction => Ok (nameFunction, descriptionFunction)
      end
  end.

(** [format], on the namespace instance of the stream. *)
Definition format (config : FormatterConfig) (parseValue : ParseValue)
  : M (jsstring * jsstring) :=
  match compileTemplatesAsync config with
  | Throw e => throw e
  | Ok (precompiledNameFunction, precompiledDescriptionFunction) =>
      n <- precompiledNameFunction parseValue ;;
      d <- precompiledDescriptionFunction parseValue ;;
      ret (n, d)
  end.

End Formatter.

(** ** Rendering one template *)

(** Compile a template and run the compiled function on a namespace
    instance; a failed compilation is rethrown, as [format] does. *)
Definition render (ext : Externals) (shape : Shape) (template : jsstring)
  (parseValue : ParseValue) : M jsstring :=
  match compileTemplate ext shape template with
  | Throw e => throw e
  | Ok process => process parseValue
  end.

(** The value a computation returns and the state it leaves. *)
Definition run {A} (m : M A) (o : nat -> nat) (st : state)
  : outcome A * state := m o st.

(** A namespace instance with the sections and fields of
    [convertStreamToParseValue]; the array fields are given as heap
    locations. *)
Record SampleStream := {
  s_addonName : value;
  s_filename : value;
  s_size : value;
  s_library : value;
  s_languages : value;
  s_title : value;
  s_seeders : value;
  s_proxied : value
}.

Definition namespace_of (s : SampleStream) : ParseValue :=
  [(js "config", [(js "addonName", s_addonName s)]);
   (js "stream",
    [(js "filename", s_filename s); (js "folderName", VNull);
     (js "size", s_size s); (js "folderSize", VNull);
     (js "library", s_library s); (js "quality", VNull);
     (js "resolution", VNull); (js "languages", s_languages s);
     (js "uLanguages", VNull); (js "languageEmojis", VNull);
     (js "uLanguageEmojis", VNull); (js "languageCodes", VNull);
     (js "uLanguageCodes", VNull); (js "smallLanguageCodes", VNull);
     (js "uSmallLanguageCodes", VNull);
     (js "wedontknowwhatakilometeris", VNull);
     (js "uWedontknowwhatakilometeris", VNull); (js "visualTags", VNull);
     (js "audioTags", VNull); (js "releaseGroup", VNull);
     (js "regexMatched", VNull); (js "encode", VNull);
     (js "audioChannels", VNull); (js "indexer", VNull);
     (js "seeders", s_seeders s); (js "year", VNull); (js "type", VNull);
     (js "title", s_title s); (js "season", VNull); (js "seasons", VNull);
     (js "episode", VNull); (js "seasonEpisode", VNull);
     (js "duration", VNull); (js "infoHash", VNull); (js "age", VNull);
     (js "message", VNull); (js "proxied", s_proxied s)]);
   (js "addon",
    [(js "name", VNull); (js "presetId", VNull); (js "manifestUrl", VNull)]);
   (js "service",
    [(js "id", VNull); (js "shortName", VNull); (js "name", VNull);
     (js "cached", VNull)]);
   (js "tools",
    [(js "removeline", VStr (js "{tools.removeline}"));
     (js "newline", VStr (js "{tools.newline}"))]);
   (js "debug",
    [(js "modifier", VStr DebugToolReplacementConstants.modifier);
     (js "comparator", VStr DebugToolReplacementConstants.comparator);
     (js "json", VNull); (js "jsonf", VNull)])].

(** ** The rule of the prefix modifiers, in the words of the
    specification *)

(** The pre-check of the conditional modifiers on a given heap. *)
Definition value_present (h : heap) (v : value) : bool :=
  match v with
  | VUndefined | VNull => false
  | VStr s => has_non_space s
  | VArr l => 0 <? length (heap_get h l)
  | _ => true
  end.

(** The comparison of two numbers under an ordering or equality prefix. *)
Definition numeric_comparison (p : jsstring) (value check : jsnum) : bool :=
  if str_eqb p (js "=") then num_eqb value check
  else if str_eqb p (js ">=") then num_leb check value
  else if str_eqb p (js ">") then num_ltb check value
  else if str_eqb p (js "<=") then num_leb value check
  else if str_eqb p (js "<") then num_ltb value check
  else false.

(** The comparison of two texts under any of the eight prefixes. *)
Definition text_comparison (p : jsstring) (value check : jsstring) : bool :=
  if str_eqb p (js "$") then startsWith value check
  else if str_eqb p (js "^") then endsWith value check
  else if str_eqb p (js "~") then includes value check
  else if str_eqb p (js "=") then str_eqb value check
  else if str_eqb p (js ">=") then str_leb check value
  else if str_eqb p (js ">") then str_ltb check value
  else if str_eqb p (js "<=") then str_leb value check
  else if str_eqb p (js "<") then str_ltb value check
  else false.

(** The numbers of this model are integers; [String(n)] is their decimal
    text as long as the double holds the integer exactly, that is up to
    [2 ^ 53] in magnitude. *)
Definition safe_integer (n : Z) : bool := (Z.abs n <=? 2 ^ 53)%Z.

Definition value_in_range (h : heap) (v : value) : bool :=
  match v with
  | VNum n => safe_integer n
  | VArr l =>
      forallb
        (fun e => match e with ENum n => safe_integer n | EStr _ => true end)
        (heap_get h l)
  | _ => true
  end.

(** A text with its thousands separators (a comma and the blank after it)
    taken out, read as a number. *)
Definition parse_numeric (s : jsstring) : jsnum :=
  Number_of_string (replace_re false thousands_separator [] s).

(** The result of a prefix function, [false] when it throws. *)
Definition or_false (r : outcome bool) : bool :=
  match r with Ok b => b | Throw _ => false end.

(** A template that spells the [random] modifier somewhere, in any case. *)
Definition mentions_random (template : jsstring) : bool :=
  includes (toLowerCase template) (js "random").

(** Two names that are equal when compared case-insensitively. *)
Definition collide (a b : jsstring) : bool :=
  str_eqb (toLowerCase a) (toLowerCase b).

(** ** Well-behaved computations *)

(** [h'] holds every array of [h], unchanged, and possibly new ones. *)
Definition extends (h h' : heap) : Prop := exists fresh, h' = h ++ fresh.

(** A computation is well-behaved when it leaves every array that existed
    before untouched, never loses a random draw, and, if it ends without
    having drawn, does the same under every oracle. *)
Definition well_behaved {A} (m : M A) : Prop :=
  forall o st,
    extends (st_heap st) (st_heap (snd (m o st)))
    /\ st_draws st <= st_draws (snd (m o st))
    /\ (st_draws (snd (m o st)) = st_draws st ->
        forall o', m o' st = m o st).

(** Every compiled function of a list is well-behaved on every namespace
    instance. *)
Definition all_well_behaved (fns : list CompiledFn) : Prop :=
  Forall (fun fn => forall parseValue, well_behaved (resultFn fn parseValue))
    fns.

(** Two heaps hold the same arrays at the locations below [n]. *)
Definition agree (n : nat) (h h' : heap) : Prop :=
  n <= length h /\ n <= length h'
  /\ forall l, l < n -> heap_get h' l = heap_get h l.

(** The array of a value, of a resolved variable, the arrays of a
    namespace instance lie below [n]. *)
Definition value_below (n : nat) (v : value) : Prop :=
  match v with VArr l => l < n | _ => True end.

Definition resolved_below (n : nat) (r : ResolvedVariable) : Prop :=
  match r with Result v => value_below n v | Error _ => True end.

Definition option_below (n : nat) (r : option value) : Prop :=
  match r with Some v => value_below n v | None => True end.

Definition namespace_below (n : nat) (parseValue : ParseValue) : Prop :=
  Forall (fun sec => Forall (fun field => value_below n (snd field)) (snd sec))
    parseValue.

(** A computation is framed by [n] when it does on a heap what it does on
    any other heap that holds the same arrays below [n], the draws made
    so far being as many: it returns the same, which satisfies [P], draws
    as often, and leaves the arrays below [n] the same again. *)
Definition framed (n : nat) {A} (P : A -> Prop) (m : M A) : Prop :=
  forall o st st',
    agree n (st_heap st) (st_heap st') ->
    st_draws st' = st_draws st ->
    fst (m o st') = fst (m o st)
    /\ agree n (st_heap (snd (m o st))) (st_heap (snd (m o st')))
    /\ st_draws (snd (m o st')) = st_draws (snd (m o st))
    /\ match fst (m o st) with Ok a => P a | Throw _ => True end.

(** Every compiled function of a list is framed by [n] on the namespace
    instances whose arrays lie below [n]. *)
Definition all_framed (n : nat) (fns : list CompiledFn) : Prop :=
  Forall (fun fn =>
            forall parseValue,
              namespace_below n parseValue ->
              framed n (resolved_below n) (resultFn fn parseValue))
    fns.

(** ** Templates without a recognized expression *)

Definition recognized (re : regex) (candidate : jsstring) : bool :=
  match exec true re (strip_spaces candidate) with
  | Some _ => true
  | None => false
  end.

(** The span of [template] from index [l] to index [i], both included. *)
Definition span (template : jsstring) (l i : nat) : jsstring :=
  slice template (Z.of_nat l) (Z.of_nat (i + 1)).

Definition is_char (template : jsstring) (k : nat) (c : ascii) : bool :=
  match nth_error template k with
  | Some x => Ascii.eqb x c
  | None => false
  end.

(** No span of the template that runs from a [{] to a later [}] is an
    expression of the grammar. *)
Definition no_span_recognized (re : regex) (template : jsstring) : bool :=
  forallb
    (fun i =>
       forallb
         (fun l =>
            if is_char template l "{"%char
            then if is_char template i "}"%char
                 then negb (recognized re (span template l i))
                 else true
            else true)
         (seq 0 i))
    (seq 0 (length template)).

(** The function [compileTemplateHelper] returns, run on a namespace
    instance. *)
Definition render_helper (ext : Externals) (shape : Shape)
  (template : jsstring) (parseValue : ParseValue) : M jsstring :=
  match compileTemplateHelper ext shape template with
  | Throw e => throw e
  | Ok process => process parseValue
  end.

(** The grammar of the formatter's own namespace shape. *)
Definition grammar0 : regex :=
  match RegexBuilder.buildRegexExpression
          hardcodedParseValueKeysForRegexMatching with
  | Ok re => re
  | Throw _ => Eps
  end.

(** ** The matcher moves forward *)

(** [st'] is [st] after [n] more characters of the input. *)
Definition advanced (n : nat) (st st' : mstate) : Prop :=
  m_pos st' = m_pos st + n
  /\ n <= length (m_rest st)
  /\ m_rest st' = skipn n (m_rest st).

(** Two names of a list collide. *)
Fixpoint has_collision (names : list jsstring) : bool :=
  match names with
  | [] => false
  | a :: rest => existsb (collide a) rest || has_collision rest
  end.

(** A resolved value that is not the [unable_to_compare] error. *)
Definition comparable (r : ResolvedVariable) : Prop :=
  match r with
  | Result _ => True
  | Error e => startsWith e (js "{unable_to_compare(") = false
  end.

(** ** Sample inputs *)

(** The namespace shape of the formatter, for short. *)
Definition shape0 : Shape := hardcodedParseValueKeysForRegexMatching.

(** Externals that answer with fixed texts, for closed examples. *)
Definition sample_externals : Externals :=
  {| formatBytes := fun _ _ => js "1.5 GB";
     formatDuration := fun _ => js "1h:30m:0s";
     toLocaleString := number_toString;
     btoa := fun s => s;
     replaceAll := fun v _ _ => v;
     split_dynamic := fun _ s => Some [s] |}.

(** The same with a [split] that refuses a pattern that opens a group
    without closing it, as [new RegExp] does. *)
Definition strict_externals : Externals :=
  {| formatBytes := formatBytes sample_externals;
     formatDuration := formatDuration sample_externals;
     toLocaleString := toLocaleString sample_externals;
     btoa := btoa sample_externals;
     replaceAll := replaceAll sample_externals;
     split_dynamic :=
       fun pattern s =>
         if includes pattern (js "(") && negb (includes pattern (js ")"))
         then None else Some [s] |}.

Definition sample_stream : SampleStream :=
  {| s_addonName := VStr (js "AIO");
     s_filename := VStr (js "x::or::stream.languages::random");
     s_size := VNum 1024;
     s_library := VBool true;
     s_languages := VArr 0;
     s_title := VStr (js "open arms");
     s_seeders := VNum 12;
     s_proxied := VBool false |}.

Definition sample_state : state :=
  State [[EStr (js "English"); EStr (js "Italian")]] 0.

(** A shape that is well-typed for the builder and has two fields of one
    section that collide. *)
Definition colliding_shape : Shape :=
  [(js "tools", [js "removeline"; js "newline"]);
   (js "Stream", [js "size"; js "Size"])].

(** ** Modifiers by the type they apply to *)

(** The modifiers for numbers or for arrays that are not also modifiers
    for texts. *)
Definition number_or_array_only_modifiers : list jsstring :=
  map js
    ["comma"; "hex"; "octal"; "binary"; "bytes"; "bytes10"; "bytes2";
     "time"; "join"; "first"; "last"; "random"; "sort"]%string.

(** The modifiers of the grammar that are spelled with letters. *)
Definition lettered_modifiers : list jsstring :=
  filter (existsb is_letter) RegexBuilder.namedModifiers.

(** ** The order of [Array.prototype.sort] *)

(** [a] does not come after [b] in the order of their texts. *)
Definition text_le (a b : elem) : Prop :=
  str_ltb (elem_toString b) (elem_toString a) = false.

(** ** A template behind a text without an opening bracket *)

(** Two compiled functions that resolve alike, the second one inserted
    [n] places further to the right. *)
Definition fn_shift (n : nat) (f f' : CompiledFn) : Prop :=
  insertedIndex f' = n + insertedIndex f
  /\ forall parseValue o st,
       resultFn f' parseValue o st = resultFn f parseValue o st.

(** The state of the scan of [pre ++ t] that corresponds to a state of
    the scan of [t]. *)
Definition shifted (pre : jsstring) (sc sc' : Scan) : Prop :=
  sc_str sc' = pre ++ sc_str sc
  /\ sc_i sc' = length pre + sc_i sc
  /\ leftBracketIndices sc'
     = map (Nat.add (length pre)) (leftBracketIndices sc)
  /\ Forall2 (fn_shift (length pre)) (compiledVariableTemplateFns sc)
       (compiledVariableTemplateFns sc').

Definition shift_data (n : nat) (d : MatchData) : MatchData :=
  {| leftBracketIndex := n + leftBracketIndex d;
     variableTemplateWhitespace := variableTemplateWhitespace d;
     suffix_mod_check := suffix_mod_check d;
     suffix_mod_tzlocale := suffix_mod_tzlocale d |}.

(** Two outcomes that throw the same exception or whose values are
    related. *)
Definition outcome_rel {A} (R : A -> A -> Prop) (x y : outcome A) : Prop :=
  match x, y with
  | Ok a, Ok b => R a b
  | Throw e, Throw e' => e = e'
  | _, _ => False
  end.

Definition has_no_open_bracket (s : jsstring) : bool :=
  forallb (fun c => negb (Ascii.eqb c "{"%char)) s.

(** The pre-processing of [compileTemplate]: the first [{debug.modifier}]
    and the first [{debug.comparator}] are replaced by their texts. *)
Definition replace_debug_keys (str : jsstring) : jsstring :=
  fold_left
    (fun s entry =>
       replace_first s (js "{debug." ++ fst entry ++ js "}") (snd entry))
    DebugToolReplacementConstants.entries str.

(** ** A reference to a field *)

(** The text of the field [f] of the section [sec] of a namespace
    instance, as [resolved.result?.toString() ?? ''] gives it; a namespace
    instance without the section makes the property access throw. *)
Definition field_text (sec f : jsstring) (parseValue : ParseValue)
  : M jsstring :=
  match assoc sec parseValue with
  | None => throw cannot_read_properties
  | Some fields =>
      toString_or_empty
        (match assoc f fields with Some v => v | None => VUndefined end)
  end.

(** The template [{sec.f}]. *)
Definition field_reference (sec f : jsstring) : jsstring :=
  js "{" ++ sec ++ js "." ++ f ++ js "}".

(** The value of the field [f] of the section [sec], as the property
    accesses of [parseModifiedVariable] yield it; a namespace instance
    without the section makes the access throw. *)
Definition field_value (sec f : jsstring) (parseValue : ParseValue)
  : M ResolvedVariable :=
  match assoc sec parseValue with
  | None => throw cannot_read_properties
  | Some fields =>
      ret (Result
             (match assoc f fields with Some v => v | None => VUndefined end))
  end.

(** The sections and fields of the formatter's namespace, as pairs. *)
Definition all_fields : list (jsstring * jsstring) :=
  flat_map (fun section => map (pair (fst section)) (snd section)) shape0.

(** The state in which the scan of a template that is one expression
    ends. *)
Definition one_expression (fn : ParseValue -> M ResolvedVariable) : Scan :=
  {| sc_str := PLACEHOLDER;
     sc_i := 1;
     leftBracketIndices := [];
     compiledVariableTemplateFns :=
       [{| resultFn := fn; insertedIndex := 0 |}] |}.

(** ** The shapes that the duplicate check rejects *)

(** Two section names collide, or two field names collide in a section
    that is found under the lower-cased spelling of a section name. *)
Definition rejected (shape : Shape) : bool :=
  has_collision (map fst shape)
  || existsb
       (fun name =>
          match assoc (toLowerCase name) shape with
          | Some fields => has_collision fields
          | None => false
          end)
       (map fst shape).

(** ** [convertStreamToParseValue] and [format] on a stream *)

(** [ParsedStream] and [UserData], as far as [convertStreamToParseValue]
    reads them.  [None] is a property that is [undefined] or [null]; the
    arrays of the stream are given by their locations in the heap. *)
Record ParsedFile := {
  pf_quality : option jsstring;
  pf_resolution : option jsstring;
  pf_languages : option loc;
  pf_visualTags : option loc;
  pf_audioTags : option loc;
  pf_releaseGroup : option jsstring;
  pf_encode : option jsstring;
  pf_audioChannels : option loc;
  pf_year : option jsstring;
  pf_title : option jsstring;
  pf_season : option Z;
  pf_seasons : option loc;
  pf_episode : option Z;
  pf_seasonEpisode : option loc
}.

Record Torrent := {
  t_seeders : option Z;
  t_infoHash : option jsstring
}.

Record StreamAddon := {
  a_name : option jsstring;
  a_preset_type : option jsstring;
  a_manifestUrl : option jsstring
}.

Record StreamService := {
  sv_id : option jsstring;
  sv_cached : option bool
}.

Record ParsedStream := {
  ps_filename : option jsstring;
  ps_folderName : option jsstring;
  ps_size : option Z;
  ps_folderSize : option Z;
  ps_library : option bool;
  ps_parsedFile : option ParsedFile;
  ps_regexMatched_name : option jsstring;
  ps_indexer : option jsstring;
  ps_torrent : option Torrent;
  ps_type : option jsstring;
  ps_duration : option Z;
  ps_age : option jsstring;
  ps_message : option jsstring;
  ps_proxied : option bool;
  ps_addon : option StreamAddon;
  ps_service : option StreamService
}.

Record UserData := {
  preferredLanguages : option (list jsstring);
  requiredLanguages : option (list jsstring);
  includedLanguages : option (list jsstring);
  addonName : option jsstring
}.

(** What [convertStreamToParseValue] takes from other modules:
    [languageToEmoji], [languageToCode] and [makeSmall] of [utils.js],
    [Env.ADDON_NAME], the entries [(id, (shortName, name))] of
    [constants.SERVICE_DETAILS], the two calls of [JSON.stringify], and
    the two emoji texts of the [replace], which have no code unit below
    256. *)
Record ConvertExternals := {
  languageToEmoji : elem -> option jsstring;
  languageToCode : elem -> option jsstring;
  makeSmall : elem -> jsstring;
  ADDON_NAME : jsstring;
  SERVICE_DETAILS : list (jsstring * (option jsstring * option jsstring));
  JSON_stringify : bool -> heap -> ParseValue -> jsstring;
  FLAG_GB : jsstring;
  FLAG_US_EAGLE : jsstring
}.

(** [new Array]: a fresh array with the elements [xs]. *)
Definition new_array (xs : list elem) : M loc :=
  fun _ st =>
    (Ok (length (st_heap st)), State (st_heap st ++ [xs]) (st_draws st)).

(** [x || null] on a text, a number, an array; [x !== undefined ? x :
    null] on a boolean; [x ?? null] on a number. *)
Definition text_or_null (x : option jsstring) : value :=
  match x with
  | Some (c :: s) => VStr (c :: s)
  | _ => VNull
  end.

Definition number_or_null (x : option Z) : value :=
  match x with
  | Some n => if (n =? 0)%Z then VNull else VNum n
  | None => VNull
  end.

Definition array_or_null (x : option loc) : value :=
  match x with
  | Some l => VArr l
  | None => VNull
  end.

Definition boolean_if_defined (x : option bool) : value :=
  match x with
  | Some b => VBool b
  | None => VNull
  end.

Definition number_if_not_nullish (x : option Z) : value :=
  match x with
  | Some n => VNum n
  | None => VNull
  end.

(** [a === b] on two elements. *)
Definition elem_eqb (a b : elem) : bool :=
  match a, b with
  | EStr s, EStr t => str_eqb s t
  | ENum n, ENum m => (n =? m)%Z
  | _, _ => false
  end.

(** [l.indexOf(x)], with the test [p] for being [x]: [-1] when no
    element passes. *)
Fixpoint index_where {A} (p : A -> bool) (l : list A) : Z :=
  match l with
  | [] => (-1)%Z
  | x :: t =>
      if p x then 0%Z
      else let r := index_where p t in
           if (r <? 0)%Z then (-1)%Z else (r + 1)%Z
  end.

(** The elements in the order of their first occurrence: [[...new
    Set(l)]], and [l.filter((value, index, self) => self.indexOf(value)
    === index)]. *)
Fixpoint first_occurrences_from {A} (eqb : A -> A -> bool)
  (seen l : list A) : list A :=
  match l with
  | [] => []
  | x :: t =>
      if existsb (eqb x) seen then first_occurrences_from eqb seen t
      else x :: first_occurrences_from eqb (x :: seen) t
  end.

Definition first_occurrences {A} (eqb : A -> A -> bool) (l : list A)
  : list A :=
  first_occurrences_from eqb [] l.

Definition or_empty {A} (x : option (list A)) : list A :=
  match x with Some l => l | None => [] end.

Definition userSpecifiedLanguages (userData : UserData) : list jsstring :=
  first_occurrences str_eqb
    (or_empty (preferredLanguages userData)
     ++ or_empty (requiredLanguages userData)
     ++ or_empty (includedLanguages userData)).

(** The text [s] is the element [e]. *)
Definition is_text (e : elem) (s : jsstring) : bool := elem_eqb (EStr s) e.

(** The comparator that sorts the languages. *)
Definition compare_languages (user : list jsstring) (languages : list elem)
  (a b : elem) : Z :=
  let aIndex := index_where (is_text a) user in
  let bIndex := index_where (is_text b) user in
  let aInUser := negb (aIndex =? -1)%Z in
  let bInUser := negb (bIndex =? -1)%Z in
  if aInUser && bInUser then (aIndex - bIndex)%Z
  else if aInUser then (-1)%Z
  else if bInUser then 1%Z
  else (index_where (elem_eqb a) languages
        - index_where (elem_eqb b) languages)%Z.

(** [Array.prototype.sort(comparefn)]: the stable sort, which is what
    every implementation yields when [comparefn] is consistent. *)
Fixpoint insert_by (comparefn : elem -> elem -> Z) (x : elem)
  (l : list elem) : list elem :=
  match l with
  | [] => [x]
  | y :: t =>
      if (comparefn y x <? 0)%Z then y :: insert_by comparefn x t
      else x :: l
  end.

Definition sort_by (comparefn : elem -> elem -> Z) (xs : list elem)
  : list elem :=
  fold_right (insert_by comparefn) [] xs.

Fixpoint map_outcome {A B} (f : A -> outcome B) (l : list A)
  : outcome (list B) :=
  match l with
  | [] => Ok []
  | x :: t =>
      match f x with
      | Throw e => Throw e
      | Ok y =>
          match map_outcome f t with
          | Throw e => Throw e
          | Ok ys => Ok (y :: ys)
          end
      end
  end.

(** [x?.p]: the property [p] of [x], [undefined] when [x] is. *)
Definition optional {A B} (x : option A) (p : A -> option B) : option B :=
  match x with
  | Some a => p a
  | None => None
  end.

Section Convert.

Variable cx : ConvertExternals.
Variable userData : UserData.

(** [languageToEmoji(lang) || lang] *)
Definition emoji_of (lang : elem) : elem :=
  match languageToEmoji cx lang with
  | Some (c :: s) => EStr (c :: s)
  | _ => lang
  end.

(** [languageToCode(lang) || lang.toUpperCase()] *)
Definition code_or_upper (lang : elem) : outcome elem :=
  match languageToCode cx lang with
  | Some (c :: s) => Ok (EStr (c :: s))
  | _ =>
      match lang with
      | EStr s => Ok (EStr (toUpperCase s))
      | ENum _ => Throw (js "TypeError: lang.toUpperCase is not a function")
      end
  end.

(** [languageToCode(lang) || lang] *)
Definition code_of (lang : elem) : elem :=
  match languageToCode cx lang with
  | Some (c :: s) => EStr (c :: s)
  | _ => lang
  end.

(** [emoji.replace(GB, US + eagle)] *)
Definition americanise (emoji : elem) : outcome elem :=
  match emoji with
  | EStr s => Ok (EStr (replace_first s (FLAG_GB cx) (FLAG_US_EAGLE cx)))
  | ENum _ => Throw (js "TypeError: emoji.replace is not a function")
  end.

(** [xs ? f(xs) : null], where [f] builds a new array or throws. *)
Definition derived (xs : option (list elem))
  (f : list elem -> outcome (list elem)) : M value :=
  match xs with
  | None => ret VNull
  | Some l =>
      match f l with
      | Throw e => throw e
      | Ok ys => a <- new_array ys ;; ret (VArr a)
      end
  end.

Definition emojis (l : list elem) : outcome (list elem) :=
  Ok (first_occurrences elem_eqb (map emoji_of l)).

Definition codes (l : list elem) : outcome (list elem) :=
  match map_outcome code_or_upper l with
  | Throw e => Throw e
  | Ok ys => Ok (first_occurrences elem_eqb ys)
  end.

Definition smallCodes (l : list elem) : outcome (list elem) :=
  Ok (map (fun code => EStr (makeSmall cx code))
        (first_occurrences elem_eqb (map code_of l))).

Definition kilometers (l : list elem) : outcome (list elem) :=
  match map_outcome americanise (map emoji_of l) with
  | Throw e => Throw e
  | Ok ys => Ok (first_occurrences elem_eqb ys)
  end.

(** The entry of [SERVICE_DETAILS] with the id of the stream's service. *)
Definition service_details (stream : ParsedStream)
  : option (option jsstring * option jsstring) :=
  match optional (ps_service stream) sv_id with
  | Some (c :: s) =>
      option_map snd
        (find (fun service => str_eqb (fst service) (c :: s))
           (SERVICE_DETAILS cx))
  | _ => None
  end.

Definition convertStreamToParseValue (stream : ParsedStream)
  : M ParseValue :=
  let file := ps_parsedFile stream in
  let user := userSpecifiedLanguages userData in
  languages <-
    match optional file pf_languages with
    | Some l => xs <- read_array l ;; ret (Some xs)
    | None => ret None
    end ;;
  let sorted :=
    option_map (fun ls => sort_by (compare_languages user ls) ls)
      languages in
  sortedLanguages <- derived sorted (fun l => Ok l) ;;
  let onlyUser :=
    option_map (filter (fun lang => existsb (is_text lang) user)) sorted in
  onlyUserSpecifiedLanguages <- derived onlyUser (fun l => Ok l) ;;
  languageEmojis <- derived sorted emojis ;;
  uLanguageEmojis <- derived onlyUser emojis ;;
  languageCodes <- derived sorted codes ;;
  uLanguageCodes <- derived onlyUser codes ;;
  smallLanguageCodes <- derived sorted smallCodes ;;
  uSmallLanguageCodes <- derived onlyUser smallCodes ;;
  wedontknowwhatakilometeris <- derived sorted kilometers ;;
  uWedontknowwhatakilometeris <- derived onlyUser kilometers ;;
  let parseValue : ParseValue :=
    [(js "config",
      [(js "addonName",
        match addonName userData with
        | Some (c :: s) => VStr (c :: s)
        | _ => VStr (ADDON_NAME cx)
        end)]);
     (js "stream",
      [(js "filename", text_or_null (ps_filename stream));
       (js "folderName", text_or_null (ps_folderName stream));
       (js "size", number_or_null (ps_size stream));
       (js "folderSize", number_or_null (ps_folderSize stream));
       (js "library", boolean_if_defined (ps_library stream));
       (js "quality", text_or_null (optional file pf_quality));
       (js "resolution", text_or_null (optional file pf_resolution));
       (js "languages", sortedLanguages);
       (js "uLanguages", onlyUserSpecifiedLanguages);
       (js "languageEmojis", languageEmojis);
       (js "uLanguageEmojis", uLanguageEmojis);
       (js "languageCodes", languageCodes);
       (js "uLanguageCodes", uLanguageCodes);
       (js "smallLanguageCodes", smallLanguageCodes);
       (js "uSmallLanguageCodes", uSmallLanguageCodes);
       (js "wedontknowwhatakilometeris", wedontknowwhatakilometeris);
       (js "uWedontknowwhatakilometeris", uWedontknowwhatakilometeris);
       (js "visualTags", array_or_null (optional file pf_visualTags));
       (js "audioTags", array_or_null (optional file pf_audioTags));
       (js "releaseGroup", text_or_null (optional file pf_releaseGroup));
       (js "regexMatched", text_or_null (ps_regexMatched_name stream));
       (js "encode", text_or_null (optional file pf_encode));
       (js "audioChannels", array_or_null (optional file pf_audioChannels));
       (js "indexer", text_or_null (ps_indexer stream));
       (js "seeders",
        number_if_not_nullish (optional (ps_torrent stream) t_seeders));
       (js "year", text_or_null (optional file pf_year));
       (js "type", text_or_null (ps_type stream));
       (js "title", text_or_null (optional file pf_title));
       (js "season", number_or_null (optional file pf_season));
       (js "seasons", array_or_null (optional file pf_seasons));
       (js "episode", number_or_null (optional file pf_episode));
       (js "seasonEpisode", array_or_null (optional file pf_seasonEpisode));
       (js "duration", number_or_null (ps_duration stream));
       (js "infoHash",
        text_or_null (optional (ps_torrent stream) t_infoHash));
       (js "age", text_or_null (ps_age stream));
       (js "message", text_or_null (ps_message stream));
       (js "proxied", boolean_if_defined (ps_proxied stream))]);
     (js "addon",
      [(js "name", text_or_null (optional (ps_addon stream) a_name));
       (js "presetId",
        text_or_null (optional (ps_addon stream) a_preset_type));
       (js "manifestUrl",
        text_or_null (optional (ps_addon stream) a_manifestUrl))]);
     (js "service",
      [(js "id", text_or_null (optional (ps_service stream) sv_id));
       (js "shortName",
        text_or_null (optional (service_details stream) fst));
       (js "name", text_or_null (optional (service_details stream) snd));
       (js "cached",
        boolean_if_defined (optional (ps_service stream) sv_cached))]);
     (js "tools",
      [(js "removeline", VStr (js "{tools.removeline}"));
       (js "newline", VStr (js "{tools.newline}"))])] in
  fun _ st =>
    (Ok (parseValue
         ++ [(js "debug",
              [(js "modifier", VStr DebugToolReplacementConstants.modifier);
               (js "comparator",
                VStr DebugToolReplacementConstants.comparator);
               (js "json",
                VStr (JSON_stringify cx false (st_heap st) parseValue));
               (js "jsonf",
                VStr (JSON_stringify cx true (st_heap st) parseValue))])]),
     st).

(** [{} as ParsedStream] *)
Definition emptyStream : ParsedStream :=
  {| ps_filename := None; ps_folderName := None; ps_size := None;
     ps_folderSize := None; ps_library := None; ps_parsedFile := None;
     ps_regexMatched_name := None; ps_indexer := None; ps_torrent := None;
     ps_type := None; ps_duration := None; ps_age := None;
     ps_message := None; ps_proxied := None; ps_addon := None;
     ps_service := None |}.

(** What the constructor hands to the regex builder: the keys of
    [convertStreamToParseValue({})]. *)
Definition constructor_shape : outcome Shape :=
  match convertStreamToParseValue emptyStream (fun _ => 0) (State [] 0) with
  | (Ok parseValue, _) => Ok (shape_of parseValue)
  | (Throw e, _) => Throw e
  end.

Variable ext : Externals.

(** [format(stream)]: the compiled templates are awaited, the stream is
    converted, and the two compiled functions are run on the namespace
    instance. *)
Definition format_stream (config : FormatterConfig) (stream : ParsedStream)
  : M (jsstring * jsstring) :=
  match constructor_shape with
  | Throw e => throw e
  | Ok shape =>
      match compileTemplatesAsync ext shape config with
      | Throw e => throw e
      | Ok (precompiledNameFunction, precompiledDescriptionFunction) =>
          parseValue <- convertStreamToParseValue stream ;;
          n <- precompiledNameFunction parseValue ;;
          d <- precompiledDescriptionFunction parseValue ;;
          ret (n, d)
      end
  end.

End Convert.

(** The language [lang] is one of the user's. *)
Definition in_user (user : list jsstring) (lang : elem) : bool :=
  existsb (is_text lang) user.

(** The comparator does not put [a] after [b]. *)
Definition lang_le (user : list jsstring) (languages : list elem)
  (a b : elem) : Prop :=
  (compare_languages user languages a b <= 0)%Z.

(** [parseValue[sec][f]] *)
Definition field_of (parseValue : ParseValue) (sec f : jsstring) : value :=
  match assoc sec parseValue with
  | Some fields =>
      match assoc f fields with
      | Some v => v
      | None => VUndefined
      end
  | None => VUndefined
  end.

(** The languages of a stream, as the heap [h] holds them. *)
Definition languages_of (h : heap) (stream : ParsedStream) : list elem :=
  match optional (ps_parsedFile stream) pf_languages with
  | Some l => heap_get h l
  | None => []
  end.

Definition is_string (e : elem) : bool :=
  match e with
  | EStr _ => true
  | ENum _ => false
  end.

(** A stream, its user and helpers that answer with fixed texts, for
    closed examples. *)
Definition sample_convert_externals : ConvertExternals :=
  {| languageToEmoji := fun _ => None;
     languageToCode := fun _ => None;
     makeSmall := elem_toString;
     ADDON_NAME := js "AIOStreams";
     SERVICE_DETAILS :=
       [(js "realdebrid", (Some (js "RD"), Some (js "Real-Debrid")))];
     JSON_stringify := fun _ _ _ => js "{}";
     FLAG_GB := js "GB";
     FLAG_US_EAGLE := js "US" |}.

Definition sample_user : UserData :=
  {| preferredLanguages := Some [js "Italian"];
     requiredLanguages := None;
     includedLanguages := None;
     addonName := None |}.

Definition sample_parsed_stream : ParsedStream :=
  {| ps_filename := Some (js "open.arms.mkv");
     ps_folderName := None;
     ps_size := Some 0%Z;
     ps_folderSize := None;
     ps_library := Some false;
     ps_parsedFile :=
       Some {| pf_quality := None; pf_resolution := Some (js "1080p");
               pf_languages := Some 0; pf_visualTags := None;
               pf_audioTags := None; pf_releaseGroup := None;
               pf_encode := None; pf_audioChannels := None;
               pf_year := None; pf_title := Some (js "Open Arms");
               pf_season := None; pf_seasons := None; pf_episode := None;
               pf_seasonEpisode := None |};
     ps_regexMatched_name := None;
     ps_indexer := None;
     ps_torrent := Some {| t_seeders := Some 0%Z; t_infoHash := None |};
     ps_type := None;
     ps_duration := None;
     ps_age := None;
     ps_message := None;
     ps_proxied := None;
     ps_addon := None;
     ps_service := None |}.

(** ** Texts that the post-processing of [compileTemplate] only cuts into
    lines *)

(** A character that is no line feed, no backslash and no opening
    bracket. *)
Definition plain_char (c : ascii) : bool :=
  negb (Ascii.eqb c "010"%char) && negb (Ascii.eqb c "\"%char)
  && negb (Ascii.eqb c "{"%char).

Definition plain_line (line : jsstring) : bool := forallb plain_char line.

(** [line.trim() === ''] *)
Definition blank (line : jsstring) : bool := length (trim line) =? 0.

(** ** The formatter of [formatters/base.ts]: [LocalCache], [parseString]
    and [format]

    This earlier formatter evaluates a template each time it is asked to,
    and keeps what it has evaluated in a [LocalCache] that belongs to the
    formatter.  The evaluation itself ([parseStringHelper]) and the
    conversion of the stream are taken as they come: the definitions
    below are the cache and the two functions around it. *)

Module Legacy.

(** What the cache holds ([Map<string, any>]): the results of
    [parseString] (a text or [null]), of [parseModifiedVariable] (a
    resolved variable) and of [applySingleModifier] (a text, a boolean or
    [undefined]). *)
Inductive any :=
| AUndefined
| ANull
| AString (s : jsstring)
| ABoolean (b : bool)
| AResolved (r : ResolvedVariable).

Definition Map_ := list (jsstring * any).

(** [map.get(key)] *)
Definition Map_get (m : Map_) (key : jsstring) : any :=
  match assoc key m with
  | Some v => v
  | None => AUndefined
  end.

(** [map.set(key, v)] *)
Fixpoint Map_set (m : Map_) (key : jsstring) (v : any) : Map_ :=
  match m with
  | [] => [(key, v)]
  | (k, x) :: t =>
      if str_eqb key k then (k, v) :: t else (k, x) :: Map_set t key v
  end.

(** [v || ''] *)
Definition or_empty_text (v : any) : any :=
  match v with
  | AUndefined | ANull | AString [] | ABoolean false => AString []
  | _ => v
  end.

Section Formatter.

(** What the evaluation reads and writes besides the cache. *)
Variable World : Type.

Definition L (A : Type) : Type :=
  Map_ * World -> outcome A * (Map_ * World).

Variable convertStreamToParseValue :
  ParsedStream -> World -> outcome ParseValue * World.
Variable parseStringHelper : jsstring -> ParseValue -> L any.

(** [LocalCache.get] *)
Definition get (key : jsstring) (getFn : L any) : L any :=
  fun w =>
    match Map_get (fst w) key with
    | AUndefined =>
        match getFn w with
        | (Ok result, w') =>
            (Ok result, (Map_set (fst w') key result, snd w'))
        | (Throw e, w') => (Throw e, w')
        end
    | cachedValue => (Ok cachedValue, w)
    end.

Definition parseString (str : jsstring) (value : ParseValue) : L any :=
  get str (parseStringHelper str value).

(** [toString] on a value of the namespace. *)
Variable toString : value -> jsstring.

(** [v || s] *)
Definition or_text (v : any) (s : jsstring) : any :=
  match v with
  | AUndefined | ANull | AString [] | ABoolean false => AString s
  | _ => v
  end.

(** [v?.toString()] on what the cast leaves. *)
Definition any_text (v : any) : option jsstring :=
  match v with
  | AUndefined | ANull => None
  | AString s => Some s
  | ABoolean true => Some (js "true")
  | ABoolean false => Some (js "false")
  | AResolved _ => Some (js "[object Object]")
  end.

(** The end of the loop body of [parseStringHelper] (lines 573 to 582):
    the cast of the result to the branch texts, made when the result is
    a boolean and the group [mod_check] has matched, and the text that
    replaces the expression, [result.error ?? result.result?.toString()].
    The namespace instance is an object, so [if (value)] holds, and each
    branch text is parsed in its turn. *)
Definition replacement_text (result : ResolvedVariable)
  (mod_check mod_check_true mod_check_false : option jsstring)
  (value : ParseValue) : L (option jsstring) :=
  match result, mod_check with
  | Result (VBool b), Some _ =>
      let check_true :=
        match mod_check_true with Some s => s | None => [] end in
      let check_false :=
        match mod_check_false with Some s => s | None => [] end in
      fun w =>
        match parseString check_true value w with
        | (Throw e, w1) => (Throw e, w1)
        | (Ok parsed_true, w1) =>
            match parseString check_false value w1 with
            | (Throw e, w2) => (Throw e, w2)
            | (Ok parsed_false, w2) =>
                (Ok (any_text
                       (if b then or_text parsed_true check_true
                        else or_text parsed_false check_false)), w2)
            end
        end
  | Result VUndefined, _ | Result VNull, _ => fun w => (Ok None, w)
  | Result v, _ => fun w => (Ok (Some (toString v)), w)
  | Error e, _ => fun w => (Ok (Some e), w)
  end.

Definition format (config : FormatterConfig) (stream : ParsedStream)
  : L (any * any) :=
  fun w =>
    match convertStreamToParseValue stream (snd w) with
    | (Throw e, r) => (Throw e, (fst w, r))
    | (Ok parseValue, r) =>
        match parseString (name config) parseValue (fst w, r) with
        | (Throw e, w1) => (Throw e, w1)
        | (Ok n, w1) =>
            match parseString (description config) parseValue w1 with
            | (Throw e, w2) => (Throw e, w2)
            | (Ok d, w2) => (Ok (or_empty_text n, or_empty_text d), w2)
            end
        end
    end.

(** An evaluation keeps the entries of the cache that hold a value, as
    one that reaches the cache through [get] does. *)
Definition keeps_entries (m : L any) : Prop :=
  forall w r w' key,
    m w = (r, w') ->
    Map_get (fst w) key <> AUndefined ->
    Map_get (fst w') key = Map_get (fst w) key.

End Formatter.

End Legacy.

(** A conversion and an evaluation for closed examples of the earlier
    formatter: the namespace holds the file name and every template
    evaluates to it. *)
Definition sample_legacy_convert (stream : ParsedStream) (r : unit)
  : outcome ParseValue * unit :=
  (Ok [(js "stream", [(js "filename", text_or_null (ps_filename stream))])],
   r).

Definition sample_legacy_helper (str : jsstring) (value : ParseValue)
  : Legacy.L unit Legacy.any :=
  fun w =>
    (Ok (match field_of value (js "stream") (js "filename") with
         | VStr s => Legacy.AString s
         | _ => Legacy.ANull
         end), w).

(** ** [BaseFormatterCache.getAnyValue] of the formatter with a cache
    manager

    The value cache of this formatter is the map of the cache manager
    itself, shared by the local caches of all calls.  The hit and miss
    counters are only logged and are left out. *)

Module BaseFormatterCache.

Section Cache.

Variable World : Type.

(** The first value that the cache holds under one of the keys. *)
Fixpoint found (m : Legacy.Map_) (keys : list jsstring) : Legacy.any :=
  match keys with
  | [] => Legacy.AUndefined
  | key :: rest =>
      match Legacy.Map_get m key with
      | Legacy.AUndefined => found m rest
      | cachedValue => cachedValue
      end
  end.

(** [for (const key of keys) this.cache.set(key, v)] *)
Definition set_all (m : Legacy.Map_) (keys : list jsstring) (v : Legacy.any)
  : Legacy.Map_ :=
  fold_left (fun m key => Legacy.Map_set m key v) keys m.

Definition getAnyValue (keys : list jsstring)
  (getFn : Legacy.L World Legacy.any) : Legacy.L World Legacy.any :=
  fun w =>
    match found (fst w) keys with
    | Legacy.AUndefined =>
        match getFn w with
        | (Ok v, w') => (Ok v, (set_all (fst w') keys v, snd w'))
        | (Throw e, w') => (Throw e, w')
        end
    | v => (Ok v, (set_all (fst w) keys v, snd w))
    end.

Definition getValue (key : jsstring) (getFn : Legacy.L World Legacy.any)
  : Legacy.L World Legacy.any :=
  getAnyValue [key] getFn.

End Cache.

End BaseFormatterCache.

(** ** A template in front of a text without a closing bracket *)

Definition has_no_close_bracket (s : jsstring) : bool :=
  forallb (fun c => negb (Ascii.eqb c "}"%char)) s.

(** The scan state [sc] with [post] appended to its working string. *)
Definition with_suffix (post : jsstring) (sc : Scan) : Scan :=
  {| sc_str := sc_str sc ++ post;
     sc_i := sc_i sc;
     leftBracketIndices := leftBracketIndices sc;
     compiledVariableTemplateFns := compiledVariableTemplateFns sc |}.

(** The indices go down from below [bound]. *)
Fixpoint descending_below (bound : nat) (indices : list nat) : bool :=
  match indices with
  | [] => true
  | k :: rest => (k <? bound) && descending_below k rest
  end.

(** The placeholders of the compiled functions lie inside the working
    string, each one to the right of the ones compiled before it. *)
Definition well_placed (sc : Scan) : bool :=
  descending_below (length (sc_str sc))
    (map insertedIndex (rev (compiledVariableTemplateFns sc))).


(** ** What a match tells about the input *)

(** Zero or more steps of [R]. *)
Inductive star (R : mstate -> mstate -> Prop) : mstate -> mstate -> Prop :=
| star_refl st : star R st st
| star_step st1 st2 st3 : R st1 st2 -> star R st2 st3 -> star R st1 st3.

(** One character that [p] accepts is read; the captures stay. *)
Definition consumes (p : ascii -> bool) (st st' : mstate) : Prop :=
  exists x,
    m_rest st = x :: m_rest st' /\ p x = true
    /\ m_pos st' = S (m_pos st) /\ m_caps st' = m_caps st.

(** [st'] is [st] after a piece of the input has been read. *)
Definition reads (st st' : mstate) : Prop :=
  exists w, m_rest st = w ++ m_rest st' /\ m_pos st' = m_pos st + length w.

(** The states that a match of [r] leads to from [st]: what [rmatch]
    hands to its continuation. *)
Fixpoint matched (ci : bool) (r : regex) (st st' : mstate) : Prop :=
  match r with
  | Eps => st' = st
  | Chr c => consumes (char_matches ci c) st st'
  | AnyChar => consumes (fun x => negb (is_line_terminator x)) st st'
  | Cls p => consumes p st st'
  | Seq a b => exists mid, matched ci a st mid /\ matched ci b mid st'
  | Alt a b => matched ci a st st' \/ matched ci b st st'
  | Star _ a => star (matched ci a) st st'
  | Grp name a =>
      exists e,
        matched ci a st e
        /\ st' = MState (m_pos e) (m_rest e)
                   ((name, (m_pos st, m_pos e)) :: m_caps e)
  | Look a => st' = st /\ exists e, matched ci a st e
  | Bol => m_pos st = 0 /\ st' = st
  | Eol => m_rest st = [] /\ st' = st
  end.

(** The compiled functions lie at ascending indices to the left of the
    scan index, which is inside the working string, and each index holds
    a placeholder. *)
Definition in_place (sc : Scan) : Prop :=
  sc_i sc <= length (sc_str sc)
  /\ StronglySorted lt (map insertedIndex (compiledVariableTemplateFns sc))
  /\ Forall (fun fn =>
               insertedIndex fn < sc_i sc
               /\ nth_error (sc_str sc) (insertedIndex fn) = Some "X"%char)
       (compiledVariableTemplateFns sc).

(** The scan state that compiling a line with two expressions leaves. *)
Definition sample_compiled : Scan :=
  match compile_scan sample_externals shape0
          (js "{stream.title} - {stream.size::bytes}") with
  | Ok sf => sf
  | Throw _ => initial_scan []
  end.

(** ** The template and its rendering, side by side *)

(** [str] with the placeholder at index [k] replaced by [text]. *)
Definition put (k : nat) (text str : jsstring) : jsstring :=
  firstn k str ++ text ++ skipn (k + length PLACEHOLDER) str.

(** The texts put at their indices, one after the other. *)
Fixpoint fill (places : list (nat * jsstring)) (str : jsstring) : jsstring :=
  match places with
  | [] => str
  | (k, text) :: rest => fill rest (put k text str)
  end.

(** A place with its index counted from [n]. *)
Definition shift_place (n : nat) (place : nat * jsstring)
  : nat * jsstring :=
  (fst place - n, snd place).

(** The texts that the scan takes for an expression: a text that the
    grammar recognizes, or such a text in which, from right to left,
    expressions stand where it has placeholders. *)
#[warnings="-register-all"] Inductive expression (re : regex) : jsstring -> Prop :=
| expression_of working places :
    recognized re working = true ->
    descending_below (length working) (map fst places) = true ->
    Forall (fun place => nth_error working (fst place) = Some "X"%char)
      places ->
    Forall (fun place => expression re (snd place)) places ->
    expression re (fill places working).

(** The working string and the compiled functions of [sc] account for the
    template [t0]: with the expressions of [sources] put at the indices
    of the compiled functions, the working string is the template. *)
Definition explains (re : regex) (t0 : jsstring) (sc : Scan)
  (sources : list (nat * jsstring)) : Prop :=
  in_place sc
  /\ map fst sources = map insertedIndex (compiledVariableTemplateFns sc)
  /\ t0 = fill (rev sources) (sc_str sc)
  /\ Forall (fun place => expression re (snd place)) sources.

(** The text that a compiled function yields. *)
Definition text_of (parseValue : ParseValue) (fn : CompiledFn) : M jsstring :=
  resolved <- resultFn fn parseValue ;;
  resolved_text resolved.

(** ** An expression with a true/false suffix *)







(** * Properties *)


(** ** Sanity checks of the primitives *)

Lemma str_eqb_eq a b : str_eqb a b = true <-> a = b.
Proof.
  revert b; induction a as [|x a IH]; intros [|y b]; simpl; split;
    try congruence; try reflexivity.
  - intros H. apply andb_true_iff in H as [H1 H2].
    apply Ascii.eqb_eq in H1. apply IH in H2. congruence.
  - intros H. injection H as -> ->. apply andb_true_iff. split.
    + apply Ascii.eqb_refl.
    + now apply IH.
Qed.

Lemma str_eqb_refl a : str_eqb a a = true.
Proof. now apply str_eqb_eq. Qed.

Example number_toString_1024 : number_toString 1024 = js "1024".
Proof. reflexivity. Qed.

Example number_hex : number_toString_radix 16 (-255) = js "-ff".
Proof. reflexivity. Qed.

Example number_parse : Number_of_string (js " 12.50e1 ") = Fin 125 0.
Proof. reflexivity. Qed.

Example number_parse_hex : Number_of_string (js "0x1f") = Fin 31 0.
Proof. reflexivity. Qed.

Example number_parse_nan : Number_of_string (js "1024x") = NaN.
Proof. reflexivity. Qed.

Example rmatch_lazy :
  option_map m_pos (match_at false (Seq (Plus false AnyChar) (Chr "b")) 0 (js "abab"))
  = Some 2.
Proof. reflexivity. Qed.

Example rmatch_greedy :
  option_map m_pos (match_at false (Seq (Plus true AnyChar) (Chr "b")) 0 (js "abab"))
  = Some 4.
Proof. reflexivity. Qed.

Example split_keep :
  split_re false (lit (js "::")) true (js "a::b::c") = [js "a"; js "::"; js "b"; js "::"; js "c"].
Proof. reflexivity. Qed.

Example grammar_accepts :
  match RegexBuilder.buildRegexExpression hardcodedParseValueKeysForRegexMatching with
  | Ok re =>
      map (fun s => match match_at true re 0 (jsq s) with
                    | Some _ => true | None => false end)
        ["{stream.size}"; "{stream.Size::bytes}"; "{stream.doesnotexist}";
         "{stream.proxied::istrue[`Y`||`N`]}"; "{stream.size::>=10::and::stream.library}";
         "{stream.size[]}"; "{bogus.size}"; "{stream.size::nope}";
         "{stream.title::={foo}"]%string
  | Throw _ => []
  end = [true; true; false; true; true; true; false; false; true].
Proof. vm_compute. reflexivity. Qed.

Lemma namespace_shape s :
  shape_of (namespace_of s) = hardcodedParseValueKeysForRegexMatching.
Proof. reflexivity. Qed.

(** ** The matcher consumes a prefix of its input *)

Lemma advanced_refl st : advanced 0 st st.
Proof. unfold advanced. simpl. repeat split; lia. Qed.

Lemma advanced_trans n m st1 st2 st3 :
  advanced n st1 st2 -> advanced m st2 st3 -> advanced (n + m) st1 st3.
Proof.
  unfold advanced. intros (Hp & Hn & Hr) (Hp' & Hm & Hr').
  rewrite Hr in Hm, Hr'. rewrite length_skipn in Hm.
  repeat split; [lia|lia|].
  rewrite Hr', skipn_skipn. f_equal. lia.
Qed.

Lemma step_if_advances p k st res :
  step_if p k st = Some res ->
  exists st', advanced 1 st st' /\ k st' = Some res.
Proof.
  unfold step_if. destruct (m_rest st) as [|x t] eqn:E; [discriminate|].
  destruct (p x); [|discriminate]. intros H.
  eexists. split; [|exact H]. unfold advanced. simpl. rewrite E. simpl.
  repeat split; lia.
Qed.

Lemma or_else_some a b res :
  or_else a b = Some res -> a = Some res \/ b = Some res.
Proof. destruct a; simpl; intros H; [left|right]; assumption. Qed.

Lemma iterate_advances body greedy k :
  (forall k' st res,
     body k' st = Some res ->
     exists n st', advanced n st st' /\ k' st' = Some res) ->
  forall fuel st res,
    iterate body greedy k fuel st = Some res ->
    exists n st', advanced n st st' /\ k st' = Some res.
Proof.
  intros Hbody. induction fuel as [|fuel IH]; intros st res H; simpl in H.
  - exists 0, st. split; [apply advanced_refl|exact H].
  - assert (Hcases :
      body (fun st' =>
              if m_pos st <? m_pos st'
              then iterate body greedy k fuel st' else None) st = Some res
      \/ k st = Some res).
    { destruct greedy; apply or_else_some in H; tauto. }
    destruct Hcases as [Hagain|Hk].
    + apply Hbody in Hagain. destruct Hagain as (n & st1 & Ha & Hit).
      destruct (m_pos st <? m_pos st1); [|discriminate].
      apply IH in Hit. destruct Hit as (m & st2 & Hb & Hk).
      exists (n + m), st2.
      split; [eapply advanced_trans; eassumption|exact Hk].
    + exists 0, st. split; [apply advanced_refl|exact Hk].
Qed.

(** Whatever [rmatch] returns, it returns through its continuation, at a
    state further along the input. *)
Lemma rmatch_advances ci r :
  forall k st res,
    rmatch ci r k st = Some res ->
    exists n st', advanced n st st' /\ k st' = Some res.
Proof.
  induction r as [| c | | p | a IHa b IHb | a IHa b IHb | g a IHa
                  | name a IHa | a IHa | | ];
    intros k st res H; simpl in H.
  - exists 0, st. split; [apply advanced_refl|exact H].
  - apply step_if_advances in H. destruct H as (st' & Ha & Hk). now exists 1, st'.
  - apply step_if_advances in H. destruct H as (st' & Ha & Hk). now exists 1, st'.
  - apply step_if_advances in H. destruct H as (st' & Ha & Hk). now exists 1, st'.
  - apply IHa in H. destruct H as (n & st1 & Ha & H).
    apply IHb in H. destruct H as (m & st2 & Hb & H).
    exists (n + m), st2. split; [eapply advanced_trans; eassumption|exact H].
  - apply or_else_some in H. destruct H as [H|H]; [now apply IHa|now apply IHb].
  - change (iterate (rmatch ci a) g k (S (length (m_rest st))) st = Some res)
      in H.
    eapply iterate_advances; [|exact H]. exact IHa.
  - apply IHa in H. destruct H as (n & st1 & Ha & H).
    eexists n, _. split; [|exact H].
    unfold advanced in *. simpl. exact Ha.
  - destruct (rmatch ci a Some st); [|discriminate].
    exists 0, st. split; [apply advanced_refl|exact H].
  - destruct (m_pos st =? 0); [|discriminate].
    exists 0, st. split; [apply advanced_refl|exact H].
  - destruct (m_rest st); [|discriminate].
    exists 0, st. split; [apply advanced_refl|exact H].
Qed.

(** A match at position [pos] of the rest [s] ends at a position between
    [pos] and the end of the input, with the rest that belongs to it. *)
Lemma match_at_range ci r pos s st :
  match_at ci r pos s = Some st ->
  pos <= m_pos st <= pos + length s
  /\ m_rest st = skipn (m_pos st - pos) s.
Proof.
  unfold match_at. intros H. apply rmatch_advances in H.
  destruct H as (n & st' & (Hp & Hn & Hr) & [= <-]). simpl in *.
  rewrite Hp. replace (pos + n - pos) with n by lia.
  split; [lia|exact Hr].
Qed.

(** ** The step bounds of the matcher and of the loops over matches are
    never reached *)

Lemma advanced_length n st st' :
  advanced n st st' -> length (m_rest st') = length (m_rest st) - n.
Proof. intros (_ & _ & ->). apply length_skipn. Qed.

Lemma iterate_ext body greedy :
  (forall k1 k2 st,
     (forall n st', advanced n st st' -> k1 st' = k2 st') ->
     body k1 st = body k2 st) ->
  forall fuel k1 k2 st,
    (forall n st', advanced n st st' -> k1 st' = k2 st') ->
    iterate body greedy k1 fuel st = iterate body greedy k2 fuel st.
Proof.
  intros Hbody. induction fuel as [|fuel IH]; intros k1 k2 st Hk; simpl.
  - apply (Hk 0). apply advanced_refl.
  - rewrite (Hk 0 st (advanced_refl st)).
    assert (Heq :
      body (fun st' =>
              if m_pos st <? m_pos st'
              then iterate body greedy k1 fuel st' else None) st
      = body (fun st' =>
                if m_pos st <? m_pos st'
                then iterate body greedy k2 fuel st' else None) st).
    { apply Hbody. intros n st' Ha.
      destruct (m_pos st <? m_pos st'); [|reflexivity].
      apply IH. intros m st'' Hb. apply (Hk (n + m)).
      eapply advanced_trans; eassumption. }
    now rewrite Heq.
Qed.

(** The result of [rmatch] depends on its continuation only at the states
    further along the input. *)
Lemma rmatch_ext ci r :
  forall k1 k2 st,
    (forall n st', advanced n st st' -> k1 st' = k2 st') ->
    rmatch ci r k1 st = rmatch ci r k2 st.
Proof.
  induction r as [| c | | p | a IHa b IHb | a IHa b IHb | g a IHa
                  | name a IHa | a IHa | | ];
    intros k1 k2 st Hk; simpl.
  - apply (Hk 0), advanced_refl.
  - unfold step_if. destruct (m_rest st) as [|x t] eqn:E; [reflexivity|].
    destruct (char_matches ci c x); [|reflexivity].
    apply (Hk 1). unfold advanced. simpl. rewrite E. simpl.
    repeat split; lia.
  - unfold step_if. destruct (m_rest st) as [|x t] eqn:E; [reflexivity|].
    destruct (negb (is_line_terminator x)); [|reflexivity].
    apply (Hk 1). unfold advanced. simpl. rewrite E. simpl.
    repeat split; lia.
  - unfold step_if. destruct (m_rest st) as [|x t] eqn:E; [reflexivity|].
    destruct (p x); [|reflexivity].
    apply (Hk 1). unfold advanced. simpl. rewrite E. simpl.
    repeat split; lia.
  - apply IHa. intros n st' Ha. apply IHb. intros m st'' Hb.
    apply (Hk (n + m)). eapply advanced_trans; eassumption.
  - rewrite (IHa k1 k2 st Hk), (IHb k1 k2 st Hk). reflexivity.
  - exact (iterate_ext (rmatch ci a) g IHa (S (length (m_rest st))) k1 k2 st
             Hk).
  - apply IHa. intros n st' Ha. apply (Hk n).
    unfold advanced in *. simpl. exact Ha.
  - destruct (rmatch ci a Some st); [|reflexivity].
    apply (Hk 0), advanced_refl.
  - destruct (m_pos st =? 0); [|reflexivity]. apply (Hk 0), advanced_refl.
  - destruct (m_rest st); [|reflexivity]. apply (Hk 0), advanced_refl.
Qed.

Lemma iterate_one_more ci a greedy k :
  forall fuel st,
    length (m_rest st) < fuel ->
    iterate (rmatch ci a) greedy k (S fuel) st
    = iterate (rmatch ci a) greedy k fuel st.
Proof.
  induction fuel as [|fuel IH]; intros st Hlen; [lia|].
  change (iterate (rmatch ci a) greedy k (S (S fuel)) st)
    with (let again :=
            rmatch ci a
              (fun st' =>
                 if m_pos st <? m_pos st'
                 then iterate (rmatch ci a) greedy k (S fuel) st' else None)
              st in
          if greedy then or_else again (k st) else or_else (k st) again).
  change (iterate (rmatch ci a) greedy k (S fuel) st)
    with (let again :=
            rmatch ci a
              (fun st' =>
                 if m_pos st <? m_pos st'
                 then iterate (rmatch ci a) greedy k fuel st' else None)
              st in
          if greedy then or_else again (k st) else or_else (k st) again).
  cbv zeta.
  assert (Heq :
    rmatch ci a
      (fun st' =>
         if m_pos st <? m_pos st'
         then iterate (rmatch ci a) greedy k (S fuel) st' else None) st
    = rmatch ci a
        (fun st' =>
           if m_pos st <? m_pos st'
           then iterate (rmatch ci a) greedy k fuel st' else None) st).
  { apply rmatch_ext. intros n st' Ha.
    destruct (m_pos st <? m_pos st') eqn:Hlt; [|reflexivity].
    apply IH. apply Nat.ltb_lt in Hlt.
    rewrite (advanced_length _ _ _ Ha).
    destruct Ha as (Hp & Hn & _). lia. }
  now rewrite Heq.
Qed.

(** A repetition never needs more iterations than the rest has characters:
    any larger bound gives the result of the bound that [rmatch] uses. *)
Lemma iterate_enough ci a greedy k st extra :
  iterate (rmatch ci a) greedy k (S (length (m_rest st)) + extra) st
  = iterate (rmatch ci a) greedy k (S (length (m_rest st))) st.
Proof.
  induction extra as [|extra IH]; [now rewrite Nat.add_0_r|].
  rewrite Nat.add_succ_r, iterate_one_more by lia. exact IH.
Qed.

Lemma exec_from_range ci r s :
  forall pos start st,
    exec_from ci r pos s = Some (start, st) ->
    pos <= start <= pos + length s
    /\ match_at ci r start (skipn (start - pos) s) = Some st.
Proof.
  induction s as [|c s IH]; intros pos start st; simpl.
  - destruct (match_at ci r pos []) eqn:E; [|discriminate].
    intros [= <- <-]. rewrite Nat.sub_diag. simpl. split; [lia|exact E].
  - destruct (match_at ci r pos (c :: s)) eqn:E.
    + intros [= <- <-]. rewrite Nat.sub_diag. simpl. split; [lia|exact E].
    + intros H. apply IH in H. destruct H as [Hr Hm]. split; [lia|].
      replace (start - pos) with (S (start - S pos)) by lia. exact Hm.
Qed.

(** [matchAll] ends before its bound: a larger bound changes nothing. *)
Lemma matchAll_loop_enough ci r :
  forall fuel pos s,
    length s < fuel ->
    matchAll_loop (S fuel) ci r pos s = matchAll_loop fuel ci r pos s.
Proof.
  induction fuel as [|fuel IH]; intros pos s Hlen; [lia|].
  cbn [matchAll_loop].
  destruct (exec_from ci r pos s) as [[start st]|] eqn:E; [|reflexivity].
  apply exec_from_range in E. destruct E as [Hr Hm].
  apply match_at_range in Hm. destruct Hm as [Hp Hrest].
  rewrite length_skipn in Hp.
  destruct (m_pos st =? start) eqn:Hz.
  - f_equal. destruct (skipn (start - pos) s) as [|x t] eqn:Es;
      [reflexivity|].
    apply IH.
    assert (length (x :: t) = length s - (start - pos))
      by (rewrite <- Es; apply length_skipn).
    simpl in *. lia.
  - f_equal. apply IH. apply Nat.eqb_neq in Hz.
    rewrite Hrest, !length_skipn. lia.
Qed.

(** [replace] with a global pattern ends before its bound. *)
Lemma replace_loop_enough ci r by_ :
  forall fuel pos s,
    length s < fuel ->
    replace_loop (S fuel) ci r by_ pos s = replace_loop fuel ci r by_ pos s.
Proof.
  induction fuel as [|fuel IH]; intros pos s Hlen; [lia|].
  cbn [replace_loop]. destruct s as [|c t]; [reflexivity|].
  destruct (match_at ci r pos (c :: t)) as [st|] eqn:E.
  - apply match_at_range in E. destruct E as [Hp Hrest].
    destruct (m_pos st =? pos) eqn:Hz.
    + do 2 f_equal. apply IH. simpl in Hlen. lia.
    + f_equal. apply IH. apply Nat.eqb_neq in Hz.
      rewrite Hrest, length_skipn. lia.
  - f_equal. apply IH. simpl in Hlen. lia.
Qed.

(** [split] ends before its bound: a piece that is cut leaves at most one
    more step per character. *)
Lemma split_loop_enough ci r keep :
  forall fuel seg pos s,
    2 * length s + (if length seg =? 0 then 0 else 1) < fuel + 1 ->
    split_loop (S fuel) ci r keep seg pos s
    = split_loop fuel ci r keep seg pos s.
Proof.
  induction fuel as [|fuel IH]; intros seg pos s Hlen.
  - destruct s; [|simpl in Hlen; lia].
    destruct (length seg =? 0) eqn:E; [|lia].
    apply Nat.eqb_eq in E. destruct seg; [reflexivity|discriminate].
  - cbn [split_loop]. destruct s as [|c t]; [reflexivity|].
    assert (Hs : length (c :: t) = S (length t)) by reflexivity.
    destruct (match_at ci r pos (c :: t)) as [st|] eqn:E.
    + apply match_at_range in E. destruct E as [Hp Hrest].
      destruct ((m_pos st =? pos) && (length seg =? 0)) eqn:Hz.
      * apply IH. cbn [length Nat.eqb]. rewrite Hs in Hlen. lia.
      * do 2 f_equal. apply IH. rewrite Hrest, length_skipn.
        cbn [length Nat.eqb]. rewrite Hs in *.
        apply andb_false_iff in Hz.
        destruct (length seg =? 0) eqn:Hseg.
        -- destruct Hz as [Hz|Hz]; [|discriminate].
           apply Nat.eqb_neq in Hz. lia.
        -- lia.
    + apply IH. cbn [length Nat.eqb]. rewrite Hs in Hlen. lia.
Qed.

(** ** The scan ends within its fuel *)

Lemma exec_from_bol ci r s :
  forall pos, 0 < pos -> exec_from ci (Seq Bol r) pos s = None.
Proof.
  induction s as [|c s IH]; intros pos Hpos; simpl; unfold match_at; simpl;
    destruct pos; try lia; simpl; [reflexivity|].
  apply IH. lia.
Qed.

Lemma open_brace_matches x :
  char_matches true "{"%char x = true -> x = "{"%char.
Proof.
  destruct x as [[] [] [] [] [] [] [] []]; vm_compute; congruence.
Qed.

Lemma exec_anchored_brace r s p st :
  exec true (Seq Bol (Seq (Chr "{"%char) r)) s = Some (p, st) ->
  exists t, s = "{"%char :: t.
Proof.
  unfold exec. destruct s as [|c s].
  - cbn. intros H; discriminate H.
  - cbn [exec_from]. unfold match_at.
    cbn [rmatch m_pos Nat.eqb]. unfold step_if. cbn [m_rest m_pos m_caps].
    destruct (char_matches true "{" c) eqn:E.
    + intros _. apply open_brace_matches in E. subst. now exists s.
    + rewrite exec_from_bol by lia. intros H; discriminate H.
Qed.

Lemma grammar_is_anchored shape re :
  RegexBuilder.buildRegexExpression shape = Ok re ->
  exists r, re = Seq Bol (Seq (Chr "{"%char) r).
Proof.
  unfold RegexBuilder.buildRegexExpression.
  destruct (RegexBuilder.buildVariableRegexPattern shape); [|discriminate].
  intros [= <-]. simpl. eexists. reflexivity.
Qed.

Lemma getMatches_some re str i below :
  forall above data stack,
    getMatches re str i above below = Some (data, stack) ->
    In (leftBracketIndex data) below
    /\ recognized re (span str (leftBracketIndex data) i) = true.
Proof.
  induction below as [|l below IH]; intros above data stack; simpl;
    [discriminate|].
  destruct (exec true re _) as [[start st]|] eqn:E.
  - intros [= <- _]. simpl. split; [now left|].
    unfold recognized, span. now rewrite E.
  - intros H. destruct (IH _ _ _ H). split; [now right|assumption].
Qed.

Lemma clamp_index_nat len k : clamp_index len (Z.of_nat k) = Nat.min len k.
Proof.
  unfold clamp_index. destruct (Z.of_nat k <? 0)%Z eqn:E; [lia|].
  now rewrite Nat2Z.id.
Qed.

Lemma span_short str l i c :
  nth_error str i = Some c -> i <= l ->
  span str l i = [] \/ span str l i = [c].
Proof.
  intros Hc Hle. unfold span, slice. rewrite !clamp_index_nat.
  assert (Hi : i < length str) by (apply nth_error_Some; congruence).
  destruct (Nat.eq_dec l i) as [->|Hne].
  - right. replace (Nat.min (length str) (i + 1) - Nat.min (length str) i)
      with 1 by lia.
    replace (Nat.min (length str) i) with i by lia.
    destruct (nth_error_split str i Hc) as (a & b & -> & <-).
    rewrite skipn_app, Nat.sub_diag, skipn_all. reflexivity.
  - left. replace (Nat.min (length str) (i + 1) - Nat.min (length str) l)
      with 0 by lia.
    reflexivity.
Qed.

Lemma recognized_span_left shape re str l i :
  RegexBuilder.buildRegexExpression shape = Ok re ->
  nth_error str i = Some "}"%char ->
  recognized re (span str l i) = true ->
  l < i.
Proof.
  intros Hre Hc Hrec.
  destruct (grammar_is_anchored shape re Hre) as [r ->].
  unfold recognized in Hrec.
  destruct (exec true _ _) as [[p st]|] eqn:E; [|discriminate].
  apply exec_anchored_brace in E. destruct E as [t Ht].
  destruct (Nat.lt_ge_cases l i) as [Hlt|Hge]; [exact Hlt|].
  destruct (span_short str l i _ Hc Hge) as [H|H]; rewrite H in Ht;
    vm_compute in Ht; discriminate.
Qed.

Lemma scan_step_decreases ext shape re sc sc' :
  RegexBuilder.buildRegexExpression shape = Ok re ->
  scan_step ext shape re sc = Some (Ok sc') ->
  length (sc_str sc') - sc_i sc' < length (sc_str sc) - sc_i sc.
Proof.
  intros Hre. unfold scan_step.
  destruct (nth_error (sc_str sc) (sc_i sc)) as [c|] eqn:Hc; [|discriminate].
  assert (Hi : sc_i sc < length (sc_str sc))
    by (apply nth_error_Some; congruence).
  destruct (Ascii.eqb c "{"); [intros [= <-]; simpl; lia|].
  destruct (Ascii.eqb c "}") eqn:Hclose; [|intros [= <-]; simpl; lia].
  apply Ascii.eqb_eq in Hclose. subst c.
  destruct (getMatches _ _ _ _ _) as [[data stack]|] eqn:Hm;
    [|intros [= <-]; simpl; lia].
  apply getMatches_some in Hm. destruct Hm as [_ Hrec].
  pose proof (recognized_span_left shape re _ _ _ Hre Hc Hrec) as Hl.
  unfold on_match.
  destruct (checkSuffix_length _); [|discriminate].
  intros [= <-]. simpl.
  rewrite !length_app. unfold slice, slice_from.
  rewrite !clamp_index_nat. simpl.
  rewrite length_firstn, !length_skipn. lia.
Qed.

(** The loop of [compileTemplateHelper] ends: given as many steps as the
    working string has characters left, the scan stops because the index
    has reached the end of the string. *)
Lemma scan_complete ext shape re :
  RegexBuilder.buildRegexExpression shape = Ok re ->
  forall fuel sc sc',
    length (sc_str sc) - sc_i sc <= fuel ->
    scan ext shape fuel re sc = Ok sc' ->
    length (sc_str sc') <= sc_i sc'.
Proof.
  intros Hre. induction fuel as [|fuel IH]; intros sc sc' Hfuel; simpl.
  - intros [= <-]. lia.
  - destruct (scan_step ext shape re sc) as [[sc1|e]|] eqn:E.
    + intros H. apply (IH sc1 sc'); [|exact H].
      pose proof (scan_step_decreases _ _ _ _ _ Hre E). lia.
    + discriminate.
    + intros [= <-]. unfold scan_step in E.
      destruct (nth_error (sc_str sc) (sc_i sc)) eqn:Hc.
      * destruct (Ascii.eqb a "{"); [discriminate|].
        destruct (Ascii.eqb a "}"); [|discriminate].
        destruct (getMatches _ _ _ _ _) as [[d s]|]; discriminate.
      * now apply nth_error_None.
Qed.

Lemma compile_scan_complete ext shape str sc :
  compile_scan ext shape str = Ok sc -> length (sc_str sc) <= sc_i sc.
Proof.
  unfold compile_scan.
  destruct (RegexBuilder.buildRegexExpression shape) as [re|e] eqn:Hre;
    [|discriminate].
  apply (scan_complete ext shape re Hre). simpl. lia.
Qed.

(** ** What the duplicate check of the grammar builder does reject *)

Lemma collect_keys_throws prefix_ keys :
  forall seen,
    has_collision keys = true
    \/ existsb (fun k => existsb (str_eqb (toLowerCase k)) seen) keys = true ->
    exists e, RegexBuilder.collect_keys prefix_ keys seen = Throw e.
Proof.
  induction keys as [|key keys IH]; intros seen H; simpl in *.
  - destruct H; discriminate.
  - destruct (existsb (str_eqb (toLowerCase key)) seen) eqn:Hseen.
    + eexists. reflexivity.
    + apply IH. simpl in H.
      destruct H as [H|H].
      * apply orb_true_iff in H. destruct H as [H|H]; [|now left].
        right. apply existsb_exists in H. destruct H as (k & Hin & Hk).
        apply existsb_exists. exists k. split; [exact Hin|].
        rewrite existsb_app. apply orb_true_iff. right. simpl.
        unfold collide in Hk. apply str_eqb_eq in Hk. rewrite Hk.
        now rewrite str_eqb_refl.
      * right. apply existsb_exists in H. destruct H as (k & Hin & Hk).
        apply existsb_exists. exists k. split; [exact Hin|].
        rewrite existsb_app. now rewrite Hk.
Qed.

Lemma collect_keys_returns prefix_ keys :
  forall seen,
    has_collision keys = false ->
    existsb (fun k => existsb (str_eqb (toLowerCase k)) seen) keys = false ->
    RegexBuilder.collect_keys prefix_ keys seen
    = Ok (seen ++ map toLowerCase keys).
Proof.
  induction keys as [|key keys IH]; intros seen Hc Hs; simpl in *.
  - now rewrite app_nil_r.
  - apply orb_false_iff in Hc. destruct Hc as [Hkey Hc].
    apply orb_false_iff in Hs. destruct Hs as [Hseen Hs].
    rewrite Hseen, IH, <- app_assoc; [reflexivity|exact Hc|].
    apply not_true_is_false. intros H.
    apply existsb_exists in H. destruct H as (k & Hin & Hk).
    rewrite existsb_app in Hk. apply orb_true_iff in Hk.
    destruct Hk as [Hk|Hk].
    + assert (existsb (fun k => existsb (str_eqb (toLowerCase k)) seen) keys
              = true) by (apply existsb_exists; now exists k).
      congruence.
    + simpl in Hk. rewrite orb_false_r in Hk.
      assert (existsb (collide key) keys = true).
      { apply existsb_exists. exists k. split; [exact Hin|].
        unfold collide. apply str_eqb_eq in Hk. rewrite Hk.
        apply str_eqb_refl. }
      congruence.
Qed.

(** Two section names that collide are rejected. *)
Lemma section_collision_rejected shape :
  has_collision (map fst shape) = true ->
  exists e, RegexBuilder.buildRegexExpression shape = Throw e.
Proof.
  intros H. unfold RegexBuilder.buildRegexExpression,
    RegexBuilder.buildVariableRegexPattern.
  destruct (collect_keys_throws [] (map fst shape) [] (or_introl H))
    as [e ->].
  now exists e.
Qed.

Lemma section_patterns_returns shape sectionKeys :
  (forall name fields, In (name, fields) shape -> has_collision fields = false) ->
  exists ps, RegexBuilder.section_patterns shape sectionKeys = Ok ps.
Proof.
  intros Hfields. induction sectionKeys as [|key keys [ps IH]]; simpl.
  - now eexists.
  - destruct (assoc key shape) as [fields|] eqn:E; [|now exists ps].
    assert (Hin : exists name, In (name, fields) shape).
    { clear -E. induction shape as [|[n f] shape IHs]; simpl in E;
        [discriminate|].
      destruct (str_eqb key n).
      - injection E as <-. exists n. now left.
      - destruct (IHs E) as [name Hin]. exists name. now right. }
    destruct Hin as [name Hin].
    rewrite collect_keys_returns.
    + rewrite IH. now eexists.
    + eapply Hfields, Hin.
    + clear. induction fields; simpl; [reflexivity|assumption].
Qed.

(** A shape without collisions is accepted. *)
Lemma shape_without_collision_accepted shape :
  has_collision (map fst shape) = false ->
  (forall name fields, In (name, fields) shape -> has_collision fields = false) ->
  exists re, RegexBuilder.buildRegexExpression shape = Ok re.
Proof.
  intros Hs Hf. unfold RegexBuilder.buildRegexExpression,
    RegexBuilder.buildVariableRegexPattern.
  rewrite collect_keys_returns; [|exact Hs|].
  - destruct (section_patterns_returns shape
                ([] ++ map toLowerCase (map fst shape)) Hf) as [ps ->].
    now eexists.
  - clear. induction (map fst shape); simpl; [reflexivity|assumption].
Qed.

Lemma section_patterns_throws shape name fields :
  assoc name shape = Some fields ->
  has_collision fields = true ->
  forall sectionKeys,
    In name sectionKeys ->
    exists e, RegexBuilder.section_patterns shape sectionKeys = Throw e.
Proof.
  intros Hassoc Hc. induction sectionKeys as [|key keys IH]; intros Hin;
    [destruct Hin|].
  cbn [RegexBuilder.section_patterns]. destruct Hin as [->|Hin].
  - rewrite Hassoc.
    destruct (collect_keys_throws (name ++ js ".") fields [] (or_introl Hc))
      as [e ->].
    now exists e.
  - destruct (IH Hin) as [e He].
    destruct (assoc key shape) as [fs|]; [|now exists e].
    destruct (RegexBuilder.collect_keys _ fs []) as [subs|e'];
      [|now exists e'].
    rewrite He. now exists e.
Qed.

(** Two field names that collide are rejected when their section is found
    under its lower-cased name. *)
Lemma field_collision_rejected shape name fields :
  In name (map fst shape) ->
  assoc (toLowerCase name) shape = Some fields ->
  has_collision fields = true ->
  exists e, RegexBuilder.buildRegexExpression shape = Throw e.
Proof.
  intros Hin Hassoc Hc. unfold RegexBuilder.buildRegexExpression,
    RegexBuilder.buildVariableRegexPattern.
  destruct (RegexBuilder.collect_keys [] (map fst shape) []) as [keys|e]
    eqn:Ek; [|now exists e].
  assert (Hkeys : keys = map toLowerCase (map fst shape)).
  { destruct (has_collision (map fst shape)) eqn:Hs.
    - destruct (collect_keys_throws [] (map fst shape) [] (or_introl Hs))
        as [e He]. congruence.
    - rewrite collect_keys_returns in Ek;
        [simpl in Ek; congruence|exact Hs|].
      clear. induction (map fst shape); simpl; [reflexivity|assumption]. }
  destruct (section_patterns_throws shape (toLowerCase name) fields Hassoc Hc
              keys) as [e ->].
  - subst keys. now apply in_map.
  - now exists e.
Qed.

(** ** The namespace shape *)



(** C6.  The fields [size] and [Size] of the section [Stream] collide, and
    the grammar is built without error: the section is looked up under its
    lower-cased name, is not found, and its fields are never checked.  The
    formatter then renders. *)
Theorem C6_field_collision_is_not_rejected :
  collide (js "size") (js "Size") = true
  /\ RegexBuilder.buildVariableRegexPattern colliding_shape
     = Ok (Grp 0
             (Seq (lit (js "tools"))
                (Seq (Chr "."%char)
                   (Grp 0 (Alt (lit (js "removeline"))
                             (lit (js "newline")))))))
  /\ forall ext o st,
       run (format ext colliding_shape
              {| name := js "{tools.newline}a"; description := js "b" |}
              [(js "tools",
                [(js "removeline", VStr (js "{tools.removeline}"));
                 (js "newline", VStr (js "{tools.newline}"))]);
               (js "Stream", [(js "size", VNull); (js "Size", VNull)])])
         o st
       = (Ok ("010"%char :: js "a", js "b"), st).
Proof.
  split; [reflexivity|]. split.
  - vm_compute. reflexivity.
  - intros. vm_compute. reflexivity.
Qed.

(** ** Concrete renderings *)





(** C1.  On every record with [config.addonName = "AIO"] and
    [stream.size = 1024], the template
    [{config.addonName::length::>={stream.size::string::length}}] does not
    resolve to [false]: the inner text ["4"] is spliced in front of the
    outer expression instead of over its placeholder, because the index
    into [numWhitespaceRemovedBeforeN] counts the opening brace, and the
    expression renders the tag [{unknown_variableType(undefined)}]. *)
Theorem C1_nested_literal_is_misplaced :
  forall ext s o st,
    s_addonName s = VStr (js "AIO") ->
    s_size s = VNum 1024 ->
    run (render ext shape0
           (js "{config.addonName::length::>={stream.size::string::length}}")
           (namespace_of s)) o st
    = (Ok (js "{unknown_variableType(undefined)}"), st).
Proof.
  intros ext [a f sz l la t se p] o st Ha Hs; simpl in Ha, Hs; subst.
  vm_compute. reflexivity.
Qed.

Lemma C1_nested_literal_is_misplaced_witness :
  (s_addonName sample_stream = VStr (js "AIO")
   /\ s_size sample_stream = VNum 1024)
  /\ run (render sample_externals shape0
            (js "{config.addonName::length::>={stream.size::string::length}}")
            (namespace_of sample_stream)) (fun n => n) sample_state
     = (Ok (js "{unknown_variableType(undefined)}"), sample_state).
Proof.
  split; [split; reflexivity|].
  apply (C1_nested_literal_is_misplaced sample_externals sample_stream);
    reflexivity.
Defined.

(** The same expression followed by a blank before the closing brace is
    spliced at the right place and compares [3 >= 4]. *)
Lemma nested_literal_with_blank :
  forall ext o st,
    run (render ext shape0
           (js "{config.addonName::length::>={stream.size::string::length} }")
           (namespace_of sample_stream)) o st
    = (Ok (js "false"), st).
Proof. intros. vm_compute. reflexivity. Qed.

(** C2, as stated, fails: on the sample record the template
    [{stream.doesnotexist}] does not render the tag
    [{unknown_propertyName(stream.doesnotexist)}]. *)
Lemma C2_unknown_field_counterexample :
  ~ (forall ext pv o st,
       run (render ext shape0 (js "{stream.doesnotexist}") pv) o st
       = (Ok (js "{unknown_propertyName(stream.doesnotexist)}"), st)).
Proof.
  intros H.
  specialize (H sample_externals (namespace_of sample_stream) (fun n => n)
                sample_state).
  vm_compute in H. discriminate H.
Qed.

(** C2, amended.  For every record, the template [{stream.doesnotexist}] is
    not an expression of the grammar and renders as itself. *)
Theorem C2_unknown_field_is_literal_text :
  forall ext pv o st,
    run (render ext shape0 (js "{stream.doesnotexist}") pv) o st
    = (Ok (js "{stream.doesnotexist}"), st).
Proof. intros. vm_compute. reflexivity. Qed.

(** ** The prefix modifiers *)

Lemma find_some_in {A} (f : A -> bool) l x :
  find f l = Some x -> In x l /\ f x = true.
Proof.
  induction l as [|y l IH]; simpl; [discriminate|].
  destruct (f y) eqn:E.
  - intros [= <-]. split; [now left|exact E].
  - intros H. destruct (IH H). split; [now right|assumption].
Qed.

Lemma existsb_in {A} (f : A -> bool) l x :
  In x l -> f x = true -> existsb f l = true.
Proof. intros Hin Hf. apply existsb_exists. now exists x. Qed.

(** C4, as stated, fails for the prefixes [$], [^] and [~]: on the number
    [10] the modifier [$1] is a comparison of texts and answers [true],
    although both sides parse as numbers; handed the two numbers, the
    function of [$] throws, which would answer [false]. *)
Lemma C4_numeric_rule_counterexample :
  ~ (forall ext variable _mod p o st,
       let mod_ := toLowerCase _mod in
       let stringValue := toLowerCase (String_of (st_heap st) variable) in
       let literal := toLowerCase (substring_from mod_ (length p)) in
       let stringCheck :=
         if has_space stringValue then literal else strip_spaces literal in
       value_present (st_heap st) variable = true ->
       existsb (str_eqb mod_) ModifierConstants.exact.keys = false ->
       find (startsWith mod_) prefix_keys_by_length = Some p ->
       isNaN (parse_numeric stringValue) = false ->
       isNaN (parse_numeric stringCheck) = false ->
       run (applySingleModifier ext variable _mod) o st
       = (Ok (Some (VBool
                      (or_false
                         (ModifierConstants.prefix.apply p
                            (ModifierConstants.prefix.Numbers
                               (parse_numeric stringValue)
                               (parse_numeric stringCheck)))))), st)).
Proof.
  intros H.
  specialize (H sample_externals (VNum 10) (js "$1") (js "$") (fun n => n)
                sample_state).
  vm_compute in H.
  specialize (H eq_refl eq_refl eq_refl eq_refl eq_refl).
  discriminate H.
Qed.

(** C4, amended.  A prefix modifier on a value that does not exist answers
    [false].  On a value that exists (a number being an integer that a
    double holds exactly), with the lower-cased text of the value and the
    lower-cased literal, from which white space is removed only when the
    text of the value has none: under [=], [>=], [>], [<=] and [<] the
    comparison is one of the two doubles if both texts parse as numbers
    once the thousands separators are taken out, and a comparison of the
    two texts otherwise; under [$], [^] and [~] it is always a comparison
    of the two texts.  The modifier never throws. *)
Theorem C4_prefix_comparison :
  forall ext variable _mod p o st,
    let mod_ := toLowerCase _mod in
    let stringValue := toLowerCase (String_of (st_heap st) variable) in
    let literal := toLowerCase (substring_from mod_ (length p)) in
    let stringCheck :=
      if has_space stringValue then literal else strip_spaces literal in
    value_in_range (st_heap st) variable = true ->
    existsb (str_eqb mod_) ModifierConstants.exact.keys = false ->
    find (startsWith mod_) prefix_keys_by_length = Some p ->
    run (applySingleModifier ext variable _mod) o st
    = (Ok (Some (VBool
                   (if negb (value_present (st_heap st) variable) then false
                    else if is_ordering_prefix p
                            && negb (isNaN (parse_numeric stringValue))
                            && negb (isNaN (parse_numeric stringCheck))
                    then numeric_comparison p (parse_numeric stringValue)
                           (parse_numeric stringCheck)
                    else text_comparison p stringValue stringCheck))), st).
Proof.
  intros ext variable _mod p o st mod_ stringValue literal stringCheck
    _ Hexact Hfind.
  destruct (find_some_in _ _ _ Hfind) as [Hin Hstart].
  assert (Hprefix :
    existsb (startsWith mod_) ModifierConstants.prefix.keys = true).
  { apply existsb_in with (x := p); [|exact Hstart].
    simpl in Hin. simpl.
    repeat (destruct Hin as [<-|Hin]; [tauto|]). contradiction. }
  unfold applySingleModifier. fold mod_. rewrite Hexact, Hprefix. simpl.
  unfold run, bind, conditional_modifier, try_catch.
  assert (Hpresent :
    ModifierConstants.exact.exists_ variable o st
    = (Ok (value_present (st_heap st) variable), st)).
  { destruct variable; reflexivity. }
  unfold bind at 1. rewrite Hpresent.
  destruct (value_present (st_heap st) variable); [|reflexivity].
  cbn [negb]. rewrite Hfind.
  unfold bind, stringify, lift_outcome, prefix_operands, parse_numeric.
  subst stringCheck literal stringValue. cbv zeta.
  set (sv := toLowerCase (String_of (st_heap st) variable)).
  set (chk := if negb (has_space sv) then _ else _).
  assert (Hchk :
    (if has_space sv
     then toLowerCase (substring_from mod_ (length p))
     else strip_spaces (toLowerCase (substring_from mod_ (length p))))
    = chk).
  { subst chk. destruct (has_space sv); reflexivity. }
  rewrite Hchk. clearbody chk sv. clear Hchk.
  simpl in Hin.
  repeat (destruct Hin as [<-|Hin];
          [ destruct (isNaN (Number_of_string
                               (replace_re false thousands_separator [] sv)));
            destruct (isNaN (Number_of_string
                               (replace_re false thousands_separator []
                                  chk)));
            reflexivity |]).
  contradiction.
Qed.

Lemma C4_prefix_comparison_witness :
  run (applySingleModifier sample_externals (VNum 1024) (js ">=1,000"))
    (fun n => n) sample_state
  = (Ok (Some (VBool true)), sample_state).
Proof.
  pose proof (C4_prefix_comparison sample_externals (VNum 1024)
                (js ">=1,000") (js ">=") (fun n => n) sample_state) as H.
  vm_compute in H. vm_compute. apply H; reflexivity.
Defined.

(** The literal [1,000] holds no thousands separator (a comma followed by a
    blank) and is not a number, [1, 000] is one. *)
Lemma thousands_separator_examples :
  parse_numeric (js "1,000") = NaN
  /\ parse_numeric (js "1, 000") = Fin 1000 0
  /\ forall ext o st,
       run (applySingleModifier ext (VStr (js "1, 024")) (js ">=1, 000")) o st
       = (Ok (Some (VBool true)), st).
Proof.
  split; [vm_compute; reflexivity|].
  split; [vm_compute; reflexivity|].
  intros. vm_compute. reflexivity.
Qed.

(** Numbers are compared as doubles and texts without regard to case in
    the whole Latin-1 range: [1.0000000000000001] is the double [1], and
    the capital of the letter e with an acute accent (code 201) is
    lower-cased to the small one (code 233). *)
Lemma double_and_case_examples :
  forall ext o st,
    run (applySingleModifier ext (VNum 1) (js "=1.0000000000000001")) o st
    = (Ok (Some (VBool true)), st)
    /\ run (applySingleModifier ext
              (VStr (js "Pok" ++ [ascii_of_nat 233] ++ js "mon"))
              (js "~POK" ++ [ascii_of_nat 201] ++ js "MON")) o st
       = (Ok (Some (VBool true)), st).
Proof. intros. split; vm_compute; reflexivity. Qed.

(** ** The true/false check and the comparator reduction *)

Ltac run_simpl :=
  unfold run, bind, ret, throw, try_catch, stringify, lift_outcome in *;
  simpl in *.

(** Given the result [r] of the reduction, the check of [parseVariable]
    yields the text [T] when [r] is exactly [true], the text [F] when it
    is exactly [false], and otherwise the error tag
    [{cannot_coerce_boolean_for_check_from(<value>)}]; the check itself
    never throws. *)
Lemma check_of_a_result :
  forall ext shape modifiedVariable T F tz parseValue o st r st',
    run (parseVariable ext shape modifiedVariable
           {| mod_check := None; mod_tzlocale := tz |} parseValue) o st
    = (Ok r, st') ->
    run (parseVariable ext shape modifiedVariable
           {| mod_check := Some (T, F); mod_tzlocale := tz |} parseValue) o st
    = (Ok match result_of r with
          | VBool true => Result (VStr T)
          | VBool false => Result (VStr F)
          | other =>
              Error (js "{cannot_coerce_boolean_for_check_from("
                       ++ String_of (st_heap st') other ++ js ")}")
          end, st').
Proof.
  intros ext shape mv T F tz pv o st r st' H.
  unfold parseVariable in *. run_simpl. rewrite H.
  destruct (result_of r) as [| |[|]| | |]; reflexivity.
Qed.

(** The three cases on whole templates. *)
Lemma conditional_branch_examples :
  forall ext o st,
    run (render ext shape0
           (jsq "{stream.library::istrue[`Y`||`N`]}|{stream.proxied::istrue[`Y`||`N`]}|{stream.title[`Y`||`N`]}")
           (namespace_of sample_stream)) o st
    = (Ok (js "Y|N|{cannot_coerce_boolean_for_check_from(open arms)}"), st).
Proof. intros. vm_compute. reflexivity. Qed.

Lemma reduce_from_error rest :
  forall comparators e o st,
    run (reduce_from (Error e) rest comparators) o st = (Ok (Error e), st).
Proof.
  induction rest as [|cur rest IH]; intros [|k cs] e o st; simpl;
    try reflexivity.
  - apply IH.
  - run_simpl. apply IH.
Qed.

Lemma reduce_from_app l1 :
  forall first c1 l2 c2 o st,
    length l1 = length c1 ->
    run (reduce_from first (l1 ++ l2) (c1 ++ c2)) o st
    = run (r <- reduce_from first l1 c1 ;; reduce_from r l2 c2) o st.
Proof.
  induction l1 as [|cur l1 IH]; intros first [|k c1] l2 c2 o st Hlen;
    simpl in Hlen; try discriminate.
  - reflexivity.
  - injection Hlen as Hlen. simpl. unfold run, bind in *.
    destruct (compare_step first cur k o st) as [[next|e] st1]; [|reflexivity].
    apply IH. exact Hlen.
Qed.

Lemma mapM_length {A B} (f : A -> M B) l :
  forall o st rs st',
    mapM f l o st = (Ok rs, st') -> length rs = length l.
Proof.
  induction l as [|x l IH]; intros o st rs st' H; simpl in H.
  - unfold ret in H. injection H as <- _. reflexivity.
  - unfold bind in H.
    destruct (f x o st) as [[y|e] st1]; [|discriminate].
    destruct (mapM f l o st1) as [[ys|e] st2] eqn:E; [|discriminate].
    unfold ret in H. injection H as <- _. simpl. f_equal. eapply IH, E.
Qed.

(** The reduction itself does what the specification says.  In an
    expression without a true/false suffix all of whose segments have
    resolved, to [first :: l1 ++ l2], the reduction goes from left to
    right, and an error that the reduction of [first :: l1] ends in (the
    error of a segment or of a comparator) is the resolved value of the
    whole expression, whatever the later segments [l2] and comparators [c2]
    are; with [l1] empty this is the error of the first operand. *)
Lemma first_error_is_returned :
  forall ext shape modifiedVariable tz parseValue o st st' st1
         first l1 l2 c1 c2 e,
    run (mapM (fun baseString =>
                 parseModifiedVariable ext shape baseString parseValue)
           (evens (split_re true RegexBuilder.buildComparatorRegexPattern
                     true modifiedVariable))) o st
    = (Ok (first :: l1 ++ l2), st') ->
    map (fun c => slice c 2 (-2))
      (odds (split_re true RegexBuilder.buildComparatorRegexPattern true
               modifiedVariable)) = c1 ++ c2 ->
    length l1 = length c1 ->
    l1 ++ l2 <> [] ->
    run (reduce_from first l1 c1) o st' = (Ok (Error e), st1) ->
    run (parseVariable ext shape modifiedVariable
           {| mod_check := None; mod_tzlocale := tz |} parseValue) o st
    = (Ok (Error e), st1).
Proof.
  intros ext shape mv tz pv o st st' st1 first l1 l2 c1 c2 e
    Hmap Hcmp Hlen Hne Hred.
  unfold parseVariable, reduce_variable; simpl.
  assert (Hl := mapM_length _ _ _ _ _ _ Hmap). simpl in Hl.
  unfold run in *.
  destruct (evens _) as [|s1 [|s2 segs]] eqn:Hsegs.
  - discriminate.
  - simpl in Hl. destruct (l1 ++ l2); [congruence|discriminate].
  - unfold bind at 1. rewrite Hmap.
    change (Z.of_nat (length RegexBuilder.comparatorWrapper)) with 2%Z.
    change (- (2))%Z with (-2)%Z. rewrite Hcmp.
    pose proof (reduce_from_app l1 first c1 l2 c2 o st' Hlen) as Happ.
    unfold run in Happ. rewrite Happ. unfold bind. rewrite Hred.
    apply reduce_from_error.
Qed.

(** C7.  The first error is not the resolved value of the expression when
    the expression carries a true/false suffix: the check looks at the
    result only, which an error does not have, and answers with its own
    tag for [undefined].  On every record whose [stream.size] is a number,
    the expression [stream.size::upper::and::stream.proxied] renders the
    error of its first operand, and with the suffix [["Y"||"N"]] it
    renders [{cannot_coerce_boolean_for_check_from(undefined)}]; and so
    does every expression whose reduction ends in an error. *)
Theorem C7_check_masks_the_first_error :
  (forall ext s n o st,
     s_size s = VNum n ->
     run (render ext shape0 (js "{stream.size::upper::and::stream.proxied}")
            (namespace_of s)) o st
     = (Ok (js "{unknown_number_modifier(upper)}"), st)
     /\ run (render ext shape0
               (jsq "{stream.size::upper::and::stream.proxied[`Y`||`N`]}")
               (namespace_of s)) o st
        = (Ok (js "{cannot_coerce_boolean_for_check_from(undefined)}"), st))
  /\ (forall ext shape modifiedVariable T F tz parseValue o st e st',
        run (parseVariable ext shape modifiedVariable
               {| mod_check := None; mod_tzlocale := tz |} parseValue) o st
        = (Ok (Error e), st') ->
        run (parseVariable ext shape modifiedVariable
               {| mod_check := Some (T, F); mod_tzlocale := tz |} parseValue)
          o st
        = (Ok (Error (js "{cannot_coerce_boolean_for_check_from(undefined)}")),
           st')).
Proof.
  split.
  - intros ext [a f sz l la t se p] n o st Hs; simpl in Hs; subst.
    split; vm_compute; reflexivity.
  - intros ext shape mv T F tz pv o st e st' H.
    unfold parseVariable in *. run_simpl. rewrite H. reflexivity.
Qed.

Lemma C7_check_masks_the_first_error_witness :
  s_size sample_stream = VNum 1024
  /\ run (render sample_externals shape0
            (jsq "{stream.size::upper::and::stream.proxied[`Y`||`N`]}")
            (namespace_of sample_stream)) (fun n => n) sample_state
     = (Ok (js "{cannot_coerce_boolean_for_check_from(undefined)}"),
        sample_state).
Proof.
  split; [reflexivity|].
  apply (proj2 (proj1 C7_check_masks_the_first_error sample_externals
                  sample_stream 1024%Z (fun n => n) sample_state eq_refl)).
Defined.

(** Nor is the first error the resolved value when a later segment
    throws: every segment is evaluated before the reduction starts.  A
    [replace] whose first text begins with an opening parenthesis makes
    [new RegExp] throw, and the exception leaves [format]. *)
Lemma later_segment_throws :
  forall o st,
    run (render strict_externals shape0
           (js "{stream.size::upper::and::stream.title::replace('(a','b')}")
           (namespace_of sample_stream)) o st
    = (Throw (js "SyntaxError: Invalid regular expression: /(\s*,\s*'/"),
       st).
Proof. intros. vm_compute. reflexivity. Qed.

(** Each of the seven comparator functions is found under its key and
    returns for every pair of operands. *)
Lemma comparator_call_returns key p c o st :
  In key ComparatorConstants.keys ->
  exists f,
    ComparatorConstants.comparatorKeyToFuncs key = Some f
    /\ run (compare_step (Result p) (Result c) key) o st
       = (Ok (Result (f p c)), st).
Proof.
  intros Hin. simpl in Hin.
  repeat (destruct Hin as [<-|Hin];
          [eexists; split; reflexivity|]).
  contradiction.
Qed.

(** C9, as stated, fails: a comparator spelled in capitals is accepted by
    the grammar, is not found in [comparatorKeyToFuncs], and the call
    throws into the [catch]. *)
Lemma C9_unable_to_compare_counterexample :
  ~ (forall ext shape modifiedVariable fullStringModifiers parseValue o st
            r st',
       run (parseVariable ext shape modifiedVariable fullStringModifiers
              parseValue) o st = (Ok r, st') ->
       forall prev cur compareKey e,
         r <> Error (unable_to_compare prev cur compareKey e)).
Proof.
  intros H.
  refine (H sample_externals shape0 (js "stream.library::AND::stream.proxied")
            {| mod_check := None; mod_tzlocale := None |}
            (namespace_of sample_stream) (fun n => n) sample_state
            _ sample_state _ (js "true") (js "false") (js "AND")
            not_a_function _).
  - vm_compute. reflexivity.
  - reflexivity.
Qed.

Lemma unable_to_compare_example :
  forall ext o st,
    run (render ext shape0 (js "{stream.library::AND::stream.proxied}")
           (namespace_of sample_stream)) o st
    = (Ok (js "{unable_to_compare(<true>::AND::<false>, TypeError: comparatorFn is not a function)}"),
       st).
Proof. intros. vm_compute. reflexivity. Qed.

(** When the comparators are spelled as the keys of [comparatorKeyToFuncs]
    the reduction ends without throwing, leaves the state alone, and its
    value is a comparator's result or one of the resolved segments. *)
Lemma reduce_from_total :
  forall comparators first rest o st,
    Forall (fun key => In key ComparatorConstants.keys) comparators ->
    length rest <= length comparators ->
    exists r,
      run (reduce_from first rest comparators) o st = (Ok r, st)
      /\ (In r (first :: rest) \/ exists v, r = Result v).
Proof.
  intros cs first rest; revert cs first.
  induction rest as [|cur rest IH]; intros cs first o st Hall Hlen.
  - exists first. split; [destruct cs; reflexivity|]. left. now left.
  - destruct cs as [|k cs]; [simpl in Hlen; lia|].
    simpl in Hlen. apply le_S_n in Hlen.
    inversion Hall as [|? ? Hk Hcs]; subst.
    simpl. unfold run, bind.
    destruct first as [p|e1].
    + destruct cur as [c|e2].
      * destruct (comparator_call_returns k p c o st Hk) as [f [_ Hcall]].
        unfold run in Hcall. rewrite Hcall.
        destruct (IH cs (Result (f p c)) o st Hcs Hlen) as [r [Hr Hin]].
        exists r. split; [exact Hr|].
        destruct Hin as [[<-|Hin]|Hv].
        -- right. now eexists.
        -- left. right. now right.
        -- now right.
      * simpl. unfold ret.
        destruct (IH cs (Error e2) o st Hcs Hlen) as [r [Hr Hin]].
        exists r. split; [exact Hr|].
        destruct Hin as [[<-|Hin]|Hv].
        -- left. right. now left.
        -- left. right. now right.
        -- now right.
    + simpl. unfold ret.
      destruct (IH cs (Error e1) o st Hcs Hlen) as [r [Hr Hin]].
      exists r. split; [exact Hr|].
      destruct Hin as [[<-|Hin]|Hv].
      * left. now left.
      * left. right. now right.
      * now right.
Qed.

Lemma mapM_forall {A B} (f : A -> M B) (P : B -> Prop) l :
  (forall x o st r st', f x o st = (Ok r, st') -> P r) ->
  forall o st rs st',
    mapM f l o st = (Ok rs, st') -> Forall P rs.
Proof.
  intros Hf. induction l as [|x l IH]; intros o st rs st' H; simpl in H.
  - unfold ret in H. injection H as <- _. constructor.
  - unfold bind in H.
    destruct (f x o st) as [[y|e] st1] eqn:Ex; [|discriminate].
    destruct (mapM f l o st1) as [[ys|e] st2] eqn:E; [|discriminate].
    unfold ret in H. injection H as <- _.
    constructor; [eapply Hf, Ex|eapply IH, E].
Qed.

Lemma evens_odds_length {A} (l : list A) :
  length (evens l) <= S (length (odds l)).
Proof.
  assert (H : forall n (l : list A), length l <= n ->
                length (evens l) <= S (length (odds l))).
  { induction n as [|n IH]; intros [|x [|y t]] Hl; simpl in *; try lia.
    specialize (IH t ltac:(lia)). destruct t; simpl in *; lia. }
  apply (H (length l)). lia.
Qed.

(** The errors of a segment are the [unknown_...] tags. *)
Lemma apply_modifiers_error ext property mods :
  forall result o st e st',
    apply_modifiers ext property result mods o st = (Ok (Error e), st') ->
    startsWith e (js "{unknown_") = true.
Proof.
  induction mods as [|m mods IH]; intros result o st e st' H; simpl in H.
  - discriminate H.
  - unfold bind in H.
    destruct (applySingleModifier ext result m o st) as [[[v|]|x] st1];
      [eapply IH, H| |discriminate H].
    unfold ret in H. injection H as <- _.
    unfold unknown_modifier_error. destruct (typeof property); reflexivity.
Qed.

Lemma parseModifiedVariable_error ext shape baseString pv o st e st' :
  parseModifiedVariable ext shape baseString pv o st = (Ok (Error e), st') ->
  startsWith e (js "{unknown_") = true.
Proof.
  unfold parseModifiedVariable.
  destruct (find_key _ _) as [[|c vt]|];
    try (intros [= <- _]; reflexivity).
  destruct (find_key _ _) as [[|c' pn]|];
    try (intros [= <- _]; reflexivity).
  destruct (assoc _ pv); [|discriminate].
  apply apply_modifiers_error.
Qed.

Lemma startsWith_prefix p :
  forall s, startsWith s p = true -> exists t, s = p ++ t.
Proof.
  induction p as [|x p IH]; intros s H.
  - now exists s.
  - destruct s as [|y s]; [discriminate|]. simpl in H.
    apply andb_true_iff in H. destruct H as [Hx Hs].
    apply Ascii.eqb_eq in Hx. subst y.
    destruct (IH s Hs) as [t ->]. now exists t.
Qed.

Lemma unknown_is_comparable e :
  startsWith e (js "{unknown_") = true -> comparable (Error e).
Proof.
  intros H. apply startsWith_prefix in H. destruct H as [t ->].
  reflexivity.
Qed.

(** C9, amended.  Each of the seven comparator functions returns for every
    pair of operands, and an expression whose comparators are spelled as
    the keys of [comparatorKeyToFuncs] never resolves to the
    [unable_to_compare] error, with or without a true/false suffix. *)
Theorem C9_comparators_never_throw :
  forall ext shape modifiedVariable fullStringModifiers parseValue o st,
    Forall (fun key => In key ComparatorConstants.keys)
      (map (fun c => slice c 2 (-2))
         (odds (split_re true RegexBuilder.buildComparatorRegexPattern true
                  modifiedVariable))) ->
    (forall key p c,
       In key ComparatorConstants.keys ->
       exists v,
         run (compare_step (Result p) (Result c) key) o st
         = (Ok (Result v), st))
    /\ forall e st',
         run (parseVariable ext shape modifiedVariable fullStringModifiers
                parseValue) o st = (Ok (Error e), st') ->
         startsWith e (js "{unable_to_compare(") = false.
Proof.
  intros ext shape mv fsm pv o st Hkeys. split.
  { intros key p c Hin.
    destruct (comparator_call_returns key p c o st Hin) as [f [_ H]].
    now exists (f p c). }
  assert (Hred : forall r st',
            reduce_variable ext shape mv pv o st = (Ok r, st') ->
            comparable r).
  { intros r st'. unfold reduce_variable.
    change (Z.of_nat (length RegexBuilder.comparatorWrapper)) with 2%Z.
    change (- (2))%Z with (-2)%Z.
    set (cs := map _ (odds _)) in *.
    pose proof (evens_odds_length
                  (split_re true RegexBuilder.buildComparatorRegexPattern true
                     mv)) as Hlen.
    assert (Hcs : length cs
                  = length (odds (split_re true
                                    RegexBuilder.buildComparatorRegexPattern
                                    true mv)))
      by (subst cs; apply length_map).
    rewrite <- Hcs in Hlen. clearbody cs.
    assert (Hseg : forall b o st r st',
              parseModifiedVariable ext shape b pv o st = (Ok r, st') ->
              comparable r).
    { intros b o' s0 [v|e] s1 H; [exact I|].
      apply unknown_is_comparable.
      eapply parseModifiedVariable_error, H. }
    assert (Hmany : forall segs,
              length segs <= S (length cs) ->
              (x <- mapM (fun b => parseModifiedVariable ext shape b pv) segs ;;
               match x with
               | [] => throw (js "TypeError: Reduce of empty array with no initial value")
               | first :: rest => reduce_from first rest cs
               end) o st = (Ok r, st') ->
              comparable r).
    { intros segs Hsegs. unfold bind.
      destruct (mapM _ segs o st) as [[rs|x] st1] eqn:Em; [|discriminate].
      pose proof (mapM_forall _ comparable segs Hseg _ _ _ _ Em) as Hall.
      pose proof (mapM_length _ _ _ _ _ _ Em) as Hl.
      destruct rs as [|first rest]; [discriminate|].
      inversion Hall as [|? ? Hfirst Hrest]; subst.
      destruct (reduce_from_total cs first rest o st1 Hkeys) as [r' [Hr Hin]].
      { simpl in Hl. lia. }
      unfold run in Hr. rewrite Hr. intros [= <- <-].
      destruct Hin as [[<-|Hin]|[v ->]].
      - exact Hfirst.
      - rewrite Forall_forall in Hrest. now apply Hrest.
      - exact I. }
    destruct (evens _) as [|s1 [|s2 segs]] eqn:Hsegs.
    - apply Hmany. simpl. lia.
    - apply Hseg.
    - apply Hmany. exact Hlen. }
  intros e st'. unfold run, parseVariable.
  destruct (mod_check fsm) as [[t f]|].
  - unfold bind.
    destruct (reduce_variable ext shape mv pv o st) as [[r|x] st1];
      [|discriminate].
    destruct (result_of r) as [| |b| | |]; unfold stringify, ret;
      intros [= <- _]; reflexivity.
  - intros H. exact (Hred _ _ H).
Qed.

Lemma C9_comparators_never_throw_witness :
  startsWith (js "{unknown_number_modifier(upper)}")
    (js "{unable_to_compare(") = false.
Proof.
  refine (proj2 (C9_comparators_never_throw sample_externals shape0
                   (js "stream.size::upper::xor::stream.proxied")
                   {| mod_check := None; mod_tzlocale := None |}
                   (namespace_of sample_stream) (fun n => n) sample_state _)
            (js "{unknown_number_modifier(upper)}") sample_state _).
  - vm_compute. constructor; [|constructor]. do 2 right. left. reflexivity.
  - vm_compute. reflexivity.
Defined.

(** ** Text that is not an expression *)

Lemma grammar0_built :
  RegexBuilder.buildRegexExpression shape0 = Ok grammar0.
Proof.
  unfold grammar0, shape0.
  destruct (RegexBuilder.buildRegexExpression _) as [re|e] eqn:E;
    [reflexivity|].
  exfalso.
  unfold RegexBuilder.buildRegexExpression in E.
  destruct (RegexBuilder.buildVariableRegexPattern _) as [v|e'] eqn:Ev;
    [discriminate E|].
  vm_compute in Ev. discriminate Ev.
Qed.

(** C3, as stated, fails: the span [{stream.doesnotexist}] is not an
    expression of the grammar, and it does not reach the output: the
    enclosing [{stream.title::=...}] ends at the first closing brace and
    takes it as the literal of its [=] modifier. *)
Lemma C3_literal_text_counterexample :
  ~ (forall ext template l i parseValue o st out st',
       l < i ->
       is_char template l "{"%char = true ->
       is_char template i "}"%char = true ->
       recognized grammar0 (span template l i) = false ->
       run (render ext shape0 template parseValue) o st = (Ok out, st') ->
       includes out (span template l i) = true).
Proof.
  intros H.
  specialize (H sample_externals
                (js "{stream.title::={stream.doesnotexist}}") 16 36
                (namespace_of sample_stream) (fun n => n) sample_state
                (js "false}") sample_state).
  vm_compute in H.
  specialize (H ltac:(lia) eq_refl eq_refl eq_refl eq_refl).
  discriminate H.
Qed.

Lemma no_span_recognized_spec re template l i :
  no_span_recognized re template = true ->
  l < i -> i < length template ->
  is_char template l "{"%char = true ->
  is_char template i "}"%char = true ->
  recognized re (span template l i) = false.
Proof.
  unfold no_span_recognized. intros H Hl Hi Hopen Hclose.
  rewrite forallb_forall in H.
  specialize (H i ltac:(apply in_seq; lia)).
  rewrite forallb_forall in H.
  specialize (H l ltac:(apply in_seq; lia)).
  rewrite Hopen, Hclose in H.
  now destruct (recognized re (span template l i)).
Qed.

Lemma getMatches_none re str i below :
  forall above,
    (forall l, In l below -> recognized re (span str l i) = false) ->
    getMatches re str i above below = None.
Proof.
  induction below as [|l below IH]; intros above H; simpl; [reflexivity|].
  pose proof (H l (or_introl eq_refl)) as Hl.
  unfold recognized, span in Hl.
  destruct (exec true re _) as [[start st]|]; [discriminate|].
  apply IH. intros l' Hin. apply H. now right.
Qed.

Lemma is_char_nth template k c :
  nth_error template k = Some c -> is_char template k c = true.
Proof. unfold is_char. intros ->. apply Ascii.eqb_refl. Qed.

Lemma scan_unrecognized ext shape re template :
  no_span_recognized re template = true ->
  forall fuel sc,
    sc_str sc = template ->
    compiledVariableTemplateFns sc = [] ->
    (forall l, In l (leftBracketIndices sc) ->
               l < sc_i sc /\ is_char template l "{"%char = true) ->
    exists sc',
      scan ext shape fuel re sc = Ok sc'
      /\ sc_str sc' = template
      /\ compiledVariableTemplateFns sc' = [].
Proof.
  intros Hno. induction fuel as [|fuel IH]; intros sc Hstr Hfns Hstack; simpl.
  - now exists sc.
  - unfold scan_step.
    destruct (nth_error (sc_str sc) (sc_i sc)) as [c|] eqn:Hc;
      [|now exists sc].
    destruct (Ascii.eqb c "{") eqn:Hopen.
    + apply IH; simpl; try assumption.
      intros l Hin. apply in_app_or in Hin. destruct Hin as [Hin|[<-|[]]].
      * destruct (Hstack l Hin). split; [lia|assumption].
      * split; [lia|]. apply Ascii.eqb_eq in Hopen. subst c.
        rewrite <- Hstr. now apply is_char_nth.
    + destruct (Ascii.eqb c "}") eqn:Hclose.
      * rewrite getMatches_none.
        -- apply IH; simpl; try assumption.
           intros l Hin. destruct (Hstack l Hin). split; [lia|assumption].
        -- intros l Hin. apply in_rev in Hin.
           destruct (Hstack l Hin) as [Hlt Hl].
           rewrite Hstr. apply no_span_recognized_spec; try assumption.
           ++ rewrite <- Hstr. apply nth_error_Some. congruence.
           ++ apply Ascii.eqb_eq in Hclose. subst c.
              rewrite <- Hstr. now apply is_char_nth.
      * apply IH; simpl; try assumption.
        intros l Hin. destruct (Hstack l Hin). split; [lia|assumption].
Qed.

(** If no span of a template that runs from a [{] to a later [}] is,
    with its white space removed, an expression of the grammar (unknown
    section, unknown field, unknown modifier, or braces that do not pair
    up), then nothing is compiled as an expression, and the function that
    [compileTemplateHelper] returns yields the template itself on every
    record. *)
Lemma unrecognized_text_is_literal :
  forall ext shape re template,
    RegexBuilder.buildRegexExpression shape = Ok re ->
    no_span_recognized re template = true ->
    (exists sc,
       compile_scan ext shape template = Ok sc
       /\ sc_str sc = template
       /\ compiledVariableTemplateFns sc = [])
    /\ forall parseValue o st,
         run (render_helper ext shape template parseValue) o st
         = (Ok template, st).
Proof.
  intros ext shape re template Hre Hno.
  destruct (scan_unrecognized ext shape re template Hno (length template)
              (initial_scan template) eq_refl eq_refl)
    as (sc & Hscan & Hstr & Hfns).
  { intros l []. }
  assert (Hc : compile_scan ext shape template = Ok sc).
  { unfold compile_scan. now rewrite Hre. }
  split; [now exists sc|].
  intros pv o st. unfold run, render_helper, compileTemplateHelper.
  destruct template as [|c t]; [reflexivity|].
  rewrite Hc, Hfns, Hstr. reflexivity.
Qed.

(** ** Evaluation neither writes to the namespace nor draws by itself *)

Lemma extends_refl h : extends h h.
Proof. exists []. now rewrite app_nil_r. Qed.

Lemma extends_trans h1 h2 h3 :
  extends h1 h2 -> extends h2 h3 -> extends h1 h3.
Proof.
  intros [a ->] [b ->]. exists (a ++ b). now rewrite app_assoc.
Qed.

Lemma extends_get h h' l :
  extends h h' -> l < length h -> heap_get h' l = heap_get h l.
Proof.
  intros [fresh ->] Hl. unfold heap_get. now apply app_nth1.
Qed.

Lemma heap_set_fresh h x y : heap_set (h ++ [x]) (length h) y = h ++ [y].
Proof. induction h as [|a h IH]; simpl; [reflexivity|now rewrite IH]. Qed.

Lemma heap_get_fresh h x : heap_get (h ++ [x]) (length h) = x.
Proof.
  unfold heap_get. rewrite app_nth2 by lia. now rewrite Nat.sub_diag.
Qed.

Create HintDb wb.

Lemma wb_ret {A} (a : A) : well_behaved (ret a).
Proof.
  intros o st. simpl. split; [apply extends_refl|]. split; [lia|reflexivity].
Qed.

Lemma wb_throw {A} e : well_behaved (@throw A e).
Proof.
  intros o st. simpl. split; [apply extends_refl|]. split; [lia|reflexivity].
Qed.

Lemma wb_bind {A B} (m : M A) (f : A -> M B) :
  well_behaved m -> (forall a, well_behaved (f a)) -> well_behaved (bind m f).
Proof.
  intros Hm Hf o st. unfold bind.
  destruct (Hm o st) as (He & Hd & Ho).
  destruct (m o st) as [[a|e] st1] eqn:E; simpl in *.
  - destruct (Hf a o st1) as (He' & Hd' & Ho').
    split; [eapply extends_trans; eassumption|]. split; [lia|].
    intros Heq o'. rewrite Ho by lia. apply Ho'. lia.
  - split; [assumption|]. split; [assumption|].
    intros Heq o'. now rewrite Ho.
Qed.

Lemma wb_try_catch {A} (m : M A) (h : jsstring -> M A) :
  well_behaved m -> (forall e, well_behaved (h e)) ->
  well_behaved (try_catch m h).
Proof.
  intros Hm Hh o st. unfold try_catch.
  destruct (Hm o st) as (He & Hd & Ho).
  destruct (m o st) as [[a|e] st1] eqn:E; simpl in *.
  - split; [assumption|]. split; [assumption|].
    intros Heq o'. now rewrite Ho.
  - destruct (Hh e o st1) as (He' & Hd' & Ho').
    split; [eapply extends_trans; eassumption|]. split; [lia|].
    intros Heq o'. rewrite Ho by lia. apply Ho'. lia.
Qed.

Lemma wb_read_array l : well_behaved (read_array l).
Proof.
  intros o st. simpl. split; [apply extends_refl|]. split; [lia|reflexivity].
Qed.

Lemma wb_stringify v : well_behaved (stringify v).
Proof.
  intros o st. simpl. split; [apply extends_refl|]. split; [lia|reflexivity].
Qed.

Lemma wb_random_below n : well_behaved (random_below n).
Proof.
  intros o st. simpl. split; [apply extends_refl|]. split; [lia|].
  intros H. exfalso. lia.
Qed.

(** A copy that is updated in place and read: [[...value].sort()] and
    [[...value].reverse()] followed by [toString]. *)
Lemma wb_copy_update {A} l (f : list elem -> list elem)
  (k : list elem -> M A) :
  (forall xs, well_behaved (k xs)) ->
  well_behaved
    (bind (copy_array l)
       (fun c => bind (update_array c f)
                   (fun c' => bind (read_array c') k))).
Proof.
  intros Hk o [h d]. unfold bind, copy_array, update_array, read_array.
  simpl. rewrite heap_set_fresh, !heap_get_fresh.
  destruct (Hk (f (heap_get h l)) o (State (h ++ [f (heap_get h l)]) d))
    as (He & Hd & Ho). simpl in *.
  split.
  - eapply extends_trans; [|exact He]. now exists [f (heap_get h l)].
  - split; [exact Hd|exact Ho].
Qed.

Lemma wb_lift_outcome {A} (r : outcome A) : well_behaved (lift_outcome r).
Proof. destruct r; [apply wb_ret|apply wb_throw]. Qed.

Lemma wb_mapM {A B} (f : A -> M B) l :
  (forall x, well_behaved (f x)) -> well_behaved (mapM f l).
Proof.
  intros Hf. induction l as [|x l IH]; simpl.
  - apply wb_ret.
  - apply wb_bind; [apply Hf|]. intros y.
    apply wb_bind; [exact IH|]. intros ys. apply wb_ret.
Qed.

#[local] Hint Resolve wb_ret wb_throw wb_read_array wb_stringify
  wb_random_below wb_lift_outcome : wb.

Ltac wb_step :=
  match goal with
  | |- well_behaved (bind (copy_array _) _) => apply wb_copy_update; intros
  | |- well_behaved (bind _ _) => apply wb_bind; [|intros]
  | |- well_behaved (try_catch _ _) => apply wb_try_catch; [|intros]
  | |- well_behaved (mapM _ _) => apply wb_mapM; intros
  | |- well_behaved (match ?x with _ => _ end) => destruct x
  | |- well_behaved _ => solve [auto with wb]
  end.

Ltac wb_auto := repeat wb_step.

Lemma wb_exists v : well_behaved (ModifierConstants.exact.exists_ v).
Proof. destruct v; simpl; wb_auto. Qed.

Lemma wb_toString_or_empty v : well_behaved (toString_or_empty v).
Proof. destruct v; simpl; wb_auto. Qed.

Lemma wb_resolved_text r : well_behaved (resolved_text r).
Proof. destruct r; simpl; [apply wb_toString_or_empty|wb_auto]. Qed.

#[local] Hint Resolve wb_exists wb_toString_or_empty wb_resolved_text : wb.

Lemma wb_exact_lookup key f v :
  ModifierConstants.exact.lookup key = Some f -> well_behaved (f v).
Proof.
  unfold ModifierConstants.exact.lookup.
  repeat (destruct (str_eqb key _); [intros [= <-]; wb_auto|]).
  discriminate.
Qed.

Lemma wb_arrayModifiers key f l :
  ModifierConstants.arrayModifiers key = Some f -> well_behaved (f l).
Proof.
  unfold ModifierConstants.arrayModifiers.
  repeat (destruct (str_eqb key _); [intros [= <-]; wb_auto|]).
  discriminate.
Qed.

Lemma wb_conditional_modifier v m isExact :
  well_behaved (conditional_modifier v m isExact).
Proof.
  unfold conditional_modifier.
  apply wb_try_catch; [|intros; wb_auto].
  apply wb_bind; [apply wb_exists|]. intros present.
  destruct (negb present); [wb_auto|].
  destruct isExact.
  - destruct (ModifierConstants.exact.lookup m) eqn:E; [|wb_auto].
    eapply wb_exact_lookup, E.
  - destruct (find _ _); wb_auto.
Qed.

Lemma wb_applySingleModifier ext v m :
  well_behaved (applySingleModifier ext v m).
Proof.
  unfold applySingleModifier.
  destruct (_ || _).
  - apply wb_bind; [apply wb_conditional_modifier|intros; wb_auto].
  - destruct v; try solve [wb_auto].
    + destruct (ModifierConstants.stringModifiers ext _); [wb_auto|].
      destruct (_ && _); [|wb_auto].
      unfold replace_modifier. wb_auto.
    + destruct (ModifierConstants.arrayModifiers _) eqn:E.
      * apply wb_bind; [eapply wb_arrayModifiers, E|intros; wb_auto].
      * wb_auto.
Qed.

Lemma wb_apply_modifiers ext property mods :
  forall result, well_behaved (apply_modifiers ext property result mods).
Proof.
  induction mods as [|m mods IH]; intros result; simpl.
  - wb_auto.
  - apply wb_bind; [apply wb_applySingleModifier|].
    intros [r|]; [apply IH|wb_auto].
Qed.

Lemma wb_parseModifiedVariable ext shape baseString pv :
  well_behaved (parseModifiedVariable ext shape baseString pv).
Proof.
  unfold parseModifiedVariable.
  destruct (find_key _ _) as [[|c vt]|]; try solve [wb_auto].
  destruct (find_key _ _) as [[|c' pn]|]; try solve [wb_auto].
  destruct (assoc _ pv); [|wb_auto].
  apply wb_apply_modifiers.
Qed.

Lemma wb_compare_step prev cur key : well_behaved (compare_step prev cur key).
Proof. unfold compare_step. wb_auto. Qed.

Lemma wb_reduce_from rest :
  forall prev comparators, well_behaved (reduce_from prev rest comparators).
Proof.
  induction rest as [|cur rest IH]; intros prev [|k cs]; simpl;
    try solve [wb_auto].
  apply wb_bind; [apply wb_compare_step|intros; apply IH].
Qed.

Lemma wb_reduce_variable ext shape mv pv :
  well_behaved (reduce_variable ext shape mv pv).
Proof.
  unfold reduce_variable.
  destruct (evens _) as [|s1 [|s2 segs]].
  - apply wb_bind; [apply wb_mapM; intros; apply wb_parseModifiedVariable|].
    intros [|first rest]; [wb_auto|apply wb_reduce_from].
  - apply wb_parseModifiedVariable.
  - apply wb_bind; [apply wb_mapM; intros; apply wb_parseModifiedVariable|].
    intros [|first rest]; [wb_auto|apply wb_reduce_from].
Qed.

Lemma wb_parseVariable ext shape mv fsm pv :
  well_behaved (parseVariable ext shape mv fsm pv).
Proof.
  unfold parseVariable.
  destruct (mod_check fsm) as [[t f]|]; [|apply wb_reduce_variable].
  apply wb_bind; [apply wb_reduce_variable|].
  intros r. destruct (result_of r); wb_auto.
Qed.

Lemma wb_splice_nested data counts pv nested sp :
  (forall parseValue, well_behaved (resultFn nested parseValue)) ->
  well_behaved (splice_nested data counts pv nested sp).
Proof.
  intros Hn. unfold splice_nested.
  apply wb_bind; [apply Hn|]. intros r.
  apply wb_bind; [apply wb_resolved_text|]. intros text.
  destruct (suffix_mod_check data); [destruct (sp_check sp) as [[t f]|]|];
    wb_auto.
Qed.

Lemma wb_splice_all data counts pv nested :
  all_well_behaved nested ->
  forall sp, well_behaved (splice_all data counts pv nested sp).
Proof.
  induction 1 as [|fn fns Hfn _ IH]; intros sp; simpl.
  - wb_auto.
  - apply wb_bind; [now apply wb_splice_nested|]. intros sp'. apply IH.
Qed.

Lemma wb_getResolvedVariable ext shape data template counts nested pv :
  all_well_behaved nested ->
  well_behaved
    (getResolvedVariable ext shape data template counts nested pv).
Proof.
  intros Hn. unfold getResolvedVariable.
  apply wb_bind; [now apply wb_splice_all|]. intros sp.
  apply wb_parseVariable.
Qed.

Lemma all_well_behaved_filter f fns :
  all_well_behaved fns -> all_well_behaved (filter f fns).
Proof.
  unfold all_well_behaved. rewrite !Forall_forall. intros H fn Hin.
  apply filter_In in Hin. now apply H.
Qed.

Lemma all_well_behaved_rev fns :
  all_well_behaved fns -> all_well_behaved (rev fns).
Proof.
  unfold all_well_behaved. rewrite !Forall_forall. intros H fn Hin.
  apply H. now apply in_rev.
Qed.

Lemma on_match_well_behaved ext shape sc i data stack sc' :
  all_well_behaved (compiledVariableTemplateFns sc) ->
  on_match ext shape sc i data stack = Ok sc' ->
  all_well_behaved (compiledVariableTemplateFns sc').
Proof.
  intros Hwb. unfold on_match.
  destruct (checkSuffix_length _) as [n|e]; [|discriminate].
  intros [= <-]. simpl. apply Forall_app. split.
  - now apply all_well_behaved_filter.
  - constructor; [|constructor]. intros pv. simpl.
    apply wb_getResolvedVariable.
    now apply all_well_behaved_rev, all_well_behaved_filter.
Qed.

Lemma scan_step_well_behaved ext shape re sc sc' :
  all_well_behaved (compiledVariableTemplateFns sc) ->
  scan_step ext shape re sc = Some (Ok sc') ->
  all_well_behaved (compiledVariableTemplateFns sc').
Proof.
  intros Hwb. unfold scan_step.
  destruct (nth_error _ _) as [c|]; [|discriminate].
  destruct (Ascii.eqb c "{"); [intros [= <-]; exact Hwb|].
  destruct (Ascii.eqb c "}"); [|intros [= <-]; exact Hwb].
  destruct (getMatches _ _ _ _ _) as [[data stack]|].
  - intros [= H]. eapply on_match_well_behaved; eassumption.
  - intros [= <-]. exact Hwb.
Qed.

Lemma scan_well_behaved ext shape re fuel :
  forall sc sc',
    all_well_behaved (compiledVariableTemplateFns sc) ->
    scan ext shape fuel re sc = Ok sc' ->
    all_well_behaved (compiledVariableTemplateFns sc').
Proof.
  induction fuel as [|fuel IH]; intros sc sc' Hwb; simpl.
  - intros [= <-]. exact Hwb.
  - destruct (scan_step ext shape re sc) as [[sc1|e]|] eqn:E.
    + intros H. eapply IH; [|exact H].
      eapply scan_step_well_behaved; eassumption.
    + discriminate.
    + intros [= <-]. exact Hwb.
Qed.

Lemma wb_render_all fns :
  all_well_behaved fns ->
  forall resultStr pv, well_behaved (render_all fns resultStr pv).
Proof.
  induction 1 as [|fn fns Hfn _ IH]; intros s pv; simpl.
  - wb_auto.
  - apply wb_bind; [apply Hfn|]. intros r.
    apply wb_bind; [apply wb_resolved_text|]. intros text. apply IH.
Qed.

Lemma wb_compileTemplateHelper ext shape str process :
  compileTemplateHelper ext shape str = Ok process ->
  forall pv, well_behaved (process pv).
Proof.
  unfold compileTemplateHelper, compile_scan.
  destruct str as [|c str]; [intros [= <-] pv; wb_auto|].
  destruct (RegexBuilder.buildRegexExpression shape) as [re|e];
    [|discriminate].
  destruct (scan _ _ _ _ _) as [sc|e] eqn:E; [|discriminate].
  intros [= <-] pv. apply wb_render_all, all_well_behaved_rev.
  eapply scan_well_behaved; [|exact E]. constructor.
Qed.

Lemma wb_compileTemplate ext shape str process :
  compileTemplate ext shape str = Ok process ->
  forall pv, well_behaved (process pv).
Proof.
  unfold compileTemplate.
  destruct (compileTemplateHelper _ _ _) as [f|e] eqn:E; [|discriminate].
  intros [= <-] pv.
  apply wb_bind; [eapply wb_compileTemplateHelper, E|intros; wb_auto].
Qed.

Lemma wb_format ext shape config pv :
  well_behaved (format ext shape config pv).
Proof.
  unfold format, compileTemplatesAsync.
  destruct (compileTemplate ext shape (name config)) as [f|e] eqn:Ef;
    [|wb_auto].
  destruct (compileTemplate ext shape (description config)) as [g|e] eqn:Eg;
    [|wb_auto].
  apply wb_bind; [eapply wb_compileTemplate, Ef|]. intros n.
  apply wb_bind; [eapply wb_compileTemplate, Eg|]. intros d. wb_auto.
Qed.

(** C8, as stated, fails: the template below spells no [random], the
    text of [stream.filename] is spliced into it and parsed, and the
    rendering depends on the random draw. *)
Lemma C8_determinism_counterexample :
  ~ (forall ext config parseValue o1 o2 st,
       mentions_random (name config) = false ->
       mentions_random (description config) = false ->
       fst (run (format ext shape0 config parseValue) o1 st)
       = fst (run (format ext shape0 config parseValue) o2 st)).
Proof.
  intros H.
  specialize (H sample_externals
                {| name := js "{stream.title::={stream.filename} }";
                   description := js "-" |}
                (namespace_of sample_stream) (fun _ => 0) (fun _ => 1)
                sample_state eq_refl eq_refl).
  vm_compute in H. discriminate H.
Qed.

Lemma spliced_random_example :
  forall ext,
    run (render ext shape0 (js "{stream.title::={stream.filename} }")
           (namespace_of sample_stream)) (fun _ => 0) sample_state
    = (Ok (js "English"), State (st_heap sample_state) 1)
    /\ run (render ext shape0 (js "{stream.title::={stream.filename} }")
              (namespace_of sample_stream)) (fun _ => 1) sample_state
       = (Ok (js "Italian"), State (st_heap sample_state) 1).
Proof. intros. split; vm_compute; reflexivity. Qed.

(** *** A later invocation sees the arrays of the record as the first
    one did *)

Lemma agree_refl n h : n <= length h -> agree n h h.
Proof. intros H. repeat split; auto. Qed.

Lemma agree_app n h h' a b : agree n h h' -> agree n (h ++ a) (h' ++ b).
Proof.
  intros (H1 & H2 & H). unfold agree. rewrite !length_app.
  repeat split; try lia. intros l Hl.
  unfold heap_get. rewrite !app_nth1 by lia. now apply H.
Qed.

Lemma agree_extends n h h' :
  n <= length h -> extends h h' -> agree n h h'.
Proof.
  intros Hn [fresh ->]. rewrite <- (app_nil_r h) at 1.
  apply agree_app, agree_refl, Hn.
Qed.

Create HintDb fr.

Lemma framed_ret n {A} (P : A -> Prop) a : P a -> framed n P (ret a).
Proof. intros H o st st' Ha Hd. cbn. auto. Qed.

Lemma framed_throw n {A} (P : A -> Prop) e : framed n P (@throw A e).
Proof. intros o st st' Ha Hd. cbn. auto. Qed.

Lemma framed_weaken n {A} (P Q : A -> Prop) m :
  framed n P m -> (forall a, P a -> Q a) -> framed n Q m.
Proof.
  intros Hm HPQ o st st' Ha Hd.
  destruct (Hm o st st' Ha Hd) as (H1 & H2 & H3 & H4).
  split; [|split; [|split]]; try assumption.
  destruct (fst (m o st)); [now apply HPQ|exact I].
Qed.

Lemma framed_bind n {A B} (P : A -> Prop) (Q : B -> Prop) (m : M A)
  (k : A -> M B) :
  framed n P m -> (forall a, P a -> framed n Q (k a)) ->
  framed n Q (bind m k).
Proof.
  intros Hm Hk o st st' Ha Hd. unfold bind.
  destruct (Hm o st st' Ha Hd) as (H1 & H2 & H3 & H4).
  destruct (m o st) as [[a|e] s1], (m o st') as [[a'|e'] s1'];
    cbn in *; try discriminate.
  - injection H1 as ->. now apply Hk.
  - injection H1 as ->. auto.
Qed.

Lemma framed_try_catch n {A} (P : A -> Prop) (m : M A)
  (h : jsstring -> M A) :
  framed n P m -> (forall e, framed n P (h e)) ->
  framed n P (try_catch m h).
Proof.
  intros Hm Hh o st st' Ha Hd. unfold try_catch.
  destruct (Hm o st st' Ha Hd) as (H1 & H2 & H3 & H4).
  destruct (m o st) as [[a|e] s1], (m o st') as [[a'|e'] s1'];
    cbn in *; try discriminate.
  - injection H1 as ->. auto.
  - injection H1 as ->. now apply Hh.
Qed.

Lemma framed_read_array n l :
  l < n -> framed n (fun _ => True) (read_array l).
Proof.
  intros Hl o st st' Ha Hd. cbn. destruct Ha as (H1 & H2 & H).
  rewrite (H l Hl). unfold agree. auto.
Qed.

Lemma framed_stringify n v :
  value_below n v -> framed n (fun _ => True) (stringify v).
Proof.
  intros Hv o st st' Ha Hd. cbn.
  assert (E : String_of (st_heap st') v = String_of (st_heap st) v).
  { destruct v; try reflexivity. cbn in *.
    destruct Ha as (_ & _ & H). now rewrite (H l Hv). }
  rewrite E. auto.
Qed.

Lemma framed_random_below n k :
  framed n (fun _ => True) (random_below k).
Proof.
  intros o st st' Ha Hd. cbn. rewrite Hd. auto.
Qed.

(** A copy that is updated in place and read. *)
Lemma framed_copy_update n {A} (P : A -> Prop) l
  (f : list elem -> list elem) (k : list elem -> M A) :
  l < n ->
  (forall xs, framed n P (k xs)) ->
  framed n P
    (bind (copy_array l)
       (fun c => bind (update_array c f)
                   (fun c' => bind (read_array c') k))).
Proof.
  intros Hl Hk o [h d] [h' d'] Ha Hd. cbn in Ha, Hd. subst d'.
  assert (E : heap_get h' l = heap_get h l) by (now apply Ha).
  unfold bind, copy_array, update_array, read_array. simpl.
  rewrite E, !heap_set_fresh, !heap_get_fresh.
  apply (Hk (f (heap_get h l)) o
           (State (h ++ [f (heap_get h l)]) d)
           (State (h' ++ [f (heap_get h l)]) d));
    [now apply agree_app|reflexivity].
Qed.

Lemma framed_lift_outcome n {A} (P : A -> Prop) (r : outcome A) :
  (forall a, r = Ok a -> P a) -> framed n P (lift_outcome r).
Proof.
  destruct r; intros H; [apply framed_ret; now apply H|apply framed_throw].
Qed.

Lemma framed_mapM n {A B} (P : B -> Prop) (f : A -> M B) l :
  (forall x, framed n P (f x)) -> framed n (Forall P) (mapM f l).
Proof.
  intros Hf. induction l as [|x l IH]; cbn [mapM].
  - now apply framed_ret.
  - eapply framed_bind; [apply Hf|]. intros y Hy.
    eapply framed_bind; [exact IH|]. intros ys Hys.
    apply framed_ret. now constructor.
Qed.

Ltac fr_step :=
  match goal with
  | |- framed _ _ (ret _) => apply framed_ret; cbn; auto
  | |- framed _ _ (throw _) => apply framed_throw
  | |- framed _ _ (bind (copy_array _) _) =>
      apply framed_copy_update; [assumption|intros]
  | |- framed _ _ (bind (read_array _) _) =>
      eapply framed_bind; [apply framed_read_array; assumption|intros]
  | |- framed _ _ (bind (random_below _) _) =>
      eapply framed_bind; [apply framed_random_below|intros]
  | |- framed _ _ (bind (stringify _) _) =>
      eapply framed_bind; [apply framed_stringify; cbn; auto|intros]
  | |- framed _ _ (match ?x with _ => _ end) => destruct x
  end.

Ltac fr_auto := repeat fr_step.

Lemma framed_exists n v :
  value_below n v ->
  framed n (fun _ => True) (ModifierConstants.exact.exists_ v).
Proof. intros H. destruct v; cbn in *; fr_auto. Qed.

Lemma framed_toString_or_empty n v :
  value_below n v -> framed n (fun _ => True) (toString_or_empty v).
Proof.
  intros H. destruct v; cbn [toString_or_empty]; fr_auto;
    now apply framed_stringify.
Qed.

Lemma framed_resolved_text n r :
  resolved_below n r -> framed n (fun _ => True) (resolved_text r).
Proof.
  intros H. destruct r; cbn [resolved_text];
    [now apply framed_toString_or_empty|fr_auto].
Qed.

Lemma framed_exact_lookup n key f v :
  ModifierConstants.exact.lookup key = Some f ->
  value_below n v -> framed n (fun _ => True) (f v).
Proof.
  unfold ModifierConstants.exact.lookup. intros H Hv.
  repeat (destruct (str_eqb key _);
          [injection H as <-; first [now apply framed_exists|fr_auto]|]).
  discriminate.
Qed.

Lemma framed_arrayModifiers n key f l :
  ModifierConstants.arrayModifiers key = Some f ->
  l < n -> framed n (fun _ => True) (f l).
Proof.
  unfold ModifierConstants.arrayModifiers. intros H Hl.
  repeat (destruct (str_eqb key _); [injection H as <-; fr_auto|]).
  discriminate.
Qed.

Lemma framed_conditional_modifier n v m isExact :
  value_below n v ->
  framed n (fun _ => True) (conditional_modifier v m isExact).
Proof.
  intros Hv. unfold conditional_modifier.
  apply framed_try_catch; [|intros; fr_auto].
  eapply framed_bind; [now apply framed_exists|]. intros present _.
  destruct (negb present); [fr_auto|].
  destruct isExact.
  - destruct (ModifierConstants.exact.lookup m) eqn:E; [|fr_auto].
    eapply framed_exact_lookup; eassumption.
  - destruct (find _ _); [|fr_auto].
    eapply framed_bind; [now apply framed_stringify|]. intros text _.
    now apply framed_lift_outcome.
Qed.

Lemma framed_applySingleModifier n ext v m :
  value_below n v ->
  framed n (option_below n) (applySingleModifier ext v m).
Proof.
  intros Hv. unfold applySingleModifier.
  destruct (_ || _).
  - eapply framed_bind; [now apply framed_conditional_modifier|].
    intros b _. fr_auto.
  - destruct v; cbn in Hv; try solve [fr_auto].
    + destruct (ModifierConstants.stringModifiers ext _); [fr_auto|].
      destruct (_ && _); [|fr_auto].
      unfold replace_modifier. fr_auto.
    + destruct (ModifierConstants.arrayModifiers _) eqn:E.
      * eapply framed_bind; [eapply framed_arrayModifiers; eassumption|].
        intros text _. fr_auto.
      * fr_auto.
Qed.

Lemma framed_apply_modifiers n ext property mods :
  forall result,
    value_below n result ->
    framed n (resolved_below n) (apply_modifiers ext property result mods).
Proof.
  induction mods as [|m mods IH]; intros result Hr; cbn [apply_modifiers].
  - fr_auto.
  - eapply framed_bind; [now apply framed_applySingleModifier|].
    intros [r|] Hr'; [now apply IH|fr_auto].
Qed.

Lemma assoc_forall {A} (P : A -> Prop) k (l : list (jsstring * A)) v :
  Forall (fun entry => P (snd entry)) l -> assoc k l = Some v -> P v.
Proof.
  induction 1 as [|[k' v'] l Hx _ IH]; cbn [assoc]; [discriminate|].
  destruct (str_eqb k k'); [now intros [= <-]|exact IH].
Qed.

Lemma framed_parseModifiedVariable n ext shape baseString pv :
  namespace_below n pv ->
  framed n (resolved_below n)
    (parseModifiedVariable ext shape baseString pv).
Proof.
  intros Hpv. unfold parseModifiedVariable.
  destruct (find_key _ _) as [[|c vt]|]; try solve [fr_auto].
  destruct (find_key _ _) as [[|c' pn]|]; try solve [fr_auto].
  destruct (assoc _ pv) as [dict|] eqn:Ed; [|fr_auto].
  pose proof (assoc_forall
                (fun sec => Forall (fun field => value_below n (snd field)) sec)
                _ _ _ Hpv Ed) as Hdict.
  apply framed_apply_modifiers.
  destruct (assoc _ dict) as [v|] eqn:Ev; [|exact I].
  exact (assoc_forall (value_below n) _ _ _ Hdict Ev).
Qed.

Lemma comparator_below n key f p c :
  ComparatorConstants.comparatorKeyToFuncs key = Some f ->
  value_below n p -> value_below n c -> value_below n (f p c).
Proof.
  unfold ComparatorConstants.comparatorKeyToFuncs. intros H Hp Hc.
  repeat (destruct (str_eqb key _);
          [injection H as <-;
           cbv [ComparatorConstants.and_ ComparatorConstants.or_
                  ComparatorConstants.xor ComparatorConstants.neq
                  ComparatorConstants.equal ComparatorConstants.left
                  ComparatorConstants.right];
           repeat match goal with
                  | |- context [if ?b then _ else _] => destruct b
                  end; cbn; auto|]).
  discriminate.
Qed.

Lemma framed_compare_step n prev cur key :
  resolved_below n prev -> resolved_below n cur ->
  framed n (resolved_below n) (compare_step prev cur key).
Proof.
  intros Hp Hc. unfold compare_step.
  destruct prev as [p|e]; [|fr_auto].
  destruct cur as [c|e]; [|fr_auto].
  apply framed_try_catch.
  - destruct (ComparatorConstants.comparatorKeyToFuncs key) eqn:E;
      [|fr_auto].
    apply framed_ret. eapply comparator_below; eassumption.
  - intros e. fr_auto.
Qed.

Lemma framed_reduce_from n rest :
  forall prev comparators,
    resolved_below n prev -> Forall (resolved_below n) rest ->
    framed n (resolved_below n) (reduce_from prev rest comparators).
Proof.
  induction rest as [|cur rest IH]; intros prev comparators Hp Hr;
    cbn [reduce_from]; [fr_auto|].
  inversion Hr as [|? ? Hc Hr']; subst.
  destruct comparators as [|k cs].
  - destruct prev; [destruct cur|]; first [now apply IH|fr_auto].
  - eapply framed_bind; [now apply framed_compare_step|].
    intros next Hn. now apply IH.
Qed.

Lemma framed_reduce_variable n ext shape mv pv :
  namespace_below n pv ->
  framed n (resolved_below n) (reduce_variable ext shape mv pv).
Proof.
  intros Hpv. unfold reduce_variable.
  assert (Hmany : forall segs comparators,
            framed n (resolved_below n)
              (resolvedVariables <-
                 mapM (fun baseString =>
                         parseModifiedVariable ext shape baseString pv) segs ;;
               match resolvedVariables with
               | [] => throw (js "TypeError: Reduce of empty array with no initial value")
               | first :: rest => reduce_from first rest comparators
               end)).
  { intros segs comparators.
    eapply framed_bind;
      [apply framed_mapM; intros; now apply framed_parseModifiedVariable|].
    intros [|first rest] Hall; [fr_auto|].
    inversion Hall; subst. now apply framed_reduce_from. }
  destruct (evens _) as [|s1 [|s2 segs]].
  - apply Hmany.
  - now apply framed_parseModifiedVariable.
  - apply Hmany.
Qed.

Lemma framed_parseVariable n ext shape mv fsm pv :
  namespace_below n pv ->
  framed n (resolved_below n) (parseVariable ext shape mv fsm pv).
Proof.
  intros Hpv. unfold parseVariable.
  destruct (mod_check fsm) as [[t f]|];
    [|now apply framed_reduce_variable].
  eapply framed_bind; [now apply framed_reduce_variable|].
  intros r Hr.
  assert (Hv : value_below n (result_of r)) by (destruct r; [exact Hr|exact I]).
  destruct (result_of r); fr_auto.
Qed.

Lemma framed_splice_nested n data counts pv nested sp :
  (forall parseValue,
     namespace_below n parseValue ->
     framed n (resolved_below n) (resultFn nested parseValue)) ->
  namespace_below n pv ->
  framed n (fun _ => True) (splice_nested data counts pv nested sp).
Proof.
  intros Hn Hpv. unfold splice_nested.
  eapply framed_bind; [now apply Hn|]. intros r Hr.
  eapply framed_bind; [now apply framed_resolved_text|]. intros text _.
  destruct (suffix_mod_check data); [destruct (sp_check sp) as [[t f]|]|];
    fr_auto.
Qed.

Lemma framed_splice_all n data counts pv nested :
  all_framed n nested ->
  namespace_below n pv ->
  forall sp, framed n (fun _ => True) (splice_all data counts pv nested sp).
Proof.
  intros H Hpv. induction H as [|fn fns Hfn _ IH]; intros sp;
    cbn [splice_all].
  - fr_auto.
  - eapply framed_bind; [now apply framed_splice_nested|].
    intros sp' _. apply IH.
Qed.

Lemma framed_getResolvedVariable n ext shape data template counts nested pv :
  all_framed n nested ->
  namespace_below n pv ->
  framed n (resolved_below n)
    (getResolvedVariable ext shape data template counts nested pv).
Proof.
  intros Hn Hpv. unfold getResolvedVariable.
  eapply framed_bind; [now apply framed_splice_all|]. intros sp _.
  now apply framed_parseVariable.
Qed.

Lemma all_framed_filter n f fns :
  all_framed n fns -> all_framed n (filter f fns).
Proof.
  unfold all_framed. rewrite !Forall_forall. intros H fn Hin.
  apply filter_In in Hin. now apply H.
Qed.

Lemma all_framed_rev n fns : all_framed n fns -> all_framed n (rev fns).
Proof.
  unfold all_framed. rewrite !Forall_forall. intros H fn Hin.
  apply H. now apply in_rev.
Qed.

Lemma on_match_framed n ext shape sc i data stack sc' :
  all_framed n (compiledVariableTemplateFns sc) ->
  on_match ext shape sc i data stack = Ok sc' ->
  all_framed n (compiledVariableTemplateFns sc').
Proof.
  intros Hfr. unfold on_match.
  destruct (checkSuffix_length _) as [k|e]; [|discriminate].
  intros [= <-]. cbn [compiledVariableTemplateFns]. apply Forall_app. split.
  - now apply all_framed_filter.
  - constructor; [|constructor]. intros pv Hpv. cbn [resultFn].
    apply framed_getResolvedVariable; [|exact Hpv].
    now apply all_framed_rev, all_framed_filter.
Qed.

Lemma scan_framed n ext shape re fuel :
  forall sc sc',
    all_framed n (compiledVariableTemplateFns sc) ->
    scan ext shape fuel re sc = Ok sc' ->
    all_framed n (compiledVariableTemplateFns sc').
Proof.
  induction fuel as [|fuel IH]; intros sc sc' Hfr; cbn [scan].
  - now intros [= <-].
  - destruct (scan_step ext shape re sc) as [[sc1|e]|] eqn:E.
    + apply IH. unfold scan_step in E.
      destruct (nth_error _ _) as [c|]; [|discriminate].
      destruct (Ascii.eqb c "{"); [now injection E as <-|].
      destruct (Ascii.eqb c "}"); [|now injection E as <-].
      destruct (getMatches _ _ _ _ _) as [[data stack]|];
        [|now injection E as <-].
      injection E as E. eapply on_match_framed; eassumption.
    + discriminate.
    + now intros [= <-].
Qed.

Lemma framed_render_all n fns :
  all_framed n fns ->
  forall resultStr pv,
    namespace_below n pv ->
    framed n (fun _ => True) (render_all fns resultStr pv).
Proof.
  induction 1 as [|fn fns Hfn _ IH]; intros s pv Hpv; cbn [render_all].
  - fr_auto.
  - eapply framed_bind; [now apply Hfn|]. intros r Hr.
    eapply framed_bind; [now apply framed_resolved_text|]. intros text _.
    now apply IH.
Qed.

Lemma framed_compileTemplateHelper n ext shape str process :
  compileTemplateHelper ext shape str = Ok process ->
  forall pv, namespace_below n pv ->
             framed n (fun _ => True) (process pv).
Proof.
  unfold compileTemplateHelper, compile_scan.
  destruct str as [|c str]; [intros [= <-] pv Hpv; fr_auto|].
  destruct (RegexBuilder.buildRegexExpression shape) as [re|e];
    [|discriminate].
  destruct (scan _ _ _ _ _) as [sc|e] eqn:E; [|discriminate].
  intros [= <-] pv Hpv. apply framed_render_all; [|exact Hpv].
  apply all_framed_rev. eapply scan_framed; [|exact E]. constructor.
Qed.

Lemma framed_compileTemplate n ext shape str process :
  compileTemplate ext shape str = Ok process ->
  forall pv, namespace_below n pv ->
             framed n (fun _ => True) (process pv).
Proof.
  unfold compileTemplate.
  destruct (compileTemplateHelper _ _ _) as [f|e] eqn:E; [|discriminate].
  intros [= <-] pv Hpv.
  eapply framed_bind;
    [eapply framed_compileTemplateHelper; eassumption|intros; fr_auto].
Qed.

Lemma framed_format n ext shape config pv :
  namespace_below n pv ->
  framed n (fun _ => True) (format ext shape config pv).
Proof.
  intros Hpv. unfold format, compileTemplatesAsync.
  destruct (compileTemplate ext shape (name config)) as [f|e] eqn:Ef;
    [|fr_auto].
  destruct (compileTemplate ext shape (description config)) as [g|e] eqn:Eg;
    [|fr_auto].
  eapply framed_bind; [eapply framed_compileTemplate; eassumption|].
  intros nm _.
  eapply framed_bind; [eapply framed_compileTemplate; eassumption|].
  intros d _. fr_auto.
Qed.

(** C8, amended.  Take a namespace instance whose arrays exist.  Whenever
    an invocation of [format] ends, with a result or with an exception,
    without having drawn a random number (the [random] modifier was
    applied to no array), the next invocation on the same record, which
    starts from the state that the first one left, ends in the same way
    whatever the source of randomness now is: with the same name and
    description, or with the same exception; and it draws no number
    either, so that the same holds of the invocation after it. *)
Theorem C8_repeated_format_without_draw :
  forall ext shape config parseValue o st,
    namespace_below (length (st_heap st)) parseValue ->
    st_draws (snd (run (format ext shape config parseValue) o st))
    = st_draws st ->
    forall o',
      let st1 := snd (run (format ext shape config parseValue) o st) in
      fst (run (format ext shape config parseValue) o' st1)
      = fst (run (format ext shape config parseValue) o st)
      /\ st_draws (snd (run (format ext shape config parseValue) o' st1))
         = st_draws st1.
Proof.
  intros ext shape config pv o st Hpv Hd o' st1. unfold run in *.
  destruct (wb_format ext shape config pv o st) as (He & _ & _).
  assert (Ha : agree (length (st_heap st)) (st_heap st) (st_heap st1))
    by (apply agree_extends; [lia|exact He]).
  destruct (framed_format (length (st_heap st)) ext shape config pv Hpv
              o st st1 Ha Hd) as (Hr & _ & Hdr & _).
  fold st1 in Hdr.
  assert (Hsame : format ext shape config pv o' st1
                  = format ext shape config pv o st1).
  { destruct (wb_format ext shape config pv o st1) as (_ & _ & Ho).
    apply Ho. exact Hdr. }
  rewrite Hsame. split; [exact Hr|exact Hdr].
Qed.

Lemma C8_repeated_format_without_draw_witness :
  fst (run (format sample_externals shape0
              {| name := js "{stream.languages::sort}";
                 description := js "{stream.size::hex}" |}
              (namespace_of sample_stream)) (fun _ => 1)
         (snd (run (format sample_externals shape0
                      {| name := js "{stream.languages::sort}";
                         description := js "{stream.size::hex}" |}
                      (namespace_of sample_stream)) (fun _ => 0)
                 sample_state)))
  = fst (run (format sample_externals shape0
                {| name := js "{stream.languages::sort}";
                   description := js "{stream.size::hex}" |}
                (namespace_of sample_stream)) (fun _ => 0) sample_state).
Proof.
  apply (C8_repeated_format_without_draw sample_externals shape0
           {| name := js "{stream.languages::sort}";
              description := js "{stream.size::hex}" |}
           (namespace_of sample_stream) (fun _ => 0) sample_state).
  - repeat constructor.
  - vm_compute. reflexivity.
Defined.

(** C10.  [format] leaves every array that the namespace instance holds as
    it was: the heap after the call is the heap before it, followed by the
    copies that [sort] and [reverse] made. *)
Theorem C10_format_does_not_mutate :
  forall ext shape config parseValue o st,
    extends (st_heap st)
      (st_heap (snd (run (format ext shape config parseValue) o st)))
    /\ forall l,
         l < length (st_heap st) ->
         heap_get
           (st_heap (snd (run (format ext shape config parseValue) o st))) l
         = heap_get (st_heap st) l.
Proof.
  intros ext shape config pv o st.
  destruct (wb_format ext shape config pv o st) as (He & _ & _).
  split; [exact He|]. intros l Hl. now apply extends_get.
Qed.

(** [sort] and [reverse] on a field of the sample record. *)
Lemma sort_reverse_example :
  forall ext o,
    run (format ext shape0
           {| name := js "{stream.languages::reverse}";
              description := js "{stream.languages::sort}" |}
           (namespace_of sample_stream)) o
      (State [[EStr (js "b"); EStr (js "a"); EStr (js "c")]] 0)
    = (Ok (js "c,a,b", js "a,b,c"),
       State [[EStr (js "b"); EStr (js "a"); EStr (js "c")];
              [EStr (js "c"); EStr (js "a"); EStr (js "b")];
              [EStr (js "a"); EStr (js "b"); EStr (js "c")]] 0).
Proof. intros. vm_compute. reflexivity. Qed.

Lemma C10_format_does_not_mutate_witness :
  heap_get
    (st_heap
       (snd (run (format sample_externals shape0
                    {| name := js "{stream.languages::reverse}";
                       description := js "{stream.languages::sort}" |}
                    (namespace_of sample_stream)) (fun n => n) sample_state)))
    0
  = heap_get (st_heap sample_state) 0.
Proof.
  apply (proj2 (C10_format_does_not_mutate sample_externals shape0
                  {| name := js "{stream.languages::reverse}";
                     description := js "{stream.languages::sort}" |}
                  (namespace_of sample_stream) (fun n => n) sample_state)).
  simpl. lia.
Defined.

(** ** The modifiers, one at a time and in a chain *)

(** The conditional branch of [applySingleModifier] reads the heap and
    nothing more, and its [catch] turns every exception into [false]. *)
Lemma conditional_modifier_returns variable mod_ isExact o st :
  exists b, conditional_modifier variable mod_ isExact o st = (Ok b, st).
Proof.
  unfold conditional_modifier, try_catch, bind.
  assert (Hp : exists p,
             ModifierConstants.exact.exists_ variable o st = (Ok p, st)).
  { destruct variable; simpl; eexists; reflexivity. }
  destruct Hp as [p ->]. destruct p; cbn [negb]; [|now eexists].
  destruct isExact.
  - unfold ModifierConstants.exact.lookup.
    repeat match goal with
           | |- context [if ?c then _ else _] => destruct c
           end; try (now eexists).
    destruct variable; simpl; eexists; reflexivity.
  - destruct (find (startsWith mod_) prefix_keys_by_length) as [modPrefix|];
      [|now eexists].
    unfold stringify.
    destruct (ModifierConstants.prefix.apply modPrefix
                (prefix_operands modPrefix
                   (toLowerCase (String_of (st_heap st) variable))
                   (toLowerCase (substring_from mod_ (length modPrefix)))));
      now eexists.
Qed.

(** X1.  A conditional modifier ([istrue], [isfalse], [exists] or a text
    that starts with one of the eight prefixes), in any spelling of upper
    and lower case and on any value, yields a boolean: it never throws,
    never answers [undefined], draws no random number and leaves the heap
    as it was. *)
Theorem conditional_modifier_yields_boolean ext variable _mod o st :
  existsb (str_eqb (toLowerCase _mod)) ModifierConstants.exact.keys
  || existsb (startsWith (toLowerCase _mod)) ModifierConstants.prefix.keys
  = true ->
  exists b,
    applySingleModifier ext variable _mod o st = (Ok (Some (VBool b)), st).
Proof.
  intros H. unfold applySingleModifier. rewrite H. unfold bind.
  destruct (conditional_modifier_returns variable (toLowerCase _mod)
              (existsb (str_eqb (toLowerCase _mod))
                 ModifierConstants.exact.keys) o st) as [b ->].
  now exists b.
Qed.

Lemma conditional_modifier_yields_boolean_witness :
  exists b,
    applySingleModifier sample_externals VNull (js ">=10 GB") (fun _ => 0)
      sample_state = (Ok (Some (VBool b)), sample_state).
Proof.
  apply (conditional_modifier_yields_boolean sample_externals VNull
           (js ">=10 GB") (fun _ => 0) sample_state).
  reflexivity.
Defined.

(** X2.  What the three exact modifiers answer, in whatever letter case
    the modifier is spelled: [istrue] is true on the boolean [true] only
    and [isfalse] on the boolean [false] only, so on a text, a number, an
    array or a missing value both are false; [exists] is false on
    [undefined], [null], a text without a non-blank character and an empty
    array, and true otherwise. *)
Theorem exact_modifiers_meaning ext v m o st :
  (toLowerCase m = js "istrue" ->
   applySingleModifier ext v m o st
   = (Ok (Some (VBool (match v with VBool true => true | _ => false end))),
      st))
  /\ (toLowerCase m = js "isfalse" ->
      applySingleModifier ext v m o st
      = (Ok (Some (VBool (match v with VBool false => true | _ => false end))),
         st))
  /\ (toLowerCase m = js "exists" ->
      applySingleModifier ext v m o st
      = (Ok (Some (VBool (value_present (st_heap st) v))), st)).
Proof.
  repeat split; intros H; unfold applySingleModifier; rewrite H;
    destruct v as [| |[|]| |s|l]; try reflexivity;
    unfold conditional_modifier,
      ModifierConstants.exact.lookup, ModifierConstants.exact.exists_,
      value_present, try_catch, read_array, bind, ret;
    simpl;
    repeat match goal with
           | |- context [has_non_space ?s] =>
               let E := fresh in
               destruct (has_non_space s) eqn:E; simpl; rewrite ?E; simpl
           | |- context [0 <? ?n] =>
               let E := fresh in
               destruct (0 <? n) eqn:E; simpl; rewrite ?E; simpl
           end; reflexivity.
Qed.

Lemma exact_modifiers_meaning_witness :
  applySingleModifier sample_externals (VStr (js "true")) (js "IsTrue")
    (fun n => n) sample_state
  = (Ok (Some (VBool false)), sample_state).
Proof.
  apply (proj1 (exact_modifiers_meaning sample_externals (VStr (js "true"))
                  (js "IsTrue") (fun n => n) sample_state)).
  reflexivity.
Defined.

(** What a modifier that applies yields is a text or a boolean, also on a
    number and on an array. *)
Lemma modifier_result_kind ext v m o st r st' :
  applySingleModifier ext v m o st = (Ok (Some r), st') ->
  (exists s, r = VStr s) \/ (exists b, r = VBool b).
Proof.
  unfold applySingleModifier.
  destruct (existsb (str_eqb (toLowerCase m)) ModifierConstants.exact.keys
            || existsb (startsWith (toLowerCase m))
                 ModifierConstants.prefix.keys).
  - unfold bind.
    destruct (conditional_modifier_returns v (toLowerCase m)
                (existsb (str_eqb (toLowerCase m))
                   ModifierConstants.exact.keys) o st) as [b ->].
    intros [= <- <-]. right. now exists b.
  - destruct v as [| |b|n|s|l]; try discriminate.
    + destruct (ModifierConstants.numberModifiers ext (toLowerCase m));
        [|discriminate].
      intros [= <- <-]. left. now eexists.
    + destruct (ModifierConstants.stringModifiers ext (toLowerCase m)).
      * intros [= <- <-]. left. now eexists.
      * destruct (startsWith (toLowerCase m) (js "replace(")
                  && endsWith (toLowerCase m) (js ")")); [|discriminate].
        unfold replace_modifier.
        destruct (split_dynamic ext _ _); [|discriminate].
        match goal with
        | |- context [if ?c then _ else _] => destruct c
        end; [|discriminate].
        intros [= <- <-]. left. now eexists.
    + destruct (ModifierConstants.arrayModifiers (toLowerCase m)) as [f|].
      * unfold bind. destruct (f l o st) as [[t|e] st1]; [|discriminate].
        intros [= <- <-]. left. now eexists.
      * destruct (startsWith (toLowerCase m) (js "join(")
                  && endsWith (toLowerCase m) (js ")")); [|discriminate].
        intros [= <- <-]. left. now eexists.
Qed.

(** A modifier after the first acts on what the first one yielded, which
    is a text or a boolean, whatever the field holds. *)
Lemma second_modifier_not_for_text ext v m1 m2 rest o st r st' :
  applySingleModifier ext v m1 o st = (Ok (Some r), st') ->
  existsb (str_eqb (toLowerCase m2)) ModifierConstants.exact.keys
  || existsb (startsWith (toLowerCase m2)) ModifierConstants.prefix.keys
  = false ->
  ModifierConstants.stringModifiers ext (toLowerCase m2) = None ->
  startsWith (toLowerCase m2) (js "replace(")
  && endsWith (toLowerCase m2) (js ")") = false ->
  apply_modifiers ext v v (m1 :: m2 :: rest) o st
  = (Ok (Error (unknown_modifier_error v m2)), st').
Proof.
  intros H1 Hc Hs Hr. cbn [apply_modifiers]. unfold bind at 1. rewrite H1.
  unfold bind, applySingleModifier. rewrite Hc.
  destruct (modifier_result_kind _ _ _ _ _ _ _ H1) as [[s ->]|[b ->]].
  - rewrite Hs, Hr. reflexivity.
  - reflexivity.
Qed.

(** X3.  The number modifiers and the array modifiers apply in the first
    place of a chain only: when the first modifier of a chain applies,
    whatever the field holds, and the second one is a modifier for
    numbers or for arrays that is not one for texts as well, the chain
    ends with the error tag of an unknown modifier, named after the type
    of the field. *)
Theorem second_modifier_acts_on_text ext v m1 m2 rest o st r st' :
  applySingleModifier ext v m1 o st = (Ok (Some r), st') ->
  In m2 number_or_array_only_modifiers ->
  apply_modifiers ext v v (m1 :: m2 :: rest) o st
  = (Ok (Error (unknown_modifier_error v m2)), st').
Proof.
  intros H1 Hin. unfold number_or_array_only_modifiers in Hin.
  cbn [map In] in Hin.
  repeat (destruct Hin as [<-|Hin];
          [apply (second_modifier_not_for_text ext v m1 _ rest o st r st'
                    H1); reflexivity|]).
  contradiction.
Qed.

Lemma second_modifier_acts_on_text_witness :
  apply_modifiers sample_externals (VNum 1024) (VNum 1024)
    [js "bytes"; js "hex"] (fun _ => 0) sample_state
  = (Ok (Error (js "{unknown_number_modifier(hex)}")), sample_state).
Proof.
  apply (second_modifier_acts_on_text sample_externals (VNum 1024)
           (js "bytes") (js "hex") [] (fun _ => 0) sample_state
           (VStr (js "1.5 GB")) sample_state).
  - reflexivity.
  - right. left. reflexivity.
Defined.

(** X4.  A chain of modifiers is applied from left to right, each one to
    the result of the one before, and the first one that does not apply
    ends it: applying [ms1 ++ ms2] is applying [ms1] and then, unless that
    gave an error, [ms2] to its result. *)
Theorem modifier_chain_composes ext property v ms1 ms2 o st :
  apply_modifiers ext property v (ms1 ++ ms2) o st
  = (r <- apply_modifiers ext property v ms1 ;;
     match r with
     | Result v' => apply_modifiers ext property v' ms2
     | Error e => ret (Error e)
     end) o st.
Proof.
  revert v o st. induction ms1 as [|m ms1 IH]; intros v o st.
  - reflexivity.
  - cbn [app apply_modifiers]. unfold bind.
    destruct (applySingleModifier ext v m o st) as [[[v1|]|e] st1].
    + rewrite IH. reflexivity.
    + reflexivity.
    + reflexivity.
Qed.

(** X5.  On a text field, [reverse] applied twice gives the text back, and
    [reverse] does not change what [length] answers. *)
Theorem reverse_modifier_round_trip ext s o st :
  apply_modifiers ext (VStr s) (VStr s) [js "reverse"; js "reverse"] o st
  = (Ok (Result (VStr s)), st)
  /\ apply_modifiers ext (VStr s) (VStr s) [js "reverse"; js "length"] o st
     = apply_modifiers ext (VStr s) (VStr s) [js "length"] o st.
Proof.
  split.
  - change (apply_modifiers ext (VStr s) (VStr s)
              [js "reverse"; js "reverse"] o st)
      with (Ok (Result (VStr (rev (rev s)))), st).
    now rewrite rev_involutive.
  - change ((Ok (Result
                   (VStr (number_toString (Z.of_nat (length (rev s)))))),
             st)
            = (Ok (Result (VStr (number_toString (Z.of_nat (length s))))),
               st)).
    now rewrite length_rev.
Qed.

(** ** The array modifiers *)

(** X6.  On an array that is not empty, [first] yields the text of its
    first element and [last] that of its last one, without any effect;
    [random] draws one number and yields the text of an element of the
    array. *)
Theorem first_last_random_pick_elements ext l o st :
  heap_get (st_heap st) l <> [] ->
  applySingleModifier ext (VArr l) (js "first") o st
  = (Ok (Some (VStr (elem_toString
                       (hd (EStr []) (heap_get (st_heap st) l))))), st)
  /\ applySingleModifier ext (VArr l) (js "last") o st
     = (Ok (Some (VStr (elem_toString
                          (last (heap_get (st_heap st) l) (EStr []))))), st)
  /\ exists e,
       In e (heap_get (st_heap st) l)
       /\ applySingleModifier ext (VArr l) (js "random") o st
          = (Ok (Some (VStr (elem_toString e))),
             State (st_heap st) (S (st_draws st))).
Proof.
  intros Hne.
  change (applySingleModifier ext (VArr l) (js "first") o st)
    with (Ok (Some (VStr (ModifierConstants.arrayModifierGetOrDefault
                            (heap_get (st_heap st) l) 0))), st).
  change (applySingleModifier ext (VArr l) (js "last") o st)
    with (Ok (Some (VStr (ModifierConstants.arrayModifierGetOrDefault
                            (heap_get (st_heap st) l)
                            (length (heap_get (st_heap st) l) - 1)))), st).
  change (applySingleModifier ext (VArr l) (js "random") o st)
    with (Ok (Some (VStr (ModifierConstants.arrayModifierGetOrDefault
                            (heap_get (st_heap st) l)
                            (match length (heap_get (st_heap st) l) with
                             | O => O
                             | S _ => o (st_draws st)
                                        mod length (heap_get (st_heap st) l)
                             end)))),
          State (st_heap st) (S (st_draws st))).
  destruct (heap_get (st_heap st) l) as [|x t]; [contradiction|].
  split; [reflexivity|]. split.
  - unfold ModifierConstants.arrayModifierGetOrDefault.
    replace (length (x :: t) - 1) with (length t) by (simpl; lia).
    assert (H : nth_error (x :: t) (length t)
                = Some (last (x :: t) (EStr []))).
    { clear. revert x. induction t as [|y t IH]; intros x; [reflexivity|].
      change (nth_error (y :: t) (length t)
              = Some (last (y :: t) (EStr []))). apply IH. }
    now rewrite H.
  - unfold ModifierConstants.arrayModifierGetOrDefault.
    assert (Hlt : o (st_draws st) mod length (x :: t) < length (x :: t))
      by (apply Nat.mod_upper_bound; discriminate).
    destruct (nth_error (x :: t) (o (st_draws st) mod length (x :: t)))
      as [e|] eqn:E.
    + exists e. split; [now apply nth_error_In in E|].
      cbn [length]. cbn [length] in E. now rewrite E.
    + apply nth_error_None in E. lia.
Qed.

Lemma first_last_random_pick_elements_witness :
  applySingleModifier sample_externals (VArr 0) (js "last") (fun _ => 0)
    sample_state
  = (Ok (Some (VStr (js "Italian"))), sample_state).
Proof.
  apply (first_last_random_pick_elements sample_externals 0 (fun _ => 0)
           sample_state).
  discriminate.
Defined.

(** X7.  On an empty array [first], [last] and [random] yield the empty
    text instead of the text of an element that is not there; [random]
    still draws a number. *)
Theorem first_last_random_of_empty_array ext l o st :
  heap_get (st_heap st) l = [] ->
  applySingleModifier ext (VArr l) (js "first") o st
  = (Ok (Some (VStr [])), st)
  /\ applySingleModifier ext (VArr l) (js "last") o st
     = (Ok (Some (VStr [])), st)
  /\ applySingleModifier ext (VArr l) (js "random") o st
     = (Ok (Some (VStr [])), State (st_heap st) (S (st_draws st))).
Proof.
  intros H.
  change (applySingleModifier ext (VArr l) (js "first") o st)
    with (Ok (Some (VStr (ModifierConstants.arrayModifierGetOrDefault
                            (heap_get (st_heap st) l) 0))), st).
  change (applySingleModifier ext (VArr l) (js "last") o st)
    with (Ok (Some (VStr (ModifierConstants.arrayModifierGetOrDefault
                            (heap_get (st_heap st) l)
                            (length (heap_get (st_heap st) l) - 1)))), st).
  change (applySingleModifier ext (VArr l) (js "random") o st)
    with (Ok (Some (VStr (ModifierConstants.arrayModifierGetOrDefault
                            (heap_get (st_heap st) l)
                            (match length (heap_get (st_heap st) l) with
                             | O => O
                             | S _ => o (st_draws st)
                                        mod length (heap_get (st_heap st) l)
                             end)))),
          State (st_heap st) (S (st_draws st))).
  rewrite H. repeat split.
Qed.

Lemma first_last_random_of_empty_array_witness :
  applySingleModifier sample_externals (VArr 1) (js "first") (fun _ => 0)
    sample_state
  = (Ok (Some (VStr [])), sample_state).
Proof.
  apply (first_last_random_of_empty_array sample_externals 1 (fun _ => 0)
           sample_state).
  reflexivity.
Defined.

Lemma str_ltb_asym a : forall b, str_ltb a b = true -> str_ltb b a = false.
Proof.
  induction a as [|x a IH]; intros [|y b]; simpl; try congruence.
  destruct (code x <? code y) eqn:E1, (code y <? code x) eqn:E2;
    try congruence.
  - apply Nat.ltb_lt in E1, E2. lia.
  - apply IH.
Qed.

Lemma str_ltb_false_trans a :
  forall b c,
    str_ltb b a = false -> str_ltb c b = false -> str_ltb c a = false.
Proof.
  induction a as [|x a IH]; intros [|y b] [|z c]; simpl; try congruence.
  destruct (Nat.ltb_spec (code y) (code x)); [discriminate|].
  destruct (Nat.ltb_spec (code z) (code y)); [discriminate|].
  destruct (Nat.ltb_spec (code x) (code y));
    destruct (Nat.ltb_spec (code y) (code z));
    destruct (Nat.ltb_spec (code z) (code x));
    destruct (Nat.ltb_spec (code x) (code z));
    try lia; try reflexivity.
  apply IH.
Qed.

Lemma insert_sorted_permutation x l : Permutation (insert_sorted x l) (x :: l).
Proof.
  induction l as [|y t IH]; simpl; [reflexivity|].
  destruct (str_ltb (elem_toString y) (elem_toString x)); [|reflexivity].
  rewrite IH. apply perm_swap.
Qed.

Lemma insert_sorted_sorted x l :
  Sorted text_le l -> Sorted text_le (insert_sorted x l).
Proof.
  induction l as [|y t IH]; intros Hs; simpl.
  - repeat constructor.
  - destruct (str_ltb (elem_toString y) (elem_toString x)) eqn:E.
    + inversion Hs as [|? ? Ht Hhd]; subst. constructor; [now apply IH|].
      destruct t as [|z t]; simpl.
      * constructor. now apply str_ltb_asym.
      * destruct (str_ltb (elem_toString z) (elem_toString x));
          constructor; [now inversion Hhd|now apply str_ltb_asym].
    + constructor; [exact Hs|]. constructor. exact E.
Qed.

Lemma array_sort_sorted xs : StronglySorted text_le (array_sort xs).
Proof.
  apply Sorted_StronglySorted.
  - intros a b c Hab Hbc. unfold text_le in *.
    now apply (str_ltb_false_trans _ (elem_toString b)).
  - induction xs as [|x xs IH]; [constructor|].
    now apply insert_sorted_sorted.
Qed.

Lemma array_sort_permutation xs : Permutation (array_sort xs) xs.
Proof.
  induction xs as [|x xs IH]; [constructor|].
  unfold array_sort. cbn [fold_right]. rewrite insert_sorted_permutation.
  now constructor.
Qed.

(** X8.  [sort] works on a copy: the array of the field stays as it is, a
    new array is added to the heap, and that array holds the same
    elements, each no later in the order of their texts than the ones
    after it; the modifier yields its elements joined by commas. *)
Theorem sort_modifier_sorts_a_copy ext l o st :
  exists ys,
    Permutation ys (heap_get (st_heap st) l)
    /\ StronglySorted text_le ys
    /\ applySingleModifier ext (VArr l) (js "sort") o st
       = (Ok (Some (VStr (array_join (js ",") ys))),
          State (st_heap st ++ [ys]) (st_draws st)).
Proof.
  exists (array_sort (heap_get (st_heap st) l)).
  split; [apply array_sort_permutation|].
  split; [apply array_sort_sorted|].
  change (applySingleModifier ext (VArr l) (js "sort") o st)
    with (Ok (Some (VStr (array_join (js ",")
                            (heap_get
                               (heap_set
                                  (st_heap st ++ [heap_get (st_heap st) l])
                                  (length (st_heap st))
                                  (array_sort
                                     (heap_get
                                        (st_heap st
                                         ++ [heap_get (st_heap st) l])
                                        (length (st_heap st)))))
                               (length (st_heap st)))))),
          State (heap_set (st_heap st ++ [heap_get (st_heap st) l])
                   (length (st_heap st))
                   (array_sort
                      (heap_get (st_heap st ++ [heap_get (st_heap st) l])
                         (length (st_heap st)))))
            (st_draws st)).
  now rewrite !heap_get_fresh, heap_set_fresh, heap_get_fresh.
Qed.

(** ** The comparators *)

(** X9.  A chain of comparators has no precedence and associates to the
    left: when every operand resolves to a value and every comparator is
    one of the seven known ones, the chain
    [a::k1::v1::k2::v2 ...] yields [f2 (f1 a v1) v2 ...], a left fold,
    and has no effect. *)
Theorem comparators_fold_from_the_left keys :
  forall fs vals a o st,
    Forall2 (fun k f => ComparatorConstants.comparatorKeyToFuncs k = Some f)
      keys fs ->
    length vals = length keys ->
    run (reduce_from (Result a) (map Result vals) keys) o st
    = (Ok (Result (fold_left (fun acc fv => fst fv acc (snd fv))
                     (combine fs vals) a)), st).
Proof.
  induction keys as [|k keys IH]; intros fs vals a o st Hf Hlen;
    inversion Hf as [|? f ? fs' Hk Hrest]; subst;
    destruct vals as [|v vals]; try discriminate.
  - reflexivity.
  - injection Hlen as Hlen.
    cbn [map reduce_from combine fold_left fst snd]. unfold run, bind.
    unfold compare_step, try_catch. rewrite Hk. cbn [ret].
    apply (IH fs' vals (f a v) o st Hrest Hlen).
Qed.

Lemma comparators_fold_from_the_left_witness :
  run (reduce_from (Result (VBool false))
         (map Result [VBool true; VBool false]) [js "or"; js "and"])
    (fun _ => 0) sample_state
  = (Ok (Result (VBool false)), sample_state).
Proof.
  apply (comparators_fold_from_the_left [js "or"; js "and"]
           [ComparatorConstants.or_; ComparatorConstants.and_]
           [VBool true; VBool false] (VBool false) (fun _ => 0)
           sample_state).
  - repeat constructor.
  - reflexivity.
Defined.

(** [and], [or] and [xor] are the boolean connectives up to
    truthiness on all values, and exactly on booleans; [and] and [or]
    yield one of their operands, so on operands that are not booleans
    their result is not a boolean either. *)
Lemma comparators_and_truthiness v1 v2 a b :
  ComparatorConstants.truthy (ComparatorConstants.and_ v1 v2)
  = ComparatorConstants.truthy v1 && ComparatorConstants.truthy v2
  /\ ComparatorConstants.truthy (ComparatorConstants.or_ v1 v2)
     = ComparatorConstants.truthy v1 || ComparatorConstants.truthy v2
  /\ ComparatorConstants.truthy (ComparatorConstants.xor v1 v2)
     = xorb (ComparatorConstants.truthy v1) (ComparatorConstants.truthy v2)
  /\ (ComparatorConstants.and_ v1 v2 = v1
      \/ ComparatorConstants.and_ v1 v2 = v2)
  /\ (ComparatorConstants.or_ v1 v2 = v1
      \/ ComparatorConstants.or_ v1 v2 = v2)
  /\ ComparatorConstants.and_ (VBool a) (VBool b) = VBool (a && b)
  /\ ComparatorConstants.or_ (VBool a) (VBool b) = VBool (a || b)
  /\ ComparatorConstants.xor (VBool a) (VBool b) = VBool (xorb a b).
Proof.
  unfold ComparatorConstants.xor, ComparatorConstants.and_,
    ComparatorConstants.or_.
  repeat split.
  - destruct (ComparatorConstants.truthy v1) eqn:E; [reflexivity|exact E].
  - destruct (ComparatorConstants.truthy v1) eqn:E; [exact E|reflexivity].
  - destruct (ComparatorConstants.truthy v1) eqn:E1; rewrite ?E1;
      destruct (ComparatorConstants.truthy v2) eqn:E2; rewrite ?E2;
      reflexivity.
  - destruct (ComparatorConstants.truthy v1); auto.
  - destruct (ComparatorConstants.truthy v1); auto.
  - now destruct a, b.
  - now destruct a, b.
  - now destruct a, b.
Qed.

(** ** A template behind a text without an opening bracket *)

Lemma slice_shift pre s a b :
  slice (pre ++ s) (Z.of_nat (length pre + a)) (Z.of_nat (length pre + b))
  = slice s (Z.of_nat a) (Z.of_nat b).
Proof.
  unfold slice. rewrite !clamp_index_nat, length_app.
  replace (Nat.min (length pre + length s) (length pre + a))
    with (length pre + Nat.min (length s) a) by lia.
  replace (Nat.min (length pre + length s) (length pre + b))
    with (length pre + Nat.min (length s) b) by lia.
  rewrite skipn_app, skipn_all2 by lia.
  replace (length pre + Nat.min (length s) a - length pre)
    with (Nat.min (length s) a) by lia.
  replace (length pre + Nat.min (length s) b
           - (length pre + Nat.min (length s) a))
    with (Nat.min (length s) b - Nat.min (length s) a) by lia.
  reflexivity.
Qed.

Lemma slice_prefix pre s b :
  slice (pre ++ s) 0 (Z.of_nat (length pre + b))
  = pre ++ slice s 0 (Z.of_nat b).
Proof.
  change 0%Z with (Z.of_nat 0). unfold slice.
  rewrite !clamp_index_nat, length_app, !Nat.min_0_r, !Nat.sub_0_r.
  cbn [skipn].
  replace (Nat.min (length pre + length s) (length pre + b))
    with (length pre + Nat.min (length s) b) by lia.
  rewrite firstn_app, firstn_all2 by lia.
  replace (length pre + Nat.min (length s) b - length pre)
    with (Nat.min (length s) b) by lia.
  reflexivity.
Qed.

Lemma slice_from_shift pre s a :
  slice_from (pre ++ s) (Z.of_nat (length pre + a))
  = slice_from s (Z.of_nat a).
Proof.
  unfold slice_from. rewrite !clamp_index_nat, length_app.
  replace (Nat.min (length pre + length s) (length pre + a))
    with (length pre + Nat.min (length s) a) by lia.
  rewrite skipn_app, skipn_all2 by lia.
  replace (length pre + Nat.min (length s) a - length pre)
    with (Nat.min (length s) a) by lia.
  reflexivity.
Qed.

Lemma getMatches_shift re pre s i :
  forall below above,
    getMatches re (pre ++ s) (length pre + i)
      (map (Nat.add (length pre)) above) (map (Nat.add (length pre)) below)
    = option_map
        (fun r => (shift_data (length pre) (fst r),
                   map (Nat.add (length pre)) (snd r)))
        (getMatches re s i above below).
Proof.
  induction below as [|l below IH]; intros above; [reflexivity|].
  cbn [map getMatches].
  rewrite <- Nat.add_assoc, slice_shift.
  destruct (exec true re (strip_spaces (slice s (Z.of_nat l)
                                          (Z.of_nat (i + 1)))))
    as [[p st]|].
  - cbn [option_map fst snd]. rewrite map_app, map_rev. reflexivity.
  - apply (IH (l :: above)).
Qed.

Lemma Forall2_filter_shift n (p p' : CompiledFn -> bool) fns fns' :
  (forall f f', fn_shift n f f' -> p' f' = p f) ->
  Forall2 (fn_shift n) fns fns' ->
  Forall2 (fn_shift n) (filter p fns) (filter p' fns').
Proof.
  intros Hp H. induction H as [|f f' fns fns' Hf H IH]; [constructor|].
  cbn [filter]. rewrite (Hp f f' Hf).
  destruct (p f); [now constructor|exact IH].
Qed.

Lemma Forall2_rev_shift n fns fns' :
  Forall2 (fn_shift n) fns fns' ->
  Forall2 (fn_shift n) (rev fns) (rev fns').
Proof.
  intros H. induction H as [|f f' fns fns' Hf H IH]; [constructor|].
  cbn [rev]. apply Forall2_app; [exact IH|].
  constructor; [exact Hf|constructor].
Qed.

Lemma is_nested_shift n d span_ f f' :
  fn_shift n f f' ->
  is_nested (shift_data n d) span_ f' = is_nested d span_ f.
Proof.
  intros [Hi _]. unfold is_nested, shift_data. cbn [leftBracketIndex].
  rewrite Hi.
  destruct (Nat.ltb_spec (leftBracketIndex d) (insertedIndex f));
    destruct (Nat.ltb_spec (n + leftBracketIndex d) (n + insertedIndex f));
    try lia;
    destruct (Nat.ltb_spec (insertedIndex f) (leftBracketIndex d + span_));
    destruct (Nat.ltb_spec (n + insertedIndex f)
                (n + leftBracketIndex d + span_));
    try lia; reflexivity.
Qed.

Lemma bind_run {A B} (m : M A) (k : A -> M B) o st :
  bind m k o st
  = match m o st with
    | (Ok a, st') => k a o st'
    | (Throw e, st') => (Throw e, st')
    end.
Proof. reflexivity. Qed.

Lemma splice_all_shift n d counts parseValue nested nested' :
  Forall2 (fn_shift n) nested nested' ->
  forall sp o st,
    splice_all (shift_data n d) counts parseValue nested' sp o st
    = splice_all d counts parseValue nested sp o st.
Proof.
  intros H. induction H as [|f f' nested nested' [Hi Hf] H IH];
    intros sp o st; [reflexivity|].
  cbn [splice_all]. rewrite !bind_run.
  assert (Hs : splice_nested (shift_data n d) counts parseValue f' sp o st
               = splice_nested d counts parseValue f sp o st).
  { unfold splice_nested, shift_data.
    cbn [leftBracketIndex suffix_mod_check variableTemplateWhitespace].
    rewrite Hi.
    replace (Z.of_nat (n + insertedIndex f)
             - Z.of_nat (n + leftBracketIndex d))%Z
      with (Z.of_nat (insertedIndex f) - Z.of_nat (leftBracketIndex d))%Z
      by lia.
    rewrite !bind_run, Hf. reflexivity. }
  rewrite Hs.
  destruct (splice_nested d counts parseValue f sp o st) as [[sp1|e] st1];
    [apply IH|reflexivity].
Qed.

Lemma getResolvedVariable_shift ext shape n d template counts nested nested' :
  Forall2 (fn_shift n) nested nested' ->
  forall parseValue o st,
    getResolvedVariable ext shape (shift_data n d) template counts nested'
      parseValue o st
    = getResolvedVariable ext shape d template counts nested parseValue o st.
Proof.
  intros H pv o st. unfold getResolvedVariable. rewrite !bind_run.
  cbn [shift_data suffix_mod_check suffix_mod_tzlocale].
  now rewrite (splice_all_shift n d counts pv nested nested' H).
Qed.

Lemma on_match_shift ext shape pre sc sc' i d stack :
  shifted pre sc sc' ->
  outcome_rel (shifted pre)
    (on_match ext shape sc i d stack)
    (on_match ext shape sc' (length pre + i) (shift_data (length pre) d)
       (map (Nat.add (length pre)) stack)).
Proof.
  intros (Hstr & Hi & Hstack & Hfns). unfold on_match.
  cbn [shift_data suffix_mod_check variableTemplateWhitespace
       leftBracketIndex].
  destruct (checkSuffix_length (suffix_mod_check d)) as [len|e];
    [|reflexivity].
  cbn [outcome_rel]. unfold shifted.
  cbn [sc_str sc_i leftBracketIndices compiledVariableTemplateFns].
  rewrite Hstr. repeat split.
  - rewrite slice_prefix.
    rewrite <- (Nat.add_assoc (length pre) i 1), slice_from_shift.
    now rewrite <- app_assoc.
  - lia.
  - apply Forall2_app.
    + apply Forall2_filter_shift; [|exact Hfns].
      intros f f' Hf.
      now rewrite (is_nested_shift (length pre) d _ f f' Hf).
    + constructor; [|constructor]. split; [reflexivity|].
      cbn [resultFn]. intros pv o st.
      apply getResolvedVariable_shift.
      apply Forall2_rev_shift. apply Forall2_filter_shift; [|exact Hfns].
      intros f f' Hf. now apply is_nested_shift.
Qed.

Lemma scan_step_shift ext shape re pre sc sc' :
  shifted pre sc sc' ->
  match scan_step ext shape re sc, scan_step ext shape re sc' with
  | None, None => True
  | Some x, Some y => outcome_rel (shifted pre) x y
  | _, _ => False
  end.
Proof.
  intros H. pose proof H as (Hstr & Hi & Hstack & Hfns).
  unfold scan_step. rewrite Hstr, Hi.
  rewrite nth_error_app2 by lia.
  replace (length pre + sc_i sc - length pre) with (sc_i sc) by lia.
  destruct (nth_error (sc_str sc) (sc_i sc)) as [c|]; [|exact I].
  destruct (Ascii.eqb c "{").
  - cbn [outcome_rel]. unfold shifted.
    cbn [sc_str sc_i leftBracketIndices compiledVariableTemplateFns].
    rewrite Hstack, map_app. repeat split; try assumption. lia.
  - assert (Hadv : outcome_rel (shifted pre) (Ok (advance sc))
                     (Ok (advance sc'))).
    { cbn [outcome_rel]. unfold shifted, advance.
      cbn [sc_str sc_i leftBracketIndices compiledVariableTemplateFns].
      repeat split; try assumption. lia. }
    destruct (Ascii.eqb c "}"); [|exact Hadv].
    rewrite Hstack, <- map_rev.
    change (@nil nat) with (map (Nat.add (length pre)) []) at 2.
    rewrite getMatches_shift.
    destruct (getMatches re (sc_str sc) (sc_i sc) []
                (rev (leftBracketIndices sc))) as [[d stack]|];
      cbn [option_map fst snd]; [|exact Hadv].
    rewrite <- Hi. replace (sc_i sc') with (length pre + sc_i sc) by lia.
    now apply on_match_shift.
Qed.

Lemma scan_shift ext shape re pre fuel :
  forall sc sc',
    shifted pre sc sc' ->
    outcome_rel (shifted pre) (scan ext shape fuel re sc)
      (scan ext shape fuel re sc').
Proof.
  induction fuel as [|fuel IH]; intros sc sc' H; [exact H|].
  cbn [scan]. pose proof (scan_step_shift ext shape re pre sc sc' H) as Hs.
  destruct (scan_step ext shape re sc) as [[s1|e]|],
           (scan_step ext shape re sc') as [[s1'|e']|];
    try contradiction; try exact H.
  - now apply IH.
  - exact Hs.
Qed.

(** The scan walks over a text without an opening bracket and records
    nothing. *)
Lemma scan_prefix ext shape re pre t fuel :
  has_no_open_bracket pre = true ->
  forall j k,
    k + j = length pre ->
    scan ext shape (j + fuel) re
      {| sc_str := pre ++ t; sc_i := k; leftBracketIndices := [];
         compiledVariableTemplateFns := [] |}
    = scan ext shape fuel re
        {| sc_str := pre ++ t; sc_i := length pre; leftBracketIndices := [];
           compiledVariableTemplateFns := [] |}.
Proof.
  intros Hpre. induction j as [|j IH]; intros k Hk.
  - now replace k with (length pre) by lia.
  - cbn [Nat.add scan]. unfold scan_step. cbn [sc_str sc_i leftBracketIndices].
    rewrite nth_error_app1 by lia.
    destruct (nth_error pre k) as [c|] eqn:Hc;
      [|apply nth_error_None in Hc; lia].
    assert (Hb : Ascii.eqb c "{" = false).
    { unfold has_no_open_bracket in Hpre. rewrite forallb_forall in Hpre.
      apply nth_error_In in Hc. apply Hpre in Hc.
      now destruct (Ascii.eqb c "{"). }
    rewrite Hb. cbn [rev getMatches].
    destruct (Ascii.eqb c "}"); unfold advance;
      cbn [sc_str sc_i leftBracketIndices compiledVariableTemplateFns];
      apply IH; lia.
Qed.

Lemma render_all_shift pre parseValue fns fns' :
  Forall2 (fn_shift (length pre)) fns fns' ->
  forall s o st,
    render_all fns' (pre ++ s) parseValue o st
    = (r <- render_all fns s parseValue ;; ret (pre ++ r)) o st.
Proof.
  intros H. induction H as [|f f' fns fns' [Hi Hf] H IH]; intros s o st;
    [reflexivity|].
  cbn [render_all]. rewrite !bind_run, Hf.
  destruct (resultFn f parseValue o st) as [[r|e] st1]; [|reflexivity].
  rewrite !bind_run.
  destruct (resolved_text r o st1) as [[text|e] st2]; [|reflexivity].
  rewrite Hi, slice_prefix, <- (Nat.add_assoc (length pre)), slice_from_shift.
  rewrite <- app_assoc. rewrite IH, bind_run. reflexivity.
Qed.

(** The function that [compileTemplateHelper] returns for [pre ++ t]
    yields [pre] followed by what the one for [t] yields, with the same
    effects, when [pre] has no opening bracket. *)
Lemma render_helper_prefix ext shape re pre t :
  RegexBuilder.buildRegexExpression shape = Ok re ->
  has_no_open_bracket pre = true ->
  forall parseValue o st,
    run (render_helper ext shape (pre ++ t) parseValue) o st
    = run (s <- render_helper ext shape t parseValue ;; ret (pre ++ s)) o st.
Proof.
  intros Hre Hpre pv o st. unfold run, render_helper.
  assert (Hsc : outcome_rel (shifted pre)
                  (scan ext shape (length t) re (initial_scan t))
                  (scan ext shape (length (pre ++ t)) re
                     (initial_scan (pre ++ t)))).
  { rewrite length_app. unfold initial_scan at 2.
    rewrite (scan_prefix ext shape re pre t (length t) Hpre (length pre) 0
               eq_refl).
    apply scan_shift. unfold shifted, initial_scan.
    cbn [sc_str sc_i leftBracketIndices compiledVariableTemplateFns map].
    repeat split; [lia|constructor]. }
  unfold compileTemplateHelper, compile_scan. rewrite Hre.
  destruct (scan ext shape (length t) re (initial_scan t)) as [sc|e] eqn:Et;
    destruct (scan ext shape (length (pre ++ t)) re
                (initial_scan (pre ++ t))) as [sc'|e'] eqn:Ep;
    try contradiction.
  - cbn [outcome_rel] in Hsc. destruct Hsc as (Hstr & _ & _ & Hfns).
    assert (Hr : render_all (rev (compiledVariableTemplateFns sc'))
                   (sc_str sc') pv o st
                 = (r <- render_all (rev (compiledVariableTemplateFns sc))
                           (sc_str sc) pv ;; ret (pre ++ r)) o st).
    { rewrite Hstr. apply render_all_shift. now apply Forall2_rev_shift. }
    destruct t as [|c t].
    + destruct pre as [|p pre]; [reflexivity|].
      cbn [app] in *. rewrite Hr.
      cbn [length scan] in Et. injection Et as <-. reflexivity.
    + destruct pre as [|p pre]; cbn [app] in *; exact Hr.
  - cbn [outcome_rel] in Hsc. subst e'.
    destruct t as [|c t]; [discriminate Et|].
    destruct pre as [|p pre]; reflexivity.
Qed.

(** What [compileTemplate] returns, by its three steps. *)
Lemma render_unfold ext shape t parseValue :
  render ext shape t parseValue
  = (s <- render_helper ext shape (replace_debug_keys t) parseValue ;;
     ret (postprocess s)).
Proof.
  unfold render, render_helper, compileTemplate, replace_debug_keys.
  destruct (compileTemplateHelper ext shape _); reflexivity.
Qed.

Lemma indexOf_from_prefix pre t p :
  has_no_open_bracket pre = true ->
  forall i,
    indexOf_from (pre ++ t) ("{"%char :: p) i
    = indexOf_from t ("{"%char :: p) (i + length pre).
Proof.
  induction pre as [|x pre IH]; intros H i; cbn [app length].
  - now rewrite Nat.add_0_r.
  - cbn [has_no_open_bracket forallb] in H. apply andb_true_iff in H.
    destruct H as [Hx H]. cbn [indexOf_from startsWith].
    rewrite Ascii.eqb_sym in Hx.
    destruct (Ascii.eqb "{" x); [discriminate|]. cbn [andb].
    rewrite (IH H). f_equal. lia.
Qed.

Lemma indexOf_from_offset s p :
  forall i k, indexOf_from s p i = Some k -> i <= k /\ k - i <= length s.
Proof.
  induction s as [|x s IH]; intros i k; cbn [indexOf_from].
  - destruct (startsWith [] p); [|discriminate].
    intros [= <-]. cbn. lia.
  - destruct (startsWith (x :: s) p).
    + intros [= <-]. cbn. lia.
    + intros H. apply IH in H. cbn [length]. lia.
Qed.

Lemma indexOf_from_shift s p :
  forall i j, indexOf_from s p (i + j)
              = option_map (fun k => k + j) (indexOf_from s p i).
Proof.
  induction s as [|x s IH]; intros i j; cbn [indexOf_from].
  - now destruct (startsWith [] p).
  - destruct (startsWith (x :: s) p); [reflexivity|].
    now rewrite <- IH.
Qed.

Lemma replace_first_prefix pre t p replacement :
  has_no_open_bracket pre = true ->
  replace_first (pre ++ t) ("{"%char :: p) replacement
  = pre ++ replace_first t ("{"%char :: p) replacement.
Proof.
  intros H. unfold replace_first, indexOf.
  rewrite (indexOf_from_prefix pre t p H 0).
  rewrite (indexOf_from_shift t _ 0 (length pre)).
  destruct (indexOf_from t ("{"%char :: p) 0) as [k|]; cbn [option_map];
    [|reflexivity].
  rewrite firstn_app, skipn_app.
  rewrite firstn_all2, skipn_all2 by lia.
  replace (k + length pre - length pre) with k by lia.
  replace (k + length pre + length ("{"%char :: p) - length pre)
    with (k + length ("{"%char :: p)) by lia.
  now rewrite <- app_assoc.
Qed.

Lemma replace_debug_keys_prefix pre t :
  has_no_open_bracket pre = true ->
  replace_debug_keys (pre ++ t) = pre ++ replace_debug_keys t.
Proof.
  intros H. unfold replace_debug_keys.
  cbn [fold_left DebugToolReplacementConstants.entries fst snd].
  change (js "{debug." ++ js "modifier" ++ js "}")
    with ("{"%char :: js "debug.modifier}").
  change (js "{debug." ++ js "comparator" ++ js "}")
    with ("{"%char :: js "debug.comparator}").
  now rewrite !replace_first_prefix.
Qed.

(** X10.  Text in front of a template changes nothing in how the
    template is compiled and evaluated, provided that text has no opening
    bracket (closing brackets are fine): what [format] renders for
    [pre ++ t] is the post-processing of [pre] followed by what [t]
    yields before post-processing, with the same effects, also when
    compiling [t] fails.  The post-processing takes [pre] as it takes any
    text: a line of it that is blank is dropped. *)
Theorem text_before_a_template_is_kept ext shape re pre t :
  RegexBuilder.buildRegexExpression shape = Ok re ->
  has_no_open_bracket pre = true ->
  forall parseValue o st,
    run (render ext shape (pre ++ t) parseValue) o st
    = run (s <- render_helper ext shape (replace_debug_keys t) parseValue ;;
           ret (postprocess (pre ++ s))) o st.
Proof.
  intros Hre Hpre pv o st. rewrite render_unfold.
  rewrite (replace_debug_keys_prefix pre t Hpre).
  pose proof (render_helper_prefix ext shape re pre (replace_debug_keys t)
                Hre Hpre pv) as H.
  unfold run in *. rewrite !bind_run, H, bind_run.
  destruct (render_helper ext shape (replace_debug_keys t) pv o st)
    as [[s|e] st1]; reflexivity.
Qed.

Lemma text_before_a_template_is_kept_witness :
  run (render sample_externals shape0
         (js "} Size: " ++ js "{stream.size::bytes}")
         (namespace_of sample_stream)) (fun _ => 0) sample_state
  = run (s <- render_helper sample_externals shape0
                (replace_debug_keys (js "{stream.size::bytes}"))
                (namespace_of sample_stream) ;;
         ret (postprocess (js "} Size: " ++ s))) (fun _ => 0) sample_state.
Proof.
  apply (text_before_a_template_is_kept sample_externals shape0 grammar0
           (js "} Size: ") (js "{stream.size::bytes}") grammar0_built).
  reflexivity.
Defined.

(** ** A reference to a field *)

(** A template that is one reference to a field compiles to one function,
    which looks the field up; so does the template in upper case. *)
Lemma field_reference_compiles ext sec f :
  In (sec, f) all_fields ->
  compile_scan ext shape0 (field_reference sec f)
  = Ok (one_expression (field_value sec f))
  /\ compile_scan ext shape0 (toUpperCase (field_reference sec f))
     = Ok (one_expression (field_value sec f)).
Proof.
  intros H. vm_compute in H.
  repeat (destruct H as [H|H];
          [injection H as <- <-; split; vm_compute; reflexivity|]).
  contradiction.
Qed.

Lemma render_one_expression fn parseValue o st :
  render_all [{| resultFn := fn; insertedIndex := 0 |}] PLACEHOLDER
    parseValue o st
  = (r <- fn parseValue ;; resolved_text r) o st.
Proof.
  cbn [render_all resultFn insertedIndex]. rewrite !bind_run.
  destruct (fn parseValue o st) as [[r|e] st1]; [|reflexivity].
  rewrite bind_run.
  destruct (resolved_text r o st1) as [[t|e] st2]; [|reflexivity].
  unfold ret. do 2 f_equal. change (t ++ [] = t). apply app_nil_r.
Qed.

(** For each of the fields of the formatter's namespace, the function
    that [compileTemplateHelper] returns for the template that is just a
    reference to the field, [{section.field}], yields the text of the
    field of that name in the record given: the empty text for [null] and
    [undefined], the elements joined by commas for an array.  The names
    are matched without regard to case: the template in upper case does
    alike. *)
Lemma field_reference_helper ext sec f parseValue o st :
  In (sec, f) all_fields ->
  run (render_helper ext shape0 (field_reference sec f) parseValue) o st
  = run (field_text sec f parseValue) o st
  /\ run (render_helper ext shape0 (toUpperCase (field_reference sec f))
            parseValue) o st
     = run (field_text sec f parseValue) o st.
Proof.
  intros H. destruct (field_reference_compiles ext sec f H) as [H1 H2].
  assert (Hr : (r <- field_value sec f parseValue ;; resolved_text r) o st
               = field_text sec f parseValue o st).
  { unfold field_value, field_text. rewrite bind_run.
    destruct (assoc sec parseValue); reflexivity. }
  unfold run, render_helper. split.
  - change (compileTemplateHelper ext shape0 (field_reference sec f))
      with (match compile_scan ext shape0 (field_reference sec f) with
            | Throw e => Throw e
            | Ok sc =>
                Ok (render_all (rev (compiledVariableTemplateFns sc))
                      (sc_str sc))
            end).
    rewrite H1. cbn [one_expression compiledVariableTemplateFns sc_str rev app].
    now rewrite render_one_expression.
  - change (compileTemplateHelper ext shape0
              (toUpperCase (field_reference sec f)))
      with (match compile_scan ext shape0
                    (toUpperCase (field_reference sec f)) with
            | Throw e => Throw e
            | Ok sc =>
                Ok (render_all (rev (compiledVariableTemplateFns sc))
                      (sc_str sc))
            end).
    rewrite H2. cbn [one_expression compiledVariableTemplateFns sc_str rev app].
    now rewrite render_one_expression.
Qed.

(** ** The loop of the compiler *)

Lemma scan_step_shrinks ext shape re sc sc' :
  RegexBuilder.buildRegexExpression shape = Ok re ->
  scan_step ext shape re sc = Some (Ok sc') ->
  length (sc_str sc') <= length (sc_str sc).
Proof.
  intros Hre. unfold scan_step.
  destruct (nth_error (sc_str sc) (sc_i sc)) as [c|] eqn:Hc; [|discriminate].
  assert (Hi : sc_i sc < length (sc_str sc))
    by (apply nth_error_Some; congruence).
  destruct (Ascii.eqb c "{"); [intros [= <-]; simpl; lia|].
  destruct (Ascii.eqb c "}") eqn:Hclose; [|intros [= <-]; simpl; lia].
  apply Ascii.eqb_eq in Hclose. subst c.
  destruct (getMatches _ _ _ _ _) as [[data stack]|] eqn:Hm;
    [|intros [= <-]; simpl; lia].
  apply getMatches_some in Hm. destruct Hm as [_ Hrec].
  pose proof (recognized_span_left shape re _ _ _ Hre Hc Hrec) as Hl.
  unfold on_match.
  destruct (checkSuffix_length _); [|discriminate].
  intros [= <-]. simpl.
  rewrite !length_app. unfold slice, slice_from.
  rewrite !clamp_index_nat. simpl.
  rewrite length_firstn, !length_skipn. lia.
Qed.

Lemma scan_shrinks ext shape re :
  RegexBuilder.buildRegexExpression shape = Ok re ->
  forall fuel sc sc',
    scan ext shape fuel re sc = Ok sc' ->
    length (sc_str sc') <= length (sc_str sc).
Proof.
  intros Hre. induction fuel as [|fuel IH]; intros sc sc'; cbn [scan].
  - intros [= <-]. lia.
  - destruct (scan_step ext shape re sc) as [[sc1|e]|] eqn:E.
    + intros H. apply IH in H.
      pose proof (scan_step_shrinks _ _ _ _ _ Hre E). lia.
    + discriminate.
    + intros [= <-]. lia.
Qed.

Lemma scan_more_fuel ext shape re :
  RegexBuilder.buildRegexExpression shape = Ok re ->
  forall fuel sc extra,
    length (sc_str sc) - sc_i sc <= fuel ->
    scan ext shape (fuel + extra) re sc = scan ext shape fuel re sc.
Proof.
  intros Hre. induction fuel as [|fuel IH]; intros sc extra Hfuel.
  - cbn [Nat.add scan]. destruct extra as [|extra]; [reflexivity|].
    cbn [scan]. unfold scan_step.
    assert (Hn : nth_error (sc_str sc) (sc_i sc) = None)
      by (apply nth_error_None; lia).
    now rewrite Hn.
  - cbn [Nat.add scan].
    destruct (scan_step ext shape re sc) as [[sc1|e]|] eqn:E;
      try reflexivity.
    apply IH. pose proof (scan_step_decreases _ _ _ _ _ Hre E). lia.
Qed.

(** X12.  The loop of [compileTemplateHelper] ends on every template:
    after as many iterations as the template has characters the index
    has reached the end of the working string, so that further
    iterations change nothing; and the working string it leaves, in which
    each expression is one placeholder, is not longer than the
    template. *)
Theorem compile_loop_ends ext shape re str :
  RegexBuilder.buildRegexExpression shape = Ok re ->
  (forall extra,
     scan ext shape (length str + extra) re (initial_scan str)
     = scan ext shape (length str) re (initial_scan str))
  /\ (forall sc,
        compile_scan ext shape str = Ok sc ->
        length (sc_str sc) <= sc_i sc
        /\ length (sc_str sc) <= length str).
Proof.
  intros Hre. split.
  - intros extra. apply (scan_more_fuel ext shape re Hre).
    cbn [initial_scan sc_str sc_i]. lia.
  - intros sc H. unfold compile_scan in H. rewrite Hre in H. split.
    + apply (scan_complete ext shape re Hre (length str) (initial_scan str)
               sc); [cbn [initial_scan sc_str sc_i]; lia|exact H].
    + apply (scan_shrinks ext shape re Hre) in H. exact H.
Qed.

Lemma compile_loop_ends_witness :
  scan sample_externals shape0 (length (js "a {stream.title} b") + 7)
    grammar0 (initial_scan (js "a {stream.title} b"))
  = scan sample_externals shape0 (length (js "a {stream.title} b"))
      grammar0 (initial_scan (js "a {stream.title} b")).
Proof.
  apply (proj1 (compile_loop_ends sample_externals shape0 grammar0
                  (js "a {stream.title} b") grammar0_built)).
Defined.

(** ** The duplicate check, exactly *)

Lemma section_patterns_returns_keys shape sectionKeys :
  (forall key fields,
     In key sectionKeys -> assoc key shape = Some fields ->
     has_collision fields = false) ->
  exists ps, RegexBuilder.section_patterns shape sectionKeys = Ok ps.
Proof.
  induction sectionKeys as [|key keys IH]; intros H;
    cbn [RegexBuilder.section_patterns].
  - now eexists.
  - destruct IH as [ps IH].
    { intros k fields Hin. apply H. now right. }
    destruct (assoc key shape) as [fields|] eqn:E; [|now exists ps].
    rewrite collect_keys_returns.
    + rewrite IH. now eexists.
    + apply (H key fields); [now left|exact E].
    + clear. induction fields; simpl; [reflexivity|assumption].
Qed.

(** X13.  What the constructor's duplicate check rejects, exactly: the
    grammar cannot be built, and the constructor throws, when two section
    names are equal up to case or when two field names are equal up to
    case in a section that is found under the lower-cased spelling of a
    section name; every other shape yields a grammar.  (So fields that
    collide in a section whose name has a capital letter are let
    through.) *)
Theorem duplicate_check_exactly shape :
  if rejected shape
  then exists e, RegexBuilder.buildRegexExpression shape = Throw e
  else exists re, RegexBuilder.buildRegexExpression shape = Ok re.
Proof.
  unfold rejected.
  destruct (has_collision (map fst shape)) eqn:Hs; cbn [orb].
  - now apply section_collision_rejected.
  - match goal with |- if ?b then _ else _ => destruct b eqn:Hf end.
    + apply existsb_exists in Hf. destruct Hf as (name & Hin & Hname).
      destruct (assoc (toLowerCase name) shape) as [fields|] eqn:E;
        [|discriminate].
      now apply (field_collision_rejected shape name fields).
    + unfold RegexBuilder.buildRegexExpression,
        RegexBuilder.buildVariableRegexPattern.
      rewrite collect_keys_returns; [|exact Hs|].
      * destruct (section_patterns_returns_keys shape
                    ([] ++ map toLowerCase (map fst shape))) as [ps ->];
          [|now eexists].
        intros key fields Hin E. cbn [app] in Hin.
        apply in_map_iff in Hin. destruct Hin as (name & <- & Hin).
        destruct (has_collision fields) eqn:Hc; [|reflexivity].
        assert (Hex : existsb
                        (fun name =>
                           match assoc (toLowerCase name) shape with
                           | Some fields => has_collision fields
                           | None => false
                           end) (map fst shape) = true).
        { apply existsb_exists. exists name. split; [exact Hin|].
          now rewrite E. }
        congruence.
      * clear. induction (map fst shape); simpl; [reflexivity|assumption].
Qed.

(** ** The namespace instance of a stream *)

Lemma bind_ok_inv {A B} (m : M A) (f : A -> M B) o st b st' :
  bind m f o st = (Ok b, st') ->
  exists a st1, m o st = (Ok a, st1) /\ f a o st1 = (Ok b, st').
Proof.
  unfold bind. destruct (m o st) as [[a|e] st1]; [|discriminate].
  intros H. now exists a, st1.
Qed.

(** X14.  The grammar is built from the namespace instance of the empty
    stream, and every stream is converted to a namespace instance with
    the same sections and fields, in the same order: what the conversion
    returns has the shape that the constructor hands to the regex
    builder, whatever the stream, the user data and the helpers are. *)
Theorem converted_stream_has_the_shape cx userData stream o st parseValue
  st' :
  convertStreamToParseValue cx userData stream o st = (Ok parseValue, st') ->
  constructor_shape cx userData = Ok hardcodedParseValueKeysForRegexMatching
  /\ shape_of parseValue = hardcodedParseValueKeysForRegexMatching.
Proof.
  intros H. split; [reflexivity|].
  unfold convertStreamToParseValue in H.
  repeat (apply bind_ok_inv in H; destruct H as (? & ? & _ & H)).
  injection H as <- _. reflexivity.
Qed.

Lemma wb_new_array xs : well_behaved (new_array xs).
Proof.
  intros o st. unfold new_array. cbn [snd st_heap st_draws].
  split; [now exists [xs]|]. split; [lia|reflexivity].
Qed.

Lemma wb_reading {A} (g : state -> A) :
  well_behaved (fun _ st => (Ok (g st), st)).
Proof.
  intros o st. cbn [snd]. split; [apply extends_refl|].
  split; [lia|reflexivity].
Qed.

Lemma wb_derived xs f : well_behaved (derived xs f).
Proof.
  unfold derived. destruct xs as [l|]; [|apply wb_ret].
  destruct (f l) as [ys|e]; [|apply wb_throw].
  apply wb_bind; [apply wb_new_array|intros; apply wb_ret].
Qed.

Lemma wb_convertStreamToParseValue cx userData stream :
  well_behaved (convertStreamToParseValue cx userData stream).
Proof.
  unfold convertStreamToParseValue.
  apply wb_bind.
  { destruct (optional _ _); [|apply wb_ret].
    apply wb_bind; [apply wb_read_array|intros; apply wb_ret]. }
  intros languages.
  repeat (apply wb_bind; [apply wb_derived|intros ?]).
  apply wb_reading.
Qed.

Lemma wb_format_stream cx userData ext config stream :
  well_behaved (format_stream cx userData ext config stream).
Proof.
  unfold format_stream.
  destruct (constructor_shape cx userData) as [shape|e]; [|apply wb_throw].
  unfold compileTemplatesAsync.
  destruct (compileTemplate ext shape (name config)) as [f|e] eqn:Ef;
    [|apply wb_throw].
  destruct (compileTemplate ext shape (description config)) as [g|e] eqn:Eg;
    [|apply wb_throw].
  apply wb_bind; [apply wb_convertStreamToParseValue|]. intros pv.
  apply wb_bind; [eapply wb_compileTemplate, Ef|]. intros n.
  apply wb_bind; [eapply wb_compileTemplate, Eg|]. intros d.
  apply wb_ret.
Qed.

(** X15.  [format] on a stream writes to no array that existed before
    the call: the arrays of the stream, the languages among them, are
    after the call what they were before, whether the call returns or
    throws.  The sorted and the derived language lists are new arrays. *)
Theorem format_leaves_the_stream_as_it_was cx userData ext config stream o
  st l :
  l < length (st_heap st) ->
  heap_get
    (st_heap (snd (run (format_stream cx userData ext config stream) o st)))
    l
  = heap_get (st_heap st) l.
Proof.
  intros Hl.
  destruct (wb_format_stream cx userData ext config stream o st)
    as (He & _ & _).
  now apply extends_get.
Qed.

Lemma format_leaves_the_stream_as_it_was_witness :
  heap_get
    (st_heap
       (snd (run (format_stream sample_convert_externals sample_user
                    sample_externals
                    {| name := js "{stream.languages::join(' | ')}";
                       description := js "{stream.title}" |}
                    sample_parsed_stream) (fun _ => 0) sample_state))) 0
  = [EStr (js "English"); EStr (js "Italian")].
Proof.
  apply (format_leaves_the_stream_as_it_was sample_convert_externals
           sample_user sample_externals
           {| name := js "{stream.languages::join(' | ')}";
              description := js "{stream.title}" |}
           sample_parsed_stream (fun _ => 0) sample_state 0).
  vm_compute. lia.
Defined.

Lemma converted_stream_has_the_shape_witness :
  constructor_shape sample_convert_externals sample_user
  = Ok hardcodedParseValueKeysForRegexMatching
  /\ shape_of
       (match convertStreamToParseValue sample_convert_externals sample_user
                sample_parsed_stream (fun _ => 0) sample_state with
        | (Ok parseValue, _) => parseValue
        | _ => []
        end)
     = hardcodedParseValueKeysForRegexMatching.
Proof.
  destruct (convertStreamToParseValue sample_convert_externals sample_user
              sample_parsed_stream (fun _ => 0) sample_state)
    as [[pv|e] st'] eqn:E; [|vm_compute in E; discriminate E].
  apply (converted_stream_has_the_shape sample_convert_externals sample_user
           sample_parsed_stream (fun _ => 0) sample_state pv st' E).
Defined.

(** *** The order of the languages *)

Lemma index_where_lower {A} (p : A -> bool) l : (-1 <= index_where p l)%Z.
Proof.
  induction l as [|x l IH]; simpl; [lia|].
  destruct (p x); [lia|].
  destruct (Z.ltb_spec (index_where p l) 0); lia.
Qed.

Lemma index_where_found {A} (p : A -> bool) l :
  (index_where p l =? -1)%Z = negb (existsb p l).
Proof.
  induction l as [|x l IH]; simpl; [reflexivity|].
  destruct (p x); [reflexivity|]. cbn [orb].
  pose proof (index_where_lower p l).
  destruct (Z.ltb_spec (index_where p l) 0).
  - replace (index_where p l) with (-1)%Z in IH by lia.
    rewrite <- IH. reflexivity.
  - rewrite <- IH.
    destruct (Z.eqb_spec (index_where p l + 1) (-1));
      destruct (Z.eqb_spec (index_where p l) (-1)); try lia; reflexivity.
Qed.

Lemma compare_languages_total user languages a b :
  (compare_languages user languages a b <? 0)%Z = false ->
  lang_le user languages b a.
Proof.
  unfold lang_le, compare_languages.
  destruct (Z.eqb_spec (index_where (is_text a) user) (-1));
    destruct (Z.eqb_spec (index_where (is_text b) user) (-1));
    cbn [negb andb]; intros H; apply Z.ltb_ge in H; lia.
Qed.

Lemma compare_languages_trans user languages a b c :
  lang_le user languages a b -> lang_le user languages b c ->
  lang_le user languages a c.
Proof.
  unfold lang_le, compare_languages.
  destruct (Z.eqb_spec (index_where (is_text a) user) (-1));
    destruct (Z.eqb_spec (index_where (is_text b) user) (-1));
    destruct (Z.eqb_spec (index_where (is_text c) user) (-1));
    cbn [negb andb]; lia.
Qed.

Lemma insert_by_permutation cmp x l : Permutation (insert_by cmp x l) (x :: l).
Proof.
  induction l as [|y t IH]; simpl; [reflexivity|].
  destruct (cmp y x <? 0)%Z; [|reflexivity].
  rewrite IH. apply perm_swap.
Qed.

Lemma sort_by_permutation cmp xs : Permutation (sort_by cmp xs) xs.
Proof.
  induction xs as [|x xs IH]; [constructor|].
  unfold sort_by. cbn [fold_right]. rewrite insert_by_permutation.
  now constructor.
Qed.

Lemma insert_by_sorted user languages x l :
  Sorted (lang_le user languages) l ->
  Sorted (lang_le user languages)
    (insert_by (compare_languages user languages) x l).
Proof.
  induction l as [|y t IH]; intros Hs; simpl.
  - repeat constructor.
  - destruct (compare_languages user languages y x <? 0)%Z eqn:E.
    + inversion Hs as [|? ? Ht Hhd]; subst. constructor; [now apply IH|].
      assert (Hyx : lang_le user languages y x)
        by (apply Z.ltb_lt in E; unfold lang_le; lia).
      destruct t as [|z t]; simpl.
      * now constructor.
      * destruct (compare_languages user languages z x <? 0)%Z;
          constructor; [now inversion Hhd|exact Hyx].
    + constructor; [exact Hs|]. constructor.
      now apply compare_languages_total.
Qed.

Lemma sort_by_sorted user languages xs :
  StronglySorted (lang_le user languages)
    (sort_by (compare_languages user languages) xs).
Proof.
  apply Sorted_StronglySorted.
  - intros a b c. apply compare_languages_trans.
  - induction xs as [|x xs IH]; [constructor|].
    now apply insert_by_sorted.
Qed.

Lemma user_languages_first user languages ys :
  StronglySorted (lang_le user languages) ys ->
  filter (in_user user) ys ++ filter (fun e => negb (in_user user e)) ys = ys.
Proof.
  induction 1 as [|y t Hs IH Hall]; [reflexivity|].
  cbn [filter]. destruct (in_user user y) eqn:Ey; cbn [negb app].
  - now rewrite IH.
  - assert (Hnone : filter (in_user user) t = []).
    { clear IH Hs. induction t as [|z t IHt]; [reflexivity|].
      inversion Hall as [|? ? Hz Ht]; subst. cbn [filter].
      destruct (in_user user z) eqn:Ez; [|now apply IHt].
      exfalso. unfold lang_le, compare_languages in Hz.
      unfold in_user in Ey, Ez.
      rewrite !index_where_found, Ey, Ez in Hz. cbn in Hz. lia. }
    rewrite Hnone in *. cbn [app] in *. now rewrite IH.
Qed.

Lemma derived_ok_inv xs f o st v st' :
  derived xs f o st = (Ok v, st') ->
  extends (st_heap st) (st_heap st')
  /\ match xs with
     | None => v = VNull /\ st' = st
     | Some l =>
         exists ys,
           f l = Ok ys /\ v = VArr (length (st_heap st))
           /\ st' = State (st_heap st ++ [ys]) (st_draws st)
     end.
Proof.
  intros H. split.
  - destruct (wb_derived xs f o st) as (He & _). now rewrite H in He.
  - unfold derived in H. destruct xs as [l|].
    + destruct (f l) as [ys|e]; [|discriminate].
      exists ys. injection H as <- <-. repeat split.
    + injection H as <- <-. now split.
Qed.

(** X16.  The languages of the namespace instance are the languages of
    the stream in a new array, sorted by the comparator: the same
    elements, none of them placed after one that the comparator puts
    behind it, so that the languages the user has specified come first;
    [uLanguages] holds, in the same order, those that the user has
    specified.  Both arrays are new ones: their locations lie past the
    arrays that existed before the conversion. *)
Theorem languages_are_sorted_user_first cx userData stream o st parseValue
  st' l :
  convertStreamToParseValue cx userData stream o st = (Ok parseValue, st') ->
  optional (ps_parsedFile stream) pf_languages = Some l ->
  exists a b,
    field_of parseValue (js "stream") (js "languages") = VArr a
    /\ field_of parseValue (js "stream") (js "uLanguages") = VArr b
    /\ Permutation (heap_get (st_heap st') a) (heap_get (st_heap st) l)
    /\ StronglySorted
         (lang_le (userSpecifiedLanguages userData) (heap_get (st_heap st) l))
         (heap_get (st_heap st') a)
    /\ filter (in_user (userSpecifiedLanguages userData))
         (heap_get (st_heap st') a)
       ++ filter (fun e => negb (in_user (userSpecifiedLanguages userData) e))
            (heap_get (st_heap st') a)
       = heap_get (st_heap st') a
    /\ heap_get (st_heap st') b
       = filter (in_user (userSpecifiedLanguages userData))
           (heap_get (st_heap st') a)
    /\ length (st_heap st) <= a
    /\ length (st_heap st) <= b.
Proof.
  intros H Hl. unfold convertStreamToParseValue in H. rewrite Hl in H.
  apply bind_ok_inv in H. destruct H as (languages & s0 & H0 & H).
  unfold bind, read_array, ret in H0. injection H0 as <- <-.
  cbn [option_map] in H.
  set (xs := heap_get (st_heap st) l) in *.
  set (user := userSpecifiedLanguages userData) in *.
  set (sorted := sort_by (compare_languages user xs) xs) in *.
  apply bind_ok_inv in H. destruct H as (v1 & s1 & H1 & H).
  apply derived_ok_inv in H1. destruct H1 as (_ & ys1 & [= <-] & -> & ->).
  apply bind_ok_inv in H. destruct H as (v2 & s2 & H2 & H).
  apply derived_ok_inv in H2. destruct H2 as (_ & ys2 & [= <-] & -> & ->).
  cbn [st_heap st_draws] in H.
  assert (He : extends ((st_heap st ++ [sorted])
                        ++ [filter (fun lang => existsb (is_text lang) user)
                              sorted]) (st_heap st')).
  { repeat (apply bind_ok_inv in H;
            let v := fresh "v" in
            let s := fresh "s" in
            let Hd := fresh "Hd" in
            destruct H as (v & s & Hd & H);
            apply derived_ok_inv in Hd; destruct Hd as (Hd & _)).
    injection H as _ <-.
    repeat (eapply extends_trans; [eassumption|]). apply extends_refl. }
  repeat (apply bind_ok_inv in H;
          let v := fresh "v" in
          let s := fresh "s" in
          destruct H as (v & s & _ & H)).
  injection H as <- _.
  exists (length (st_heap st)), (length (st_heap st ++ [sorted])).
  assert (Ha : heap_get (st_heap st') (length (st_heap st)) = sorted).
  { rewrite (extends_get _ _ _ He) by (rewrite !length_app; simpl; lia).
    unfold heap_get. rewrite app_nth1 by (rewrite length_app; simpl; lia).
    apply heap_get_fresh. }
  assert (Hb : heap_get (st_heap st') (length (st_heap st ++ [sorted]))
               = filter (in_user user) sorted).
  { rewrite (extends_get _ _ _ He) by (rewrite !length_app; simpl; lia).
    apply heap_get_fresh. }
  rewrite Ha, Hb.
  split; [reflexivity|]. split; [reflexivity|].
  split; [apply sort_by_permutation|].
  split; [apply sort_by_sorted|].
  split; [apply (user_languages_first user xs); apply sort_by_sorted|].
  split; [reflexivity|].
  split; [lia|rewrite length_app; lia].
Qed.

Lemma languages_are_sorted_user_first_witness :
  exists a b,
    field_of
      (match convertStreamToParseValue sample_convert_externals sample_user
               sample_parsed_stream (fun _ => 0) sample_state with
       | (Ok parseValue, _) => parseValue
       | _ => []
       end) (js "stream") (js "languages") = VArr a
    /\ field_of
         (match convertStreamToParseValue sample_convert_externals
                  sample_user sample_parsed_stream (fun _ => 0)
                  sample_state with
          | (Ok parseValue, _) => parseValue
          | _ => []
          end) (js "stream") (js "uLanguages") = VArr b.
Proof.
  destruct (convertStreamToParseValue sample_convert_externals sample_user
              sample_parsed_stream (fun _ => 0) sample_state)
    as [[pv|e] st'] eqn:E; [|vm_compute in E; discriminate E].
  destruct (languages_are_sorted_user_first sample_convert_externals
              sample_user sample_parsed_stream (fun _ => 0) sample_state pv
              st' 0 E eq_refl) as (a & b & Ha & Hb & _).
  now exists a, b.
Defined.

(** *** [format] on a template that is a reference to a field *)

Lemma debug_replacement_leaves_field_reference sec f :
  In (sec, f) all_fields ->
  str_eqb sec (js "debug") = false ->
  fold_left
    (fun s entry =>
       replace_first s (js "{debug." ++ fst entry ++ js "}") (snd entry))
    DebugToolReplacementConstants.entries (field_reference sec f)
  = field_reference sec f.
Proof.
  intros H. vm_compute in H.
  repeat (destruct H as [H|H];
          [injection H as <- <-; intros Hd;
           first [discriminate Hd | vm_compute; reflexivity]|]).
  contradiction.
Qed.

Lemma compileTemplate_field_reference ext sec f :
  In (sec, f) all_fields ->
  str_eqb sec (js "debug") = false ->
  compileTemplate ext shape0 (field_reference sec f)
  = Ok (fun parseValue =>
          s <- render_all [{| resultFn := field_value sec f;
                              insertedIndex := 0 |}] PLACEHOLDER parseValue ;;
          ret (postprocess s)).
Proof.
  intros H Hd. unfold compileTemplate.
  rewrite (debug_replacement_leaves_field_reference sec f H Hd).
  change (compileTemplateHelper ext shape0 (field_reference sec f))
    with (match compile_scan ext shape0 (field_reference sec f) with
          | Throw e => Throw e
          | Ok sc =>
              Ok (render_all (rev (compiledVariableTemplateFns sc))
                    (sc_str sc))
          end).
  destruct (field_reference_compiles ext sec f H) as [-> _]. reflexivity.
Qed.

Lemma assoc_of_shape sec f parseValue :
  shape_of parseValue = shape0 ->
  In (sec, f) all_fields ->
  exists fields, assoc sec parseValue = Some fields.
Proof.
  intros Hs H.
  assert (Hk : existsb (str_eqb sec) (map fst (shape_of parseValue)) = true).
  { rewrite Hs. vm_compute in H.
    repeat (destruct H as [H|H]; [injection H as <- <-; reflexivity|]).
    contradiction. }
  clear Hs H. induction parseValue as [|[k d] pv IH]; [discriminate|].
  cbn [shape_of map fst existsb assoc] in *.
  destruct (str_eqb sec k); [now exists d|]. apply IH. exact Hk.
Qed.

Lemma field_text_returns sec f parseValue o st :
  shape_of parseValue = shape0 ->
  In (sec, f) all_fields ->
  exists text, field_text sec f parseValue o st = (Ok text, st).
Proof.
  intros Hs H. unfold field_text.
  destruct (assoc_of_shape sec f parseValue Hs H) as [fields ->].
  destruct (match assoc f fields with Some v => v | None => VUndefined end)
    as [| |b|n|s|l]; eexists; reflexivity.
Qed.

(** X17.  [format] from end to end, on a name template and a description
    template that are each one reference to a field outside the [debug]
    section: when the conversion of the stream returns the namespace
    instance [parseValue], [format] returns the texts of the two fields
    of [parseValue], each passed through the post-processing of
    [compileTemplate], and leaves the state of the conversion. *)
Theorem format_of_field_references cx userData ext stream o st parseValue st'
  sec1 f1 sec2 f2 :
  convertStreamToParseValue cx userData stream o st = (Ok parseValue, st') ->
  In (sec1, f1) all_fields -> str_eqb sec1 (js "debug") = false ->
  In (sec2, f2) all_fields -> str_eqb sec2 (js "debug") = false ->
  exists n d,
    field_text sec1 f1 parseValue o st' = (Ok n, st')
    /\ field_text sec2 f2 parseValue o st' = (Ok d, st')
    /\ run (format_stream cx userData ext
              {| name := field_reference sec1 f1;
                 description := field_reference sec2 f2 |} stream) o st
       = (Ok (postprocess n, postprocess d), st').
Proof.
  intros H H1 Hd1 H2 Hd2.
  assert (Hs : shape_of parseValue = shape0).
  { unfold convertStreamToParseValue in H.
    repeat (apply bind_ok_inv in H; destruct H as (? & ? & _ & H)).
    injection H as <- _. reflexivity. }
  destruct (field_text_returns sec1 f1 parseValue o st' Hs H1) as [n Hn].
  destruct (field_text_returns sec2 f2 parseValue o st' Hs H2) as [d Hd].
  exists n, d. split; [exact Hn|]. split; [exact Hd|].
  unfold run, format_stream.
  change (constructor_shape cx userData) with (Ok shape0).
  unfold compileTemplatesAsync. cbn [name description].
  rewrite (compileTemplate_field_reference ext sec1 f1 H1 Hd1).
  rewrite (compileTemplate_field_reference ext sec2 f2 H2 Hd2).
  assert (Hr : forall sec f text,
             field_text sec f parseValue o st' = (Ok text, st') ->
             (s <- render_all [{| resultFn := field_value sec f;
                                  insertedIndex := 0 |}] PLACEHOLDER
                     parseValue ;;
              ret (postprocess s)) o st'
             = (Ok (postprocess text), st')).
  { intros sec f text Ht. rewrite bind_run, render_one_expression.
    assert (Hv : (r <- field_value sec f parseValue ;; resolved_text r) o st'
                 = field_text sec f parseValue o st').
    { unfold field_value, field_text. rewrite bind_run.
      destruct (assoc sec parseValue); reflexivity. }
    rewrite Hv, Ht. reflexivity. }
  rewrite bind_run, H, bind_run, (Hr sec1 f1 n Hn), bind_run,
    (Hr sec2 f2 d Hd).
  reflexivity.
Qed.

Lemma format_of_field_references_witness :
  exists n d,
    field_text (js "stream") (js "title")
      (match convertStreamToParseValue sample_convert_externals sample_user
               sample_parsed_stream (fun _ => 0) sample_state with
       | (Ok parseValue, _) => parseValue
       | _ => []
       end) (fun _ => 0)
      (snd (convertStreamToParseValue sample_convert_externals sample_user
              sample_parsed_stream (fun _ => 0) sample_state))
    = (Ok n,
       snd (convertStreamToParseValue sample_convert_externals sample_user
              sample_parsed_stream (fun _ => 0) sample_state))
    /\ run (format_stream sample_convert_externals sample_user
              sample_externals
              {| name := field_reference (js "stream") (js "title");
                 description :=
                   field_reference (js "stream") (js "languages") |}
              sample_parsed_stream) (fun _ => 0) sample_state
       = (Ok (postprocess n, postprocess d),
          snd (convertStreamToParseValue sample_convert_externals sample_user
                 sample_parsed_stream (fun _ => 0) sample_state)).
Proof.
  destruct (convertStreamToParseValue sample_convert_externals sample_user
              sample_parsed_stream (fun _ => 0) sample_state)
    as [[pv|e] st'] eqn:E; [|vm_compute in E; discriminate E].
  destruct (format_of_field_references sample_convert_externals sample_user
              sample_externals sample_parsed_stream (fun _ => 0) sample_state
              pv st' (js "stream") (js "title") (js "stream")
              (js "languages") E)
    as (n & d & Hn & _ & Hf).
  - do 28 right. left. reflexivity.
  - reflexivity.
  - do 8 right. left. reflexivity.
  - reflexivity.
  - exists n, d. split; [exact Hn|exact Hf].
Defined.

(** X18.  A size of zero is a missing size, a count of zero seeders is
    not: [size] is taken with [|| null] and [seeders] with [?? null], so
    that on a stream with [size = 0] the field [stream.size] is [null],
    renders as the empty text and does not exist for the [exists]
    modifier, while with [seeders = 0] the field [stream.seeders] renders
    as [0] and exists; [library = false] is kept as [false]. *)
Theorem zero_size_is_missing_zero_seeders_is_not cx userData ext stream o st
  parseValue st' o1 st1 :
  convertStreamToParseValue cx userData stream o st = (Ok parseValue, st') ->
  ps_size stream = Some 0%Z ->
  optional (ps_torrent stream) t_seeders = Some 0%Z ->
  ps_library stream = Some false ->
  run (render_helper ext shape0 (js "{stream.size}|{stream.size::exists}")
         parseValue) o1 st1
  = (Ok (js "|false"), st1)
  /\ run (render_helper ext shape0
            (js "{stream.seeders}|{stream.seeders::exists}") parseValue)
       o1 st1
     = (Ok (js "0|true"), st1)
  /\ run (render_helper ext shape0
            (js "{stream.library}|{stream.library::exists}") parseValue)
       o1 st1
     = (Ok (js "false|true"), st1).
Proof.
  intros H Hsize Hseeders Hlibrary.
  unfold convertStreamToParseValue in H.
  rewrite Hsize, Hseeders, Hlibrary in H.
  repeat (apply bind_ok_inv in H; destruct H as (? & ? & _ & H)).
  injection H as <- _.
  repeat split; vm_compute; reflexivity.
Qed.

Lemma zero_size_is_missing_zero_seeders_is_not_witness :
  run (render_helper sample_externals shape0
         (js "{stream.size}|{stream.size::exists}")
         (match convertStreamToParseValue sample_convert_externals
                  sample_user sample_parsed_stream (fun _ => 0)
                  sample_state with
          | (Ok parseValue, _) => parseValue
          | _ => []
          end)) (fun _ => 0) sample_state
  = (Ok (js "|false"), sample_state).
Proof.
  destruct (convertStreamToParseValue sample_convert_externals sample_user
              sample_parsed_stream (fun _ => 0) sample_state)
    as [[pv|e] st'] eqn:E; [|vm_compute in E; discriminate E].
  apply (zero_size_is_missing_zero_seeders_is_not sample_convert_externals
           sample_user sample_externals sample_parsed_stream (fun _ => 0)
           sample_state pv st' (fun _ => 0) sample_state E);
    reflexivity.
Defined.

(** *** When the conversion returns *)

Lemma map_outcome_returns {A B} (f : A -> outcome B) (P : A -> Prop) l :
  (forall x, P x -> exists y, f x = Ok y) ->
  Forall P l ->
  exists ys, map_outcome f l = Ok ys.
Proof.
  intros Hf H. induction H as [|x l Hx H [ys IH]]; [now exists []|].
  cbn [map_outcome]. destruct (Hf x Hx) as [y ->]. rewrite IH.
  now eexists.
Qed.

Lemma emoji_of_string cx e :
  is_string e = true -> is_string (emoji_of cx e) = true.
Proof.
  intros H. unfold emoji_of.
  destruct (languageToEmoji cx e) as [[|c s]|]; auto.
Qed.

Lemma derived_returns xs f o st :
  (forall l, xs = Some l -> exists ys, f l = Ok ys) ->
  exists v st',
    derived xs f o st = (Ok v, st') /\ st_draws st' = st_draws st.
Proof.
  intros Hf. unfold derived. destruct xs as [l|].
  - destruct (Hf l eq_refl) as [ys ->]. do 2 eexists. split; reflexivity.
  - do 2 eexists. split; reflexivity.
Qed.

(** X19.  The conversion of a stream returns, and draws no random
    number, whenever the languages of the stream are texts, as their type
    says, or the stream has none; the helpers may answer anything. *)
Theorem conversion_returns cx userData stream o st :
  forallb is_string (languages_of (st_heap st) stream) = true ->
  exists parseValue st',
    convertStreamToParseValue cx userData stream o st = (Ok parseValue, st')
    /\ st_draws st' = st_draws st.
Proof.
  intros Hall. unfold convertStreamToParseValue, languages_of in *.
  set (user := userSpecifiedLanguages userData).
  assert (Hsorted :
            forall xs l,
              match optional (ps_parsedFile stream) pf_languages with
              | Some a => Some (heap_get (st_heap st) a)
              | None => None
              end = Some xs ->
              (option_map (fun ls => sort_by (compare_languages user ls) ls)
                 (Some xs) = Some l
               \/ option_map
                    (filter (fun lang => existsb (is_text lang) user))
                    (option_map
                       (fun ls => sort_by (compare_languages user ls) ls)
                       (Some xs)) = Some l) ->
              Forall (fun e => is_string e = true) l).
  { intros xs l Hxs Hl.
    assert (Hx : Forall (fun e => is_string e = true) xs).
    { destruct (optional (ps_parsedFile stream) pf_languages);
        [|discriminate].
      injection Hxs as <-. apply Forall_forall. intros e He.
      rewrite forallb_forall in Hall. now apply Hall. }
    assert (Hs : Forall (fun e => is_string e = true)
                   (sort_by (compare_languages user xs) xs)).
    { eapply Permutation_Forall; [|exact Hx].
      apply Permutation_sym, sort_by_permutation. }
    cbn [option_map] in Hl. destruct Hl as [[= <-]|[= <-]]; [exact Hs|].
    apply Forall_forall. intros e He. apply filter_In in He.
    rewrite Forall_forall in Hs. now apply Hs. }
  assert (Hfs : forall l,
             Forall (fun e => is_string e = true) l ->
             (exists ys, @Ok (list elem) l = Ok ys)
             /\ (exists ys, emojis cx l = Ok ys)
             /\ (exists ys, codes cx l = Ok ys)
             /\ (exists ys, smallCodes cx l = Ok ys)
             /\ (exists ys, kilometers cx l = Ok ys)).
  { intros l Hl. split; [now eexists|]. split; [now eexists|].
    split; [|split; [now eexists|]].
    - unfold codes.
      destruct (map_outcome_returns (code_or_upper cx)
                  (fun e => is_string e = true) l) as [ys ->];
        [|exact Hl|now eexists].
      intros [s|n] Hx; [|discriminate]. unfold code_or_upper.
      destruct (languageToCode cx (EStr s)) as [[|c t]|]; now eexists.
    - unfold kilometers.
      destruct (map_outcome_returns (americanise cx)
                  (fun e => is_string e = true) (map (emoji_of cx) l))
        as [ys ->]; [| |now eexists].
      + intros [s|n] Hx; [|discriminate]. now eexists.
      + apply Forall_forall. intros e He. apply in_map_iff in He.
        destruct He as (x & <- & Hin). apply emoji_of_string.
        rewrite Forall_forall in Hl. now apply Hl. }
  rewrite bind_run.
  assert (Hread :
            exists languages,
              match optional (ps_parsedFile stream) pf_languages with
              | Some l => xs <- read_array l ;; ret (Some xs)
              | None => ret None
              end o st = (Ok languages, st)
              /\ languages
                 = match optional (ps_parsedFile stream) pf_languages with
                   | Some a => Some (heap_get (st_heap st) a)
                   | None => None
                   end).
  { destruct (optional (ps_parsedFile stream) pf_languages);
      eexists; split; reflexivity. }
  destruct Hread as (languages & -> & Hlang).
  assert (Hd : forall xs s f,
             (xs = option_map
                     (fun ls => sort_by (compare_languages user ls) ls)
                     languages
              \/ xs = option_map
                        (filter (fun lang => existsb (is_text lang) user))
                        (option_map
                           (fun ls => sort_by (compare_languages user ls) ls)
                           languages)) ->
             (forall l, Forall (fun e => is_string e = true) l ->
                        exists ys, f l = Ok ys) ->
             exists v s',
               derived xs f o s = (Ok v, s') /\ st_draws s' = st_draws s).
  { intros xs s f Hxs Hf. apply derived_returns. intros l Hl.
    apply Hf. destruct languages as [ls|].
    - apply (Hsorted ls l (eq_sym Hlang)).
      destruct Hxs as [->| ->] in Hl; [now left|now right].
    - destruct Hxs as [->| ->] in Hl; discriminate Hl. }
  repeat match goal with
         | |- exists pv st', bind (derived ?xs ?f) _ o ?s = _ /\ _ =>
             let v := fresh "v" in
             let s' := fresh "s" in
             let H := fresh "H" in
             let D := fresh "D" in
             destruct (Hd xs s f) as (v & s' & H & D);
             [first [now left|now right]
             |intros l Hl; apply (Hfs l Hl)
             |rewrite bind_run, H]
         end.
  do 2 eexists. split; [reflexivity|]. congruence.
Qed.

Lemma conversion_returns_witness :
  exists parseValue st',
    convertStreamToParseValue sample_convert_externals sample_user
      sample_parsed_stream (fun _ => 0) sample_state = (Ok parseValue, st')
    /\ st_draws st' = st_draws sample_state.
Proof.
  apply (conversion_returns sample_convert_externals sample_user
           sample_parsed_stream (fun _ => 0) sample_state).
  reflexivity.
Defined.

(** *** The derived lists have no duplicates *)

Lemma elem_eqb_eq a b : elem_eqb a b = true <-> a = b.
Proof.
  destruct a as [s|n], b as [t|m]; simpl; split; try discriminate.
  - intros H. apply str_eqb_eq in H. now subst.
  - intros [= ->]. apply str_eqb_refl.
  - intros H. apply Z.eqb_eq in H. now subst.
  - intros [= ->]. apply Z.eqb_refl.
Qed.

Lemma first_occurrences_from_spec seen l :
  NoDup (first_occurrences_from elem_eqb seen l)
  /\ forall e,
       In e (first_occurrences_from elem_eqb seen l)
       <-> In e l /\ ~ In e seen.
Proof.
  revert seen. induction l as [|x l IH]; intros seen.
  - split; [constructor|]. intros e. simpl. tauto.
  - cbn [first_occurrences_from].
    destruct (existsb (elem_eqb x) seen) eqn:E.
    + destruct (IH seen) as [Hn Hi]. split; [exact Hn|].
      intros e. rewrite Hi. simpl. split; [tauto|].
      intros [[<-|He] Hs]; [|tauto].
      exfalso. apply Hs. apply existsb_exists in E.
      destruct E as (y & Hy & Hxy). apply elem_eqb_eq in Hxy. now subst.
    + destruct (IH (x :: seen)) as [Hn Hi]. split.
      * constructor; [|exact Hn]. rewrite Hi. simpl. tauto.
      * intros e. simpl. rewrite Hi. simpl.
        assert (Hx : ~ In x seen).
        { intros Hin. assert (existsb (elem_eqb x) seen = true); [|congruence].
          apply existsb_exists. exists x. split; [exact Hin|].
          now apply elem_eqb_eq. }
        split.
        -- intros [<-|[He Hs]]; [tauto|]. tauto.
        -- intros [[<-|He] Hs]; [tauto|].
           destruct (elem_eqb x e) eqn:Exe.
           ++ apply elem_eqb_eq in Exe. tauto.
           ++ right. split; [exact He|]. intros [->|Hin]; [|tauto].
              rewrite (proj2 (elem_eqb_eq e e) eq_refl) in Exe. discriminate.
Qed.

(** X20.  The list of language emojis has no duplicates and holds
    exactly the emojis of the stream's languages: each language is
    mapped to its emoji, or to itself when [languageToEmoji] has none,
    and only the first occurrence of each result is kept. *)
Theorem language_emojis_have_no_duplicates cx userData stream o st parseValue
  st' l :
  convertStreamToParseValue cx userData stream o st = (Ok parseValue, st') ->
  optional (ps_parsedFile stream) pf_languages = Some l ->
  exists a,
    field_of parseValue (js "stream") (js "languageEmojis") = VArr a
    /\ NoDup (heap_get (st_heap st') a)
    /\ forall e,
         In e (heap_get (st_heap st') a)
         <-> exists lang,
               In lang (heap_get (st_heap st) l) /\ e = emoji_of cx lang.
Proof.
  intros H Hl. unfold convertStreamToParseValue in H. rewrite Hl in H.
  apply bind_ok_inv in H. destruct H as (languages & s0 & H0 & H).
  unfold bind, read_array, ret in H0. injection H0 as <- <-.
  cbn [option_map] in H.
  set (xs := heap_get (st_heap st) l) in *.
  set (user := userSpecifiedLanguages userData) in *.
  set (sorted := sort_by (compare_languages user xs) xs) in *.
  apply bind_ok_inv in H. destruct H as (v1 & s1 & H1 & H).
  apply derived_ok_inv in H1. destruct H1 as (_ & ys1 & _ & -> & ->).
  apply bind_ok_inv in H. destruct H as (v2 & s2 & H2 & H).
  apply derived_ok_inv in H2. destruct H2 as (_ & ys2 & _ & -> & ->).
  apply bind_ok_inv in H. destruct H as (v3 & s3 & H3 & H).
  apply derived_ok_inv in H3. destruct H3 as (_ & ys3 & [= <-] & -> & ->).
  cbn [st_heap st_draws] in H.
  set (h3 := ((st_heap st ++ [ys1]) ++ [ys2])
             ++ [first_occurrences elem_eqb (map (emoji_of cx) sorted)])
    in *.
  assert (He : extends h3 (st_heap st')).
  { repeat (apply bind_ok_inv in H;
            let v := fresh "v" in
            let s := fresh "s" in
            let Hd := fresh "Hd" in
            destruct H as (v & s & Hd & H);
            apply derived_ok_inv in Hd; destruct Hd as (Hd & _)).
    injection H as _ <-.
    repeat (eapply extends_trans; [eassumption|]). apply extends_refl. }
  repeat (apply bind_ok_inv in H;
          let v := fresh "v" in
          let s := fresh "s" in
          destruct H as (v & s & _ & H)).
  injection H as <- _.
  exists (length ((st_heap st ++ [ys1]) ++ [ys2])).
  split; [reflexivity|].
  assert (Ha : heap_get (st_heap st') (length ((st_heap st ++ [ys1]) ++ [ys2]))
               = first_occurrences elem_eqb (map (emoji_of cx) sorted)).
  { rewrite (extends_get _ _ _ He)
      by (unfold h3; rewrite !length_app; simpl; lia).
    apply heap_get_fresh. }
  rewrite Ha. unfold first_occurrences.
  destruct (first_occurrences_from_spec [] (map (emoji_of cx) sorted))
    as [Hn Hi].
  split; [exact Hn|]. intros e. rewrite Hi, in_map_iff. split.
  - intros [(lang & <- & Hin) _]. exists lang. split; [|reflexivity].
    eapply Permutation_in; [apply sort_by_permutation|exact Hin].
  - intros (lang & Hin & ->). split; [|intros []]. exists lang.
    split; [reflexivity|].
    eapply Permutation_in; [apply Permutation_sym, sort_by_permutation|].
    exact Hin.
Qed.

Lemma language_emojis_have_no_duplicates_witness :
  exists a,
    field_of
      (match convertStreamToParseValue sample_convert_externals sample_user
               sample_parsed_stream (fun _ => 0) sample_state with
       | (Ok parseValue, _) => parseValue
       | _ => []
       end) (js "stream") (js "languageEmojis") = VArr a.
Proof.
  destruct (convertStreamToParseValue sample_convert_externals sample_user
              sample_parsed_stream (fun _ => 0) sample_state)
    as [[pv|e] st'] eqn:E; [|vm_compute in E; discriminate E].
  destruct (language_emojis_have_no_duplicates sample_convert_externals
              sample_user sample_parsed_stream (fun _ => 0) sample_state pv
              st' 0 E eq_refl) as (a & Ha & _).
  now exists a.
Defined.

(** ** The post-processing of [compileTemplate] *)

Lemma replace_loop_never ci r by_ (p : ascii -> bool) :
  (forall pos, match_at ci r pos [] = None) ->
  (forall pos x t, p x = false -> match_at ci r pos (x :: t) = None) ->
  forall fuel pos s,
    forallb (fun x => negb (p x)) s = true ->
    replace_loop fuel ci r by_ pos s = s.
Proof.
  intros Hnil Hcons. induction fuel as [|fuel IH]; intros pos s Hs;
    [reflexivity|].
  cbn [replace_loop]. destruct s as [|c t]; [now rewrite Hnil|].
  cbn [forallb] in Hs. apply andb_true_iff in Hs. destruct Hs as [Hc Ht].
  rewrite Hcons by (now destruct (p c)).
  now rewrite IH.
Qed.

Lemma split_char_none c s :
  forallb (fun x => negb (Ascii.eqb x c)) s = true -> split_char c s = [s].
Proof.
  induction s as [|x t IH]; [reflexivity|]. cbn [forallb split_char].
  intros H. apply andb_true_iff in H. destruct H as [Hx Ht].
  destruct (Ascii.eqb x c); [discriminate|]. now rewrite IH.
Qed.

Lemma split_char_app c s rest :
  forallb (fun x => negb (Ascii.eqb x c)) s = true ->
  split_char c (s ++ c :: rest) = s :: split_char c rest.
Proof.
  induction s as [|x t IH]; cbn [forallb split_char app].
  - intros _. now rewrite Ascii.eqb_refl.
  - intros H. apply andb_true_iff in H. destruct H as [Hx Ht].
    destruct (Ascii.eqb x c); [discriminate|]. now rewrite IH.
Qed.

Lemma split_char_join c ls :
  ls <> [] ->
  forallb (fun l => forallb (fun x => negb (Ascii.eqb x c)) l) ls = true ->
  split_char c (join [c] ls) = ls.
Proof.
  induction ls as [|l ls IH]; [congruence|]. intros _ H.
  cbn [forallb] in H. apply andb_true_iff in H. destruct H as [Hl Hls].
  destruct ls as [|l' ls].
  - now apply split_char_none.
  - change (join [c] (l :: l' :: ls)) with (l ++ c :: join [c] (l' :: ls)).
    rewrite split_char_app by exact Hl. now rewrite IH.
Qed.

Lemma includes_none s c p :
  forallb (fun x => negb (Ascii.eqb c x)) s = true ->
  includes s (c :: p) = false.
Proof.
  unfold includes, indexOf. generalize 0.
  induction s as [|x t IH]; intros i H; [reflexivity|].
  cbn [forallb] in H. apply andb_true_iff in H. destruct H as [Hx Ht].
  cbn [indexOf_from startsWith]. destruct (Ascii.eqb c x); [discriminate|].
  cbn [andb]. now apply IH.
Qed.

Lemma forallb_join (p : ascii -> bool) c ls :
  p c = true ->
  forallb (forallb p) ls = true ->
  forallb p (join [c] ls) = true.
Proof.
  intros Hc. induction ls as [|l ls IH]; [reflexivity|].
  cbn [forallb]. intros H. apply andb_true_iff in H. destruct H as [Hl Hls].
  destruct ls as [|l' ls]; [exact Hl|].
  change (join [c] (l :: l' :: ls)) with (l ++ c :: join [c] (l' :: ls)).
  rewrite forallb_app. cbn [forallb]. rewrite Hl, Hc. now apply IH.
Qed.

Lemma forallb_weaken {A} (p q : A -> bool) l :
  (forall x, p x = true -> q x = true) ->
  forallb p l = true -> forallb q l = true.
Proof.
  intros Hpq. rewrite !forallb_forall. auto.
Qed.

Lemma plain_char_cases c :
  plain_char c = true ->
  Ascii.eqb c "010" = false
  /\ char_matches false "\" c = false
  /\ char_matches false "{" c = false
  /\ Ascii.eqb "{" c = false.
Proof.
  unfold plain_char, char_matches. rewrite (Ascii.eqb_sym "\" c).
  rewrite (Ascii.eqb_sym "{" c).
  destruct (Ascii.eqb c "010"), (Ascii.eqb c "\"), (Ascii.eqb c "{");
    try discriminate. auto.
Qed.

(** X21.  What the post-processing does to a text made of plain lines
    (lines without a backslash and without an opening bracket), joined
    by line feeds: it drops the lines that are empty or hold white space
    only and keeps the others as they are, in their order. *)
Theorem postprocess_of_plain_lines ls :
  forallb plain_line ls = true ->
  postprocess (join ["010"%char] ls)
  = join ["010"%char] (filter (fun line => negb (blank line)) ls).
Proof.
  intros Hls. unfold postprocess.
  assert (H1 : replace_re false (lit (js "\n")) ["010"%char]
                 (join ["010"%char] ls) = join ["010"%char] ls).
  { apply (replace_loop_never false _ _ (char_matches false "\")).
    - reflexivity.
    - intros pos x t Hx. unfold match_at. cbn -[char_matches].
      unfold step_if. cbn -[char_matches]. now rewrite Hx.
    - apply forallb_join; [reflexivity|].
      eapply forallb_weaken; [|exact Hls]. intros l Hl.
      eapply forallb_weaken; [|exact Hl]. intros c Hc.
      apply plain_char_cases in Hc. destruct Hc as (_ & -> & _).
      reflexivity. }
  rewrite H1.
  assert (H2 : filter
                 (fun line =>
                    negb (length (trim line) =? 0)
                    && negb (includes line (js "{tools.removeline}")))
                 (split_char "010" (join ["010"%char] ls))
               = filter (fun line => negb (blank line)) ls).
  { destruct ls as [|l0 ls0]; [reflexivity|].
    rewrite split_char_join; [|discriminate|].
    - apply filter_ext_in. intros l Hin. unfold blank.
      rewrite forallb_forall in Hls. specialize (Hls l Hin).
      change (js "{tools.removeline}")
        with ("{"%char :: js "tools.removeline}").
      rewrite includes_none; [now rewrite andb_true_r|].
      eapply forallb_weaken; [|exact Hls]. intros c Hc.
      apply plain_char_cases in Hc. destruct Hc as (_ & _ & _ & ->).
      reflexivity.
    - eapply forallb_weaken; [|exact Hls]. intros l Hl.
      eapply forallb_weaken; [|exact Hl]. intros c Hc.
      apply plain_char_cases in Hc. destruct Hc as (-> & _).
      reflexivity. }
  rewrite H2.
  apply (replace_loop_never false _ _ (char_matches false "{")).
  - reflexivity.
  - intros pos x t Hx. unfold match_at. cbn -[char_matches].
    unfold step_if. cbn -[char_matches]. now rewrite Hx.
  - apply forallb_join; [reflexivity|].
    assert (Hk : forallb plain_line
                   (filter (fun line => negb (blank line)) ls) = true).
    { rewrite forallb_forall in *. intros l Hl. apply filter_In in Hl.
      now apply Hls. }
    eapply forallb_weaken; [|exact Hk]. intros l Hl.
    eapply forallb_weaken; [|exact Hl]. intros c Hc.
    apply plain_char_cases in Hc. destruct Hc as (_ & _ & -> & _).
    reflexivity.
Qed.

Lemma postprocess_of_plain_lines_witness :
  postprocess (join ["010"%char] [js "Open Arms"; js "  "; js "1080p"])
  = join ["010"%char] [js "Open Arms"; js "1080p"].
Proof.
  apply (postprocess_of_plain_lines [js "Open Arms"; js "  "; js "1080p"]).
  reflexivity.
Defined.

(** ** The cache of the formatter of [formatters/base.ts] *)

Lemma Map_get_set_same m key v :
  Legacy.Map_get (Legacy.Map_set m key v) key = v.
Proof.
  unfold Legacy.Map_get. induction m as [|[k x] m IH]; cbn.
  - now rewrite str_eqb_refl.
  - destruct (str_eqb key k) eqn:E; cbn; rewrite E; [reflexivity|exact IH].
Qed.

Lemma Map_get_set_other m key key' v :
  key' <> key ->
  Legacy.Map_get (Legacy.Map_set m key v) key' = Legacy.Map_get m key'.
Proof.
  intros Hne. unfold Legacy.Map_get.
  assert (Hk : str_eqb key' key = false).
  { destruct (str_eqb key' key) eqn:E; [|reflexivity].
    apply str_eqb_eq in E. contradiction. }
  induction m as [|[k x] m IH]; cbn.
  - now rewrite Hk.
  - destruct (str_eqb key k) eqn:E; cbn.
    + apply str_eqb_eq in E. subst k. now rewrite Hk.
    + destruct (str_eqb key' k); [reflexivity|exact IH].
Qed.

(** [get] keeps the entries that hold a value when its function does. *)
Lemma get_keeps_entries World key (getFn : Legacy.L World Legacy.any) :
  Legacy.keeps_entries World getFn ->
  Legacy.keeps_entries World (Legacy.get World key getFn).
Proof.
  intros Hg w r w' k H Hk. unfold Legacy.get in H.
  destruct (Legacy.Map_get (fst w) key) eqn:E;
    try (injection H as _ <-; reflexivity).
  destruct (getFn w) as [[v|e] w1] eqn:Eg.
  - injection H as _ <-. cbn [fst].
    rewrite Map_get_set_other by congruence.
    now apply (Hg w (Ok v) w1).
  - injection H as _ <-. now apply (Hg w (Throw e) w1).
Qed.

(** What [get] returns is in the cache afterwards, unless it is
    [undefined]. *)
Lemma get_caches World key (getFn : Legacy.L World Legacy.any) w v w' :
  (forall w r w', getFn w = (Ok r, w') -> r <> Legacy.AUndefined) ->
  Legacy.get World key getFn w = (Ok v, w') ->
  Legacy.Map_get (fst w') key = v /\ v <> Legacy.AUndefined.
Proof.
  intros Hd H. unfold Legacy.get in H.
  destruct (Legacy.Map_get (fst w) key) eqn:E;
    try (injection H as <- <-; split; [exact E|discriminate]).
  destruct (getFn w) as [[r|e] w1] eqn:Eg; [|discriminate].
  injection H as <- <-. cbn [fst]. split; [apply Map_get_set_same|].
  now apply (Hd w r w1).
Qed.

Lemma get_cached World key (getFn : Legacy.L World Legacy.any) w v :
  Legacy.Map_get (fst w) key = v -> v <> Legacy.AUndefined ->
  Legacy.get World key getFn w = (Ok v, w).
Proof.
  intros E Hv. unfold Legacy.get. rewrite E.
  destruct v; try reflexivity. contradiction.
Qed.

(** X22.  The formatter of [formatters/base.ts] keeps one cache for all
    its calls and files the text of a template under the template
    itself.  So once [format] has returned for one stream, it returns
    the same name and the same description for every later stream whose
    conversion returns, without evaluating anything: the cache and the
    world are left as they were, the conversion apart.  (The evaluation
    is any function that reaches the cache through [get] only and
    returns a text or [null].) *)
Theorem legacy_format_repeats_the_first_stream World convert helper config
  stream1 stream2 w0 n d w1 parseValue2 r2 :
  (forall str value, Legacy.keeps_entries World (helper str value)) ->
  (forall str value w r w',
     helper str value w = (Ok r, w') -> r <> Legacy.AUndefined) ->
  Legacy.format World convert helper config stream1 w0 = (Ok (n, d), w1) ->
  convert stream2 (snd w1) = (Ok parseValue2, r2) ->
  Legacy.format World convert helper config stream2 w1
  = (Ok (n, d), (fst w1, r2)).
Proof.
  intros Hkeep Hdef H1 H2. unfold Legacy.format in *.
  destruct (convert stream1 (snd w0)) as [[pv1|e] r1]; [|discriminate].
  destruct (Legacy.parseString World helper (name config) pv1 (fst w0, r1))
    as [[rn|e] wa] eqn:En; [|discriminate].
  destruct (Legacy.parseString World helper (description config) pv1 wa)
    as [[rd|e] wb] eqn:Ed; [|discriminate].
  injection H1 as <- <- <-.
  unfold Legacy.parseString in *.
  destruct (get_caches World _ _ _ _ _ (Hdef (name config) pv1) En)
    as [Hn Hn'].
  destruct (get_caches World _ _ _ _ _ (Hdef (description config) pv1) Ed)
    as [Hd Hd'].
  assert (Hn2 : Legacy.Map_get (fst wb) (name config) = rn).
  { rewrite <- Hn.
    apply (get_keeps_entries World (description config) _
             (Hkeep (description config) pv1) wa (Ok rd) wb _ Ed).
    now rewrite Hn. }
  rewrite H2.
  rewrite (get_cached World (name config) _ (fst wb, r2) rn Hn2 Hn').
  rewrite (get_cached World (description config) _ (fst wb, r2) rd Hd Hd').
  reflexivity.
Qed.

Lemma legacy_format_repeats_the_first_stream_witness :
  Legacy.format unit sample_legacy_convert sample_legacy_helper
    {| name := js "{stream.filename}"; description := [] |}
    emptyStream
    ([(js "{stream.filename}", Legacy.AString (js "open.arms.mkv"));
      ([], Legacy.AString (js "open.arms.mkv"))], tt)
  = (Ok (Legacy.AString (js "open.arms.mkv"),
         Legacy.AString (js "open.arms.mkv")),
     ([(js "{stream.filename}", Legacy.AString (js "open.arms.mkv"));
       ([], Legacy.AString (js "open.arms.mkv"))], tt)).
Proof.
  apply (legacy_format_repeats_the_first_stream unit sample_legacy_convert
           sample_legacy_helper
           {| name := js "{stream.filename}"; description := [] |}
           sample_parsed_stream emptyStream ([], tt)
           (Legacy.AString (js "open.arms.mkv"))
           (Legacy.AString (js "open.arms.mkv"))
           ([(js "{stream.filename}", Legacy.AString (js "open.arms.mkv"));
             ([], Legacy.AString (js "open.arms.mkv"))], tt)
           [(js "stream", [(js "filename", VNull)])] tt).
  - intros str value w r w' key [= _ <-] _. reflexivity.
  - intros str value w r w' [= <- _] Hx. unfold sample_legacy_helper in Hx.
    repeat match type of Hx with
           | context [match ?x with _ => _ end] => destruct x
           end; discriminate Hx.
  - reflexivity.
  - reflexivity.
Defined.

(** ** What the grammar lets through and the evaluator skips *)

Lemma capital_modifier_compiles ext m :
  In m lettered_modifiers ->
  compile_scan ext shape0 (js "{stream.title::" ++ toUpperCase m ++ js "}")
  = Ok (one_expression (field_value (js "stream") (js "title"))).
Proof.
  intros H. vm_compute in H.
  repeat (destruct H as [<-|H]; [vm_compute; reflexivity|]).
  contradiction.
Qed.

(** X23.  A modifier spelled in capital letters is skipped without an
    error: the grammar accepts it, since it is matched without regard to
    case, but the pattern that picks the modifiers of a variable is
    matched with regard to case and passes it over.  For every modifier
    [m] that has a name, [{stream.title::M}] with [M] the upper-case
    spelling of [m] renders as [{stream.title}] does, on every record. *)
Theorem capital_modifiers_are_skipped ext m parseValue o st :
  In m lettered_modifiers ->
  run (render_helper ext shape0
         (js "{stream.title::" ++ toUpperCase m ++ js "}") parseValue) o st
  = run (field_text (js "stream") (js "title") parseValue) o st.
Proof.
  intros H. unfold run, render_helper.
  change (compileTemplateHelper ext shape0
            (js "{stream.title::" ++ toUpperCase m ++ js "}"))
    with (match compile_scan ext shape0
                  (js "{stream.title::" ++ toUpperCase m ++ js "}") with
          | Throw e => Throw e
          | Ok sc =>
              Ok (render_all (rev (compiledVariableTemplateFns sc))
                    (sc_str sc))
          end).
  rewrite (capital_modifier_compiles ext m H).
  cbn [one_expression compiledVariableTemplateFns sc_str rev app].
  rewrite render_one_expression.
  unfold field_value, field_text. rewrite bind_run.
  destruct (assoc (js "stream") parseValue); reflexivity.
Qed.

Lemma capital_modifiers_are_skipped_witness :
  run (render_helper sample_externals shape0
         (js "{stream.title::" ++ toUpperCase (js "upper") ++ js "}")
         (namespace_of sample_stream)) (fun _ => 0) sample_state
  = run (field_text (js "stream") (js "title") (namespace_of sample_stream))
      (fun _ => 0) sample_state.
Proof.
  apply (capital_modifiers_are_skipped sample_externals (js "upper")
           (namespace_of sample_stream) (fun _ => 0) sample_state).
  vm_compute. left. reflexivity.
Defined.

Lemma incomplete_check_compiles ext sec f :
  In (sec, f) all_fields ->
  compile_scan ext shape0 (js "{" ++ sec ++ js "." ++ f ++ js "[]}")
  = Ok (one_expression (field_value sec f))
  /\ compile_scan ext shape0
       (js "{" ++ sec ++ js "." ++ f ++ jsq "[`yes`]}")
     = Ok (one_expression (field_value sec f)).
Proof.
  intros H. vm_compute in H.
  repeat (destruct H as [H|H];
          [injection H as <- <-; split; vm_compute; reflexivity|]).
  contradiction.
Qed.

Lemma debug_replacement_leaves_incomplete_check sec f :
  In (sec, f) all_fields ->
  str_eqb sec (js "debug") = false ->
  replace_debug_keys (js "{" ++ sec ++ js "." ++ f ++ js "[]}")
  = js "{" ++ sec ++ js "." ++ f ++ js "[]}"
  /\ replace_debug_keys (js "{" ++ sec ++ js "." ++ f ++ jsq "[`yes`]}")
     = js "{" ++ sec ++ js "." ++ f ++ jsq "[`yes`]}".
Proof.
  intros H. vm_compute in H.
  repeat (destruct H as [H|H];
          [injection H as <- <-; intros Hd;
           first [discriminate Hd | split; vm_compute; reflexivity]|]).
  contradiction.
Qed.

(** X24.  A check suffix without its two branches is accepted and has no
    effect.  The two bars between the branches are not escaped in the
    grammar, which therefore takes an empty pair of square brackets, and
    one quoted text between them, for a check; the pattern that reads
    the branches finds none.  For every field outside the debug section,
    [format] renders [{section.field[]}] and [{section.field["yes"]}] as
    it renders [{section.field}], on every record: the text of the
    field, post-processed. *)
Theorem incomplete_check_is_ignored ext sec f parseValue o st :
  In (sec, f) all_fields ->
  str_eqb sec (js "debug") = false ->
  run (render ext shape0 (field_reference sec f) parseValue) o st
  = run (s <- field_text sec f parseValue ;; ret (postprocess s)) o st
  /\ run (render ext shape0 (js "{" ++ sec ++ js "." ++ f ++ js "[]}")
            parseValue) o st
     = run (render ext shape0 (field_reference sec f) parseValue) o st
  /\ run (render ext shape0
            (js "{" ++ sec ++ js "." ++ f ++ jsq "[`yes`]}") parseValue) o st
     = run (render ext shape0 (field_reference sec f) parseValue) o st.
Proof.
  intros H Hd.
  destruct (incomplete_check_compiles ext sec f H) as [H1 H2].
  destruct (field_reference_compiles ext sec f H) as [H0 _].
  destruct (debug_replacement_leaves_incomplete_check sec f H Hd)
    as [D1 D2].
  assert (D0 : replace_debug_keys (field_reference sec f)
               = field_reference sec f)
    by exact (debug_replacement_leaves_field_reference sec f H Hd).
  assert (Hr : (r <- field_value sec f parseValue ;; resolved_text r) o st
               = field_text sec f parseValue o st).
  { unfold field_value, field_text. rewrite bind_run.
    destruct (assoc sec parseValue); reflexivity. }
  assert (Hone : forall tpl,
            compile_scan ext shape0 tpl
            = Ok (one_expression (field_value sec f)) ->
            tpl <> [] ->
            render_helper ext shape0 tpl parseValue o st
            = field_text sec f parseValue o st).
  { intros tpl Hc Hne. unfold render_helper, compileTemplateHelper.
    destruct tpl as [|c tpl]; [congruence|]. rewrite Hc.
    cbn [one_expression compiledVariableTemplateFns sc_str rev app].
    now rewrite render_one_expression. }
  assert (Hall : forall tpl,
            replace_debug_keys tpl = tpl ->
            compile_scan ext shape0 tpl
            = Ok (one_expression (field_value sec f)) ->
            tpl <> [] ->
            run (render ext shape0 tpl parseValue) o st
            = run (s <- field_text sec f parseValue ;; ret (postprocess s))
                o st).
  { intros tpl Hd' Hc Hne. rewrite render_unfold, Hd'.
    unfold run. rewrite !bind_run. now rewrite (Hone tpl Hc Hne). }
  assert (E0 : run (render ext shape0 (field_reference sec f) parseValue) o st
               = run (s <- field_text sec f parseValue ;;
                      ret (postprocess s)) o st)
    by (apply Hall; [exact D0|exact H0|discriminate]).
  split; [exact E0|]. rewrite E0.
  split; apply Hall; first [assumption | discriminate].
Qed.

Lemma incomplete_check_is_ignored_witness :
  run (render sample_externals shape0
         (js "{" ++ js "stream" ++ js "." ++ js "library" ++ js "[]}")
         (namespace_of sample_stream)) (fun _ => 0) sample_state
  = run (render sample_externals shape0
           (field_reference (js "stream") (js "library"))
           (namespace_of sample_stream)) (fun _ => 0) sample_state.
Proof.
  apply (proj1 (proj2 (incomplete_check_is_ignored sample_externals
                         (js "stream") (js "library")
                         (namespace_of sample_stream) (fun _ => 0)
                         sample_state
                         ltac:(vm_compute; do 5 right; left; reflexivity)
                         eq_refl))).
Defined.

(** ** The separator of [join] *)

Lemma endsWith_last a c : endsWith (a ++ [c]) [c] = true.
Proof.
  unfold endsWith. rewrite rev_app_distr. cbn. rewrite Ascii.eqb_refl.
  now destruct (rev a).
Qed.

(** X25.  [join('sep')] and [join("sep")] join the elements of an array
    by the text between the quotes, taken as it is written: the letter
    case of the separator is kept although the modifier is recognised in
    lower case, and any text will do, the empty one included. *)
Theorem join_keeps_the_separator ext l q sep o st :
  applySingleModifier ext (VArr l) (js "join(" ++ q :: sep ++ q :: js ")") o
    st
  = (Ok (Some (VStr (array_join sep (heap_get (st_heap st) l)))), st).
Proof.
  unfold applySingleModifier.
  set (_mod := js "join(" ++ q :: sep ++ q :: js ")").
  assert (Hlow : toLowerCase _mod
                 = js "join(" ++ (lower_char q :: toLowerCase sep
                                    ++ [lower_char q]) ++ [")"%char]).
  { unfold _mod, toLowerCase. cbn [js list_ascii_of_string app map].
    rewrite map_app. cbn [map]. rewrite <- app_assoc. reflexivity. }
  assert (Hc : existsb (str_eqb (toLowerCase _mod))
                 ModifierConstants.exact.keys
               || existsb (startsWith (toLowerCase _mod))
                    ModifierConstants.prefix.keys = false).
  { rewrite Hlow. reflexivity. }
  assert (Ha : ModifierConstants.arrayModifiers (toLowerCase _mod) = None).
  { rewrite Hlow. reflexivity. }
  assert (Hj : startsWith (toLowerCase _mod) (js "join(")
               && endsWith (toLowerCase _mod) (js ")") = true).
  { rewrite Hlow. apply andb_true_iff. split; [reflexivity|].
    rewrite app_assoc. apply (endsWith_last _ ")"%char). }
  rewrite Hc, Ha, Hj.
  assert (Hs : substring _mod (length (js "join('")) (length _mod - 2) = sep).
  { unfold substring, _mod. cbn [js list_ascii_of_string app length].
    rewrite length_app. cbn [length].
    replace (S (S (S (S (S (S (length sep + 2)))))) - 2)
      with (6 + length sep) by lia.
    replace (Nat.min 6 (S (S (S (S (S (S (length sep + 2))))))))
      with 6 by lia.
    replace (Nat.min (6 + length sep)
               (S (S (S (S (S (S (length sep + 2))))))))
      with (6 + length sep) by lia.
    replace (Nat.max 6 (6 + length sep) - Nat.min 6 (6 + length sep))
      with (length sep) by lia.
    replace (Nat.min 6 (6 + length sep)) with 6 by lia.
    cbn [skipn]. rewrite firstn_app, Nat.sub_diag, firstn_all. cbn [firstn].
    apply app_nil_r. }
  rewrite Hs. reflexivity.
Qed.

(** ** [getAnyValue] *)

Lemma set_all_spec keys v :
  forall m key,
    Legacy.Map_get (BaseFormatterCache.set_all m keys v) key
    = if existsb (str_eqb key) keys then v else Legacy.Map_get m key.
Proof.
  unfold BaseFormatterCache.set_all.
  induction keys as [|k keys IH]; intros m key; [reflexivity|].
  cbn [fold_left existsb]. rewrite IH.
  destruct (existsb (str_eqb key) keys); [now rewrite orb_true_r|].
  rewrite orb_false_r. destruct (str_eqb key k) eqn:E.
  - apply str_eqb_eq in E. subst k. apply Map_get_set_same.
  - apply Map_get_set_other. intros ->. now rewrite str_eqb_refl in E.
Qed.

(** X26.  After [getAnyValue(keys, getFn)] has returned a value, the
    cache holds that value under every one of the keys and is unchanged
    under all other keys, the changes of [getFn] apart.  A value found
    under one key is thus written over what the other keys held; and
    when a value is found, [getFn] is not run. *)
Theorem getAnyValue_files_under_every_key World keys getFn w v w' :
  BaseFormatterCache.getAnyValue World keys getFn w = (Ok v, w') ->
  (forall key, In key keys -> Legacy.Map_get (fst w') key = v)
  /\ (BaseFormatterCache.found (fst w) keys <> Legacy.AUndefined ->
      v = BaseFormatterCache.found (fst w) keys
      /\ snd w' = snd w
      /\ forall key,
           ~ In key keys ->
           Legacy.Map_get (fst w') key = Legacy.Map_get (fst w) key).
Proof.
  intros H. unfold BaseFormatterCache.getAnyValue in H.
  assert (Hin : forall key, In key keys ->
                            existsb (str_eqb key) keys = true).
  { intros key Hk. apply existsb_exists. exists key. split; [exact Hk|].
    apply str_eqb_refl. }
  assert (Hout : forall key, ~ In key keys ->
                             existsb (str_eqb key) keys = false).
  { intros key Hk. destruct (existsb (str_eqb key) keys) eqn:E;
      [|reflexivity].
    apply existsb_exists in E. destruct E as (k & Hk' & E).
    apply str_eqb_eq in E. subst k. contradiction. }
  destruct (BaseFormatterCache.found (fst w) keys) eqn:Ef.
  - destruct (getFn w) as [[r|e] w1]; [|discriminate].
    injection H as <- <-. cbn [fst snd]. split; [|congruence].
    intros key Hk. now rewrite set_all_spec, (Hin key Hk).
  - injection H as <- <-. cbn [fst snd]. split.
    + intros key Hk. now rewrite set_all_spec, (Hin key Hk).
    + intros _. repeat split. intros key Hk.
      now rewrite set_all_spec, (Hout key Hk).
  - injection H as <- <-. cbn [fst snd]. split.
    + intros key Hk. now rewrite set_all_spec, (Hin key Hk).
    + intros _. repeat split. intros key Hk.
      now rewrite set_all_spec, (Hout key Hk).
  - injection H as <- <-. cbn [fst snd]. split.
    + intros key Hk. now rewrite set_all_spec, (Hin key Hk).
    + intros _. repeat split. intros key Hk.
      now rewrite set_all_spec, (Hout key Hk).
  - injection H as <- <-. cbn [fst snd]. split.
    + intros key Hk. now rewrite set_all_spec, (Hin key Hk).
    + intros _. repeat split. intros key Hk.
      now rewrite set_all_spec, (Hout key Hk).
Qed.

Lemma getAnyValue_files_under_every_key_witness :
  Legacy.Map_get
    (fst (snd (BaseFormatterCache.getAnyValue unit [js "a"; js "b"]
                 (fun w => (Ok Legacy.ANull, w))
                 ([(js "b", Legacy.AString (js "old"))], tt))))
    (js "a")
  = Legacy.AString (js "old").
Proof.
  apply (proj1
           (getAnyValue_files_under_every_key unit [js "a"; js "b"]
              (fun w => (Ok Legacy.ANull, w))
              ([(js "b", Legacy.AString (js "old"))], tt)
              (Legacy.AString (js "old"))
              (snd (BaseFormatterCache.getAnyValue unit [js "a"; js "b"]
                      (fun w => (Ok Legacy.ANull, w))
                      ([(js "b", Legacy.AString (js "old"))], tt)))
              eq_refl)).
  left. reflexivity.
Defined.

(** ** A template in front of a text without a closing bracket *)

Lemma slice_suffix s post a b :
  b <= length s ->
  slice (s ++ post) (Z.of_nat a) (Z.of_nat b)
  = slice s (Z.of_nat a) (Z.of_nat b).
Proof.
  intros Hb. unfold slice. rewrite !clamp_index_nat, length_app.
  replace (Nat.min (length s + length post) b) with b by lia.
  replace (Nat.min (length s) b) with b by lia.
  destruct (Nat.le_gt_cases a (length s)) as [Ha|Ha].
  - replace (Nat.min (length s + length post) a) with a by lia.
    replace (Nat.min (length s) a) with a by lia.
    rewrite skipn_app.
    replace (a - length s) with 0 by lia. cbn [skipn].
    rewrite firstn_app.
    replace (b - a - length (skipn a s)) with 0
      by (rewrite length_skipn; lia).
    cbn [firstn]. apply app_nil_r.
  - replace (b - Nat.min (length s + length post) a) with 0 by lia.
    replace (b - Nat.min (length s) a) with 0 by lia.
    reflexivity.
Qed.

Lemma slice_from_suffix s post a :
  a <= length s ->
  slice_from (s ++ post) (Z.of_nat a) = slice_from s (Z.of_nat a) ++ post.
Proof.
  intros Ha. unfold slice_from. rewrite !clamp_index_nat, length_app.
  replace (Nat.min (length s + length post) a) with a by lia.
  replace (Nat.min (length s) a) with a by lia.
  rewrite skipn_app. replace (a - length s) with 0 by lia. reflexivity.
Qed.

Lemma getMatches_suffix re s post i :
  i < length s ->
  forall below above,
    getMatches re (s ++ post) i above below = getMatches re s i above below.
Proof.
  intros Hi. induction below as [|l below IH]; intros above; [reflexivity|].
  cbn [getMatches]. rewrite slice_suffix by lia.
  destruct (exec true re _) as [[p st]|]; [reflexivity|apply IH].
Qed.

Lemma scan_step_suffix ext shape re post sc :
  RegexBuilder.buildRegexExpression shape = Ok re ->
  sc_i sc < length (sc_str sc) ->
  scan_step ext shape re (with_suffix post sc)
  = match scan_step ext shape re sc with
    | Some (Ok sc') => Some (Ok (with_suffix post sc'))
    | other => other
    end.
Proof.
  intros Hre Hi. unfold scan_step, with_suffix.
  cbn [sc_str sc_i leftBracketIndices compiledVariableTemplateFns].
  rewrite nth_error_app1 by exact Hi.
  destruct (nth_error (sc_str sc) (sc_i sc)) as [c|] eqn:Hc;
    [|apply nth_error_None in Hc; lia].
  destruct (Ascii.eqb c "{"); [reflexivity|].
  destruct (Ascii.eqb c "}") eqn:Hclose; [|reflexivity].
  apply Ascii.eqb_eq in Hclose. subst c.
  rewrite getMatches_suffix by exact Hi.
  destruct (getMatches re (sc_str sc) (sc_i sc) []
              (rev (leftBracketIndices sc))) as [[d stack]|] eqn:Hm;
    [|reflexivity].
  apply getMatches_some in Hm. destruct Hm as [_ Hrec].
  pose proof (recognized_span_left shape re _ _ _ Hre Hc Hrec) as Hl.
  unfold on_match.
  cbn [sc_str sc_i leftBracketIndices compiledVariableTemplateFns].
  destruct (checkSuffix_length (suffix_mod_check d)) as [len|e];
    [|reflexivity].
  do 2 f_equal. unfold with_suffix.
  cbn [sc_str sc_i leftBracketIndices compiledVariableTemplateFns].
  f_equal.
  change 0%Z with (Z.of_nat 0).
  rewrite slice_suffix by lia.
  rewrite slice_from_suffix by lia.
  now rewrite <- !app_assoc.
Qed.

(** Past the end of the template the scan meets no closing bracket: it
    changes neither the working string nor the compiled functions. *)
Lemma scan_post ext shape re s0 post :
  has_no_close_bracket post = true ->
  forall fuel sc,
    sc_str sc = s0 ++ post ->
    length s0 <= sc_i sc ->
    exists sc',
      scan ext shape fuel re sc = Ok sc'
      /\ sc_str sc' = sc_str sc
      /\ compiledVariableTemplateFns sc' = compiledVariableTemplateFns sc.
Proof.
  intros Hpost. induction fuel as [|fuel IH]; intros sc Hstr Hi;
    [now exists sc|].
  cbn [scan]. unfold scan_step. rewrite Hstr.
  rewrite nth_error_app2 by exact Hi.
  destruct (nth_error post (sc_i sc - length s0)) as [c|] eqn:Hc;
    [|now exists sc].
  assert (Hb : Ascii.eqb c "}" = false).
  { unfold has_no_close_bracket in Hpost. rewrite forallb_forall in Hpost.
    apply nth_error_In in Hc. apply Hpost in Hc.
    now destruct (Ascii.eqb c "}"). }
  rewrite Hb.
  destruct (Ascii.eqb c "{").
  - destruct (IH {| sc_str := s0 ++ post; sc_i := S (sc_i sc);
                    leftBracketIndices := leftBracketIndices sc ++ [sc_i sc];
                    compiledVariableTemplateFns :=
                      compiledVariableTemplateFns sc |})
      as (sc' & H1 & H2 & H3); [reflexivity|cbn; lia|].
    cbn in H2, H3. exists sc'. repeat split; assumption.
  - destruct (IH (advance sc)) as (sc' & H1 & H2 & H3);
      [exact Hstr|cbn; lia|].
    cbn in H2, H3. exists sc'. repeat split; congruence.
Qed.

(** The scan of a template in front of such a text goes as the scan of
    the template alone, with the text carried along. *)
Lemma scan_suffix ext shape re post :
  RegexBuilder.buildRegexExpression shape = Ok re ->
  has_no_close_bracket post = true ->
  forall fuel sc sf extra,
    scan ext shape fuel re sc = Ok sf ->
    length (sc_str sf) <= sc_i sf ->
    exists sc',
      scan ext shape (fuel + extra) re (with_suffix post sc) = Ok sc'
      /\ sc_str sc' = sc_str sf ++ post
      /\ compiledVariableTemplateFns sc' = compiledVariableTemplateFns sf.
Proof.
  intros Hre Hpost.
  assert (Hend : forall n sf, length (sc_str sf) <= sc_i sf ->
            exists sc',
              scan ext shape n re (with_suffix post sf) = Ok sc'
              /\ sc_str sc' = sc_str sf ++ post
              /\ compiledVariableTemplateFns sc'
                 = compiledVariableTemplateFns sf).
  { intros n sf Hsf.
    destruct (scan_post ext shape re (sc_str sf) post Hpost n
                (with_suffix post sf) eq_refl Hsf) as (sc' & H1 & H2 & H3).
    exists sc'. repeat split; assumption. }
  induction fuel as [|fuel IH]; intros sc sf extra Hscan Hsf.
  - cbn [scan] in Hscan. injection Hscan as <-. now apply Hend.
  - cbn [scan] in Hscan.
    destruct (scan_step ext shape re sc) as [[sc1|e]|] eqn:Hstep.
    + assert (Hi : sc_i sc < length (sc_str sc)).
      { unfold scan_step in Hstep.
        destruct (nth_error (sc_str sc) (sc_i sc)) eqn:Hc; [|discriminate].
        apply nth_error_Some. congruence. }
      cbn [Nat.add scan].
      rewrite (scan_step_suffix ext shape re post sc Hre Hi), Hstep.
      now apply IH.
    + discriminate.
    + injection Hscan as <-. now apply Hend.
Qed.

Lemma scan_suffix_throws ext shape re post :
  RegexBuilder.buildRegexExpression shape = Ok re ->
  forall fuel sc e extra,
    scan ext shape fuel re sc = Throw e ->
    scan ext shape (fuel + extra) re (with_suffix post sc) = Throw e.
Proof.
  intros Hre. induction fuel as [|fuel IH]; intros sc e extra Hscan;
    [discriminate|].
  cbn [scan] in Hscan.
  destruct (scan_step ext shape re sc) as [[sc1|e1]|] eqn:Hstep;
    [| |discriminate].
  - assert (Hi : sc_i sc < length (sc_str sc)).
    { unfold scan_step in Hstep.
      destruct (nth_error (sc_str sc) (sc_i sc)) eqn:Hc; [|discriminate].
      apply nth_error_Some. congruence. }
    cbn [Nat.add scan].
    rewrite (scan_step_suffix ext shape re post sc Hre Hi), Hstep.
    now apply IH.
  - assert (Hi : sc_i sc < length (sc_str sc)).
    { unfold scan_step in Hstep.
      destruct (nth_error (sc_str sc) (sc_i sc)) eqn:Hc; [|discriminate].
      apply nth_error_Some. congruence. }
    cbn [Nat.add scan].
    rewrite (scan_step_suffix ext shape re post sc Hre Hi), Hstep.
    exact Hscan.
Qed.

Lemma descending_below_weaken indices :
  forall bound bound',
    bound <= bound' ->
    descending_below bound indices = true ->
    descending_below bound' indices = true.
Proof.
  destruct indices as [|k rest]; intros bound bound' Hle; [reflexivity|].
  cbn [descending_below]. rewrite !andb_true_iff, !Nat.ltb_lt.
  intros [Hk Hrest]. split; [lia|exact Hrest].
Qed.

Lemma render_all_suffix post parseValue fns :
  forall s o st,
    descending_below (length s) (map insertedIndex fns) = true ->
    render_all fns (s ++ post) parseValue o st
    = (r <- render_all fns s parseValue ;; ret (r ++ post)) o st.
Proof.
  induction fns as [|fn rest IH]; intros s o st Hd; [reflexivity|].
  cbn [map descending_below] in Hd.
  apply andb_true_iff in Hd. destruct Hd as [Hk Hrest].
  apply Nat.ltb_lt in Hk.
  cbn [render_all]. rewrite !bind_run.
  destruct (resultFn fn parseValue o st) as [[r|e] st1]; [|reflexivity].
  rewrite !bind_run.
  destruct (resolved_text r o st1) as [[text|e] st2]; [|reflexivity].
  change 0%Z with (Z.of_nat 0).
  rewrite slice_suffix by lia.
  rewrite slice_from_suffix by (cbn; lia).
  rewrite !app_assoc, <- (app_assoc (slice s (Z.of_nat 0) _)).
  apply IH.
  apply (descending_below_weaken _ (insertedIndex fn)); [|exact Hrest].
  rewrite !length_app. unfold slice. rewrite !clamp_index_nat.
  rewrite length_firstn, length_skipn. lia.
Qed.

(** ** What a match tells about the input *)

Lemma step_if_consumes p k st res :
  step_if p k st = Some res ->
  exists st', consumes p st st' /\ k st' = Some res.
Proof.
  unfold step_if. destruct (m_rest st) as [|x t] eqn:E; [discriminate|].
  destruct (p x) eqn:Hp; [|discriminate]. intros H.
  eexists. split; [|exact H]. exists x. cbn. now rewrite E.
Qed.

Lemma iterate_matched (R : mstate -> mstate -> Prop) body greedy k :
  (forall k' st res,
     body k' st = Some res -> exists st', R st st' /\ k' st' = Some res) ->
  forall fuel st res,
    iterate body greedy k fuel st = Some res ->
    exists st', star R st st' /\ k st' = Some res.
Proof.
  intros Hbody. induction fuel as [|fuel IH]; intros st res H; simpl in H.
  - exists st. split; [constructor|exact H].
  - assert (Hcases :
      body (fun st' =>
              if m_pos st <? m_pos st'
              then iterate body greedy k fuel st' else None) st = Some res
      \/ k st = Some res).
    { destruct greedy; apply or_else_some in H; tauto. }
    destruct Hcases as [Hagain|Hk].
    + apply Hbody in Hagain. destruct Hagain as (st1 & Ha & Hit).
      destruct (m_pos st <? m_pos st1); [|discriminate].
      apply IH in Hit. destruct Hit as (st2 & Hb & Hk).
      exists st2. split; [econstructor; eassumption|exact Hk].
    + exists st. split; [constructor|exact Hk].
Qed.

(** Whatever [rmatch] returns, it returns through its continuation, at a
    state that a match of the pattern leads to. *)
Lemma rmatch_matched ci r :
  forall k st res,
    rmatch ci r k st = Some res ->
    exists st', matched ci r st st' /\ k st' = Some res.
Proof.
  induction r as [| c | | p | a IHa b IHb | a IHa b IHb | g a IHa
                  | name a IHa | a IHa | | ];
    intros k st res H; cbn [rmatch] in H; cbn [matched].
  - now exists st.
  - now apply step_if_consumes.
  - now apply step_if_consumes.
  - now apply step_if_consumes.
  - apply IHa in H. destruct H as (st1 & Ha & H).
    apply IHb in H. destruct H as (st2 & Hb & H).
    exists st2. split; [now exists st1|exact H].
  - apply or_else_some in H. destruct H as [H|H].
    + apply IHa in H. destruct H as (st1 & Ha & H). exists st1. tauto.
    + apply IHb in H. destruct H as (st1 & Hb & H). exists st1. tauto.
  - eapply iterate_matched; [|exact H]. exact IHa.
  - apply IHa in H. destruct H as (st1 & Ha & H).
    eexists. split; [|exact H]. now exists st1.
  - destruct (rmatch ci a Some st) as [e|] eqn:E; [|discriminate].
    apply IHa in E. destruct E as (st1 & Ha & _).
    exists st. split; [|exact H]. split; [reflexivity|now exists st1].
  - destruct (m_pos st =? 0) eqn:E; [|discriminate].
    apply Nat.eqb_eq in E. now exists st.
  - destruct (m_rest st) eqn:E; [|discriminate]. now exists st.
Qed.

Lemma match_at_matched ci r pos s st :
  match_at ci r pos s = Some st -> matched ci r (MState pos s []) st.
Proof.
  unfold match_at. intros H. apply rmatch_matched in H.
  destruct H as (st' & Hm & [= <-]). exact Hm.
Qed.

Lemma exec_from_match_at ci r s :
  forall pos start st,
    exec_from ci r pos s = Some (start, st) ->
    exists n,
      start = pos + n /\ n <= length s
      /\ match_at ci r start (skipn n s) = Some st.
Proof.
  induction s as [|c s IH]; intros pos start st; cbn [exec_from].
  - destruct (match_at ci r pos []) eqn:E; [|discriminate].
    intros [= <- <-]. exists 0. rewrite Nat.add_0_r. cbn. auto.
  - destruct (match_at ci r pos (c :: s)) eqn:E.
    + intros [= <- <-]. exists 0. rewrite Nat.add_0_r. cbn.
      repeat split; [lia|exact E].
    + intros H. apply IH in H. destruct H as (n & -> & Hn & H).
      exists (S n). cbn. repeat split; [lia|lia|].
      now replace (pos + S n) with (S pos + n) by lia.
Qed.

(** A run of characters that [p] accepts. *)
Lemma star_consumes p st st' :
  star (consumes p) st st' ->
  exists w,
    m_rest st = w ++ m_rest st' /\ forallb p w = true
    /\ m_pos st' = m_pos st + length w /\ m_caps st' = m_caps st.
Proof.
  induction 1 as [st|st1 st2 st3 (x & Hr & Hp & Hpos & Hc) _ IH].
  - exists []. cbn. auto.
  - destruct IH as (w & Hr' & Hw & Hpos' & Hc').
    exists (x :: w). cbn. rewrite Hr, Hr', Hp, Hw, Hpos', Hpos, Hc', Hc.
    repeat split. lia.
Qed.

Lemma reads_refl st : reads st st.
Proof. now exists []. Qed.

Lemma reads_trans st1 st2 st3 : reads st1 st2 -> reads st2 st3 -> reads st1 st3.
Proof.
  intros (w & Hr & Hp) (w' & Hr' & Hp').
  exists (w ++ w'). rewrite Hr, Hr', Hp', Hp, length_app, <- app_assoc.
  split; [reflexivity|lia].
Qed.

Lemma star_reads (R : mstate -> mstate -> Prop) :
  (forall st st', R st st' -> reads st st') ->
  forall st st', star R st st' -> reads st st'.
Proof.
  intros HR st st'. induction 1 as [st|st1 st2 st3 H12 _ IH].
  - apply reads_refl.
  - eapply reads_trans; [apply HR; exact H12|exact IH].
Qed.

Lemma consumes_reads p st st' : consumes p st st' -> reads st st'.
Proof.
  intros (x & Hr & _ & Hp & _). exists [x]. rewrite Hr, Hp. cbn.
  split; [reflexivity|lia].
Qed.

(** A match reads a piece of the input and moves by its length. *)
Lemma matched_reads ci r :
  forall st st', matched ci r st st' -> reads st st'.
Proof.
  induction r as [| c | | p | a IHa b IHb | a IHa b IHb | g a IHa
                  | name a IHa | a IHa | | ];
    intros st st'; cbn [matched].
  - intros ->. apply reads_refl.
  - apply consumes_reads.
  - apply consumes_reads.
  - apply consumes_reads.
  - intros (mid & Ha & Hb). eapply reads_trans; eauto.
  - intros [H|H]; [now apply IHa|now apply IHb].
  - apply star_reads. exact IHa.
  - intros (e & Ha & ->). apply IHa in Ha. exact Ha.
  - intros [-> _]. apply reads_refl.
  - intros [_ ->]. apply reads_refl.
  - intros [_ ->]. apply reads_refl.
Qed.

Lemma consumes_char c st st' :
  consumes (char_matches false c) st st' ->
  m_rest st = c :: m_rest st' /\ m_pos st' = S (m_pos st)
  /\ m_caps st' = m_caps st.
Proof.
  intros (x & Hr & Hx & Hp & Hc). cbn in Hx. apply Ascii.eqb_eq in Hx.
  subst x. auto.
Qed.

Lemma checkTF_shape pos s st :
  match_at false RegexBuilder.checkTF_pattern pos s = Some st ->
  exists before f w1 w2,
    s = before ++ dq :: f ++ dq :: w1 ++ "]"%char :: w2 ++ ["}"%char]
    /\ forallb is_space w1 = true /\ forallb is_space w2 = true
    /\ cap_lookup RegexBuilder.g_mod_check_false (m_caps st)
       = Some (pos + length before + 1,
               pos + length before + 1 + length f).
Proof.
  intros H. apply match_at_matched in H.
  unfold RegexBuilder.checkTF_pattern in H. cbn [seqs matched] in H.
  destruct H as (m & H & m0 & H0 & m1 & H1 & m2 & (e2 & H2 & E2) & m3 & H3
                 & m4 & H4 & m5 & H5 & m6 & H6 & m7 & H7 & m8 & H8 & m9 & H9
                 & m10 & (e10 & H10 & E10) & m11 & H11 & m12 & H12 & m13
                 & H13 & m14 & H14 & m15 & H15 & Hend & ->).
  assert (Hbefore : reads (MState pos s []) m8).
  { apply consumes_reads in H, H1, H3, H5, H7.
    apply (star_reads _ (consumes_reads _)) in H0, H4, H6, H8.
    apply matched_reads in H2.
    assert (H2' : reads m1 m2) by (subst m2; exact H2).
    repeat (eapply reads_trans; [eassumption|]). apply reads_refl. }
  destruct Hbefore as (w & Hw & Hpw). cbn [m_rest m_pos] in Hw, Hpw.
  apply consumes_char in H9, H11, H13, H15.
  destruct H9 as (R9 & P9 & C9), H11 as (R11 & P11 & C11),
           H13 as (R13 & P13 & C13), H15 as (R15 & P15 & C15).
  apply star_consumes in H10, H12, H14.
  destruct H10 as (f & R10 & _ & P10 & C10),
           H12 as (w1 & R12 & W1 & P12 & C12),
           H14 as (w2 & R14 & W2 & P14 & C14).
  subst m10. cbn [m_rest m_pos m_caps] in *.
  exists w, f, w1, w2. repeat split; [|exact W1|exact W2|].
  - rewrite Hw, R9, R10, R11, R12, R13, R14, R15, Hend. reflexivity.
  - rewrite C15, C14, C13, C12, C11. cbn.
    do 2 f_equal; lia.
Qed.

(** ** The span that [compileTemplateHelper] takes for a match *)

Lemma startsWith_app p : forall b, startsWith (p ++ b) p = true.
Proof.
  induction p as [|x p IH]; intros b; [now destruct b|].
  cbn. now rewrite Ascii.eqb_refl, IH.
Qed.

Lemma lastIndexOf_from_found p :
  forall s i j,
    exists k, lastIndexOf_from s p i (Some j) = Some k /\ (k = j \/ i <= k).
Proof.
  induction s as [|x s IH]; intros i j; cbn [lastIndexOf_from].
  - destruct (startsWith [] p); eexists; (split; [reflexivity|]); auto.
  - destruct (startsWith (x :: s) p).
    + destruct (IH (S i) i) as (k & Hk & Hor). exists k.
      split; [exact Hk|right; lia].
    + destruct (IH (S i) j) as (k & Hk & Hor). exists k.
      split; [exact Hk|]. destruct Hor; [now left|right; lia].
Qed.

(** The last occurrence of a text is not to the left of any occurrence. *)
Lemma lastIndexOf_from_occurrence p b :
  forall a i found,
    exists k,
      lastIndexOf_from (a ++ p ++ b) p i found = Some k /\ i + length a <= k.
Proof.
  induction a as [|x a IH]; intros i found.
  - pose proof (startsWith_app p b) as H. cbn [app length].
    destruct (p ++ b) as [|y t]; cbn [lastIndexOf_from]; rewrite H.
    + exists i. split; [reflexivity|lia].
    + destruct (lastIndexOf_from_found p t (S i) i) as (k & Hk & Hor).
      exists k. split; [exact Hk|lia].
  - cbn [app length lastIndexOf_from].
    destruct (IH (S i) (if startsWith (x :: a ++ p ++ b) p
                        then Some i else found)) as (k & Hk & Hle).
    exists k. split; [exact Hk|lia].
Qed.

Lemma nth_error_slice str l i k :
  l <= k -> k <= i -> i < length str ->
  nth_error (slice str (Z.of_nat l) (Z.of_nat (i + 1))) (k - l)
  = nth_error str k.
Proof.
  intros Hl Hk Hi. unfold slice. rewrite !clamp_index_nat.
  rewrite nth_error_firstn, nth_error_skipn.
  replace (Nat.min (length str) l) with l by lia.
  replace (Nat.min (length str) (i + 1)) with (i + 1) by lia.
  replace (l + (k - l)) with k by lia.
  destruct (k - l <? i + 1 - l) eqn:E; [reflexivity|].
  apply Nat.ltb_ge in E. lia.
Qed.

Lemma length_slice_span str l i :
  l <= i -> i < length str ->
  length (slice str (Z.of_nat l) (Z.of_nat (i + 1))) = i + 1 - l.
Proof.
  intros Hl Hi. unfold slice. rewrite !clamp_index_nat.
  rewrite length_firstn, length_skipn. lia.
Qed.

Lemma length_slice_drop s n :
  0 < n ->
  length (slice s 1 (- Z.of_nat n)) = length s - n - 1.
Proof.
  intros Hn. unfold slice, clamp_index.
  destruct (- Z.of_nat n <? 0)%Z eqn:E; [|lia].
  change (1 <? 0)%Z with false. cbv iota.
  rewrite length_firstn, length_skipn. lia.
Qed.

(** Past the span that the loop computes for a match there is, up to the
    closing bracket, only white space and the bracket of the check. *)
Lemma span_reaches str l i tz len :
  l < i -> i < length str ->
  let data := match_data (slice str (Z.of_nat l) (Z.of_nat (i + 1))) l tz in
  checkSuffix_length (suffix_mod_check data) = Ok len ->
  forall k,
    l + (length (js "{") + length (variableTemplateWhitespace data) + len
         + length (js "}")) <= k ->
    k < i ->
    exists c,
      nth_error str k = Some c /\ (is_space c = true \/ c = "]"%char).
Proof.
  intros Hl Hi data. subst data.
  pose proof (length_slice_span str l i ltac:(lia) Hi) as Hlen.
  assert (Hnth : forall k, l <= k -> k <= i ->
            nth_error (slice str (Z.of_nat l) (Z.of_nat (i + 1))) (k - l)
            = nth_error str k)
    by (intros; now apply nth_error_slice).
  set (pvt := slice str (Z.of_nat l) (Z.of_nat (i + 1))) in *.
  change (length (js "{")) with 1. change (length (js "}")) with 1.
  assert (Hplain : forall k,
            l + (1 + length (slice pvt 1 (- Z.of_nat 1)) + 0 + 1) <= k ->
            k < i ->
            exists c,
              nth_error str k = Some c /\ (is_space c = true \/ c = "]"%char)).
  { intros k. rewrite length_slice_drop by lia. lia. }
  unfold match_data, check_true_false.
  cbn [variableTemplateWhitespace suffix_mod_check].
  change (Z.of_nat (length (js "{"))) with 1%Z.
  destruct (exec false RegexBuilder.checkTF_pattern pvt) as [[start st]|]
    eqn:Hexec; cbn [option_map checkSuffix_length];
    [|intros [= <-]; exact Hplain].
  destruct (cap_text pvt RegexBuilder.g_mod_check_true (m_caps st))
    as [t|] eqn:Ht; cbn [option_map checkSuffix_length];
    [|intros [= <-]; exact Hplain].
  destruct (cap_text pvt RegexBuilder.g_mod_check_false (m_caps st))
    as [f|] eqn:Hf; cbn [option_map checkSuffix_length snd];
    [|intros [= <-]; exact Hplain].
  clear Hplain.
  apply exec_from_match_at in Hexec.
  destruct Hexec as (n & Hstart & Hn & Hmatch). cbn in Hstart. subst n.
  destruct (checkTF_shape _ _ _ Hmatch)
    as (before & f' & w1 & w2 & Hwhole & Hw1 & Hw2 & Hcap).
  unfold cap_text in Hf. rewrite Hcap in Hf. injection Hf as Hf.
  replace (start + length before + 1 + length f'
           - (start + length before + 1)) with (length f') in Hf by lia.
  replace (start + length before + 1) with (length before + 1 + start) in Hf
    by lia.
  rewrite <- skipn_skipn, Hwhole in Hf.
  rewrite skipn_app, skipn_all2 in Hf by lia.
  replace (length before + 1 - length before) with 1 in Hf by lia.
  cbn [app skipn] in Hf. rewrite firstn_app, firstn_all, Nat.sub_diag in Hf.
  cbn [firstn] in Hf. rewrite app_nil_r in Hf. subst f'.
  cbn [offsetFromTrueCase offsetFromVariable mc_true mc_false].
  destruct (lastIndexOf_from_occurrence (quoted f)
              (w1 ++ "]"%char :: w2 ++ ["}"%char]) before 0 None)
    as (kk & Hkk & Hle).
  assert (Hwhole' : skipn start pvt
                    = before ++ quoted f
                        ++ w1 ++ "]"%char :: w2 ++ ["}"%char]).
  { rewrite Hwhole. unfold quoted. cbn [app]. now rewrite <- app_assoc. }
  unfold lastIndexOf. rewrite Hwhole', Hkk.
  assert (Hlw : length pvt
                = start + (length before + (length f + 2)
                           + (length w1 + 1 + length w2) + 1)).
  { rewrite <- (firstn_skipn start pvt) at 1.
    rewrite length_app, length_firstn, Hwhole', !length_app.
    unfold quoted. cbn [length]. rewrite !length_app. cbn [length]. lia. }
  set (relTrue := match indexOf _ _ with Some k => k + 1 | None => 0 end).
  destruct (Z.of_nat (kk + 1) - (Z.of_nat relTrue + Z.of_nat (length t))
            <? 0)%Z eqn:Hoff; [discriminate|].
  intros [= <-] k Hk Hki.
  rewrite length_slice_drop in Hk
    by (rewrite !length_app; unfold quoted; cbn [length]; lia).
  rewrite <- Hwhole', length_skipn in Hk.
  apply Z.ltb_ge in Hoff.
  rewrite <- (Hnth k) by lia.
  rewrite <- (firstn_skipn start pvt), nth_error_app2
    by (rewrite length_firstn; lia).
  rewrite length_firstn, Hwhole'.
  replace (Nat.min start (length pvt)) with start by lia.
  rewrite app_assoc, nth_error_app2
    by (rewrite length_app; unfold quoted; cbn [length];
        rewrite length_app; cbn [length]; lia).
  replace (w1 ++ "]"%char :: w2 ++ ["}"%char])
    with ((w1 ++ "]"%char :: w2) ++ ["}"%char])
    by (now rewrite <- app_assoc).
  rewrite nth_error_app1
    by (rewrite !length_app; unfold quoted; cbn [length];
        rewrite !length_app; cbn [length]; lia).
  destruct (nth_error (w1 ++ "]"%char :: w2) _) as [c|] eqn:Hc.
  - exists c. split; [reflexivity|].
    apply nth_error_In, in_app_or in Hc.
    rewrite forallb_forall in Hw1, Hw2.
    destruct Hc as [Hc|[Hc|Hc]]; [left; now apply Hw1|now right|
                                   left; now apply Hw2].
  - apply nth_error_None in Hc. rewrite !length_app in Hc.
    unfold quoted in Hc. cbn [length] in Hc.
    rewrite !length_app in Hc. cbn [length] in Hc. lia.
Qed.

(** ** The compiled functions stay in place *)

Lemma getMatches_data re str i below :
  forall above data stack,
    getMatches re str i above below = Some (data, stack) ->
    exists tz,
      data = match_data
               (slice str (Z.of_nat (leftBracketIndex data))
                  (Z.of_nat (i + 1)))
               (leftBracketIndex data) tz.
Proof.
  induction below as [|l below IH]; intros above data stack;
    cbn [getMatches]; [discriminate|].
  destruct (exec true re _) as [[start st]|].
  - intros [= <- _]. eexists. reflexivity.
  - apply IH.
Qed.

(** A span that the grammar recognizes does not begin with a
    placeholder. *)
Lemma recognized_not_placeholder shape re str l i :
  RegexBuilder.buildRegexExpression shape = Ok re ->
  l <= i -> i < length str ->
  recognized re (span str l i) = true ->
  nth_error str l <> Some "X"%char.
Proof.
  intros Hre Hl Hi Hrec Hx.
  destruct (grammar_is_anchored shape re Hre) as [r ->].
  unfold recognized in Hrec.
  destruct (exec true _ _) as [[p st]|] eqn:E; [|discriminate].
  apply exec_anchored_brace in E. destruct E as [t Ht].
  pose proof (nth_error_slice str l i l (Nat.le_refl l) Hl Hi) as Hn.
  rewrite Nat.sub_diag, Hx in Hn. unfold span in Ht.
  destruct (slice str (Z.of_nat l) (Z.of_nat (i + 1))) as [|c rest];
    [discriminate|].
  injection Hn as ->. discriminate Ht.
Qed.

Lemma sorted_snoc l :
  forall a,
    StronglySorted lt l -> Forall (fun x => x < a) l ->
    StronglySorted lt (l ++ [a]).
Proof.
  induction l as [|x l IH]; intros a Hs Ha; cbn [app].
  - repeat constructor.
  - apply StronglySorted_inv in Hs. destruct Hs as [Hs Hx].
    inversion Ha as [|? ? Hxa Ha']; subst.
    constructor; [now apply IH|].
    apply Forall_app. split; [exact Hx|repeat constructor; exact Hxa].
Qed.

Lemma sorted_map_filter {A} (f : A -> nat) (p : A -> bool) l :
  StronglySorted lt (map f l) -> StronglySorted lt (map f (filter p l)).
Proof.
  induction l as [|x l IH]; intros Hs; [constructor|].
  cbn [map] in Hs. apply StronglySorted_inv in Hs. destruct Hs as [Hs Hx].
  cbn [filter]. destruct (p x); [|now apply IH].
  cbn [map]. constructor; [now apply IH|].
  rewrite Forall_forall in *. intros y Hy. apply Hx.
  apply in_map_iff in Hy. destruct Hy as (z & <- & Hz).
  apply filter_In in Hz. apply in_map. tauto.
Qed.

Lemma scan_step_in_place ext shape re sc sc' :
  RegexBuilder.buildRegexExpression shape = Ok re ->
  in_place sc ->
  scan_step ext shape re sc = Some (Ok sc') ->
  in_place sc'.
Proof.
  intros Hre (Hi & Hsorted & Hall). unfold scan_step.
  destruct (nth_error (sc_str sc) (sc_i sc)) as [c|] eqn:Hc; [|discriminate].
  assert (Hlt : sc_i sc < length (sc_str sc))
    by (apply nth_error_Some; congruence).
  assert (Hadv : forall stack,
            in_place {| sc_str := sc_str sc; sc_i := S (sc_i sc);
                        leftBracketIndices := stack;
                        compiledVariableTemplateFns :=
                          compiledVariableTemplateFns sc |}).
  { intros stack. unfold in_place.
    cbn [sc_str sc_i compiledVariableTemplateFns].
    repeat split; [lia|exact Hsorted|].
    eapply Forall_impl; [|exact Hall]. cbn. intros fn [H1 H2].
    split; [lia|exact H2]. }
  destruct (Ascii.eqb c "{"); [intros [= <-]; apply Hadv|].
  destruct (Ascii.eqb c "}") eqn:Hclose; [|intros [= <-]; apply Hadv].
  apply Ascii.eqb_eq in Hclose. subst c.
  destruct (getMatches _ _ _ _ _) as [[data stack]|] eqn:Hm;
    [|intros [= <-]; apply Hadv].
  destruct (getMatches_data _ _ _ _ _ _ _ Hm) as [tz Hdata].
  apply getMatches_some in Hm. destruct Hm as [_ Hrec].
  pose proof (recognized_span_left shape re _ _ _ Hre Hc Hrec) as Hl.
  pose proof (recognized_not_placeholder shape re _ _ _ Hre
                (Nat.lt_le_incl _ _ Hl) Hlt Hrec) as Hnot.
  unfold on_match.
  destruct (checkSuffix_length (suffix_mod_check data)) as [len|e] eqn:Hlen;
    [|discriminate].
  intros [= <-].
  assert (Hleft : forall fn,
            In fn (compiledVariableTemplateFns sc) ->
            is_nested data
              (length (js "{") + length (variableTemplateWhitespace data)
               + len + length (js "}")) fn = false ->
            insertedIndex fn < leftBracketIndex data).
  { intros fn Hin Hnested. rewrite Forall_forall in Hall.
    destruct (Hall fn Hin) as [Hk Hx].
    unfold is_nested in Hnested. apply andb_false_iff in Hnested.
    destruct (Nat.lt_trichotomy (insertedIndex fn) (leftBracketIndex data))
      as [H|[H|H]]; [exact H| |].
    - rewrite H in Hx. contradiction.
    - destruct Hnested as [Hn|Hn];
        [apply Nat.ltb_ge in Hn; lia|apply Nat.ltb_ge in Hn].
      rewrite Hdata in Hlen, Hn.
      destruct (span_reaches (sc_str sc) (leftBracketIndex data) (sc_i sc)
                  tz len Hl Hlt Hlen (insertedIndex fn) Hn Hk)
        as (c & Hc' & Hcases).
      rewrite Hx in Hc'. injection Hc' as <-.
      destruct Hcases as [Hs|Hs]; discriminate Hs. }
  assert (Hlen0 : length (slice (sc_str sc) 0
                            (Z.of_nat (leftBracketIndex data)))
                  = leftBracketIndex data).
  { change 0%Z with (Z.of_nat 0). unfold slice. rewrite !clamp_index_nat.
    rewrite length_firstn, length_skipn. lia. }
  assert (Hkeep : forall k,
            k < leftBracketIndex data ->
            nth_error (slice (sc_str sc) 0 (Z.of_nat (leftBracketIndex data))
                       ++ PLACEHOLDER
                       ++ slice_from (sc_str sc) (Z.of_nat (sc_i sc + 1))) k
            = nth_error (sc_str sc) k).
  { intros k Hk. rewrite nth_error_app1 by lia.
    change 0%Z with (Z.of_nat 0). unfold slice. rewrite !clamp_index_nat.
    rewrite nth_error_firstn, nth_error_skipn.
    replace (Nat.min (length (sc_str sc)) 0) with 0 by lia.
    replace (Nat.min (length (sc_str sc)) (leftBracketIndex data))
      with (leftBracketIndex data) by lia.
    destruct (k <? leftBracketIndex data - 0) eqn:E; [reflexivity|].
    apply Nat.ltb_ge in E. lia. }
  unfold in_place. cbn [sc_str sc_i compiledVariableTemplateFns].
  repeat split.
  - rewrite length_app, Hlen0. cbn [length]. lia.
  - rewrite map_app. cbn [map insertedIndex]. apply sorted_snoc.
    + now apply sorted_map_filter.
    + rewrite Forall_forall. intros k Hk.
      apply in_map_iff in Hk. destruct Hk as (fn & <- & Hfn).
      apply filter_In in Hfn. destruct Hfn as [Hin Hn].
      apply Hleft; [exact Hin|]. now destruct (is_nested _ _ fn).
  - apply Forall_app. split.
    + rewrite Forall_forall. intros fn Hfn.
      apply filter_In in Hfn. destruct Hfn as [Hin Hn].
      assert (Hk : insertedIndex fn < leftBracketIndex data)
        by (apply Hleft; [exact Hin|now destruct (is_nested _ _ fn)]).
      rewrite Forall_forall in Hall. destruct (Hall fn Hin) as [_ Hx].
      split; [lia|]. rewrite Hkeep by exact Hk. exact Hx.
    + repeat constructor; cbn [insertedIndex]; [lia|].
      rewrite nth_error_app2 by lia. rewrite Hlen0, Nat.sub_diag.
      reflexivity.
Qed.

Lemma scan_in_place ext shape re :
  RegexBuilder.buildRegexExpression shape = Ok re ->
  forall fuel sc sc',
    in_place sc -> scan ext shape fuel re sc = Ok sc' -> in_place sc'.
Proof.
  intros Hre. induction fuel as [|fuel IH]; intros sc sc' Hin; cbn [scan].
  - now intros [= <-].
  - destruct (scan_step ext shape re sc) as [[sc1|e]|] eqn:E.
    + apply IH. eapply scan_step_in_place; eassumption.
    + discriminate.
    + now intros [= <-].
Qed.

Lemma compile_scan_in_place ext shape t sf :
  compile_scan ext shape t = Ok sf -> in_place sf.
Proof.
  unfold compile_scan.
  destruct (RegexBuilder.buildRegexExpression shape) as [re|e] eqn:Hre;
    [|discriminate].
  apply (scan_in_place ext shape re Hre).
  unfold in_place, initial_scan. cbn. repeat split; [lia|constructor|constructor].
Qed.

Lemma descending_below_snoc a :
  forall l bound,
    descending_below bound l = true ->
    Forall (fun x => a < x) l -> a < bound ->
    descending_below bound (l ++ [a]) = true.
Proof.
  induction l as [|x l IH]; intros bound Hd Hall Ha; cbn [app descending_below].
  - apply Nat.ltb_lt in Ha. now rewrite Ha.
  - cbn [descending_below] in Hd. apply andb_true_iff in Hd.
    destruct Hd as [Hx Hd]. inversion Hall as [|? ? Hax Hall']; subst.
    rewrite Hx. cbn [andb]. now apply IH.
Qed.

Lemma sorted_descending l bound :
  StronglySorted lt l -> Forall (fun x => x < bound) l ->
  descending_below bound (rev l) = true.
Proof.
  induction 1 as [|a l Hs IH Ha]; intros Hb; [reflexivity|].
  inversion Hb as [|? ? Hab Hb']; subst. cbn [rev].
  apply descending_below_snoc; [now apply IH| |exact Hab].
  now apply Forall_rev.
Qed.

Lemma in_place_well_placed sc : in_place sc -> well_placed sc = true.
Proof.
  intros (Hi & Hs & Hall). unfold well_placed. rewrite map_rev.
  apply sorted_descending; [exact Hs|].
  rewrite Forall_forall in *. intros k Hk.
  apply in_map_iff in Hk. destruct Hk as (fn & <- & Hfn).
  destruct (Hall fn Hfn). lia.
Qed.

(** X27.  Whatever the template, the compiled functions that
    [compileTemplateHelper] is left with are in ascending order of their
    indices, and at each index the final working string has the
    placeholder character: a function is never left pointing at white
    space, a bracket or any other character that is not an [X]. *)
Theorem compiled_functions_stay_in_place ext shape t sf :
  compile_scan ext shape t = Ok sf ->
  StronglySorted lt (map insertedIndex (compiledVariableTemplateFns sf))
  /\ Forall (fun fn =>
               nth_error (sc_str sf) (insertedIndex fn) = Some "X"%char)
       (compiledVariableTemplateFns sf).
Proof.
  intros H. apply compile_scan_in_place in H.
  destruct H as (_ & Hs & Hall). split; [exact Hs|].
  eapply Forall_impl; [|exact Hall]. cbn. tauto.
Qed.

Lemma compiled_functions_stay_in_place_witness :
  StronglySorted lt
    (map insertedIndex (compiledVariableTemplateFns sample_compiled))
  /\ Forall (fun fn =>
               nth_error (sc_str sample_compiled) (insertedIndex fn)
               = Some "X"%char)
       (compiledVariableTemplateFns sample_compiled).
Proof.
  apply (compiled_functions_stay_in_place sample_externals shape0
           (js "{stream.title} - {stream.size::bytes}")).
  vm_compute. reflexivity.
Defined.

(** The function that [compileTemplateHelper] returns for [t ++ post]
    yields what the one for [t] yields, followed by [post], with the same
    effects, when [post] has no closing bracket. *)
Lemma render_helper_suffix ext shape re t post :
  RegexBuilder.buildRegexExpression shape = Ok re ->
  has_no_close_bracket post = true ->
  forall parseValue o st,
    run (render_helper ext shape (t ++ post) parseValue) o st
    = run (s <- render_helper ext shape t parseValue ;; ret (s ++ post)) o st.
Proof.
  intros Hre Hpost pv o st. unfold run, render_helper.
  assert (Hplaced : forall sf,
            compile_scan ext shape t = Ok sf -> well_placed sf = true).
  { intros sf Hsf. apply in_place_well_placed.
    exact (compile_scan_in_place ext shape t sf Hsf). }
  assert (Hinit : initial_scan (t ++ post)
                  = with_suffix post (initial_scan t)) by reflexivity.
  assert (Hcs : compile_scan ext shape (t ++ post)
                = scan ext shape (length t + length post) re
                    (with_suffix post (initial_scan t))).
  { unfold compile_scan. now rewrite Hre, length_app, Hinit. }
  assert (Hct : compile_scan ext shape t
                = scan ext shape (length t) re (initial_scan t)).
  { unfold compile_scan. now rewrite Hre. }
  assert (Hmain :
    match compile_scan ext shape t with
    | Ok sf =>
        match compile_scan ext shape (t ++ post) with
        | Ok sc' =>
            render_all (rev (compiledVariableTemplateFns sc')) (sc_str sc')
              pv o st
            = (r <- render_all (rev (compiledVariableTemplateFns sf))
                      (sc_str sf) pv ;; ret (r ++ post)) o st
        | Throw _ => False
        end
    | Throw e => compile_scan ext shape (t ++ post) = Throw e
    end).
  { rewrite Hcs, Hct. rewrite Hct in Hplaced.
    destruct (scan ext shape (length t) re (initial_scan t)) as [sf|e]
      eqn:Et.
    - pose proof (Hplaced sf eq_refl) as Hw.
      assert (Hsf : length (sc_str sf) <= sc_i sf).
      { apply (scan_complete ext shape re Hre (length t) (initial_scan t));
          [cbn; lia|exact Et]. }
      destruct (scan_suffix ext shape re post Hre Hpost _ _ _ (length post)
                  Et Hsf) as (sc' & H1 & H2 & H3).
      rewrite H1, H2, H3.
      apply render_all_suffix. exact Hw.
    - now apply scan_suffix_throws. }
  clear Hinit Hcs Hct Hplaced. unfold compileTemplateHelper.
  destruct t as [|c t].
  - assert (H0 : compile_scan ext shape [] = Ok (initial_scan []))
      by (unfold compile_scan; now rewrite Hre).
    rewrite H0 in Hmain. cbn [app] in *.
    destruct post as [|p post]; [reflexivity|].
    destruct (compile_scan ext shape (p :: post)) as [sc'|e];
      [exact Hmain|contradiction].
  - cbn [app] in *.
    destruct (compile_scan ext shape (c :: t)) as [sf|e].
    + destruct (compile_scan ext shape (c :: t ++ post)) as [sc'|e'];
        [exact Hmain|contradiction].
    + rewrite Hmain. reflexivity.
Qed.

Lemma startsWith_no_close post :
  has_no_close_bracket post = true ->
  forall p, startsWith post (p ++ ["}"%char]) = false.
Proof.
  induction post as [|c post IH]; intros H p.
  - now destruct p.
  - cbn [has_no_close_bracket forallb] in H. apply andb_true_iff in H.
    destruct H as [Hc H]. destruct p as [|y p]; cbn [app startsWith].
    + rewrite Ascii.eqb_sym. now destruct (Ascii.eqb c "}").
    + rewrite (IH H). apply andb_false_r.
Qed.

Lemma startsWith_suffix post :
  has_no_close_bracket post = true ->
  forall s p,
    startsWith (s ++ post) (p ++ ["}"%char]) = startsWith s (p ++ ["}"%char]).
Proof.
  intros H. induction s as [|x s IH]; intros p.
  - cbn [app]. rewrite (startsWith_no_close post H). now destruct p.
  - destruct p as [|y p]; cbn [app startsWith].
    + f_equal. now destruct s, post.
    + now rewrite IH.
Qed.

Lemma indexOf_from_suffix post p :
  has_no_close_bracket post = true ->
  forall s i,
    indexOf_from (s ++ post) (p ++ ["}"%char]) i
    = indexOf_from s (p ++ ["}"%char]) i.
Proof.
  intros H. induction s as [|x s IH]; intros i.
  - cbn [app]. cbn [indexOf_from].
    replace (startsWith [] (p ++ ["}"%char])) with false by (now destruct p).
    clear -H. revert i. induction post as [|c post IH]; intros i;
      cbn [indexOf_from].
    + now destruct p.
    + rewrite (startsWith_no_close (c :: post) H).
      cbn [has_no_close_bracket forallb] in H. apply andb_true_iff in H.
      apply IH, H.
  - cbn [app indexOf_from].
    change (x :: s ++ post) with ((x :: s) ++ post).
    rewrite (startsWith_suffix post H (x :: s) p).
    destruct (startsWith (x :: s) (p ++ ["}"%char])); [reflexivity|].
    apply IH.
Qed.

Lemma indexOf_from_fits s p :
  forall i k,
    indexOf_from s p i = Some k -> k - i + length p <= length s /\ i <= k.
Proof.
  induction s as [|x s IH]; intros i k; cbn [indexOf_from].
  - destruct (startsWith [] p) eqn:E; [|discriminate].
    intros [= <-]. destruct p; [cbn; lia|discriminate].
  - destruct (startsWith (x :: s) p) eqn:E.
    + intros [= <-]. apply startsWith_prefix in E. destruct E as [r E].
      rewrite E, length_app. lia.
    + intros Hk. apply IH in Hk. cbn [length]. lia.
Qed.

Lemma replace_first_suffix t post p replacement :
  has_no_close_bracket post = true ->
  replace_first (t ++ post) (p ++ ["}"%char]) replacement
  = replace_first t (p ++ ["}"%char]) replacement ++ post.
Proof.
  intros H. unfold replace_first, indexOf.
  rewrite (indexOf_from_suffix post p H).
  destruct (indexOf_from t (p ++ ["}"%char]) 0) as [k|] eqn:E;
    [|reflexivity].
  apply indexOf_from_fits in E.
  rewrite firstn_app, skipn_app.
  replace (k - length t) with 0 by lia.
  replace (k + length (p ++ ["}"%char]) - length t) with 0 by lia.
  cbn [firstn skipn]. now rewrite app_nil_r, <- !app_assoc.
Qed.

Lemma replace_debug_keys_suffix t post :
  has_no_close_bracket post = true ->
  replace_debug_keys (t ++ post) = replace_debug_keys t ++ post.
Proof.
  intros H. unfold replace_debug_keys.
  cbn [fold_left DebugToolReplacementConstants.entries fst snd].
  change (js "{debug." ++ js "modifier" ++ js "}")
    with (js "{debug.modifier" ++ ["}"%char]).
  change (js "{debug." ++ js "comparator" ++ js "}")
    with (js "{debug.comparator" ++ ["}"%char]).
  now rewrite !replace_first_suffix.
Qed.

(** X28.  Text after a template changes nothing in how the template is
    compiled and evaluated, provided that text has no closing bracket
    (opening brackets are fine): what [format] renders for [t ++ post] is
    the post-processing of what [t] yields before post-processing,
    followed by [post], with the same effects, also when compiling [t]
    fails.  The post-processing takes [post] as it takes any text: a
    line of it that is blank is dropped. *)
Theorem text_after_a_template_is_kept ext shape re t post :
  RegexBuilder.buildRegexExpression shape = Ok re ->
  has_no_close_bracket post = true ->
  forall parseValue o st,
    run (render ext shape (t ++ post) parseValue) o st
    = run (s <- render_helper ext shape (replace_debug_keys t) parseValue ;;
           ret (postprocess (s ++ post))) o st.
Proof.
  intros Hre Hpost pv o st. rewrite render_unfold.
  rewrite (replace_debug_keys_suffix t post Hpost).
  pose proof (render_helper_suffix ext shape re (replace_debug_keys t) post
                Hre Hpost pv) as H.
  unfold run in *. rewrite !bind_run, H, bind_run.
  destruct (render_helper ext shape (replace_debug_keys t) pv o st)
    as [[s|e] st1]; reflexivity.
Qed.

Lemma text_after_a_template_is_kept_witness :
  run (render sample_externals shape0
         (js "{stream.title} - {stream.size::bytes}" ++ js " {end")
         (namespace_of sample_stream)) (fun _ => 0) sample_state
  = run (s <- render_helper sample_externals shape0
                (replace_debug_keys
                   (js "{stream.title} - {stream.size::bytes}"))
                (namespace_of sample_stream) ;;
         ret (postprocess (s ++ js " {end"))) (fun _ => 0) sample_state.
Proof.
  apply (text_after_a_template_is_kept sample_externals shape0 grammar0
           (js "{stream.title} - {stream.size::bytes}") (js " {end")
           grammar0_built).
  reflexivity.
Defined.

(** ** The offsets of the check are never negative *)

Lemma indexOf_from_occurrence p b :
  forall a i,
    exists k, indexOf_from (a ++ p ++ b) p i = Some k /\ k <= i + length a.
Proof.
  induction a as [|x a IH]; intros i.
  - pose proof (startsWith_app p b) as H. cbn [app length].
    destruct (p ++ b) as [|y t]; cbn [indexOf_from]; rewrite H;
      exists i; split; [reflexivity|lia|reflexivity|lia].
  - cbn [app length indexOf_from].
    destruct (startsWith (x :: a ++ p ++ b) p).
    + exists i. split; [reflexivity|lia].
    + destruct (IH (S i)) as (k & Hk & Hle). exists k.
      split; [exact Hk|lia].
Qed.

Ltac same_text :=
  unfold quoted;
  repeat (progress (cbn [app]; rewrite <- ?app_assoc));
  reflexivity.

Lemma firstn_skipn_middle {A} (a m b : list A) :
  firstn (length m) (skipn (length a) (a ++ m ++ b)) = m.
Proof.
  rewrite skipn_app, skipn_all, Nat.sub_diag. cbn [app skipn].
  rewrite firstn_app, firstn_all, Nat.sub_diag. cbn [firstn].
  apply app_nil_r.
Qed.

(** The text that the pattern of the check matches, with its two
    captures. *)
Lemma checkTF_full_shape pos s st :
  match_at false RegexBuilder.checkTF_pattern pos s = Some st ->
  exists w0 t mid f w4 w5,
    s = ("["%char :: w0) ++ quoted t ++ mid ++ quoted f
          ++ w4 ++ "]"%char :: w5 ++ ["}"%char]
    /\ cap_lookup RegexBuilder.g_mod_check_true (m_caps st)
       = Some (pos + length w0 + 2, pos + length w0 + 2 + length t)
    /\ cap_lookup RegexBuilder.g_mod_check_false (m_caps st)
       = Some (pos + length w0 + length t + length mid + 4,
               pos + length w0 + length t + length mid + 4 + length f).
Proof.
  intros H. apply match_at_matched in H.
  unfold RegexBuilder.checkTF_pattern in H. cbn [seqs matched] in H.
  destruct H as (m & H & m0 & H0 & m1 & H1 & m2 & (e2 & H2 & E2) & m3 & H3
                 & m4 & H4 & m5 & H5 & m6 & H6 & m7 & H7 & m8 & H8 & m9 & H9
                 & m10 & (e10 & H10 & E10) & m11 & H11 & m12 & H12 & m13
                 & H13 & m14 & H14 & m15 & H15 & Hend & ->).
  apply consumes_char in H, H1, H3, H5, H7, H9, H11, H13, H15.
  destruct H as (R & P & C), H1 as (R1 & P1 & C1), H3 as (R3 & P3 & C3),
           H5 as (R5 & P5 & C5), H7 as (R7 & P7 & C7),
           H9 as (R9 & P9 & C9), H11 as (R11 & P11 & C11),
           H13 as (R13 & P13 & C13), H15 as (R15 & P15 & C15).
  apply star_consumes in H0, H2, H4, H6, H8, H10, H12, H14.
  destruct H0 as (w0 & R0 & _ & P0 & C0), H2 as (t & R2 & _ & P2 & C2),
           H4 as (w1 & R4 & _ & P4 & C4), H6 as (w2 & R6 & _ & P6 & C6),
           H8 as (w3 & R8 & _ & P8 & C8), H10 as (f & R10 & _ & P10 & C10),
           H12 as (w4 & R12 & _ & P12 & C12),
           H14 as (w5 & R14 & _ & P14 & C14).
  subst m2 m10. cbn [m_rest m_pos m_caps] in *.
  exists w0, t, (w1 ++ "|"%char :: w2 ++ "|"%char :: w3), f, w4, w5.
  split; [|split].
  - rewrite R, R0, R1, R2, R3, R4, R5, R6, R7, R8, R9, R10, R11, R12, R13,
      R14, R15, Hend.
    same_text.
  - rewrite C15, C14, C13, C12, C11. cbn [cap_lookup].
    change (RegexBuilder.g_mod_check_false =? RegexBuilder.g_mod_check_true)
      with false. cbv iota.
    rewrite C10, C9, C8, C7, C6, C5, C4, C3. cbn [cap_lookup].
    rewrite Nat.eqb_refl. do 2 f_equal; lia.
  - rewrite C15, C14, C13, C12, C11. cbn [cap_lookup].
    rewrite Nat.eqb_refl. rewrite !length_app. cbn [length].
    rewrite !length_app. cbn [length]. do 2 f_equal; lia.
Qed.

(** What [check_true_false] returns: the matched text with the two branch
    texts in it, the false branch to the right of the true branch. *)
Lemma check_true_false_shape pvt whole mc :
  check_true_false pvt = Some (whole, mc) ->
  exists start w0 mid after,
    whole = skipn start pvt
    /\ start <= length pvt
    /\ whole = ("["%char :: w0) ++ quoted (mc_true mc) ++ mid
                 ++ quoted (mc_false mc) ++ after
    /\ (0 <= offsetFromTrueCase mc)%Z.
Proof.
  unfold check_true_false.
  destruct (exec false RegexBuilder.checkTF_pattern pvt) as [[start st]|]
    eqn:Hexec; [|discriminate].
  apply exec_from_match_at in Hexec.
  destruct Hexec as (n & Hstart & Hn & Hmatch). cbn in Hstart. subst n.
  destruct (checkTF_full_shape _ _ _ Hmatch)
    as (w0 & t & mid & f & w4 & w5 & Hwhole & Ht & Hf).
  unfold cap_text. rewrite Ht, Hf.
  assert (Et : firstn (start + length w0 + 2 + length t
                       - (start + length w0 + 2))
                 (skipn (start + length w0 + 2) pvt) = t).
  { replace (start + length w0 + 2 + length t - (start + length w0 + 2))
      with (length t) by lia.
    replace (start + length w0 + 2) with (length w0 + 2 + start) by lia.
    rewrite <- skipn_skipn, Hwhole.
    replace (("["%char :: w0) ++ quoted t ++ mid ++ quoted f ++ w4
               ++ "]"%char :: w5 ++ ["}"%char])
      with ((("["%char :: w0) ++ [dq]) ++ t
              ++ (dq :: mid ++ quoted f ++ w4 ++ "]"%char :: w5
                    ++ ["}"%char])).
    - replace (length w0 + 2) with (length (("["%char :: w0) ++ [dq]))
        by (rewrite length_app; cbn [length]; lia).
      apply firstn_skipn_middle.
    - same_text. }
  assert (Ef : firstn (start + length w0 + length t + length mid + 4
                       + length f
                       - (start + length w0 + length t + length mid + 4))
                 (skipn (start + length w0 + length t + length mid + 4) pvt)
               = f).
  { replace (start + length w0 + length t + length mid + 4 + length f
             - (start + length w0 + length t + length mid + 4))
      with (length f) by lia.
    replace (start + length w0 + length t + length mid + 4)
      with (length w0 + length t + length mid + 4 + start) by lia.
    rewrite <- skipn_skipn, Hwhole.
    replace (("["%char :: w0) ++ quoted t ++ mid ++ quoted f ++ w4
               ++ "]"%char :: w5 ++ ["}"%char])
      with ((("["%char :: w0) ++ quoted t ++ mid ++ [dq]) ++ f
              ++ (dq :: w4 ++ "]"%char :: w5 ++ ["}"%char])).
    - replace (length w0 + length t + length mid + 4)
        with (length (("["%char :: w0) ++ quoted t ++ mid ++ [dq]))
        by (unfold quoted; cbn [length app]; rewrite !length_app;
            cbn [length]; rewrite !length_app; cbn [length]; lia).
      apply firstn_skipn_middle.
    - same_text. }
  rewrite Et, Ef. intros [= <- <-].
  cbn [mc_true mc_false offsetFromTrueCase].
  exists start, w0, mid, (w4 ++ "]"%char :: w5 ++ ["}"%char]).
  split; [reflexivity|]. split; [exact Hn|]. split; [exact Hwhole|].
  rewrite Hwhole.
  destruct (indexOf_from_occurrence (quoted t)
              (mid ++ quoted f ++ w4 ++ "]"%char :: w5 ++ ["}"%char])
              ("["%char :: w0) 0) as (k & Hk & Hle).
  unfold indexOf. rewrite Hk.
  replace (("["%char :: w0) ++ quoted t ++ mid ++ quoted f ++ w4
             ++ "]"%char :: w5 ++ ["}"%char])
    with ((("["%char :: w0) ++ quoted t ++ mid) ++ quoted f
            ++ (w4 ++ "]"%char :: w5 ++ ["}"%char]))
    by same_text.
  destruct (lastIndexOf_from_occurrence (quoted f)
              (w4 ++ "]"%char :: w5 ++ ["}"%char])
              (("["%char :: w0) ++ quoted t ++ mid) 0 None)
    as (k' & Hk' & Hle').
  unfold lastIndexOf. rewrite Hk'.
  rewrite !length_app in Hle'. unfold quoted in Hle'.
  cbn [length] in Hle, Hle'. rewrite length_app in Hle'.
  cbn [length] in Hle'. lia.
Qed.

Lemma checkSuffix_length_returns pvt l tz :
  exists len,
    checkSuffix_length (suffix_mod_check (match_data pvt l tz)) = Ok len.
Proof.
  unfold match_data. cbn [suffix_mod_check].
  destruct (check_true_false pvt) as [[whole mc]|] eqn:E;
    cbn [option_map snd checkSuffix_length]; [|now exists 0].
  apply check_true_false_shape in E.
  destruct E as (start & w0 & mid & after & _ & _ & _ & Hoff).
  apply Z.ltb_ge in Hoff. rewrite Hoff. eexists. reflexivity.
Qed.

(** No step of the scan throws. *)
Lemma scan_step_returns ext shape re sc :
  scan_step ext shape re sc = None
  \/ exists sc', scan_step ext shape re sc = Some (Ok sc').
Proof.
  unfold scan_step.
  destruct (nth_error (sc_str sc) (sc_i sc)) as [c|]; [|now left].
  right. destruct (Ascii.eqb c "{"); [eexists; reflexivity|].
  destruct (Ascii.eqb c "}"); [|eexists; reflexivity].
  destruct (getMatches _ _ _ _ _) as [[data stack]|] eqn:Hm;
    [|eexists; reflexivity].
  destruct (getMatches_data _ _ _ _ _ _ _ Hm) as [tz Hdata].
  unfold on_match.
  destruct (checkSuffix_length_returns
              (slice (sc_str sc) (Z.of_nat (leftBracketIndex data))
                 (Z.of_nat (sc_i sc + 1)))
              (leftBracketIndex data) tz) as [len Hlen].
  rewrite <- Hdata in Hlen. rewrite Hlen. eexists. reflexivity.
Qed.

Lemma scan_returns ext shape re :
  forall fuel sc, exists sc', scan ext shape fuel re sc = Ok sc'.
Proof.
  induction fuel as [|fuel IH]; intros sc; cbn [scan]; [now exists sc|].
  destruct (scan_step_returns ext shape re sc) as [->|[sc1 ->]];
    [now exists sc|apply IH].
Qed.

(** ** Putting texts at the placeholders *)

Lemma put_inside A S C k text :
  length A <= k -> k < length A + length S ->
  put k text (A ++ S ++ C) = A ++ put (k - length A) text S ++ C.
Proof.
  intros Hl Hk. unfold put. change (length PLACEHOLDER) with 1.
  rewrite !firstn_app, !skipn_app.
  rewrite (firstn_all2 A) by lia. rewrite (skipn_all2 A) by lia.
  replace (k - length A - length S) with 0 by lia.
  replace (k + 1 - length A - length S) with 0 by lia.
  replace (k + 1 - length A) with (k - length A + 1) by lia.
  cbn [firstn skipn app]. rewrite app_nil_r, <- !app_assoc. reflexivity.
Qed.

Lemma put_at A C text :
  put (length A) text (A ++ PLACEHOLDER ++ C) = A ++ text ++ C.
Proof.
  unfold put. rewrite firstn_app, firstn_all, Nat.sub_diag.
  cbn [firstn]. rewrite app_nil_r.
  rewrite skipn_app, skipn_all2 by lia.
  replace (length A + length PLACEHOLDER - length A) with 1 by (cbn; lia).
  reflexivity.
Qed.

Lemma length_put k text s : k <= length s -> k <= length (put k text s).
Proof.
  intros H. unfold put. rewrite !length_app, length_firstn. lia.
Qed.

Lemma fill_app p1 : forall p2 s, fill (p1 ++ p2) s = fill p2 (fill p1 s).
Proof.
  induction p1 as [|[k text] p1 IH]; intros p2 s; [reflexivity|].
  cbn [app fill]. apply IH.
Qed.

Lemma fill_inside A C places :
  forall S,
    descending_below (length A + length S) (map fst places) = true ->
    Forall (fun place => length A <= fst place) places ->
    fill places (A ++ S ++ C)
    = A ++ fill (map (shift_place (length A)) places) S ++ C.
Proof.
  induction places as [|[k text] places IH]; intros S Hd Hall;
    [reflexivity|].
  cbn [map fst descending_below] in Hd.
  apply andb_true_iff in Hd. destruct Hd as [Hk Hd].
  apply Nat.ltb_lt in Hk.
  inversion Hall as [|? ? Hle Hall']; subst. cbn [fst] in Hle.
  cbn [map fill shift_place fst snd].
  rewrite put_inside by lia. apply IH; [|exact Hall'].
  apply (descending_below_weaken _ k); [|exact Hd].
  pose proof (length_put (k - length A) text S). lia.
Qed.

Lemma descending_shift n places :
  forall bound,
    descending_below (n + bound) (map fst places) = true ->
    Forall (fun place => n <= fst place) places ->
    descending_below bound (map fst (map (shift_place n) places)) = true.
Proof.
  induction places as [|[k text] places IH]; intros bound Hd Hall;
    [reflexivity|].
  cbn [map fst descending_below shift_place] in *.
  apply andb_true_iff in Hd. destruct Hd as [Hk Hd].
  apply Nat.ltb_lt in Hk.
  inversion Hall as [|? ? Hle Hall']; subst. cbn [fst] in Hle.
  apply andb_true_iff. split; [apply Nat.ltb_lt; lia|].
  apply IH; [|exact Hall'].
  now replace (n + (k - n)) with k by lia.
Qed.

(** A list in ascending order of its indices, none of which is [l], is
    the ones below [l] followed by the ones above. *)
Lemma sorted_split (l : nat) (gh : list (nat * jsstring)) :
  StronglySorted lt (map fst gh) ->
  Forall (fun place => fst place <> l) gh ->
  gh = filter (fun place => fst place <? l) gh
         ++ filter (fun place => l <? fst place) gh.
Proof.
  induction gh as [|[k text] gh IH]; intros Hs Hne; [reflexivity|].
  cbn [map fst] in Hs. apply StronglySorted_inv in Hs.
  destruct Hs as [Hs Hk].
  inversion Hne as [|? ? Hkl Hne']; subst. cbn [fst] in Hkl.
  cbn [filter fst].
  destruct (k <? l) eqn:E.
  - apply Nat.ltb_lt in E.
    replace (l <? k) with false by (symmetry; apply Nat.ltb_ge; lia).
    cbn [app]. f_equal. now apply IH.
  - apply Nat.ltb_ge in E.
    replace (l <? k) with true by (symmetry; apply Nat.ltb_lt; lia).
    assert (Hall : Forall (fun place => l < fst place) gh).
    { rewrite Forall_forall in *. intros p Hp.
      assert (k < fst p) by (apply Hk; now apply in_map). lia. }
    assert (H1 : filter (fun place => fst place <? l) gh = []).
    { clear -Hall. induction Hall as [|p gh Hp _ IH']; [reflexivity|].
      cbn [filter].
      replace (fst p <? l) with false by (symmetry; apply Nat.ltb_ge; lia).
      exact IH'. }
    assert (H2 : filter (fun place => l <? fst place) gh = gh).
    { clear -Hall. induction Hall as [|p gh Hp _ IH']; [reflexivity|].
      cbn [filter].
      replace (l <? fst p) with true by (symmetry; apply Nat.ltb_lt; lia).
      now rewrite IH'. }
    rewrite H1, H2. reflexivity.
Qed.

Lemma map_filter_agree {A B} (P : nat -> bool) (f : A -> nat) (g : B -> nat)
  (p : A -> bool) (q : B -> bool) :
  (forall x, p x = P (f x)) ->
  forall l1 l2,
    map f l1 = map g l2 ->
    Forall (fun y => q y = P (g y)) l2 ->
    map f (filter p l1) = map g (filter q l2).
Proof.
  intros Hp. induction l1 as [|x l1 IH]; intros [|y l2] Hmap Hq;
    try discriminate; [reflexivity|].
  cbn [map] in Hmap. injection Hmap as Hxy Hmap.
  inversion Hq as [|? ? Hy Hq']; subst.
  cbn [filter]. rewrite Hp, Hy, Hxy.
  destruct (P (g y)); cbn [map]; [f_equal; [exact Hxy|]|]; now apply IH.
Qed.

(** ** What the compiled functions are run for *)

Lemma firstn_min {A} (s : list A) k :
  firstn (Nat.min (length s) k) s = firstn k s.
Proof.
  destruct (Nat.le_ge_cases k (length s)) as [H|H].
  - now replace (Nat.min (length s) k) with k by lia.
  - replace (Nat.min (length s) k) with (length s) by lia.
    now rewrite firstn_all, firstn_all2.
Qed.

Lemma skipn_min {A} (s : list A) k :
  skipn (Nat.min (length s) k) s = skipn k s.
Proof.
  destruct (Nat.le_ge_cases k (length s)) as [H|H].
  - now replace (Nat.min (length s) k) with k by lia.
  - replace (Nat.min (length s) k) with (length s) by lia.
    now rewrite skipn_all, skipn_all2.
Qed.

Lemma render_step_put s k text :
  slice s 0 (Z.of_nat k) ++ text
    ++ slice_from s (Z.of_nat (k + length PLACEHOLDER))
  = put k text s.
Proof.
  unfold put, slice, slice_from. change 0%Z with (Z.of_nat 0).
  rewrite !clamp_index_nat.
  replace (Nat.min (length s) 0) with 0 by lia.
  rewrite Nat.sub_0_r. cbn [skipn]. now rewrite firstn_min, skipn_min.
Qed.

(** The function that [compileTemplateHelper] returns runs the compiled
    functions, in the order of the list, and puts their texts at their
    indices. *)
Lemma render_all_fill parseValue fns :
  forall s o st,
    render_all fns s parseValue o st
    = (texts <- mapM (text_of parseValue) fns ;;
       ret (fill (combine (map insertedIndex fns) texts) s)) o st.
Proof.
  induction fns as [|fn rest IH]; intros s o st; [reflexivity|].
  cbn [render_all mapM map]. unfold text_of at 1. rewrite !bind_run.
  destruct (resultFn fn parseValue o st) as [[r|e] st1]; [|reflexivity].
  rewrite !bind_run.
  destruct (resolved_text r o st1) as [[text|e] st2]; [|reflexivity].
  rewrite render_step_put, IH, !bind_run.
  destruct (mapM (text_of parseValue) rest o st2) as [[texts|e] st3];
    reflexivity.
Qed.

(** ** The scan accounts for the template *)

(** When a span is taken for an expression, the compiled functions that
    are put inside the new one are the ones to the right of its opening
    bracket. *)
Lemma nested_is_right shape re sc data stack len :
  RegexBuilder.buildRegexExpression shape = Ok re ->
  in_place sc ->
  nth_error (sc_str sc) (sc_i sc) = Some "}"%char ->
  getMatches re (sc_str sc) (sc_i sc) [] (rev (leftBracketIndices sc))
  = Some (data, stack) ->
  checkSuffix_length (suffix_mod_check data) = Ok len ->
  leftBracketIndex data < sc_i sc
  /\ recognized re (span (sc_str sc) (leftBracketIndex data) (sc_i sc)) = true
  /\ Forall (fun fn =>
               insertedIndex fn <> leftBracketIndex data
               /\ is_nested data
                    (length (js "{")
                     + length (variableTemplateWhitespace data)
                     + len + length (js "}")) fn
                  = (leftBracketIndex data <? insertedIndex fn))
       (compiledVariableTemplateFns sc).
Proof.
  intros Hre (Hi & Hsorted & Hall) Hc Hm Hlen.
  assert (Hlt : sc_i sc < length (sc_str sc))
    by (apply nth_error_Some; congruence).
  destruct (getMatches_data _ _ _ _ _ _ _ Hm) as [tz Hdata].
  apply getMatches_some in Hm. destruct Hm as [_ Hrec].
  pose proof (recognized_span_left shape re _ _ _ Hre Hc Hrec) as Hl.
  pose proof (recognized_not_placeholder shape re _ _ _ Hre
                (Nat.lt_le_incl _ _ Hl) Hlt Hrec) as Hnot.
  split; [exact Hl|]. split; [exact Hrec|].
  rewrite Forall_forall in *. intros fn Hin.
  destruct (Hall fn Hin) as [Hk Hx].
  assert (Hne : insertedIndex fn <> leftBracketIndex data).
  { intros E. rewrite E in Hx. contradiction. }
  split; [exact Hne|].
  unfold is_nested.
  destruct (leftBracketIndex data <? insertedIndex fn) eqn:E;
    [|reflexivity].
  cbn [andb]. apply Nat.ltb_lt in E.
  destruct (insertedIndex fn <? _) eqn:E2; [reflexivity|].
  apply Nat.ltb_ge in E2. exfalso.
  rewrite Hdata in Hlen, E2.
  destruct (span_reaches (sc_str sc) (leftBracketIndex data) (sc_i sc)
              tz len Hl Hlt Hlen (insertedIndex fn) E2 Hk)
    as (c & Hc' & Hcases).
  rewrite Hx in Hc'. injection Hc' as <-.
  destruct Hcases as [Hs|Hs]; discriminate Hs.
Qed.

Lemma span_split w l i :
  l <= i -> i < length w ->
  w = firstn l w ++ span w l i ++ skipn (i + 1) w
  /\ length (firstn l w) = l
  /\ length (span w l i) = i + 1 - l.
Proof.
  intros Hl Hi. unfold span, slice. rewrite !clamp_index_nat.
  replace (Nat.min (length w) l) with l by lia.
  replace (Nat.min (length w) (i + 1)) with (i + 1) by lia.
  split; [|split].
  - rewrite <- (firstn_skipn l w) at 1. f_equal.
    rewrite <- (firstn_skipn (i + 1 - l) (skipn l w)) at 1. f_equal.
    rewrite skipn_skipn. f_equal. lia.
  - rewrite length_firstn. lia.
  - rewrite length_firstn, length_skipn. lia.
Qed.

Lemma explains_step ext shape re t0 sc sc' gh :
  RegexBuilder.buildRegexExpression shape = Ok re ->
  explains re t0 sc gh ->
  scan_step ext shape re sc = Some (Ok sc') ->
  exists gh', explains re t0 sc' gh'.
Proof.
  intros Hre Hex Hstep.
  pose proof Hex as (Hin & Hmap & Ht & Hexpr).
  pose proof (scan_step_in_place ext shape re sc sc' Hre Hin Hstep) as Hin'.
  unfold scan_step in Hstep.
  destruct (nth_error (sc_str sc) (sc_i sc)) as [c|] eqn:Hc; [|discriminate].
  assert (Hlt : sc_i sc < length (sc_str sc))
    by (apply nth_error_Some; congruence).
  assert (Hsame : forall sc1,
            in_place sc1 -> sc_str sc1 = sc_str sc ->
            compiledVariableTemplateFns sc1 = compiledVariableTemplateFns sc ->
            exists gh', explains re t0 sc1 gh').
  { intros sc1 H1 H2 H3. exists gh. unfold explains.
    rewrite H2, H3. auto. }
  destruct (Ascii.eqb c "{");
    [injection Hstep as <-; now apply Hsame|].
  destruct (Ascii.eqb c "}") eqn:Hclose;
    [|injection Hstep as <-; now apply Hsame].
  apply Ascii.eqb_eq in Hclose. subst c.
  destruct (getMatches _ _ _ _ _) as [[data stack]|] eqn:Hm;
    [|injection Hstep as <-; now apply Hsame].
  clear Hsame.
  unfold on_match in Hstep.
  destruct (checkSuffix_length (suffix_mod_check data)) as [len|e] eqn:Hlen;
    [|discriminate].
  destruct (nested_is_right shape re sc data stack len Hre Hin Hc Hm Hlen)
    as (Hl & Hrec & Hnested).
  set (l := leftBracketIndex data) in *.
  set (i := sc_i sc) in *.
  set (w := sc_str sc) in *.
  destruct (span_split w l i (Nat.lt_le_incl _ _ Hl) Hlt)
    as (Hw & HlenA & HlenS).
  destruct Hin as (_ & Hsorted & Hall).
  (* what is known of the indices *)
  assert (Hidx : Forall (fun place =>
                           fst place <> l /\ fst place < i
                           /\ nth_error w (fst place) = Some "X"%char) gh).
  { assert (H : Forall (fun k => k <> l /\ k < i
                                 /\ nth_error w k = Some "X"%char)
                  (map fst gh)).
    { rewrite Hmap. rewrite Forall_forall in *. intros k Hk.
      apply in_map_iff in Hk. destruct Hk as (fn & <- & Hfn).
      destruct (Hall fn Hfn). destruct (Hnested fn Hfn). auto. }
    rewrite Forall_forall in *. intros p Hp. apply H. now apply in_map. }
  assert (Hsplit : gh = filter (fun place => fst place <? l) gh
                          ++ filter (fun place => l <? fst place) gh).
  { apply sorted_split; [now rewrite Hmap|].
    eapply Forall_impl; [|exact Hidx]. cbn. tauto. }
  set (kept := filter (fun place => fst place <? l) gh) in *.
  set (inner := filter (fun place => l <? fst place) gh) in *.
  assert (Hinner : Forall (fun place =>
                             l < fst place /\ fst place < i
                             /\ nth_error w (fst place) = Some "X"%char
                             /\ expression re (snd place)) inner).
  { rewrite Forall_forall in *. intros p Hp. unfold inner in Hp.
    apply filter_In in Hp. destruct Hp as [Hp Hlp].
    apply Nat.ltb_lt in Hlp. destruct (Hidx p Hp) as (_ & H2 & H3).
    repeat split; auto. }
  assert (Hdesc : descending_below (l + length (span w l i))
                    (map fst (rev inner)) = true).
  { rewrite map_rev. apply sorted_descending.
    - unfold inner. apply sorted_map_filter. now rewrite Hmap.
    - rewrite Forall_forall in *. intros k Hk.
      apply in_map_iff in Hk. destruct Hk as (p & <- & Hp).
      destruct (Hinner p Hp) as (_ & H2 & _). lia. }
  assert (Hge : Forall (fun place => l <= fst place) (rev inner)).
  { apply Forall_rev. eapply Forall_impl; [|exact Hinner]. cbn.
    intros p (H1 & _). lia. }
  set (source := fill (map (shift_place l) (rev inner)) (span w l i)).
  exists (kept ++ [(l, source)]).
  injection Hstep as <-.
  unfold explains. split; [exact Hin'|].
  cbn [sc_str compiledVariableTemplateFns]. split; [|split].
  - rewrite !map_app. cbn [map fst insertedIndex]. f_equal.
    apply (map_filter_agree (fun k => k <? l)); [reflexivity|exact Hmap|].
    eapply Forall_impl; [|exact Hnested]. intros fn [Hne Hn].
    cbv beta.
    match goal with
    | |- negb (is_nested data ?s fn) = _ =>
        change s with (length (js "{")
                       + length (variableTemplateWhitespace data)
                       + len + length (js "}"))
    end.
    rewrite Hn.
    destruct (Nat.lt_trichotomy (insertedIndex fn) l)
      as [H|[H|H]]; [| contradiction |].
    + replace (l <? insertedIndex fn) with false
        by (symmetry; apply Nat.ltb_ge; lia).
      symmetry. apply Nat.ltb_lt. exact H.
    + replace (l <? insertedIndex fn) with true
        by (symmetry; apply Nat.ltb_lt; lia).
      symmetry. apply Nat.ltb_ge. lia.
  - rewrite Ht, Hsplit, !rev_app_distr, !fill_app. cbn [rev app fill].
    f_equal.
    pose proof (fill_inside (firstn l w) (skipn (i + 1) w) (rev inner)
                  (span w l i)) as Hfi.
    rewrite HlenA in Hfi. specialize (Hfi Hdesc Hge). fold source in Hfi.
    rewrite <- Hw in Hfi. rewrite Hfi.
    pose proof (put_at (firstn l w) (skipn (i + 1) w) source) as Hput.
    rewrite HlenA in Hput. rewrite <- Hput. f_equal.
    change 0%Z with (Z.of_nat 0). unfold slice, slice_from.
    rewrite !clamp_index_nat.
    replace (Nat.min (length w) 0) with 0 by lia.
    replace (Nat.min (length w) l) with l by lia.
    replace (Nat.min (length w) (i + 1)) with (i + 1) by lia.
    rewrite Nat.sub_0_r. reflexivity.
  - apply Forall_app. split.
    + unfold kept. rewrite Forall_forall in *. intros p Hp.
      apply filter_In in Hp. now apply Hexpr.
    + constructor; [|constructor]. cbn [snd]. unfold source.
      apply expression_of.
      * exact Hrec.
      * apply descending_shift; assumption.
      * rewrite Forall_forall in *. intros p Hp.
        apply in_map_iff in Hp. destruct Hp as (q & <- & Hq).
        apply in_rev in Hq. destruct (Hinner q Hq) as (H1 & H2 & H3 & _).
        cbn [shift_place fst]. unfold span.
        rewrite nth_error_slice by lia. exact H3.
      * rewrite Forall_forall in *. intros p Hp.
        apply in_map_iff in Hp. destruct Hp as (q & <- & Hq).
        apply in_rev in Hq. destruct (Hinner q Hq) as (_ & _ & _ & H4).
        exact H4.
Qed.

Lemma explains_scan ext shape re t0 :
  RegexBuilder.buildRegexExpression shape = Ok re ->
  forall fuel sc gh,
    explains re t0 sc gh ->
    exists sc' gh',
      scan ext shape fuel re sc = Ok sc' /\ explains re t0 sc' gh'.
Proof.
  intros Hre. induction fuel as [|fuel IH]; intros sc gh Hex; cbn [scan].
  - now exists sc, gh.
  - destruct (scan_step_returns ext shape re sc) as [E|[sc1 E]]; rewrite E.
    + now exists sc, gh.
    + destruct (explains_step ext shape re t0 sc sc1 gh Hre Hex E)
        as [gh1 Hex1].
      now apply (IH sc1 gh1).
Qed.

Lemma explains_compile_scan ext shape re t0 :
  RegexBuilder.buildRegexExpression shape = Ok re ->
  exists sc gh,
    compile_scan ext shape t0 = Ok sc /\ explains re t0 sc gh.
Proof.
  intros Hre. unfold compile_scan. rewrite Hre.
  apply (explains_scan ext shape re t0 Hre _ _ []).
  unfold explains, in_place, initial_scan. cbn.
  repeat split; try constructor. lia.
Qed.

(** C3, amended.  Whatever the template, compilation does not abort, and
    its scan accounts for every character: the template (in which
    [compileTemplate] has first put the texts of the two debug keys) is the
    final working string with, at the index of each compiled function, an
    expression in place of the placeholder, an expression being a span
    that the grammar recognizes once its white space is removed and the
    expressions found inside it are replaced by placeholders; and the
    rendering is the post-processing of the same working string with, at
    the same indices, the texts that the compiled functions yield.  So a
    brace or a span in braces that is not part of a span taken for an
    expression reaches the post-processing as it is, in its place,
    whatever the other expressions are. *)
Theorem C3_text_outside_expressions_is_kept :
  forall ext shape re template,
    RegexBuilder.buildRegexExpression shape = Ok re ->
    exists sc places,
      compile_scan ext shape (replace_debug_keys template) = Ok sc
      /\ map fst places
         = map insertedIndex (rev (compiledVariableTemplateFns sc))
      /\ descending_below (length (sc_str sc)) (map fst places) = true
      /\ Forall (fun place =>
                   nth_error (sc_str sc) (fst place) = Some "X"%char
                   /\ expression re (snd place))
           places
      /\ replace_debug_keys template = fill places (sc_str sc)
      /\ forall parseValue o st,
           run (render ext shape template parseValue) o st
           = run (texts <- mapM (text_of parseValue)
                             (rev (compiledVariableTemplateFns sc)) ;;
                  ret (postprocess
                         (fill (combine (map fst places) texts)
                            (sc_str sc)))) o st.
Proof.
  intros ext shape re template Hre.
  destruct (explains_compile_scan ext shape re
              (replace_debug_keys template) Hre)
    as (sc & gh & Hc & Hin & Hmap & Ht & Hexpr).
  assert (Hfst : map fst (rev gh)
                 = map insertedIndex (rev (compiledVariableTemplateFns sc)))
    by (now rewrite !map_rev, Hmap).
  exists sc, (rev gh).
  split; [exact Hc|]. split; [exact Hfst|]. split; [|split; [|split]].
  - rewrite Hfst. apply (in_place_well_placed sc Hin).
  - apply Forall_rev. destruct Hin as (_ & _ & Hall).
    assert (H : Forall (fun k => nth_error (sc_str sc) k = Some "X"%char)
                  (map fst gh)).
    { rewrite Hmap. rewrite Forall_forall in *. intros k Hk.
      apply in_map_iff in Hk. destruct Hk as (fn & <- & Hfn).
      now destruct (Hall fn Hfn). }
    rewrite Forall_forall in *. intros p Hp.
    split; [apply H; now apply in_map|now apply Hexpr].
  - exact Ht.
  - intros parseValue o st. unfold run.
    rewrite render_unfold, bind_run.
    unfold render_helper, compileTemplateHelper.
    destruct (replace_debug_keys template) as [|c t] eqn:Et.
    + unfold compile_scan in Hc. rewrite Hre in Hc. cbn in Hc.
      injection Hc as <-. cbn in Hmap.
      destruct gh; [reflexivity|discriminate].
    + rewrite Hc, render_all_fill, Hfst, !bind_run.
      destruct (mapM _ _ o st) as [[texts|e] st1]; reflexivity.
Qed.

Lemma C3_text_outside_expressions_is_kept_witness :
  exists sc places,
    compile_scan sample_externals shape0
      (replace_debug_keys
         (js "} {stream.nope} {stream.title::={stream.size}} {x"))
    = Ok sc
    /\ map fst places
       = map insertedIndex (rev (compiledVariableTemplateFns sc))
    /\ descending_below (length (sc_str sc)) (map fst places) = true
    /\ Forall (fun place =>
                 nth_error (sc_str sc) (fst place) = Some "X"%char
                 /\ expression grammar0 (snd place))
         places
    /\ replace_debug_keys
         (js "} {stream.nope} {stream.title::={stream.size}} {x")
       = fill places (sc_str sc)
    /\ forall parseValue o st,
         run (render sample_externals shape0
                (js "} {stream.nope} {stream.title::={stream.size}} {x")
                parseValue) o st
         = run (texts <- mapM (text_of parseValue)
                           (rev (compiledVariableTemplateFns sc)) ;;
                ret (postprocess
                       (fill (combine (map fst places) texts)
                          (sc_str sc)))) o st.
Proof.
  apply (C3_text_outside_expressions_is_kept sample_externals shape0
           grammar0
           (js "} {stream.nope} {stream.title::={stream.size}} {x")).
  exact grammar0_built.
Defined.

(** The working string that the scan leaves for that template: the one
    span taken for an expression is the outer one, the unknown field
    before it is text. *)
Lemma working_string_example :
  match compile_scan sample_externals shape0
          (js "} {stream.nope} {stream.title::={stream.size}} {x") with
  | Ok sc =>
      sc_str sc = js "} {stream.nope} X {x"
      /\ map insertedIndex (compiledVariableTemplateFns sc) = [16]
  | Throw _ => False
  end.
Proof. vm_compute. split; reflexivity. Qed.

(** The post-processing has keys of its own: a span in braces that is
    not an expression, and is a line feed in the output. *)
Lemma newline_key_example :
  run (render sample_externals shape0 (js "a{tools-newline}b")
         (namespace_of sample_stream)) (fun n => n) sample_state
  = (Ok (js "a" ++ ["010"%char] ++ js "b"), sample_state).
Proof. vm_compute. reflexivity. Qed.

(** ** The suffix of an expression, as the pattern of the check reads it *)












(** ** The scan of a template that is one expression with a suffix *)









(** ** The debug keys are not in such a template *)








(** On a boolean the cast of [formatters/base.ts] does take the branch
    text (here the branch texts parse to nothing, so they stand for
    themselves). *)
Lemma legacy_cast_example :
  fst (Legacy.replacement_text unit sample_legacy_helper (String_of [])
         (Result (VBool false)) (Some (jsq "`Y`||`N`")) (Some (js "Y"))
         (Some (js "N")) [] ([], tt))
  = Ok (Some (js "N")).
Proof. reflexivity. Qed.

(** An error of the reduction is what the cast of [formatters/base.ts]
    leaves in place of the expression, with or without a suffix. *)
Lemma legacy_cast_keeps_the_error :
  forall World helper toString e mod_check T F value w,
    Legacy.replacement_text World helper toString (Error e) mod_check T F
      value w
    = (Ok (Some e), w).
Proof. reflexivity. Qed.

(** Unknown names next to an expression: a brace without its pair, an
    unknown field, an unknown section and an unknown modifier stay as
    they are, and the expression after them is evaluated. *)
Lemma unknown_names_example :
  forall ext o st,
    run (render ext shape0
           (js "a } {stream.doesnotexist} { {bogus.size} {stream.size::nope} {stream.title}")
           (namespace_of sample_stream)) o st
    = (Ok (js "a } {stream.doesnotexist} { {bogus.size} {stream.size::nope} open arms"),
       st).
Proof. intros. vm_compute. reflexivity. Qed.
